(* ===== verification/_CoqProject ===== *)
-Q . S2P
Prelude.v
GoErrors.v
GoStrings.v
GoTime.v
GoSha256.v
GoFlag.v
Base64.v
GoIP.v
GoMime.v
GoQuoted.v
GoMail.v
Envelope.v
Online.v
Inbox.v
Json.v
Transport.v
Pipe.v
Config.v
ImapClient.v
Worker.v
Session.v
Delivery.v
SessionRefine.v
Main.v
Lifetime.v
System.v
Shutdown.v
