(* ===== verification/Prelude.v ===== *)
(** * rns-over-email: a verification development

    The program (src/, Go) carries the packets of a Reticulum pipe interface over
    e-mail between two peers.  Outbound, the pipe calls [HandlePacket], which wraps
    the packet in a MIME envelope and sends it by SMTP; inbound, an IMAP worker
    fetches the messages above a checkpoint, decodes the envelopes and injects the
    packets.  An aggregator combines the health of both directions into one
    online signal, a JSON file keeps the checkpoint.

    ** Files, in dependency order

    - Prelude: bytes, machine integers, list lemmas, [Has], the view of a
      component's state inside a larger world, and transition systems given by
      their actions, with [inevitable] for termination under every schedule.
    - GoErrors: error values, [errors.Is]/[errors.As], the result type and [let?],
      the early return.
    - GoStrings, GoTime, GoSha256, GoFlag, Base64, GoIP, GoMime, GoQuoted, GoMail:
      the parts of Go's standard library the program uses: UTF-8 and runes,
      [strings], [strconv]; [time.ParseDuration] and [Duration.String]; SHA-256;
      the flag package; base64; [net.ParseIP]; net/mail header reading and
      mime.ParseMediaType; the quoted-printable reader; [mail.ParseAddress].
    - Envelope (src/internal/envelope/envelope.go): [Encode], [Decode] and helpers.
    - Online (src/internal/online/aggregator.go): [Aggregator].
    - Inbox (src/internal/inbox/repo.go): [JSONRepo] over a file system with a
      script of faults; the interface [Repository] and its contract
      [RepositorySpec].
    - Json: encoding/json on the checkpoint record, printing and full parsing; it
      discharges the law [CheckpointCodecOk] that Inbox assumes.
    - Transport (src/internal/transport/timeoutconn.go, dial.go, smtp.go, sender.go):
      [TimeoutConn] (Module Deadline), [DialTCP], [SMTPSender], the interface
      [Sender] and its contract [SenderSpec].
    - Pipe (src/internal/pipe/handler.go, inject.go): the handler against
      [SenderSpec], [InjectWithRetry], and Module Recovery, the goroutines around
      the [recovering] flag as a small-step system.
    - Config (src/internal/config/config.go): [Load] and everything it calls.
    - ImapClient (src/internal/imap/client.go): [realClient] over the commands
      issued to go-imap, the interface [Client] and its contract [ClientSpec].
    - Worker (src/internal/imap/worker.go): [fetchAndProcess], the session loops and
      [Run] against [ClientSpec] and [RepositorySpec].
    - Session (worker.go again): the goroutines of one session, their channels and
      the context, interleaved.
    - Delivery: the class [MailServer] of honest mail servers and the invariant
      that what the checkpoint on disk covers was delivered, over all sessions.
    - SessionRefine: the goroutines of Session on the world of Worker, and the
      simulation that relates them to the sequential session.
    - Main (src/cmd/rns-over-email/main.go): the wiring on one [World], with the
      instances that discharge every contract on it.
    - Lifetime: runs of the process one after the other, each from the disk the
      one before left.
    - System: the actions of the goroutines on that world, one at a time, and what
      holds under every interleaving of them.
    - Shutdown (main.go): [run]'s two goroutines, [errCh], the signal context and
      the wait at the end.

    ** How the code is modelled

    A component's operations are functions from its state to its state and a
    result; the components that call others are generic in a world [W] and use the
    interfaces as type classes, so their theorems hold for every implementation
    that satisfies the contract, and Main instantiates them all at once.  Calls to
    code outside the repository (go-smtp, go-imap, package net, the disk, the
    rnspipe interface) take their outcomes from scripts, arbitrary lists of results
    over which the theorems quantify, and are logged.  The branch a [select] takes,
    and whether a timer or the context came first, is an input as well: a theorem
    for all such inputs holds for all schedules.  The context's cancellation is a
    function of the world where a callback reads it, and an input where the session
    loops do.  The mutexes of the aggregator and the repository span
    whole methods, so concurrent calls are sequences of calls; the flag of the pipe
    handler is not protected that way, and Module Recovery interleaves its users
    step by step.

    Integers are Z: UIDs and UIDVALIDITY wrap at 32 bits ([wrap32]), durations and
    deadlines at 64 ([wrap64]).  Strings are lists of bytes; rune functions decode
    UTF-8 as Go does.  Parameters, never defined here: the Unicode case table, the
    environment and the files it names (class [OS] of Config).  The components use
    [mail.ParseAddress] and the quoted-printable reader through the class
    [MailParsers], so their theorems hold for every parser with the laws of
    [MailParsersOk] (the empty string is no address and the bytes of an address come
    from its text); GoMail defines the library's parser and proves the laws, and the
    samples run with it.

    ** What is shown

    - Envelope: decode after encode is the identity, whatever header fields relays
      add in front, for every packet up to [MaxPacketSize], which is the exact bound; [Decode] implements a relational
      specification; a message is "not ours" exactly when it has no marker, which for a
      broken message is a line of its header text.
    - Pipe and Transport: a packet is committed at most once and the outcome the
      handler acts on is the true one; retry budget; no connection leaks; when
      recovery starts, that it ends, its backoff; at most one recovery at a time,
      never stuck offline while the recovery is enabled (and stuck in some run when
      it is not), and the one window in which a failure report is dropped.
    - Inbox and Json: atomic replacement under faults and crashes; a checkpoint
      written is read back, and only grows.
    - ImapClient: which messages the handler sees; the literal cut changes no
      classification while the header stays within its budget, and above it a
      truncated packet can pass; removals are scoped and gated by capabilities; timeouts.
    - Worker: the checkpoint covers no message that was not dealt with, and reaches
      every handled one that no failure holds back; what a failed fetch may change
      (nothing); cleanup removes delivered messages only, over a
      whole run fetch by fetch;
      session invariants; online reports; reconnect backoff; and the out-of-order
      delivery that does leave a gap.
    - Session: IDLE and the other commands exclude each other, no notification is
      lost, a cancelled session ends and leaves no goroutine behind.
    - SessionRefine: every interleaving of a session ends in the world and with the
      error of the sequential session for some schedule, so Worker may run [Idle]
      and the fetch after it one after the other; and at every moment on the way the
      checkpoint covers no message that was not dealt with.
    - Config: precedence of the sources, what [Validate] guarantees, the types of
      what is loaded, failing closed, durations as text and back, the checkpoint
      path, and the delays that overflow.
    - Main: a packet handed to one node's pipe is injected unchanged at the other;
      dot-atom addresses need no hypothesis there, a quoted local part does not
      survive [Normalize].
    - Lifetime: at-least-once delivery across restarts and crashes.
    - System: under every interleaving the interface is told exactly the changes of
      the conjunction of the two healths.
    - Shutdown: [run] returns the first result, no send blocks, and it returns
      under every schedule once one goroutine is back.

    ** Bounds

    Recursion is structural or over an input script, with a few exceptions that
    carry fuel: the wrapping loop of [Encode] (one round per character is enough,
    shown with the round trip), the header loops of [read_message] and the media
    parameter loop (one round per byte: [read_header_loop_fuel],
    [continuation_fuel], [media_params_fuel] in GoMime), the loop of
    [ParseDuration] (one round per byte: [duration_loop_fuel] in GoTime), the loops
    over comments, phrases and groups of an address and over quoted-printable text
    (one round per byte: [cfws_loop_fuel], [phrase_loop_fuel], [group_loop_fuel] in
    GoMail, [qp_loop_fuel] in GoQuoted), the groups of an IPv6 address
    ([ipv6_groups_fuel] in GoIP), and the JSON parser (two levels per byte: [unmarshal_fuel] in Json).  [itoa] prints at most 20 digits,
    enough for 64 bits.

    ** Not modelled

    Logging (log calls are dropped; [HandlePacket] returns what its log reports),
    TLS configurations, SASL exchanges and the IMAP and SMTP wire formats (library
    code), the version string.  In Worker the goroutine that closes the IMAP
    client on cancellation shows up as errors in the client's script; Session has
    the goroutine itself. *)
From Stdlib Require Export ZArith Lia.
From Stdlib Require Import Strings.Byte Strings.String.
From stdpp Require Export base sorting strings option gmap.
From stdpp Require Export list.

#[global] Open Scope Z_scope.

(** ** Go strings and byte slices *)

(** A Go [string] and a Go [[]byte] are both finite sequences of bytes. *)
Definition bytes : Type := list Byte.byte.

(** [str "abc"] is the Go string literal. *)
Definition str (s : string) : bytes := list_byte_of_string s.

#[global] Instance byte_eq_dec : EqDecision Byte.byte.
Proof. intros x y. apply Byte.byte_eq_dec. Defined.

#[global] Instance bytes_eq_dec : EqDecision bytes.
Proof. unfold bytes. apply _. Defined.

#[global] Instance byte_countable : Countable Byte.byte.
Proof.
  refine (inj_countable Byte.to_N Byte.of_N _).
  intros x. apply Byte.of_to_N.
Defined.

#[global] Instance bytes_countable : Countable bytes.
Proof. unfold bytes. apply _. Defined.

(** The numeric value of a byte. *)
Definition bval (c : Byte.byte) : Z := Z.of_N (Byte.to_N c).

(** The byte of a number, modulo 256. *)
Definition byte_of (z : Z) : Byte.byte :=
  default Byte.x00 (Byte.of_N (Z.to_N (z mod 256))).

(** Go's [len]. *)
Definition len {A} (l : list A) : Z := Z.of_nat (length l).

(** ** Machine integers *)

Definition wrap32 (z : Z) : Z := z mod 2 ^ 32.
Definition wrap64 (z : Z) : Z := (z + 2 ^ 63) mod 2 ^ 64 - 2 ^ 63.
Definition wrapu64 (z : Z) : Z := z mod 2 ^ 64.
Definition is_u32 (z : Z) : Prop := 0 <= z < 2 ^ 32.
Definition is_i64 (z : Z) : Prop := - 2 ^ 63 <= z < 2 ^ 63.

(** Arithmetic with [/] and [mod] by constants. *)
Ltac zdiv := Z.to_euclidean_division_equations; lia.

Lemma bval_range c : 0 <= bval c < 256.
Proof.
  unfold bval. pose proof (Byte.to_N_bounded c). lia.
Qed.

Lemma byte_of_bval c : byte_of (bval c) = c.
Proof.
  unfold byte_of. pose proof (bval_range c). rewrite Z.mod_small by lia.
  unfold bval. rewrite N2Z.id, Byte.of_to_N. done.
Qed.

Lemma bval_byte_of z : bval (byte_of z) = z mod 256.
Proof.
  unfold byte_of. pose proof (Z.mod_pos_bound z 256 ltac:(lia)).
  destruct (Byte.of_N (Z.to_N (z mod 256))) as [c|] eqn:E.
  - simpl. apply Byte.to_of_N in E. unfold bval. rewrite E. lia.
  - apply Byte.of_N_None_iff in E. lia.
Qed.

Lemma bval_byte_of_id z : 0 <= z < 256 -> bval (byte_of z) = z.
Proof. intros. rewrite bval_byte_of, Z.mod_small; lia. Qed.

Lemma bval_inj a c : bval a = bval c -> a = c.
Proof. intros E. rewrite <- (byte_of_bval a), <- (byte_of_bval c). congruence. Qed.

Lemma wrap64_id z : is_i64 z -> wrap64 z = z.
Proof. unfold is_i64, wrap64. intros. rewrite Z.mod_small; lia. Qed.

Lemma wrap64_range z : is_i64 (wrap64 z).
Proof.
  unfold is_i64, wrap64. pose proof (Z.mod_pos_bound (z + 2 ^ 63) (2 ^ 64) ltac:(lia)). lia.
Qed.

Lemma wrap32_id z : is_u32 z -> wrap32 z = z.
Proof. unfold is_u32, wrap32. intros. rewrite Z.mod_small; lia. Qed.

(** ** Lists *)

Lemma forallb_take {A} (p : A -> bool) n l : forallb p l = true -> forallb p (take n l) = true.
Proof. rewrite <- (take_drop n l) at 1. rewrite forallb_app. by intros [? _]%andb_true_iff. Qed.

Lemma forallb_drop {A} (p : A -> bool) n l : forallb p l = true -> forallb p (drop n l) = true.
Proof. rewrite <- (take_drop n l) at 1. rewrite forallb_app. by intros [_ ?]%andb_true_iff. Qed.

Lemma forallb_mono {A} (p q : A -> bool) l :
  (forall a, p a = true -> q a = true) -> forallb p l = true -> forallb q l = true.
Proof. intros Hpq. rewrite !List.forallb_forall. auto. Qed.

Lemma filter_all {A} (p : A -> bool) l : forallb p l = true -> List.filter p l = l.
Proof.
  induction l as [|a l IH]; simpl; [done|]. intros [-> H]%andb_true_iff. by rewrite IH.
Qed.

(** [Forall] on an explicit list, as a conjunction that computes. *)
Lemma Forall_foldr {A} (P : A -> Prop) l : Forall P l <-> foldr (fun a Q => P a /\ Q) True l.
Proof.
  induction l as [|a l IH]; simpl; [split; [done | constructor]|]. by rewrite Forall_cons, IH.
Qed.

Lemma len_nonneg {A} (l : list A) : 0 <= len l.
Proof. unfold len. lia. Qed.

Lemma len_nil_iff {A} (l : list A) : len l = 0 <-> l = [].
Proof. unfold len. split; [destruct l; simpl; [done | lia] | by intros ->]. Qed.

Lemma StronglySorted_NoDup_lt (l : list Z) : StronglySorted Z.lt l -> NoDup l.
Proof.
  induction 1 as [|x l Hs IH Hx]; [constructor|]. apply NoDup_cons. split; [|done].
  intros Hin. rewrite Forall_forall in Hx. specialize (Hx x Hin). lia.
Qed.

Lemma mjoin_cons (l : bytes) (ls : list bytes) : mjoin (l :: ls) = l ++ mjoin ls.
Proof. done. Qed.

(** ** Parts of a world

    [Has W A]: the world [W] has a component [A].  A component's operations act
    on its own state; [Has] lets them act on the world of the whole program. *)
Class Has (W A : Type) := {
  get : W -> A;
  put : A -> W -> W;
  get_put a w : get (put a w) = a;
  put_put a b w : put a (put b w) = put a w;
  put_get w : put (get w) w = w;
}.

#[export] Instance has_self A : Has A A :=
  {| get a := a; put a _ := a; get_put _ _ := eq_refl; put_put _ _ _ := eq_refl;
     put_get _ := eq_refl |}.

(** Run an operation of the component in the world. *)
Definition on {W A B} `{Has W A} (f : A -> A * B) (w : W) : W * B :=
  let r := f (get w) in (put r.1 w, r.2).

#[export] Instance has_fst {A B X} `{Has A X} : Has (A * B) X.
Proof.
  refine {| get w := get w.1; put x w := (put x w.1, w.2) |}.
  - intros. simpl. apply get_put.
  - intros. simpl. by rewrite put_put.
  - intros [a b]. simpl. by rewrite put_get.
Defined.

#[export] Instance has_snd {A B X} `{Has B X} : Has (A * B) X.
Proof.
  refine {| get w := get w.2; put x w := (w.1, put x w.2) |}.
  - intros. simpl. apply get_put.
  - intros. simpl. by rewrite put_put.
  - intros [a b]. simpl. by rewrite put_get.
Defined.

(** ** Transition systems *)

(** Whatever steps are taken, a state of [P] comes. *)
Inductive inevitable {A} (R : A -> A -> Prop) (P : A -> Prop) (a : A) : Prop :=
  | inevitable_now : P a -> inevitable R P a
  | inevitable_step : (exists b, R a b) -> (forall b, R a b -> inevitable R P b) -> inevitable R P a.

(** A measure that every step lowers, in states that are never stuck before [P]. *)
Lemma inevitable_measure {A} (R : A -> A -> Prop) (P I : A -> Prop) (f : A -> nat) :
  (forall a b, I a -> R a b -> I b /\ (f b < f a)%nat) ->
  (forall a, I a -> P a \/ exists b, R a b) ->
  forall a, I a -> inevitable R P a.
Proof.
  intros Hstep Hlive a. remember (f a) as n eqn:Hn. revert a Hn.
  induction n as [n IH] using lt_wf_ind. intros a -> Ha.
  destruct (Hlive a Ha) as [|Hb]; [by apply inevitable_now|].
  apply inevitable_step; [done|]. intros b Hab. destruct (Hstep a b Ha Hab) as [Ib Hlt]. by eapply IH.
Qed.

Lemma nsteps_measure {A} (R : A -> A -> Prop) (f : A -> nat) :
  (forall a b, R a b -> (f b < f a)%nat) -> forall n a b, nsteps R n a b -> (n + f b <= f a)%nat.
Proof.
  intros Hf n a b Hn. induction Hn as [|n a b c Hab _ IH]; [done|]. specialize (Hf a b Hab). lia.
Qed.

(** A system given by what each action does, where it is possible. *)
Section Actions.
Context {S A : Type} (perform : A -> S -> option S).

Definition does (s s' : S) : Prop := exists a, perform a s = Some s'.

Definition perform_all (l : list A) (s : S) : option S :=
  foldl (fun s a => s ≫= perform a) (Some s) l.

Lemma perform_all_does l s s' : perform_all l s = Some s' -> rtc does s s'.
Proof.
  revert s. induction l as [|a l IH]; intros s; [by intros [= <-]|]. unfold perform_all. cbn.
  destruct (perform a s) as [s1|] eqn:Ea.
  - intros Hl. eapply rtc_l; [by exists a | by apply IH].
  - intros Hl. exfalso. revert Hl. clear. by induction l.
Qed.
End Actions.
