(* ===== verification/GoErrors.v ===== *)
(** * Go error values

    An error of the program is a sentinel ([var ErrX = errors.New(..)]), an
    error of one of the two error types the program inspects with [errors.As],
    an error only its message of which matters, or one built by [fmt.Errorf]:
    [Errorf msg es] carries the errors wrapped with [%w] ([%v] wraps nothing,
    so such an error is [Errorf msg []]).  [errors_is] and the two [errors_as]
    predicates walk that tree in the way the package [errors] does. *)
From S2P Require Import Prelude.

(** The sentinel errors the program compares with [errors.Is]: its own
    ([envelope.ErrNotTransport], [imap.errDial], [imap.errNoUIDPlus],
    [imap.errUnsafeMove]), those of package [context], and those of the
    [rnspipe] package. *)
Inductive sentinel :=
  | ErrNotTransport
  | ErrDialFailed
  | ErrNoUIDPlus
  | ErrUnsafeMove
  | CtxCanceled
  | CtxDeadlineExceeded
  | RnsErrOffline
  | RnsErrNotStarted
  | RnsErrPipeClosed.

#[global] Instance sentinel_eq_dec : EqDecision sentinel.
Proof. solve_decision. Defined.

#[warnings="-register-all"]
Inductive error :=
  | Sentinel (s : sentinel)
  | Opaque (msg : string)
  | SMTPError (code : Z)
  | DataOutcomeUnknown (err : error)
  | Errorf (msg : string) (wrapped : list error).

(** [errors.Is(err, s)]. *)
Fixpoint errors_is (s : sentinel) (e : error) : bool :=
  match e with
  | Sentinel s' => bool_decide (s' = s)
  | Opaque _ | SMTPError _ => false
  | DataOutcomeUnknown e' => errors_is s e'
  | Errorf _ es => existsb (errors_is s) es
  end.

(** [errors.As(err, &smtpErr)] for [*smtp.SMTPError]. *)
Fixpoint errors_as_smtp (e : error) : bool :=
  match e with
  | SMTPError _ => true
  | Sentinel _ | Opaque _ => false
  | DataOutcomeUnknown e' => errors_as_smtp e'
  | Errorf _ es => existsb errors_as_smtp es
  end.

(** [errors.As(err, &unknown)] for [*transport.ErrDataOutcomeUnknown]. *)
Fixpoint errors_as_unknown (e : error) : bool :=
  match e with
  | DataOutcomeUnknown _ => true
  | Sentinel _ | Opaque _ | SMTPError _ => false
  | Errorf _ es => existsb errors_as_unknown es
  end.

(** A Go function that returns a value and an error. *)
Inductive result (A : Type) :=
  | Ok (a : A)
  | Err (e : error).
Arguments Ok {A} a.
Arguments Err {A} e.

Definition res_bind {A B} (m : result A) (k : A -> result B) : result B :=
  match m with
  | Ok a => k a
  | Err e => Err e
  end.

Declare Scope go_scope.
Delimit Scope go_scope with go.
#[global] Open Scope go_scope.

(** [let? x := e in k] is the early return [x, err := e; if err != nil { return err }]. *)
Notation "'let?' x := m 'in' k" := (res_bind m (fun x => k))
  (at level 10, x name, m at level 100, k at level 200) : go_scope.

Lemma res_bind_ok {A B} (m : result A) (k : A -> result B) b :
  res_bind m k = Ok b -> exists a, m = Ok a /\ k a = Ok b.
Proof. destruct m; simpl; [eauto | done]. Qed.

Lemma res_bind_err {A B} (m : result A) (k : A -> result B) e :
  res_bind m k = Err e -> m = Err e \/ exists a, m = Ok a /\ k a = Err e.
Proof. destruct m; simpl; [eauto | left; congruence]. Qed.

(** Inversion of a successful run of a function written with [let?]. *)
Ltac inv_ok H :=
  let x := fresh "x" in let Hm := fresh "Hm" in
  apply res_bind_ok in H; destruct H as (x & Hm & H).

Lemma errors_is_wrap1 s msg e : errors_is s (Errorf msg [e]) = errors_is s e.
Proof. simpl. by rewrite orb_false_r. Qed.

Lemma errors_as_unknown_wrap1 msg e :
  errors_as_unknown (Errorf msg [e]) = errors_as_unknown e.
Proof. simpl. by rewrite orb_false_r. Qed.

(** Injectivity, without the simplification [injection] performs. *)
Lemma Ok_inj {A} (a b : A) : Ok a = Ok b -> a = b.
Proof. by intros [= ->]. Qed.

Lemma Ok_pair_inj {A B} (a a' : A) (b b' : B) : Ok (a, b) = Ok (a', b') -> a = a' /\ b = b'.
Proof. by intros [= -> ->]. Qed.
