(* ===== verification/GoStrings.v ===== *)
(** * The parts of Go's [strings], [bytes], [unicode/utf8] and [strconv] the
    program uses.

    Go strings are byte sequences; functions over runes decode UTF-8 the way a
    Go [range] loop does (an invalid byte is one U+FFFD of width 1).  The case
    tables of package [unicode] beyond ASCII are the parameter
    [unicode_to_lower]. *)
From Stdlib Require Import Strings.Byte.
From S2P Require Import Prelude.

(** ** UTF-8 *)

Definition rune_error : Z := 65533.

Definition in_range (lo hi : Z) (c : Byte.byte) : bool :=
  (lo <=? bval c) && (bval c <=? hi).

(** The runes of a string with the bytes each was decoded from. *)
Fixpoint runes (s : bytes) : list (Z * bytes) :=
  match s with
  | [] => []
  | c0 :: s1 =>
    let v0 := bval c0 in
    let bad (_ : unit) := (rune_error, [c0]) :: runes s1 in
    if v0 <? 0x80 then (v0, [c0]) :: runes s1
    else if v0 <? 0xC2 then bad ()
    else match s1 with
    | [] => bad ()
    | c1 :: s2 =>
      if v0 <? 0xE0 then
        if in_range 0x80 0xBF c1
        then ((v0 - 0xC0) * 64 + (bval c1 - 0x80), [c0; c1]) :: runes s2
        else bad ()
      else match s2 with
      | [] => bad ()
      | c2 :: s3 =>
        if v0 <? 0xF0 then
          if in_range (if v0 =? 0xE0 then 0xA0 else 0x80) (if v0 =? 0xED then 0x9F else 0xBF) c1
             && in_range 0x80 0xBF c2
          then ((v0 - 0xE0) * 4096 + (bval c1 - 0x80) * 64 + (bval c2 - 0x80), [c0; c1; c2])
               :: runes s3
          else bad ()
        else if v0 <? 0xF5 then
          match s3 with
          | [] => bad ()
          | c3 :: s4 =>
            if in_range (if v0 =? 0xF0 then 0x90 else 0x80) (if v0 =? 0xF4 then 0x8F else 0xBF) c1
               && in_range 0x80 0xBF c2 && in_range 0x80 0xBF c3
            then ((v0 - 0xF0) * 262144 + (bval c1 - 0x80) * 4096
                  + (bval c2 - 0x80) * 64 + (bval c3 - 0x80), [c0; c1; c2; c3]) :: runes s4
            else bad ()
          end
        else bad ()
      end
    end
  end.

(** [utf8.AppendRune]: the UTF-8 encoding, U+FFFD for an invalid rune. *)
Definition encode_rune (r : Z) : bytes :=
  if (0 <=? r) && (r <? 0x80) then [byte_of r]
  else if (0x80 <=? r) && (r <? 0x800) then
    [byte_of (0xC0 + r / 64); byte_of (0x80 + r mod 64)]
  else if (r <? 0) || (0x10FFFF <? r) || ((0xD800 <=? r) && (r <=? 0xDFFF)) then
    [Byte.xef; Byte.xbf; Byte.xbd]
  else if r <? 0x10000 then
    [byte_of (0xE0 + r / 4096); byte_of (0x80 + r / 64 mod 64); byte_of (0x80 + r mod 64)]
  else
    [byte_of (0xF0 + r / 262144); byte_of (0x80 + r / 4096 mod 64);
     byte_of (0x80 + r / 64 mod 64); byte_of (0x80 + r mod 64)].

(** [strings.Map]: a negative result drops the rune. *)
Definition strings_map (f : Z -> Z) (s : bytes) : bytes :=
  mjoin ((fun rc : Z * bytes => if f rc.1 <? 0 then [] else encode_rune (f rc.1)) <$> runes s).

(** ** Character classes *)

(** [unicode.IsSpace]. *)
Definition is_space_rune (r : Z) : bool :=
  ((9 <=? r) && (r <=? 13)) || (r =? 32) || (r =? 0x85) || (r =? 0xA0) || (r =? 0x1680)
  || ((0x2000 <=? r) && (r <=? 0x200A)) || (r =? 0x2028) || (r =? 0x2029)
  || (r =? 0x202F) || (r =? 0x205F) || (r =? 0x3000).

Definition is_ascii (c : Byte.byte) : bool := bval c <? 0x80.

Definition is_upper (c : Byte.byte) : bool := in_range 65 90 c.
Definition is_lower (c : Byte.byte) : bool := in_range 97 122 c.

Definition lower_byte (c : Byte.byte) : Byte.byte :=
  if is_upper c then byte_of (bval c + 32) else c.
Definition upper_byte (c : Byte.byte) : Byte.byte :=
  if is_lower c then byte_of (bval c - 32) else c.

Definition is_digit (c : Byte.byte) : bool := in_range 48 57 c.

(** The simple case mapping of package [unicode], a table of the runtime. *)
Class UnicodeTables := unicode_to_lower : Z -> Z.

Section Lower.
Context `{UnicodeTables}.

(** [strings.ToLower]: bytewise on ASCII input, else rune by rune. *)
Definition to_lower (s : bytes) : bytes :=
  if forallb is_ascii s then lower_byte <$> s
  else strings_map unicode_to_lower s.
End Lower.

(** ** Searching and splitting *)

(** [bytes.HasPrefix]. *)
Fixpoint has_prefix (s p : bytes) : bool :=
  match p, s with
  | [], _ => true
  | _ :: _, [] => false
  | c :: p', d :: s' => bool_decide (c = d) && has_prefix s' p'
  end.

(** [bytes.Index]: the offset of the first occurrence. *)
Fixpoint index (s sep : bytes) : option nat :=
  if has_prefix s sep then Some 0%nat
  else match s with
       | [] => None
       | _ :: s' => S <$> index s' sep
       end.

(** [strings.LastIndex] of a one-byte separator. *)
Fixpoint last_index (s : bytes) (c : Byte.byte) : option nat :=
  match s with
  | [] => None
  | d :: s' =>
    match last_index s' c with
    | Some i => Some (S i)
    | None => if bool_decide (d = c) then Some 0%nat else None
    end
  end.

(** [strings.Cut] at a one-byte separator. *)
Fixpoint cut (s : bytes) (c : Byte.byte) : option (bytes * bytes) :=
  match s with
  | [] => None
  | d :: s' =>
    if bool_decide (d = c) then Some ([], s')
    else match cut s' c with
         | Some (a, r) => Some (d :: a, r)
         | None => None
         end
  end.

(** [bytes.Split] at a one-byte separator. *)
Fixpoint split (s : bytes) (c : Byte.byte) : list bytes :=
  match s with
  | [] => [[]]
  | d :: s' =>
    if bool_decide (d = c) then [] :: split s' c
    else match split s' c with
         | l :: ls => (d :: l) :: ls
         | [] => [[d]]
         end
  end.

(** [strings.ContainsAny]. *)
Definition contains_any (s chars : bytes) : bool :=
  existsb (fun c => existsb (fun d => bool_decide (c = d)) chars) s.

(** ** Trimming *)

Fixpoint drop_while {A} (p : A -> bool) (l : list A) : list A :=
  match l with
  | [] => []
  | a :: l' => if p a then drop_while p l' else l
  end.

Fixpoint take_while (p : Byte.byte -> bool) (s : bytes) : bytes :=
  match s with
  | [] => []
  | c :: s' => if p c then c :: take_while p s' else []
  end.

Definition trim_left (p : Byte.byte -> bool) (s : bytes) : bytes := drop_while p s.
Fixpoint trim_right (p : Byte.byte -> bool) (s : bytes) : bytes :=
  match s with
  | [] => []
  | c :: s' =>
    match trim_right p s' with
    | [] => if p c then [] else [c]
    | t => c :: t
    end
  end.

(** [strings.TrimSpace]: white space is Unicode's. *)
Definition trim_space (s : bytes) : bytes :=
  let sp (rc : Z * bytes) := is_space_rune rc.1 in
  mjoin (snd <$> reverse (drop_while sp (reverse (drop_while sp (runes s))))).

(** [strings.TrimLeftFunc(s, unicode.IsSpace)]. *)
Definition trim_left_space (s : bytes) : bytes :=
  mjoin (snd <$> drop_while (fun rc : Z * bytes => is_space_rune rc.1) (runes s)).

(** [bytes.EqualFold] against an ASCII string: besides letter case, the rune
    U+017F folds to [s] and U+212A to [k]. *)
Definition fold_eq (r : Z) (c : Byte.byte) : bool :=
  (r =? bval c)
  || ((r <? 0x80) && (bval (lower_byte (byte_of r)) =? bval (lower_byte c)))
  || ((r =? 0x17F) && (bval (lower_byte c) =? 115))
  || ((r =? 0x212A) && (bval (lower_byte c) =? 107)).

Definition equal_fold_ascii (s t : bytes) : bool :=
  let rs := fst <$> runes s in
  bool_decide (length rs = length t) && forallb (fun p => fold_eq p.1 p.2) (zip rs t).

(** ** Decimal numbers *)

(** [strconv.Itoa] for a non-negative number, also the digits JSON prints. *)
Fixpoint digits_aux (fuel : nat) (n : Z) (acc : bytes) : bytes :=
  match fuel with
  | O => acc
  | S k =>
    let acc' := byte_of (48 + n mod 10) :: acc in
    if n <? 10 then acc' else digits_aux k (n / 10) acc'
  end.
Definition itoa (n : Z) : bytes := digits_aux 20 n [].

(** The value of a digit string, [None] when a byte is not a digit. *)
Definition digits_val (s : bytes) : option Z :=
  foldl (fun acc c => v ← acc; if is_digit c then Some (v * 10 + (bval c - 48)) else None)
        (Some 0) s.

(** [strconv.Atoi] on a 64-bit platform: an optional sign, at least one
    decimal digit, and a value in the range of [int]. *)
Definition atoi (s : bytes) : option Z :=
  let '(neg, ds) := match s with
                    | Byte.x2d :: ds => (true, ds)
                    | Byte.x2b :: ds => (false, ds)
                    | _ => (false, s)
                    end in
  match ds with
  | [] => None
  | _ => v ← digits_val ds;
         let n := if (neg : bool) then - v else v in
         if (- 2 ^ 63 <=? n) && (n <? 2 ^ 63) then Some n else None
  end.

(** A hexadecimal digit, in small letters. *)
Definition hex_digit (v : Z) : Byte.byte := if v <? 10 then byte_of (48 + v) else byte_of (87 + v).

(** ** Lemmas *)

Lemma cut_app s c r : c ∉ s -> cut (s ++ c :: r) c = Some (s, r).
Proof.
  induction s as [|d s IH]; intros Hc; simpl.
  - by rewrite bool_decide_eq_true_2.
  - apply not_elem_of_cons in Hc as [Hd Hs].
    rewrite bool_decide_eq_false_2 by congruence. by rewrite IH.
Qed.

Lemma cut_None s c : c ∉ s -> cut s c = None.
Proof.
  induction s as [|d s IH]; intros Hc; simpl; [done|].
  apply not_elem_of_cons in Hc as [Hd Hs].
  rewrite bool_decide_eq_false_2 by congruence. by rewrite IH.
Qed.

Lemma trim_right_app p s c r :
  p c = false -> trim_right p (s ++ c :: r) = s ++ c :: trim_right p r.
Proof.
  intros Hc. induction s as [|d s IH]; simpl.
  - destruct (trim_right p r); by rewrite ?Hc.
  - rewrite IH. by destruct s.
Qed.

Lemma trim_left_right p s : trim_left p (trim_right p s) = trim_right p (trim_left p s).
Proof.
  unfold trim_left. induction s as [|c s IH]; simpl; [done|].
  destruct (p c) eqn:Hc.
  - rewrite <- IH. destruct (trim_right p s) eqn:E; simpl; by rewrite ?Hc.
  - simpl. destruct (trim_right p s) eqn:E; simpl; by rewrite ?Hc.
Qed.

Lemma trim_left_notin p s : forallb (fun c => negb (p c)) s = true -> trim_left p s = s.
Proof.
  unfold trim_left. destruct s as [|c s]; simpl; [done|].
  intros [H _]%andb_true_iff. by destruct (p c).
Qed.

Lemma trim_right_notin p s : forallb (fun c => negb (p c)) s = true -> trim_right p s = s.
Proof.
  induction s as [|c s IH]; cbn [forallb trim_right]; [done|].
  intros [Hc Hs]%andb_true_iff. rewrite IH by done. destruct s; [|done]. by destruct (p c).
Qed.

(** *** What the searches find *)

(** [p] is what comes before the first occurrence of [sep]. *)
Definition before_first (sep s p : bytes) : Prop :=
  (exists q, s = p ++ sep ++ q) /\ forall p' q', s = p' ++ sep ++ q' -> (length p <= length p')%nat.

Lemma before_first_unique sep s p1 p2 : before_first sep s p1 -> before_first sep s p2 -> p1 = p2.
Proof.
  intros [[q1 E1] H1] [[q2 E2] H2]. apply (app_inj_1 p1 p2 (sep ++ q1) (sep ++ q2)); [|congruence].
  apply H1 in E2. apply H2 in E1. lia.
Qed.

Definition absent (sep s : bytes) : Prop := forall p q, s <> p ++ sep ++ q.

(** The texts [ls] with the separator between them. *)
Fixpoint join_by (c : Byte.byte) (ls : list bytes) : bytes :=
  match ls with
  | [] => []
  | [l] => l
  | l :: ls => l ++ c :: join_by c ls
  end.

(** [l] is one of the pieces into which the separator cuts [s]. *)
Definition piece_of (c : Byte.byte) (s l : bytes) : Prop :=
  exists ls, s = join_by c ls /\ Forall (fun l => c ∉ l) ls /\ l ∈ ls.

Lemma has_prefix_spec s p : has_prefix s p = true <-> exists q, s = p ++ q.
Proof.
  revert s. induction p as [|c p IH]; intros s; cbn [has_prefix].
  - destruct s; (split; [by eexists|done]).
  - destruct s as [|d s]; cbn [has_prefix]; [by split; [|intros (q & ?)]|].
    destruct (bool_decide (c = d)) eqn:Hd; cbn [andb].
    + apply bool_decide_eq_true in Hd as ->. rewrite IH.
      split; [intros [q ->]; by exists q | intros [q [= ->]]; eauto].
    + apply bool_decide_eq_false in Hd. split; [done|]. intros [q [= <- _]]. done.
Qed.

Lemma index_spec s sep :
  match index s sep with
  | Some n => before_first sep s (take n s)
  | None => absent sep s
  end.
Proof.
  induction s as [|c s IH]; cbn [index]; destruct (has_prefix _ sep) eqn:E.
  1,3: apply has_prefix_spec in E as [q E]; split; [by exists q | intros; cbn; lia].
  - intros p q Hs. destruct p; [|done]. cbn in Hs. by rewrite (proj2 (has_prefix_spec [] sep)) in E by eauto.
  - assert (Hp : forall p q, c :: s = p ++ sep ++ q -> exists p', p = c :: p' /\ s = p' ++ sep ++ q).
    { intros [|d p] q Hs; [|injection Hs as <- ->; eauto].
      by rewrite (proj2 (has_prefix_spec (c :: s) sep)) in E by (exists q; done). }
    destruct (index s sep) as [n|]; cbn [fmap option_fmap option_map].
    + destruct IH as [[q Hq] Hmin]. split; [exists q; cbn [take app]; by rewrite <- Hq|].
      intros p' q' (p & -> & Hs)%Hp. cbn. specialize (Hmin _ _ Hs). lia.
    + intros p q (p' & -> & Hs)%Hp. exact (IH _ _ Hs).
Qed.

Lemma split_nonempty s c : split s c <> [].
Proof. destruct s; cbn [split]; [done|]. repeat case_match; done. Qed.

Lemma split_join s c : join_by c (split s c) = s /\ Forall (fun l => c ∉ l) (split s c).
Proof.
  induction s as [|d s [IH1 IH2]]; cbn [split].
  { split; [done|]. constructor; [apply not_elem_of_nil | constructor]. }
  pose proof (split_nonempty s c). case_bool_decide as Hd.
  - subst. split; [|constructor; [apply not_elem_of_nil | done]].
    destruct (split s c) as [|l ls]; [done|]. cbn [join_by app] in *. by rewrite IH1.
  - destruct (split s c) as [|l ls]; [done|]. apply Forall_cons in IH2 as [Hl Hls]. split.
    + cbn [join_by] in *. destruct ls; cbn [app]; by rewrite IH1.
    + constructor; [|done]. apply not_elem_of_cons. split; [congruence | done].
Qed.

Lemma join_split c ls : Forall (fun l => c ∉ l) ls -> ls <> [] -> split (join_by c ls) c = ls.
Proof.
  assert (Hone : forall l : bytes, c ∉ l -> split l c = [l]).
  { induction l as [|d l IH]; intros Hl; cbn [split]; [done|]. apply not_elem_of_cons in Hl as [Hd Hl].
    rewrite bool_decide_eq_false_2 by congruence. by rewrite IH. }
  assert (Hmore : forall (l : bytes) s, c ∉ l -> split (l ++ c :: s) c = l :: split s c).
  { induction l as [|d l IH]; intros s Hl; cbn [split app]; [by rewrite bool_decide_eq_true_2|].
    apply not_elem_of_cons in Hl as [Hd Hl]. rewrite bool_decide_eq_false_2 by congruence. by rewrite IH. }
  induction ls as [|l ls IH]; intros Hls Hne; [done|]. apply Forall_cons in Hls as [Hl Hls].
  cbn [join_by]. destruct ls as [|l2 ls]; [auto|]. rewrite Hmore by done. by rewrite IH.
Qed.

Lemma split_elem s c l : l ∈ split s c <-> piece_of c s l.
Proof.
  split.
  - intros Hl. exists (split s c). destruct (split_join s c). done.
  - intros (ls & -> & Hls & Hl). rewrite join_split; [done | done |]. intros ->. by apply elem_of_nil in Hl.
Qed.

Lemma cut_Some s c a r : cut s c = Some (a, r) <-> (s = a ++ c :: r /\ c ∉ a).
Proof.
  split; [|intros [-> Ha]; by apply cut_app].
  revert a r. induction s as [|d s IH]; intros a r; cbn [cut]; [done|]. case_bool_decide as Hd.
  - intros [= <- <-]. subst. split; [done | apply not_elem_of_nil].
  - destruct (cut s c) as [[a' r']|]; [|done]. intros [= <- <-]. destruct (IH _ _ eq_refl) as [-> Ha].
    split; [done|]. apply not_elem_of_cons. split; [congruence | done].
Qed.

Lemma trim_right_all (f : Byte.byte -> bool) r : Forall (fun c => f c = true) r -> trim_right f r = [].
Proof. induction 1 as [|c r Hc _ IH]; cbn [trim_right]; [done|]. by rewrite IH, Hc. Qed.

Lemma trim_right_keep (f : Byte.byte -> bool) t r :
  Forall (fun c => f c = true) r -> (forall c, last t = Some c -> f c = false) -> trim_right f (t ++ r) = t.
Proof.
  intros Hr. induction t as [|c t IH]; intros Hl; cbn [app trim_right]; [by apply trim_right_all|].
  destruct t as [|d t]; [cbn [app]; rewrite trim_right_all, (Hl c) by done; done|].
  rewrite IH; [done|]. intros e He. by apply Hl.
Qed.

Lemma trim_right_cut (f : Byte.byte -> bool) s :
  exists r, s = trim_right f s ++ r /\ Forall (fun c => f c = true) r
            /\ forall c, last (trim_right f s) = Some c -> f c = false.
Proof.
  induction s as [|c s (r & Hs & Hr & Hl)]; cbn [trim_right].
  { exists []. repeat split; done || constructor. }
  destruct (trim_right f s) as [|d t] eqn:E.
  - cbn [app] in Hs. subst r. destruct (f c) eqn:Hc.
    + exists (c :: s). repeat split; [by constructor | done].
    + exists s. repeat split; [done|]. by intros ? [= <-].
  - exists r. split; [cbn [app]; by rewrite Hs at 1|]. split; [done|]. intros e He. by apply Hl.
Qed.

(** Trimming at the right takes all the trailing bytes, and only those. *)
Lemma trim_right_spec (f : Byte.byte -> bool) s t :
  trim_right f s = t <->
  exists r, s = t ++ r /\ Forall (fun c => f c = true) r /\ forall c, last t = Some c -> f c = false.
Proof.
  split; [intros <-; apply trim_right_cut | intros (r & -> & Hr & Hl); by apply trim_right_keep].
Qed.

Lemma trim_right_subset p s c : c ∈ trim_right p s -> c ∈ s.
Proof.
  induction s as [|d s IH]; simpl; [done|].
  destruct (trim_right p s) eqn:E.
  - destruct (p d); [by intros ?%elem_of_nil | intros ->%list_elem_of_singleton; left].
  - intros [->|H]%elem_of_cons; [left | right; apply IH; done].
Qed.

Lemma drop_while_subset {A} (p : A -> bool) s c : c ∈ drop_while p s -> c ∈ s.
Proof.
  induction s as [|d s IH]; simpl; [done|].
  destruct (p d); [intros H; right; auto | done].
Qed.

(** On ASCII input the runes are the bytes. *)
Lemma runes_ascii s :
  forallb is_ascii s = true -> runes s = (fun c => (bval c, [c])) <$> s.
Proof.
  induction s as [|c s IH]; simpl; [done|].
  intros [Hc Hs]%andb_true_iff. unfold is_ascii in Hc. rewrite Hc.
  by rewrite IH.
Qed.

Lemma encode_rune_ascii c : is_ascii c = true -> encode_rune (bval c) = [c].
Proof.
  unfold is_ascii, encode_rune. intros ->. pose proof (bval_range c).
  replace (0 <=? bval c) with true by lia. simpl. by rewrite byte_of_bval.
Qed.

(** [strings.Map] with a function that keeps or drops, on ASCII input. *)
Lemma strings_map_ascii_filter f s :
  forallb is_ascii s = true ->
  (forall c, c ∈ s -> f (bval c) = bval c \/ f (bval c) < 0) ->
  strings_map f s = List.filter (fun c => 0 <=? f (bval c)) s.
Proof.
  intros Ha Hf. unfold strings_map. rewrite runes_ascii by done.
  induction s as [|c s IH]; [done|].
  simpl in Ha. apply andb_true_iff in Ha as [Hc Hs].
  pose proof (bval_range c) as Hr.
  rewrite 2!fmap_cons. simpl. rewrite IH; [| done | intros; apply Hf; by right].
  destruct (Hf c ltac:(left)) as [E|E].
  - rewrite E. replace (bval c <? 0) with false by lia.
    replace (0 <=? bval c) with true by lia. by rewrite encode_rune_ascii.
  - replace (f (bval c) <? 0) with true by lia.
    by replace (0 <=? f (bval c)) with false by lia.
Qed.

Lemma last_index_lookup s c i : last_index s c = Some i -> s !! i = Some c.
Proof.
  revert i; induction s as [|d s IH]; simpl; [done|]. intros i.
  destruct (last_index s c) as [j|].
  - intros [= <-]. by apply IH.
  - case_bool_decide; [intros [= <-]; simpl; congruence | done].
Qed.

(** ** Lengths: what is left after a step of a parser *)

(** The bytes of the runes are the string. *)
Lemma runes_join s : mjoin (snd <$> runes s) = s.
Proof.
  remember (length s) as n eqn:Hn. revert s Hn.
  induction n as [n IH] using lt_wf_ind. intros s ->.
  assert (IH' : forall t, (length t < length s)%nat -> mjoin (snd <$> runes t) = t)
    by (intros t Ht; exact (IH _ Ht t eq_refl)). clear IH.
  destruct s as [|c0 s1]; [done|]. simpl in IH'.
  assert (E1 := IH' s1 ltac:(lia)).
  cbn [runes]. repeat (case_match; cbn [fmap list_fmap mjoin list_join snd app] in *; subst;
    try (rewrite IH' by (simpl; lia); done); try (by rewrite E1)).
Qed.

Lemma drop_while_length {A} (p : A -> bool) (l : list A) : (length (drop_while p l) <= length l)%nat.
Proof. induction l as [|a l IH]; simpl; [lia|]. destruct (p a); simpl; lia. Qed.

Lemma drop_while_suffix {A} (p : A -> bool) (l : list A) : exists l', l = l' ++ drop_while p l.
Proof.
  induction l as [|a l [l' IH]]; simpl; [by exists []|].
  destruct (p a); [exists (a :: l'); simpl; by rewrite <- IH | by exists []].
Qed.

Lemma trim_left_space_length s : (length (trim_left_space s) <= length s)%nat.
Proof.
  unfold trim_left_space. rewrite <- (runes_join s) at 2.
  destruct (drop_while_suffix (fun rc : Z * bytes => is_space_rune rc.1) (runes s)) as [l' Hl].
  rewrite Hl at 2. rewrite fmap_app.
  generalize (drop_while (fun rc : Z * bytes => is_space_rune rc.1) (runes s)). intros l. clear.
  induction l' as [|x l' IH]; [done|].
  rewrite fmap_cons. cbn [app]. rewrite mjoin_cons, length_app. lia.
Qed.

Lemma cut_length s c a r : cut s c = Some (a, r) -> (length r < length s)%nat.
Proof.
  revert a r. induction s as [|d s IH]; intros a r; cbn [cut]; [done|].
  destruct (bool_decide (d = c)); [intros [= _ <-]; simpl; lia|].
  destruct (cut s c) as [[a' r']|]; [|done]. intros [= _ <-].
  specialize (IH _ _ eq_refl). simpl. lia.
Qed.

(** ** The digits of a number *)

Lemma digits_aux_acc k n acc : digits_aux k n acc = digits_aux k n [] ++ acc.
Proof.
  revert n acc; induction k as [|k IH]; intros n acc; simpl; [done|].
  destruct (n <? 10); [done|]. rewrite IH, (IH _ [_]), <- app_assoc. done.
Qed.

Lemma digits_val_snoc s c v :
  digits_val s = Some v -> is_digit c = true -> digits_val (s ++ [c]) = Some (v * 10 + (bval c - 48)).
Proof. unfold digits_val. rewrite foldl_app. intros -> Hc. simpl. by rewrite Hc. Qed.

Lemma digit_byte d : 0 <= d < 10 -> is_digit (byte_of (48 + d)) = true /\ bval (byte_of (48 + d)) = 48 + d.
Proof. intros. unfold is_digit, in_range. rewrite bval_byte_of_id by lia. split; lia. Qed.

Lemma digits_aux_spec k n :
  0 <= n < 10 ^ Z.of_nat k ->
  digits_val (digits_aux k n []) = Some n
  /\ forallb is_digit (digits_aux k n []) = true
  /\ (0 < n -> exists c r, digits_aux k n [] = c :: r /\ c <> Byte.x30).
Proof.
  revert n. induction k as [|k IH]; intros n Hn.
  { change (10 ^ Z.of_nat 0) with 1 in Hn. split; [cbn; f_equal; lia | split; [done | lia]]. }
  cbn [digits_aux].
  destruct (digit_byte (n mod 10) ltac:(zdiv)) as [Hd Hv].
  destruct (Z.ltb_spec n 10) as [Hs|Hs].
  - rewrite Z.mod_small in * by lia. split; [| split].
    + unfold digits_val. simpl. rewrite Hd. f_equal. lia.
    + simpl. by rewrite Hd.
    + intros. eexists _, []. split; [done|]. intros E. rewrite E in Hv. cbn in Hv. lia.
  - rewrite digits_aux_acc.
    assert (Hn' : 0 <= n / 10 < 10 ^ Z.of_nat k).
    { rewrite Nat2Z.inj_succ, Z.pow_succ_r in Hn by lia. zdiv. }
    destruct (IH _ Hn') as (H1 & H2 & H3). split; [| split].
    + rewrite (digits_val_snoc _ _ (n / 10)) by done. f_equal. rewrite Hv. zdiv.
    + rewrite forallb_app, H2. simpl. by rewrite Hd.
    + intros _. destruct H3 as (c & r & -> & Hc); [zdiv|]. by eexists _, _.
Qed.

Lemma take_drop_while (p : Byte.byte -> bool) s c t :
  forallb p s = true -> p c = false ->
  take_while p (s ++ c :: t) = s /\ drop_while p (s ++ c :: t) = c :: t.
Proof.
  intros Hs Hc. induction s as [|d s IH]; simpl in *; [by rewrite Hc|].
  apply andb_true_iff in Hs as [-> Hs]. destruct (IH Hs) as [-> ->]. done.
Qed.

(** The number fits [int]. *)
Lemma atoi_range s n : atoi s = Some n -> is_i64 n.
Proof.
  unfold atoi, is_i64. destruct (match s with [] => _ | _ => _ end) as [neg ds]. destruct ds as [|c ds]; [done|].
  destruct (digits_val _) as [v|]; [|done]. cbn [mbind option_bind].
  destruct (_ && _) eqn:E; [|done]. intros [= <-]. lia.
Qed.
