(* ===== verification/GoTime.v ===== *)
(** * Durations of Go's package time

    [ParseDuration] and [Duration.String], with the 64-bit arithmetic of the
    source and IEEE double precision (the Standard Library's SpecFloat) for the
    fraction of a unit; the theorem [ParseDuration_String] is their round trip. *)
From Stdlib Require Import Strings.Byte Floats.SpecFloat.
From S2P Require Import Prelude GoStrings.

(** ** float64 *)

Definition f64_mul : spec_float -> spec_float -> spec_float := SFmul 53 1024.
Definition f64_div : spec_float -> spec_float -> spec_float := SFdiv 53 1024.

(** [float64(n)] of an unsigned integer. *)
Definition f64_of_uint64 (n : Z) : spec_float := binary_normalize 53 1024 n 0 false.

(** [uint64(x)] truncates; only finite numbers that are not negative occur here. *)
Definition uint64_of_f64 (x : spec_float) : Z :=
  match x with S754_finite false m e => wrapu64 (Z.shiftl (Zpos m) e) | _ => 0 end.

(** ** ParseDuration *)

(** [leadingInt]: the digits in front, [None] on overflow. *)
Fixpoint leadingInt (x : Z) (s : bytes) : option (Z * bytes) :=
  match s with
  | c :: rem =>
    if is_digit c then
      if 2 ^ 63 / 10 <? x then None
      else let x := x * 10 + (bval c - 48) in
           if 2 ^ 63 <? x then None else leadingInt x rem
    else Some (x, s)
  | [] => Some (x, [])
  end.

(** [leadingFraction]: the digits in front as an integer over a power of ten;
    digits past the precision of 63 bits are dropped. *)
Fixpoint leadingFraction (x : Z) (scale : spec_float) (overflow : bool) (s : bytes)
    : Z * spec_float * bytes :=
  match s with
  | c :: rem =>
    if is_digit c then
      if overflow then leadingFraction x scale true rem
      else if (2 ^ 63 - 1) / 10 <? x then leadingFraction x scale true rem
      else let y := x * 10 + (bval c - 48) in
           if 2 ^ 63 <? y then leadingFraction x scale true rem
           else leadingFraction y (f64_mul scale (f64_of_uint64 10)) false rem
    else (x, scale, s)
  | [] => (x, scale, [])
  end.

Definition unitMap : list (bytes * Z) :=
  [(str "ns", 1); (str "us", 10 ^ 3);
   ([Byte.xc2; Byte.xb5; Byte.x73], 10 ^ 3);    (* U+00B5, micro sign *)
   ([Byte.xce; Byte.xbc; Byte.x73], 10 ^ 3);    (* U+03BC, Greek letter mu *)
   (str "ms", 10 ^ 6); (str "s", 10 ^ 9); (str "m", 60 * 10 ^ 9); (str "h", 3600 * 10 ^ 9)].

Definition unit_value (u : bytes) : option Z :=
  snd <$> List.find (fun p => bool_decide (p.1 = u)) unitMap.

Definition is_numeric (c : Byte.byte) : bool := bool_decide (c = Byte.x2e) || is_digit c.

(** [v] units and the fraction [f/scale] of one, in nanoseconds. *)
Definition in_units (v f : Z) (scale : spec_float) (unit : Z) : option Z :=
  if 2 ^ 63 / unit <? v then None
  else
    let v := v * unit in
    if 0 <? f then
      let v := wrapu64 (v + uint64_of_f64 (f64_mul (f64_of_uint64 f)
                                             (f64_div (f64_of_uint64 unit) scale))) in
      if 2 ^ 63 <? v then None else Some v
    else Some v.

(** A point with digits behind, and whether there was a digit. *)
Definition fraction (s : bytes) : Z * spec_float * bytes * bool :=
  match s with
  | c :: r =>
    if bool_decide (c = Byte.x2e) then
      let '(f, scale, r') := leadingFraction 0 (f64_of_uint64 1) false r in
      (f, scale, r', negb (bool_decide (length r' = length r)))
    else (0, f64_of_uint64 1, s, false)
  | [] => (0, f64_of_uint64 1, [], false)
  end.

(** One round of the loop: a number with its unit, and the rest. *)
Definition duration_term (s : bytes) : option (Z * bytes) :=
  match s with
  | [] => None
  | c :: _ =>
    if negb (is_numeric c) then None
    else
      '(v, s1) ← leadingInt 0 s;
      let pre := negb (bool_decide (length s1 = length s)) in
      let '(f, scale, s2, post) := fraction s1 in
      if negb pre && negb post then None
      else
        let u := take_while (fun c => negb (is_numeric c)) s2 in
        let rest := drop_while (fun c => negb (is_numeric c)) s2 in
        if bool_decide (u = []) then None
        else
          unit ← unit_value u;
          v ← in_units v f scale unit;
          Some (v, rest)
  end.

Fixpoint duration_loop (fuel : nat) (s : bytes) (d : Z) : option Z :=
  match s, fuel with
  | [], _ => Some d
  | _, O => None
  | _, S fuel =>
    '(v, s) ← duration_term s;
    let d := wrapu64 (d + v) in
    if 2 ^ 63 <? d then None else duration_loop fuel s d
  end.

Definition ParseDuration (s : bytes) : option Z :=
  let '(neg, s) := match s with
                   | c :: r => if bool_decide (c = Byte.x2d) || bool_decide (c = Byte.x2b)
                               then (bool_decide (c = Byte.x2d), r) else (false, s)
                   | [] => (false, [])
                   end in
  if bool_decide (s = str "0") then Some 0
  else if bool_decide (s = []) then None
  else
    d ← duration_loop (length s) s 0;
    if (neg : bool) then Some (wrap64 (- d))
    else if 2 ^ 63 - 1 <? d then None else Some d.

(** ** String *)

(** The buffer is filled from the right; [acc] is what it holds.
    [fmtFrac]: [prec] digits of [v] after the point, without trailing zeros. *)
Fixpoint fmtFrac (prec : nat) (v : Z) (print : bool) (acc : bytes) : bytes * Z :=
  match prec with
  | O => (if print then Byte.x2e :: acc else acc, v)
  | S prec =>
    let digit := v mod 10 in
    let print := print || negb (digit =? 0) in
    fmtFrac prec (v / 10) print (if print then byte_of (48 + digit) :: acc else acc)
  end.

Definition fmtInt (v : Z) (acc : bytes) : bytes := digits_aux 20 v acc.

(** A magnitude below a second, in the unit that suits it. *)
Definition fmt_small (u : Z) : bytes :=
  let '(prec, unit) := if u <? 10 ^ 3 then (0%nat, str "ns")
                       else if u <? 10 ^ 6 then (3%nat, [Byte.xc2; Byte.xb5; Byte.x73])
                       else (6%nat, str "ms") in
  let '(buf, v) := fmtFrac prec u false unit in fmtInt v buf.

Definition fmt_large (u : Z) : bytes :=
  let '(buf, u) := fmtFrac 9 u false (str "s") in
  let buf := fmtInt (u mod 60) buf in
  let u := u / 60 in
  if u <=? 0 then buf
  else
    let buf := fmtInt (u mod 60) (str "m" ++ buf) in
    let u := u / 60 in
    if u <=? 0 then buf else fmtInt u (str "h" ++ buf).

Definition Duration_String (d : Z) : bytes :=
  let neg := d <? 0 in
  let u := if neg then wrapu64 (- d) else d in
  let buf := if u =? 0 then str "0s" else if u <? 10 ^ 9 then fmt_small u else fmt_large u in
  if neg then Byte.x2d :: buf else buf.

(** ** Integers below 2^53 are exact in double precision *)

Lemma Zdigits2_log2 m : 0 < m -> Zdigits2 m = Z.log2 m + 1.
Proof.
  destruct m as [|p|p]; [lia| |lia]. intros _. cbn [Zdigits2].
  assert (Hd : digits2_pos p = Pos.size p) by (induction p as [p IH|p IH|]; cbn; by rewrite ?IH).
  rewrite Hd. destruct p; cbn [Z.log2 Pos.size]; lia.
Qed.

Lemma shr_1_double m : 0 < m -> shr_1 (Build_shr_record (2 * m) false false) = Build_shr_record m false false.
Proof. by destruct m. Qed.

Lemma iter_shr_exact p m :
  0 < m -> SpecFloat.iter_pos shr_1 p (Build_shr_record (m * 2 ^ Zpos p) false false) = Build_shr_record m false false.
Proof.
  revert m. induction p as [p IH|p IH|]; intros m Hm; cbn [SpecFloat.iter_pos].
  - assert (E : 2 ^ Zpos p~1 = 2 * (2 ^ Zpos p * 2 ^ Zpos p))
      by (rewrite <- Z.pow_add_r, <- Z.pow_succ_r by lia; f_equal; lia).
    rewrite E. replace (m * _) with (2 * (m * 2 ^ Zpos p * 2 ^ Zpos p)) by ring.
    assert (0 < 2 ^ Zpos p) by lia.
    rewrite shr_1_double by nia. rewrite !IH by nia. done.
  - assert (E : 2 ^ Zpos p~0 = 2 ^ Zpos p * 2 ^ Zpos p)
      by (rewrite <- Z.pow_add_r by lia; f_equal; lia).
    rewrite E, Z.mul_assoc. assert (0 < 2 ^ Zpos p) by lia. rewrite !IH by nia. done.
  - rewrite Z.mul_comm. by apply shr_1_double.
Qed.

(** The float of [n]: 53 bits of mantissa. *)
Definition normal (n : Z) : spec_float :=
  let L := Z.log2 n + 1 in S754_finite false (Z.to_pos (n * 2 ^ (53 - L))) (L - 53).

Lemma log2_range n : 0 < n < 2 ^ 53 -> 0 <= Z.log2 n < 53.
Proof. intros Hn. split; [apply Z.log2_nonneg | apply Z.log2_lt_pow2; lia]. Qed.

Lemma log2_shifted n s : 0 < n -> 0 <= s -> Z.log2 (n * 2 ^ s) = Z.log2 n + s.
Proof. intros. rewrite Z.log2_mul_pow2 by lia. lia. Qed.

(** Rounding shifts the mantissa into place and loses nothing. *)
Lemma shr_fexp_exact n s :
  0 < n < 2 ^ 53 -> 53 - (Z.log2 n + 1) <= s ->
  shr_fexp 53 1024 (n * 2 ^ s) (- s) loc_Exact
  = (Build_shr_record (n * 2 ^ (53 - (Z.log2 n + 1))) false false, Z.log2 n + 1 - 53).
Proof.
  intros Hn Hs. pose proof (log2_range n Hn) as Hl.
  unfold shr_fexp, fexp, emin. rewrite Zdigits2_log2, log2_shifted by lia.
  replace (Z.max _ _ - - s) with (Z.log2 n + 1 - 53 + s) by lia.
  destruct (Z.log2 n + 1 - 53 + s) as [|p|p] eqn:E; cbn [shr shr_record_of_loc]; [| |lia].
  - f_equal; [f_equal; do 2 f_equal; lia | lia].
  - rewrite <- E. f_equal; [|lia].
    replace (n * 2 ^ s) with (n * 2 ^ (53 - (Z.log2 n + 1)) * 2 ^ Zpos p); [apply iter_shr_exact; lia|].
    rewrite <- E, <- Z.mul_assoc, <- Z.pow_add_r by lia. do 2 f_equal. lia.
Qed.

Lemma round_exact n s :
  0 < n < 2 ^ 53 -> 53 - (Z.log2 n + 1) <= s ->
  binary_round_aux 53 1024 false (n * 2 ^ s) (- s) loc_Exact = normal n.
Proof.
  intros Hn Hs. pose proof (log2_range n Hn) as Hl.
  unfold binary_round_aux. rewrite shr_fexp_exact by done. cbn [shr_m loc_of_shr_record round_nearest_even].
  replace (Z.log2 n + 1 - 53) with (- (53 - (Z.log2 n + 1))) at 1 by lia.
  rewrite shr_fexp_exact by (done || lia). cbn [shr_m]. unfold normal.
  destruct (n * 2 ^ (53 - (Z.log2 n + 1))) as [|m|m] eqn:E; [lia| |lia].
  by replace (_ <=? _) with true by lia.
Qed.

Lemma iter_xO n d : Zpos (Pos.iter xO n d) = Zpos n * 2 ^ Zpos d.
Proof.
  induction d as [|d IH] using Pos.peano_ind; [cbn; lia|].
  rewrite Pos.iter_succ, Pos2Z.inj_succ, Z.pow_succ_r, (Pos2Z.inj_xO (Pos.iter _ _ _)), IH by lia. ring.
Qed.

Lemma f64_of_uint64_exact n : 0 < n < 2 ^ 53 -> f64_of_uint64 n = normal n.
Proof.
  intros Hn. pose proof (log2_range n Hn) as Hl.
  unfold f64_of_uint64, binary_normalize, binary_round, shl_align, fexp, emin.
  destruct n as [|n|n]; [lia| |lia].
  change (Zpos (digits2_pos n)) with (Zdigits2 (Zpos n)). rewrite Zdigits2_log2, Z.sub_0_r by lia.
  rewrite <- (round_exact (Zpos n) (53 - (Z.log2 (Zpos n) + 1))) by lia.
  replace (Z.max _ _) with (- (53 - (Z.log2 (Zpos n) + 1))) by lia.
  destruct (53 - (Z.log2 (Zpos n) + 1)) as [|d|d] eqn:E; [by rewrite Z.mul_1_r| |lia].
  cbn [Z.opp]. f_equal. apply iter_xO.
Qed.

Lemma f64_mul_exact a b : 0 < a -> 0 < b -> a * b < 2 ^ 53 -> f64_mul (normal a) (normal b) = normal (a * b).
Proof.
  intros Ha Hb Hab. pose proof (Z.log2_nonneg a). pose proof (Z.log2_nonneg b).
  assert (Z.log2 a < 53) by (apply Z.log2_lt_pow2; nia).
  assert (Z.log2 b < 53) by (apply Z.log2_lt_pow2; nia).
  pose proof (Z.log2_mul_below a b Ha Hb).
  unfold f64_mul, normal at 1 2. cbn [SFmul xorb]. rewrite Pos2Z.inj_mul, !Z2Pos.id by lia.
  rewrite <- (round_exact (a * b) (53 - (Z.log2 a + 1) + (53 - (Z.log2 b + 1)))) by nia.
  rewrite Z.pow_add_r by lia. f_equal; lia.
Qed.

Lemma uint64_of_normal n : 0 < n < 2 ^ 53 -> uint64_of_f64 (normal n) = n.
Proof.
  intros Hn. pose proof (log2_range n Hn) as Hl.
  unfold uint64_of_f64, normal. rewrite Z2Pos.id by lia.
  replace (Z.log2 n + 1 - 53) with (- (53 - (Z.log2 n + 1))) by lia.
  rewrite Z.shiftl_opp_r, Z.shiftr_div_pow2, Z.div_mul by lia. apply Z.mod_small. lia.
Qed.

(** ** Enough fuel *)

Lemma leadingInt_length s x y r : leadingInt x s = Some (y, r) -> (length r <= length s)%nat.
Proof.
  revert x. induction s as [|c s IH]; intros x; cbn [leadingInt]; [by intros [= _ <-]|].
  destruct (is_digit c); [|by intros [= _ <-]]. repeat case_match; try done.
  intros E%IH. cbn [length]. lia.
Qed.

Lemma leadingFraction_length s x scale o :
  (length (leadingFraction x scale o s).2 <= length s)%nat.
Proof.
  revert x scale o. induction s as [|c s IH]; intros x scale o; cbn [leadingFraction]; [done|].
  repeat case_match; cbn [length snd]; try lia; etransitivity; try apply IH; lia.
Qed.

Lemma fraction_length s : (length (fraction s).1.2 <= length s)%nat.
Proof.
  destruct s as [|c s]; [done|]. cbn [fraction]. case_bool_decide; [|done].
  pose proof (leadingFraction_length s 0 (f64_of_uint64 1) false) as Hl.
  destruct (leadingFraction _ _ _ _) as [[f scale] r]. cbn [fst snd length] in *. lia.
Qed.

Lemma take_drop_length p s : (length (take_while p s) + length (drop_while p s) = length s)%nat.
Proof. induction s as [|c s IH]; cbn; [done|]. destruct (p c); cbn; lia. Qed.

Lemma duration_term_length s v r : duration_term s = Some (v, r) -> (length r < length s)%nat.
Proof.
  unfold duration_term. destruct s as [|c s0]; [done|]. generalize (c :: s0). intros s.
  destruct (negb _); [done|]. destruct (leadingInt 0 s) as [[v1 s1]|] eqn:Ei; [|done].
  apply leadingInt_length in Ei. pose proof (fraction_length s1) as Hf. cbn [mbind option_bind].
  destruct (fraction s1) as [[[f scale] s2] post]. cbn [fst snd] in Hf.
  destruct (_ && _); [done|]. case_bool_decide as Hu; [done|].
  destruct (unit_value _) as [unit|]; [|done]. cbn [mbind option_bind].
  destruct (in_units _ _ _ _); [|done]. intros [= _ <-].
  pose proof (take_drop_length (fun c => negb (is_numeric c)) s2) as Ht.
  destruct (take_while _ s2); [done|]. cbn [length] in Ht. lia.
Qed.

(** The loop ends within one round per byte. *)
Lemma duration_loop_fuel n s d :
  (length s <= n)%nat -> duration_loop n s d = duration_loop (length s) s d.
Proof.
  revert n d. induction s as [s IH] using (induction_ltof1 _ (@length Byte.byte)). unfold ltof in IH.
  intros n d Hn. destruct s as [|c s]; [by destruct n|]. destruct n as [|n]; [cbn in Hn; lia|].
  cbn [duration_loop length]. destruct (duration_term (c :: s)) as [[v r]|] eqn:Et; [|done].
  apply duration_term_length in Et as Hr. cbn [mbind option_bind]. destruct (_ <? _); [done|].
  cbn [length] in *. rewrite (IH r) by (cbn; lia). by rewrite (IH r (ltac:(cbn; lia)) (length s)) by lia.
Qed.

Lemma duration_loop_step s v r d :
  duration_term s = Some (v, r) -> 0 <= d -> 0 <= v -> d + v <= 2 ^ 63 ->
  duration_loop (length s) s d = duration_loop (length r) r (d + v).
Proof.
  intros Et Hd Hv Hle. apply duration_term_length in Et as Hr. destruct s as [|c s]; [done|].
  cbn [duration_loop length]. rewrite Et. cbn [mbind option_bind]. unfold wrapu64.
  rewrite Z.mod_small by lia. replace (2 ^ 63 <? d + v) with false by lia.
  apply duration_loop_fuel. cbn [length] in Hr. lia.
Qed.

(** ** Reading digits back *)

Lemma leadingInt_step x d r :
  0 <= x -> 0 <= d < 10 -> x * 10 + d <= 2 ^ 63 ->
  leadingInt x (byte_of (48 + d) :: r) = leadingInt (x * 10 + d) r.
Proof.
  intros Hx Hd Hle. destruct (digit_byte d Hd) as [H1 H2]. cbn [leadingInt]. rewrite H1, H2.
  replace (2 ^ 63 / 10 <? x) with false by zdiv.
  replace (2 ^ 63 <? x * 10 + (48 + d - 48)) with false by lia. f_equal. lia.
Qed.

Lemma leadingInt_digits k n acc :
  0 <= n < 10 ^ Z.of_nat k -> n <= 2 ^ 63 -> leadingInt 0 (digits_aux k n acc) = leadingInt n acc.
Proof.
  revert n acc. induction k as [|k IH]; intros n acc Hn Hle.
  { change (10 ^ Z.of_nat 0) with 1 in Hn. by replace n with 0 by lia. }
  rewrite Nat2Z.inj_succ, Z.pow_succ_r in Hn by lia. cbn [digits_aux].
  destruct (Z.ltb_spec n 10) as [Hs|Hs].
  - rewrite Z.mod_small by lia. by rewrite leadingInt_step by lia.
  - rewrite IH, leadingInt_step by zdiv. f_equal. zdiv.
Qed.

Lemma leadingInt_stop x s : (forall c r, s = c :: r -> is_digit c = false) -> leadingInt x s = Some (x, s).
Proof. destruct s as [|c r]; [done|]. intros Hs. cbn [leadingInt]. by rewrite (Hs c r eq_refl). Qed.

(** The last [k] digits of [v], with leading zeros. *)
Fixpoint fdigits (k : nat) (v : Z) (acc : bytes) : bytes :=
  match k with O => acc | S k => fdigits k (v / 10) (byte_of (48 + v mod 10) :: acc) end.

(** The scale after [k] digits. *)
Fixpoint pow10f (k : nat) : spec_float :=
  match k with O => f64_of_uint64 1 | S k => f64_mul (pow10f k) (f64_of_uint64 10) end.

Lemma leadingFraction_step x scale d r :
  0 <= x < 10 ^ 17 -> 0 <= d < 10 ->
  leadingFraction x scale false (byte_of (48 + d) :: r)
  = leadingFraction (x * 10 + d) (f64_mul scale (f64_of_uint64 10)) false r.
Proof.
  intros Hx Hd. destruct (digit_byte d Hd) as [H1 H2]. cbn [leadingFraction]. rewrite H1, H2.
  replace ((2 ^ 63 - 1) / 10 <? x) with false by zdiv.
  replace (2 ^ 63 <? x * 10 + (48 + d - 48)) with false by lia. f_equal. lia.
Qed.

Lemma leadingFraction_digits k v acc :
  (k <= 17)%nat -> 0 <= v ->
  leadingFraction 0 (f64_of_uint64 1) false (fdigits k v acc)
  = leadingFraction (v mod 10 ^ Z.of_nat k) (pow10f k) false acc.
Proof.
  revert v acc. induction k as [|k IH]; intros v acc Hk Hv; cbn [fdigits pow10f].
  { change (10 ^ Z.of_nat 0) with 1. by rewrite Z.mod_1_r. }
  assert (Hp : 0 < 10 ^ Z.of_nat k <= 10 ^ 16) by (split; [lia | apply Z.pow_le_mono_r; lia]).
  pose proof (Z.mod_pos_bound (v / 10) (10 ^ Z.of_nat k) ltac:(lia)).
  rewrite IH, leadingFraction_step by (lia || zdiv). f_equal.
  rewrite Nat2Z.inj_succ, Z.pow_succ_r, (Z.rem_mul_r v 10) by lia. lia.
Qed.

Lemma fmtFrac_digits k v acc : fmtFrac k v true acc = (Byte.x2e :: fdigits k v acc, v / 10 ^ Z.of_nat k).
Proof.
  revert v acc. induction k as [|k IH]; intros v acc; cbn [fmtFrac fdigits orb].
  { change (10 ^ Z.of_nat 0) with 1. by rewrite Z.div_1_r. }
  rewrite IH, Nat2Z.inj_succ, Z.pow_succ_r, Z.div_div by lia. done.
Qed.

(** The text of the fraction [f / 10^p]. *)
Definition frac_text (p : nat) (f : Z) (fr : bytes) : Prop :=
  f = 0 /\ fr = []
  \/ exists k w, (0 < k <= p)%nat /\ 0 < w < 10 ^ Z.of_nat k /\ f = w * 10 ^ Z.of_nat (p - k)
       /\ fr = Byte.x2e :: fdigits k w [].

Lemma fdigits_app k v acc : fdigits k v acc = fdigits k v [] ++ acc.
Proof.
  revert v acc. induction k as [|k IH]; intros v acc; cbn [fdigits]; [done|].
  by rewrite IH, (IH _ [_]), <- app_assoc.
Qed.

Lemma fdigits_mod k v acc : fdigits k (v mod 10 ^ Z.of_nat k) acc = fdigits k v acc.
Proof.
  revert v acc. induction k as [|k IH]; intros v acc; cbn [fdigits]; [done|].
  rewrite Nat2Z.inj_succ, Z.pow_succ_r, (Z.rem_mul_r v 10) by lia.
  rewrite <- (IH (v / 10)). f_equal; [zdiv|]. f_equal. f_equal. zdiv.
Qed.

Lemma fmtFrac_text p v acc :
  0 <= v ->
  exists fr, fmtFrac p v false acc = (fr ++ acc, v / 10 ^ Z.of_nat p)
             /\ frac_text p (v mod 10 ^ Z.of_nat p) fr.
Proof.
  revert v. induction p as [|p IH]; intros v Hv; cbn [fmtFrac orb].
  { exists []. change (10 ^ Z.of_nat 0) with 1. rewrite Z.div_1_r, Z.mod_1_r. split; [done | by left]. }
  assert (Hp : 0 < 10 ^ Z.of_nat p) by lia.
  rewrite Nat2Z.inj_succ, Z.pow_succ_r, (Z.rem_mul_r v 10), <- Z.div_div by lia.
  destruct (Z.eqb_spec (v mod 10) 0) as [E|E]; cbn [negb].
  - destruct (IH (v / 10) ltac:(zdiv)) as (fr & -> & Hfr). exists fr. split; [done|]. rewrite E.
    destruct Hfr as [[-> ->] | (k & w & Hk & Hw & -> & ->)]; [by left | right].
    exists k, w. split_and!; try done; try lia.
    replace (S p - k)%nat with (S (p - k)) by lia. rewrite Nat2Z.inj_succ, Z.pow_succ_r by lia. lia.
  - rewrite fmtFrac_digits. exists (Byte.x2e :: fdigits p (v / 10) [byte_of (48 + v mod 10)]).
    split; [cbn [app]; by rewrite (fdigits_app _ _ (_ :: acc)), (fdigits_app _ _ [_]), <- app_assoc|].
    right. exists (S p), (v mod 10 ^ Z.of_nat (S p)).
    rewrite Nat.sub_diag, fdigits_mod, Nat2Z.inj_succ, Z.pow_succ_r, (Z.rem_mul_r v 10) by lia.
    pose proof (Z.mod_pos_bound (v / 10) (10 ^ Z.of_nat p) ltac:(lia)).
    split_and!; [lia | lia | zdiv | zdiv | change (10 ^ Z.of_nat 0) with 1; lia | done].
Qed.

(** ** One term *)

(** The quotient of two powers of ten is exact. *)
Lemma unit_over_scale p k :
  p = 0%nat \/ p = 3%nat \/ p = 6%nat \/ p = 9%nat -> (k <= p)%nat ->
  f64_div (f64_of_uint64 (10 ^ Z.of_nat p)) (pow10f k) = normal (10 ^ Z.of_nat (p - k)).
Proof.
  intros [-> | [-> | [-> | ->]]] Hk; do 10 (try (destruct k as [|k])); try (exfalso; lia);
    vm_compute; reflexivity.
Qed.

Lemma in_units_exact v k w p :
  p = 0%nat \/ p = 3%nat \/ p = 6%nat \/ p = 9%nat -> (k <= p)%nat ->
  0 <= v -> 0 < w < 10 ^ Z.of_nat k ->
  v * 10 ^ Z.of_nat p + w * 10 ^ Z.of_nat (p - k) <= 2 ^ 63 ->
  in_units v w (pow10f k) (10 ^ Z.of_nat p) = Some (v * 10 ^ Z.of_nat p + w * 10 ^ Z.of_nat (p - k)).
Proof.
  intros Hp Hk Hv Hw Hle. unfold in_units.
  assert (H10 : 0 < 10 ^ Z.of_nat p) by lia. assert (Hr : 0 < 10 ^ Z.of_nat (p - k)) by lia.
  assert (Hf : 0 < w * 10 ^ Z.of_nat (p - k)) by (apply Z.mul_pos_pos; lia).
  assert (Hd : v <= 2 ^ 63 / 10 ^ Z.of_nat p) by (apply Z.div_le_lower_bound; lia).
  replace (2 ^ 63 / 10 ^ Z.of_nat p <? v) with false by lia. replace (0 <? w) with true by lia.
  assert (Hpk : 10 ^ Z.of_nat k * 10 ^ Z.of_nat (p - k) <= 10 ^ 9)
    by (rewrite <- Z.pow_add_r by lia; apply Z.pow_le_mono_r; lia).
  rewrite unit_over_scale, f64_of_uint64_exact, f64_mul_exact, uint64_of_normal by (done || nia).
  assert (0 <= v * 10 ^ Z.of_nat p) by (apply Z.mul_nonneg_nonneg; lia).
  unfold wrapu64. rewrite Z.mod_small by lia. by rewrite (proj2 (Z.ltb_ge _ _)) by lia.
Qed.

Lemma digits_aux_length k v acc : (length acc < length (digits_aux (S k) v acc))%nat.
Proof.
  revert v acc. induction k as [|k IH]; intros v acc; cbn [digits_aux].
  - destruct (v <? 10); cbn; lia.
  - destruct (v <? 10); [cbn; lia|]. specialize (IH (v / 10) (byte_of (48 + v mod 10) :: acc)).
    cbn [length digits_aux] in IH |- *. lia.
Qed.

Lemma fmtInt_app v acc :
  0 <= v < 10 ^ 20 ->
  exists c ds, fmtInt v acc = c :: ds ++ acc /\ is_digit c = true.
Proof.
  intros Hv. unfold fmtInt. rewrite digits_aux_acc.
  destruct (digits_aux_spec 20 v Hv) as (_ & Hd & _).
  destruct (digits_aux 20 v []) as [|c ds] eqn:E.
  - pose proof (digits_aux_length 19 v []) as Hl. rewrite E in Hl. cbn in Hl. lia.
  - cbn [forallb] in Hd. apply andb_true_iff in Hd as [Hc _]. by exists c, ds.
Qed.

(** What follows a number: nothing, or another number. *)
Definition numeric_head (s : bytes) : Prop := forall c r, s = c :: r -> is_numeric c = true.

(** A unit's name and its value. *)
Definition unit_name (u : bytes) (unit : Z) : Prop :=
  u <> [] /\ forallb (fun c => negb (is_numeric c)) u = true /\ unit_value u = Some unit /\ 0 < unit.

Lemma unit_split u unit rest :
  unit_name u unit -> numeric_head rest ->
  take_while (fun c => negb (is_numeric c)) (u ++ rest) = u
  /\ drop_while (fun c => negb (is_numeric c)) (u ++ rest) = rest.
Proof.
  intros (_ & Hu & _) Hr. destruct rest as [|c rest].
  - rewrite app_nil_r. clear Hr. induction u as [|d u IH]; [done|]. cbn [forallb] in Hu.
    apply andb_true_iff in Hu as [Hd Hu]. cbn. rewrite Hd. destruct (IH Hu) as [-> ->]. done.
  - apply take_drop_while; [done|]. by rewrite (Hr c rest eq_refl).
Qed.

(** The fraction of the rendering is read as the fraction that was printed. *)
Lemma fraction_text p f fr u unit rest v :
  p = 0%nat \/ p = 3%nat \/ p = 6%nat \/ p = 9%nat ->
  frac_text p f fr -> unit_name u unit -> unit = 10 ^ Z.of_nat p \/ f = 0 ->
  0 <= v -> v * unit + f <= 2 ^ 63 ->
  exists w scale post, fraction (fr ++ u ++ rest) = (w, scale, u ++ rest, post)
    /\ in_units v w scale unit = Some (v * unit + f).
Proof.
  intros Hp Hf (Hne & Hu & _ & Hpos) Hunit Hv Hle. destruct u as [|c u]; [done|].
  cbn [forallb] in Hu. apply andb_true_iff in Hu as [Hc _].
  apply negb_true_iff, orb_false_iff in Hc as [Hdot Hdig].
  destruct Hf as [[-> ->] | (k & w & Hk & Hw & -> & ->)].
  - exists 0, (f64_of_uint64 1), false. cbn [app fraction]. rewrite Hdot. split; [done|].
    assert (Hd : v <= 2 ^ 63 / unit) by (apply Z.div_le_lower_bound; lia).
    unfold in_units. replace (2 ^ 63 / unit <? v) with false by lia. cbn. f_equal. lia.
  - assert (Hfp : 0 < w * 10 ^ Z.of_nat (p - k)) by (apply Z.mul_pos_pos; lia).
    destruct Hunit as [-> | ?]; [|lia].
    eexists w, (pow10f k), _. split; [|apply in_units_exact; (done || lia)].
    cbn [app fraction]. rewrite bool_decide_eq_true_2 by done.
    replace (_ ++ c :: u ++ rest) with (fdigits k w (c :: u ++ rest)) by apply fdigits_app.
    rewrite leadingFraction_digits by lia. rewrite Z.mod_small by lia.
    cbn [leadingFraction]. by rewrite Hdig.
Qed.


Lemma duration_term_text p v f fr u unit rest :
  p = 0%nat \/ p = 3%nat \/ p = 6%nat \/ p = 9%nat ->
  frac_text p f fr -> unit_name u unit -> unit = 10 ^ Z.of_nat p \/ f = 0 -> numeric_head rest ->
  0 <= v -> 0 <= f -> v * unit + f <= 2 ^ 63 ->
  duration_term (fmtInt v (fr ++ u ++ rest)) = Some (v * unit + f, rest).
Proof.
  intros Hp Hf Hu Hunit Hrest Hv Hf0 Hle.
  assert (Hv' : v <= 2 ^ 63) by (destruct Hu as (_ & _ & _ & ?); nia).
  destruct (fmtInt_app v (fr ++ u ++ rest) ltac:(lia)) as (c & ds & E & Hc).
  assert (Hlead : leadingInt 0 (fmtInt v (fr ++ u ++ rest)) = Some (v, fr ++ u ++ rest)).
  { unfold fmtInt. rewrite leadingInt_digits by lia. apply leadingInt_stop. intros d r Er.
    destruct Hf as [[_ ->] | (k & w & _ & _ & _ & ->)]; [|by injection Er as <- _].
    destruct Hu as (Hne & Hu & _). destruct u as [|d' u]; [done|]. injection Er as <- _.
    cbn [forallb] in Hu. apply andb_true_iff in Hu as [Hd _]. by apply negb_true_iff, orb_false_iff in Hd as [_ ?]. }
  destruct (fraction_text p f fr u unit rest v Hp Hf Hu Hunit Hv Hle) as (w & scale & post & Hfr & Hin).
  unfold duration_term. rewrite E in Hlead |- *. unfold is_numeric at 1. rewrite Hc, orb_true_r, Hlead.
  cbn [negb mbind option_bind]. rewrite Hfr, bool_decide_eq_false_2.
  2:{ cbn [length]. rewrite (length_app ds). lia. }
  destruct (unit_split u unit rest Hu Hrest) as [-> ->]. destruct Hu as (Hne & _ & Hval & _).
  rewrite bool_decide_eq_false_2, Hval by done. cbn [negb andb mbind option_bind]. by rewrite Hin.
Qed.

(** ** The round trip *)

(** [buf] is read as [u] nanoseconds, wherever in a duration it stands last. *)
Record reads (buf : bytes) (u : Z) : Prop := {
  rd_head : exists c r, buf = c :: r /\ is_digit c = true /\ r <> [];
  rd_loop d : 0 <= d -> d + u <= 2 ^ 63 -> duration_loop (length buf) buf d = Some (d + u);
}.

Lemma reads_term p v f fr u unit rest t total :
  p = 0%nat \/ p = 3%nat \/ p = 6%nat \/ p = 9%nat ->
  frac_text p f fr -> unit_name u unit -> unit = 10 ^ Z.of_nat p \/ f = 0 ->
  0 <= v -> 0 <= f -> rest = [] /\ t = 0 \/ reads rest t /\ 0 <= t ->
  v * unit + f + t = total -> total <= 2 ^ 63 ->
  reads (fmtInt v (fr ++ u ++ rest)) total.
Proof.
  intros Hp Hf Hu Hunit Hv Hf0 Hrest <- Hle.
  assert (Ht : 0 <= t) by (destruct Hrest as [[_ ->] | [_ ?]]; lia).
  assert (Hvu : v <= v * unit) by (destruct Hu as (_ & _ & _ & ?); nia).
  split.
  - destruct (fmtInt_app v (fr ++ u ++ rest) ltac:(lia)) as (c & ds & -> & Hc).
    exists c, (ds ++ fr ++ u ++ rest). split_and!; [done | done|]. destruct Hu as (Hu & _).
    destruct ds; [|done]. destruct fr; [|done]. by destruct u.
  - intros d Hd Hsum. rewrite (duration_loop_step _ (v * unit + f) rest); [| | lia..].
    + destruct Hrest as [[-> ->] | [Hr _]]; [cbn; f_equal; lia|].
      rewrite (rd_loop _ _ Hr) by lia. f_equal. lia.
    + apply (duration_term_text p); try done; [|lia].
      destruct Hrest as [[-> _] | [Hr _]]; [done|]. destruct (rd_head _ _ Hr) as (c & r & -> & Hc & _).
      intros ? ? [= <- _]. unfold is_numeric. by rewrite Hc, orb_true_r.
Qed.

Lemma unit_name_dec u unit :
  bool_decide (u <> [] /\ forallb (fun c => negb (is_numeric c)) u = true /\ unit_value u = Some unit /\ 0 < unit) = true ->
  unit_name u unit.
Proof. by intros ?%bool_decide_eq_true. Qed.

Lemma reads_small u : 0 < u < 10 ^ 9 -> reads (fmt_small u) u.
Proof.
  intros Hu. unfold fmt_small.
  assert (Hgen : forall p name, p = 0%nat \/ p = 3%nat \/ p = 6%nat ->
            unit_name name (10 ^ Z.of_nat p) ->
            reads (let '(buf, v) := fmtFrac p u false name in fmtInt v buf) u).
  { intros p name Hp Hn. destruct (fmtFrac_text p u name ltac:(lia)) as (fr & -> & Hfr).
    assert (H10 : 0 < 10 ^ Z.of_nat p) by lia.
    pose proof (Z.div_mod u (10 ^ Z.of_nat p) ltac:(lia)) as Hdm.
    pose proof (Z.mod_pos_bound u (10 ^ Z.of_nat p) ltac:(lia)) as Hmb.
    rewrite <- (app_nil_r name).
    apply (reads_term p _ (u mod 10 ^ Z.of_nat p) _ _ (10 ^ Z.of_nat p) _ 0);
      try done; try lia; try (by left); try (apply Z.div_pos; lia). }
  destruct (u <? 10 ^ 3); [|destruct (u <? 10 ^ 6)]; apply Hgen; try tauto; by apply unit_name_dec.
Qed.

(** A number without fraction before the others. *)
Lemma reads_cons v name unit rest t :
  unit_name name unit -> 0 <= v -> reads rest t -> 0 <= t -> v * unit + t <= 2 ^ 63 ->
  reads (fmtInt v (name ++ rest)) (v * unit + t).
Proof.
  intros Hn Hv Hr Ht Hle. apply (reads_term 0 v 0 [] name unit rest t); try done; try lia; auto.
  by left.
Qed.

Lemma reads_large u : 10 ^ 9 <= u <= 2 ^ 63 -> reads (fmt_large u) u.
Proof.
  intros Hu. unfold fmt_large. destruct (fmtFrac_text 9 u (str "s") ltac:(lia)) as (fr & -> & Hfr).
  change (10 ^ Z.of_nat 9) with (10 ^ 9) in *. set (q := u / 10 ^ 9). set (f := u mod 10 ^ 9) in *.
  assert (Hq : u = q * 10 ^ 9 + f /\ 0 <= f < 10 ^ 9) by (subst q f; zdiv). clearbody q f.
  assert (Hs : reads (fmtInt (q mod 60) (fr ++ str "s")) (q mod 60 * 10 ^ 9 + f)).
  { rewrite <- (app_nil_r (str "s")).
    apply (reads_term 9 _ f _ _ (10 ^ 9) _ 0); auto; try zdiv; by apply unit_name_dec. }
  destruct (Z.leb_spec (q / 60) 0).
  { by replace u with (q mod 60 * 10 ^ 9 + f) by zdiv. }
  assert (Hm : reads (fmtInt (q / 60 mod 60) (str "m" ++ fmtInt (q mod 60) (fr ++ str "s")))
                 (q / 60 mod 60 * (60 * 10 ^ 9) + (q mod 60 * 10 ^ 9 + f)))
    by (apply reads_cons; [by apply unit_name_dec | zdiv | done | zdiv | zdiv]).
  destruct (Z.leb_spec (q / 60 / 60) 0).
  { replace u with (q / 60 mod 60 * (60 * 10 ^ 9) + (q mod 60 * 10 ^ 9 + f)) by zdiv. done. }
  replace u with (q / 60 / 60 * (3600 * 10 ^ 9) + (q / 60 mod 60 * (60 * 10 ^ 9) + (q mod 60 * 10 ^ 9 + f)))
    by zdiv.
  apply reads_cons; [by apply unit_name_dec | zdiv | done | zdiv | zdiv].
Qed.

(** Every duration is what its text parses to, the least one included. *)
Theorem ParseDuration_String d : is_i64 d -> ParseDuration (Duration_String d) = Some d.
Proof.
  intros Hd. unfold is_i64 in Hd. unfold Duration_String.
  set (u := if d <? 0 then wrapu64 (- d) else d).
  assert (Hu : u = Z.abs d) by (unfold u, wrapu64; destruct (Z.ltb_spec d 0); [rewrite Z.mod_small|]; lia).
  rewrite Hu. clear u Hu. destruct (Z.eqb_spec (Z.abs d) 0) as [E|E].
  { by replace d with 0 by lia. }
  set (buf := if Z.abs d <? 10 ^ 9 then _ else _).
  assert (Hr : reads buf (Z.abs d)).
  { unfold buf. destruct (Z.ltb_spec (Z.abs d) (10 ^ 9)); [apply reads_small | apply reads_large]; lia. }
  clearbody buf. destruct Hr as [(c & r & -> & Hc & Hne) Hl].
  specialize (Hl 0 ltac:(lia) ltac:(lia)). rewrite Z.add_0_l in Hl.
  assert (Hsign : bool_decide (c = Byte.x2d) || bool_decide (c = Byte.x2b) = false).
  { apply orb_false_iff. split; apply bool_decide_eq_false; by intros ->. }
  assert (H0 : bool_decide (c :: r = str "0") = false /\ bool_decide (c :: r = []) = false).
  { split; apply bool_decide_eq_false; [by intros [= _ ->] | done]. }
  destruct H0 as [H0 Hnil]. unfold ParseDuration. destruct (Z.ltb_spec d 0).
  - change (bool_decide (Byte.x2d = Byte.x2d) || _) with true. cbv iota beta zeta.
    rewrite H0, Hnil, Hl. cbn [mbind option_bind]. f_equal. rewrite wrap64_id; unfold is_i64; lia.
  - rewrite Hsign. cbv iota beta. rewrite H0, Hnil, Hl. cbn [mbind option_bind].
    replace (2 ^ 63 - 1 <? Z.abs d) with false by lia. f_equal. lia.
Qed.

Lemma duration_loop_range n s d r :
  0 <= d <= 2 ^ 63 -> duration_loop n s d = Some r -> 0 <= r <= 2 ^ 63.
Proof.
  revert s d. induction n as [|n IH]; intros [|c s] d Hd; cbn [duration_loop]; try by intros [= <-].
  destruct (duration_term _) as [[v rest]|]; [|done]. cbn [mbind option_bind].
  destruct (Z.ltb_spec (2 ^ 63) (wrapu64 (d + v))); [done|]. apply IH. split; [|done].
  unfold wrapu64. by apply Z.mod_pos_bound.
Qed.

(** A parsed duration fits [time.Duration]. *)
Theorem ParseDuration_range s d : ParseDuration s = Some d -> is_i64 d.
Proof.
  unfold ParseDuration, is_i64. destruct (match s with [] => _ | _ => _ end) as [neg r].
  case_bool_decide; [by intros [= <-]|]. case_bool_decide; [done|].
  destruct (duration_loop _ _ _) as [u|] eqn:E; [|done].
  apply duration_loop_range in E; [|lia]. cbn [mbind option_bind]. destruct neg.
  - intros [= <-]. apply wrap64_range.
  - destruct (Z.ltb_spec (2 ^ 63 - 1) u); [done|]. intros [= <-]. lia.
Qed.
