(* ===== verification/GoSha256.v ===== *)
(** * SHA-256, Go's crypto/sha256

    [Sum256] after FIPS 180-4, on words of 32 bits as [Z]; the constants are
    computed from the primes they are defined by.  [Sum256_length] is what the
    configuration relies on: a digest has 32 bytes. *)
From Stdlib Require Import Strings.Byte.
From S2P Require Import Prelude.

(** ** The constants *)

Definition is_prime (n : nat) : bool :=
  forallb (fun d => negb (Nat.eqb (n mod d) 0)) (seq 2 (n - 2)).

Definition primes : list Z :=
  Z.of_nat <$> List.filter is_prime (seq 2 310).

(** The greatest [r] with [r^3 <= n], bit by bit from [2^b]. *)
Fixpoint cube_root (b : nat) (r n : Z) : Z :=
  let r' := r + 2 ^ Z.of_nat b in
  let r := if r' * r' * r' <=? n then r' else r in
  match b with O => r | S b => cube_root b r n end.

(** The first 32 bits of the fraction of the cube roots of the first 64 primes,
    and of the square roots of the first 8. *)
Definition round_constants : list Z :=
  Eval vm_compute in (fun p => wrap32 (cube_root 35 0 (p * 2 ^ 96))) <$> take 64 primes.

Definition initial_hash : list Z :=
  Eval vm_compute in (fun p => wrap32 (Z.sqrt (p * 2 ^ 64))) <$> take 8 primes.

(** ** Words *)

Definition rotr (n x : Z) : Z := Z.lor (Z.shiftr x n) (wrap32 (Z.shiftl x (32 - n))).

Definition choose (e f g : Z) : Z := Z.lxor (Z.land e f) (Z.land (Z.lxor e (2 ^ 32 - 1)) g).
Definition majority (a b c : Z) : Z := Z.lxor (Z.lxor (Z.land a b) (Z.land a c)) (Z.land b c).

Definition sum0 (x : Z) : Z := Z.lxor (Z.lxor (rotr 2 x) (rotr 13 x)) (rotr 22 x).
Definition sum1 (x : Z) : Z := Z.lxor (Z.lxor (rotr 6 x) (rotr 11 x)) (rotr 25 x).
Definition sigma0 (x : Z) : Z := Z.lxor (Z.lxor (rotr 7 x) (rotr 18 x)) (Z.shiftr x 3).
Definition sigma1 (x : Z) : Z := Z.lxor (Z.lxor (rotr 17 x) (rotr 19 x)) (Z.shiftr x 10).

(** [n] bytes of [x], the most significant first. *)
Fixpoint big_endian (n : nat) (x : Z) : bytes :=
  match n with O => [] | S n => byte_of (Z.shiftr x (8 * Z.of_nat n)) :: big_endian n x end.

Definition word_of (bs : bytes) : Z := foldl (fun x c => x * 256 + bval c) 0 bs.

(** ** A block *)

(** The last sixteen words of the schedule, oldest first, give the next one. *)
Fixpoint expand (n : nat) (window : list Z) : list Z :=
  match n with
  | O => []
  | S n =>
    let at_ i := default 0 (window !! i) in
    let w := wrap32 (sigma1 (at_ 14%nat) + at_ 9%nat + sigma0 (at_ 1%nat) + at_ 0%nat) in
    w :: expand n (tail window ++ [w])
  end.

Record digest := mkDigest { h0 : Z; h1 : Z; h2 : Z; h3 : Z; h4 : Z; h5 : Z; h6 : Z; h7 : Z }.

Definition round (s : digest) (kw : Z * Z) : digest :=
  let '(mkDigest a b c d e f g h) := s in
  let t1 := h + sum1 e + choose e f g + kw.1 + kw.2 in
  let t2 := sum0 a + majority a b c in
  mkDigest (wrap32 (t1 + t2)) a b c (wrap32 (d + t1)) e f g.

Definition digest_words (s : digest) : list Z :=
  [h0 s; h1 s; h2 s; h3 s; h4 s; h5 s; h6 s; h7 s].

Definition add_words (s t : digest) : digest :=
  mkDigest (wrap32 (h0 s + h0 t)) (wrap32 (h1 s + h1 t)) (wrap32 (h2 s + h2 t)) (wrap32 (h3 s + h3 t))
    (wrap32 (h4 s + h4 t)) (wrap32 (h5 s + h5 t)) (wrap32 (h6 s + h6 t)) (wrap32 (h7 s + h7 t)).

Fixpoint words (n : nat) (bs : bytes) : list Z :=
  match n with O => [] | S n => word_of (take 4 bs) :: words n (drop 4 bs) end.

Definition block (s : digest) (bs : bytes) : digest :=
  let ws := words 16 bs in
  add_words s (foldl round s (zip round_constants (ws ++ expand 48 ws))).

(** ** A message *)

(** A one bit, zeros up to 8 bytes short of a block, the length in bits. *)
Definition padding (n : Z) : bytes :=
  Byte.x80 :: replicate (Z.to_nat ((55 - n) mod 64)) Byte.x00 ++ big_endian 8 (8 * n).

Fixpoint blocks (n : nat) (s : digest) (bs : bytes) : digest :=
  match n with O => s | S n => blocks n (block s (take 64 bs)) (drop 64 bs) end.

Definition initial_digest : digest :=
  let at_ i := default 0 (initial_hash !! i) in
  mkDigest (at_ 0%nat) (at_ 1%nat) (at_ 2%nat) (at_ 3%nat) (at_ 4%nat) (at_ 5%nat) (at_ 6%nat) (at_ 7%nat).

Definition Sum256 (msg : bytes) : bytes :=
  let padded := msg ++ padding (len msg) in
  mjoin (big_endian 4 <$> digest_words (blocks (length padded / 64) initial_digest padded)).

(** ** Its length *)

Lemma big_endian_length n x : length (big_endian n x) = n.
Proof. induction n as [|n IH]; cbn; by rewrite ?IH. Qed.

Theorem Sum256_length msg : length (Sum256 msg) = 32%nat.
Proof. unfold Sum256, digest_words. cbn [fmap list_fmap mjoin list_join]. by rewrite !length_app, !big_endian_length. Qed.

(** The blocks are whole: the padded message has a multiple of 64 bytes. *)
Theorem padded_length msg : (length (msg ++ padding (len msg)) mod 64 = 0)%nat.
Proof.
  unfold padding. rewrite length_app. cbn [length]. rewrite length_app, length_replicate, big_endian_length.
  apply Nat2Z.inj. rewrite Nat2Z.inj_mod. unfold len. zdiv.
Qed.

Definition hex (s : bytes) : list Z := bval <$> s.

Example Sum256_abc :
  take 4 (hex (Sum256 (str "abc"))) = [0xba; 0x78; 0x16; 0xbf]
  /\ drop 28 (hex (Sum256 (str "abc"))) = [0xf2; 0x00; 0x15; 0xad].
Proof. vm_compute. done. Qed.

Example Sum256_empty : take 4 (hex (Sum256 [])) = [0xe3; 0xb0; 0xc4; 0x42].
Proof. vm_compute. done. Qed.

(** Two blocks. *)
Example Sum256_two_blocks :
  take 4 (hex (Sum256 (str "abcdbcdecdefdefgefghfghighijhijkijkljklmklmnlmnomnopnopq")))
  = [0x24; 0x8d; 0x6a; 0x61].
Proof. vm_compute. done. Qed.
