(* ===== verification/GoFlag.v ===== *)
(** * Go's [flag] package and [strconv.ParseInt] with base 0

    [parse_flags] is [FlagSet.Parse] of a set of string and int flags:
    one or two dashes, [-name=value] or [-name value], [--] and the first
    argument that is no flag end the flags, the last of repeated flags wins. *)
From Stdlib Require Import Strings.Byte.
From S2P Require Import Prelude GoErrors GoStrings.

(** ** Integers *)

(** [lower] of package [strconv]: the bit that makes a letter small. *)
Definition lower_bit (c : Byte.byte) : Z := Z.lor (bval c) 32.

(** The value of a digit or letter. *)
Definition digit_val (c : Byte.byte) : option Z :=
  if is_digit c then Some (bval c - 48)
  else if (97 <=? lower_bit c) && (lower_bit c <=? 122) then Some (lower_bit c - 87)
  else None.

(** The digits loop of [ParseUint], with the bound of 64 bits checked at the end:
    the value only grows. *)
Fixpoint parse_digits (base : Z) (s : bytes) (n : Z) : option Z :=
  match s with
  | [] => Some n
  | c :: s' =>
    if bool_decide (c = Byte.x5f) then parse_digits base s' n
    else match digit_val c with
         | Some d => if base <=? d then None else parse_digits base s' (n * base + d)
         | None => None
         end
  end.

(** The base of a literal and the text after its prefix. *)
Definition int_base (s : bytes) : Z * bytes :=
  match s with
  | c0 :: c1 :: c2 :: r =>
    if negb (bool_decide (c0 = Byte.x30)) then (10, s)
    else if lower_bit c1 =? 98 then (2, c2 :: r)
    else if lower_bit c1 =? 111 then (8, c2 :: r)
    else if lower_bit c1 =? 120 then (16, c2 :: r)
    else (8, c1 :: c2 :: r)
  | c0 :: r => if bool_decide (c0 = Byte.x30) then (8, r) else (10, s)
  | [] => (10, [])
  end.

(** What [underscoreOK] saw last. *)
Inductive saw := SawDigit | SawUnderscore | SawOther | SawStart.

Fixpoint underscore_loop (hex : bool) (st : saw) (s : bytes) : bool :=
  match s with
  | [] => match st with SawUnderscore => false | _ => true end
  | c :: s' =>
    if is_digit c || (hex && (97 <=? lower_bit c) && (lower_bit c <=? 102))
    then underscore_loop hex SawDigit s'
    else if bool_decide (c = Byte.x5f)
    then match st with SawDigit => underscore_loop hex SawUnderscore s' | _ => false end
    else match st with SawUnderscore => false | _ => underscore_loop hex SawOther s' end
  end.

Definition underscoreOK (s : bytes) : bool :=
  match s with
  | c0 :: c1 :: r =>
    if bool_decide (c0 = Byte.x30)
       && ((lower_bit c1 =? 98) || (lower_bit c1 =? 111) || (lower_bit c1 =? 120))
    then underscore_loop (lower_bit c1 =? 120) SawDigit r
    else underscore_loop false SawStart s
  | _ => underscore_loop false SawStart s
  end.

(** [ParseUint(s, 0, 64)] on the text after the sign. *)
Definition parse_uint0 (s : bytes) : option Z :=
  match s with
  | [] => None
  | _ =>
    let '(base, ds) := int_base s in
    match parse_digits base ds 0 with
    | Some n =>
      if existsb (fun c => bool_decide (c = Byte.x5f)) ds && negb (underscoreOK s) then None
      else if n <? 2 ^ 64 then Some n else None
    | None => None
    end
  end.

(** [ParseInt(s, 0, 64)]. *)
Definition parse_int0 (s : bytes) : option Z :=
  let '(neg, ds) := match s with
                    | c :: r => if bool_decide (c = Byte.x2b) then (false, r)
                                else if bool_decide (c = Byte.x2d) then (true, r)
                                else (false, s)
                    | [] => (false, [])
                    end in
  match parse_uint0 ds with
  | Some n =>
    if negb neg && (2 ^ 63 <=? n) then None
    else if neg && (2 ^ 63 <? n) then None
    else Some (if neg then - n else n)
  | None => None
  end.

(** ** Flags *)

Inductive flag_kind := FString | FInt.

(** The values set: string flags default to the empty string, int flags to 0. *)
Record flags := mkFlags { fl_strs : gmap bytes bytes; fl_ints : gmap bytes Z }.

Definition no_flags : flags := mkFlags ∅ ∅.
Definition flag_str (fl : flags) (name : bytes) : bytes := default [] (fl_strs fl !! name).
Definition flag_int (fl : flags) (name : bytes) : Z := default 0 (fl_ints fl !! name).

(** [flag.Value.Set]. *)
Definition flag_set (k : flag_kind) (name value : bytes) (fl : flags) : option flags :=
  match k with
  | FString => Some (mkFlags (<[name := value]> (fl_strs fl)) (fl_ints fl))
  | FInt => n ← parse_int0 value; Some (mkFlags (fl_strs fl) (<[name := n]> (fl_ints fl)))
  end.

Inductive flag_error :=
  | FlagBadSyntax | FlagHelp | FlagUndefined (name : bytes) | FlagNeedsArg (name : bytes)
  | FlagInvalid (name : bytes).

(** What an argument is: the end of the flags ([true]: it is consumed), a bad
    one, or a flag's name with the value after an equals sign. *)
Inductive arg_shape :=
  | ArgEnd | ArgBad | ArgFlag (name : bytes) (value : option bytes).

Definition dash : Byte.byte := Byte.x2d.
Definition equals : Byte.byte := Byte.x3d.

(** The name and value of [name=value]; the equals sign is not the first byte. *)
Definition split_equals (s : bytes) : bytes * option bytes :=
  match cut s equals with
  | Some (name, value) => (name, Some value)
  | None => (s, None)
  end.

Definition arg_name (s : bytes) : arg_shape :=
  match s with
  | [] => ArgBad
  | c :: _ => if bool_decide (c = dash) || bool_decide (c = equals) then ArgBad
              else let '(name, value) := split_equals s in ArgFlag name value
  end.

Definition classify_arg (s : bytes) : arg_shape :=
  match s with
  | c0 :: c1 :: r =>
    if negb (bool_decide (c0 = dash)) then ArgEnd
    else if bool_decide (c1 = dash) then match r with [] => ArgEnd | _ => arg_name r end
    else arg_name (c1 :: r)
  | _ => ArgEnd
  end.

Section Parse.
Context (table : list (bytes * flag_kind)).

Definition formal (name : bytes) : option flag_kind :=
  snd <$> List.find (fun e => bool_decide (e.1 = name)) table.

Fixpoint parse_flags (args : list bytes) (fl : flags) : flags + flag_error :=
  match args with
  | [] => inl fl
  | s :: rest =>
    match classify_arg s with
    | ArgEnd => inl fl
    | ArgBad => inr FlagBadSyntax
    | ArgFlag name value =>
      match formal name with
      | None =>
        if bool_decide (name = str "help") || bool_decide (name = str "h") then inr FlagHelp
        else inr (FlagUndefined name)
      | Some k =>
        match value, rest with
        | Some v, _ =>
          match flag_set k name v fl with
          | Some fl => parse_flags rest fl
          | None => inr (FlagInvalid name)
          end
        | None, v :: rest =>
          match flag_set k name v fl with
          | Some fl => parse_flags rest fl
          | None => inr (FlagInvalid name)
          end
        | None, [] => inr (FlagNeedsArg name)
        end
      end
    end
  end.
End Parse.

(** ** Types *)

Lemma parse_digits_nonneg base s n r : 0 <= base -> 0 <= n -> parse_digits base s n = Some r -> 0 <= r.
Proof.
  intros Hb. revert n. induction s as [|c s IH]; intros n Hn; cbn [parse_digits]; [by intros [= <-]|].
  case_bool_decide; [by apply IH|]. destruct (digit_val c) as [d|] eqn:Ed; [|done].
  destruct (base <=? d); [done|]. apply IH. enough (0 <= d) by nia.
  unfold digit_val, is_digit, in_range in Ed. repeat case_match; simplify_eq; lia.
Qed.

Lemma parse_int0_range s n : parse_int0 s = Some n -> is_i64 n.
Proof.
  unfold parse_int0, is_i64. destruct (match s with [] => _ | _ => _ end) as [neg ds].
  destruct (parse_uint0 ds) as [u|] eqn:Eu; [|done].
  assert (Hu : 0 <= u).
  { unfold parse_uint0 in Eu. destruct ds as [|c ds]; [done|]. destruct (int_base _) as [base r] eqn:Eb.
    destruct (parse_digits base r 0) as [v|] eqn:Ep; [|done].
    repeat case_match; simplify_eq. eapply parse_digits_nonneg; [|reflexivity || lia|exact Ep].
    unfold int_base in Eb. repeat case_match; simplify_eq; lia. }
  destruct neg; cbn [negb andb]; repeat case_match; try done; intros [= <-]; lia.
Qed.

(** Int flags hold values of [int]. *)
Definition typed_flags (fl : flags) : Prop := map_Forall (fun _ n => is_i64 n) (fl_ints fl).

Lemma parse_flags_typed table args fl fl' :
  typed_flags fl -> parse_flags table args fl = inl fl' -> typed_flags fl'.
Proof.
  assert (Hset : forall k name v fl fl1, flag_set k name v fl = Some fl1 -> typed_flags fl -> typed_flags fl1).
  { intros [] name v f f1; cbn [flag_set]; [by intros [= <-]|].
    destruct (parse_int0 v) as [n|] eqn:En; [|done]. intros [= <-] Hf. unfold typed_flags. cbn.
    apply map_Forall_insert_2; [by eapply parse_int0_range | done]. }
  revert fl. remember (length args) as n eqn:Hn. revert args Hn.
  induction n as [n IH] using lt_wf_ind. intros args -> fl Hf. destruct args as [|s rest]; cbn [parse_flags].
  { by intros [= <-]. }
  destruct (classify_arg s) as [| |name value]; [by intros [= <-] | done |].
  destruct (formal table name) as [k|]; [|by repeat case_match].
  destruct value as [v|]; [|destruct rest as [|v rest]; [done|]];
    (destruct (flag_set k name v fl) as [f1|] eqn:Es; [|done]); apply (IH (length rest)); cbn; eauto.
Qed.

Lemma flag_int_range fl name : typed_flags fl -> is_i64 (flag_int fl name).
Proof.
  intros Hf. unfold flag_int. destruct (fl_ints fl !! name) as [n|] eqn:E; [exact (Hf _ _ E)|].
  unfold is_i64. cbn. lia.
Qed.

Example parse_int0_forms :
  (parse_int0 (str "0x1F"), parse_int0 (str "-017"), parse_int0 (str "1_000"),
   parse_int0 (str "1__0"), parse_int0 (str "0"), parse_int0 (str "08"),
   parse_int0 (str "9223372036854775808"), parse_int0 (str ""))
  = (Some 31, Some (-15), Some 1000, None, Some 0, None, None, None).
Proof. vm_compute. reflexivity. Qed.
