(* ===== verification/Base64.v ===== *)
(** * encoding/base64: [StdEncoding.EncodeToString] and [DecodeString]

    The standard alphabet with [=] padding.  Decoding skips CR and LF anywhere,
    refuses every other byte outside the alphabet, misplaced padding and bytes
    after the padding, and ignores the unused low bits of a final short group
    (the encoding is not [Strict]).  The theorem is the round trip. *)
From Stdlib Require Import Strings.Byte.
From S2P Require Import Prelude.

(** The character of a 6-bit value. *)
Definition b64_char (v : Z) : Byte.byte :=
  if v <? 26 then byte_of (65 + v)
  else if v <? 52 then byte_of (97 + (v - 26))
  else if v <? 62 then byte_of (48 + (v - 52))
  else if v =? 62 then Byte.x2b else Byte.x2f.

(** The value of a character ([enc.decodeMap]). *)
Definition b64_val (c : Byte.byte) : option Z :=
  let v := bval c in
  if (65 <=? v) && (v <=? 90) then Some (v - 65)
  else if (97 <=? v) && (v <=? 122) then Some (v - 97 + 26)
  else if (48 <=? v) && (v <=? 57) then Some (v - 48 + 52)
  else if v =? 43 then Some 62
  else if v =? 47 then Some 63
  else None.

Definition pad : Byte.byte := Byte.x3d.

Fixpoint b64_encode (s : bytes) : bytes :=
  match s with
  | [] => []
  | [a] => [b64_char (bval a / 4); b64_char (bval a mod 4 * 16); pad; pad]
  | [a; b] => [b64_char (bval a / 4); b64_char (bval a mod 4 * 16 + bval b / 16);
               b64_char (bval b mod 16 * 4); pad]
  | a :: b :: c :: s' =>
    b64_char (bval a / 4) :: b64_char (bval a mod 4 * 16 + bval b / 16)
    :: b64_char (bval b mod 16 * 4 + bval c / 64) :: b64_char (bval c mod 64)
    :: b64_encode s'
  end.

Definition is_nl (c : Byte.byte) : bool := (bval c =? 10) || (bval c =? 13).

Fixpoint b64_groups (s : bytes) : option bytes :=
  match s with
  | [] => Some []
  | c0 :: c1 :: c2 :: c3 :: s' =>
    match b64_val c0, b64_val c1 with
    | Some v0, Some v1 =>
      match b64_val c2, b64_val c3 with
      | Some v2, Some v3 =>
        rest ← b64_groups s';
        Some (byte_of (v0 * 4 + v1 / 16) :: byte_of (v1 mod 16 * 16 + v2 / 4)
              :: byte_of (v2 mod 4 * 64 + v3) :: rest)
      | Some v2, None =>
        if bool_decide (c3 = pad) && bool_decide (s' = [])
        then Some [byte_of (v0 * 4 + v1 / 16); byte_of (v1 mod 16 * 16 + v2 / 4)]
        else None
      | None, _ =>
        if bool_decide (c2 = pad) && bool_decide (c3 = pad) && bool_decide (s' = [])
        then Some [byte_of (v0 * 4 + v1 / 16)]
        else None
      end
    | _, _ => None
    end
  | _ => None
  end.

Definition b64_decode (s : bytes) : option bytes :=
  b64_groups (List.filter (fun c => negb (is_nl c)) s).

(** ** Round trip *)

Lemma b64_val_char v : 0 <= v < 64 -> b64_val (b64_char v) = Some v.
Proof.
  intros Hv.
  assert (Hall : Forall (fun n => b64_val (b64_char (Z.of_nat n)) = Some (Z.of_nat n)) (seq 0 64)).
  { repeat constructor; reflexivity. }
  rewrite <- (Z2Nat.id v) by lia. rewrite Forall_forall in Hall. apply Hall.
  apply elem_of_seq. lia.
Qed.

Lemma b64_val_pad : b64_val pad = None.
Proof. reflexivity. Qed.

Ltac byte_bounds :=
  repeat match goal with
  | c : Byte.byte |- _ =>
    lazymatch goal with
    | _ : 0 <= bval c < 256 |- _ => fail
    | _ => pose proof (bval_range c)
    end
  end.

Ltac solve_byte :=
  byte_bounds; rewrite ?bval_byte_of; Z.div_mod_to_equations; lia.

Lemma byte_of_eq z c : z = bval c -> byte_of z = c.
Proof. intros ->. apply byte_of_bval. Qed.

Lemma b64_groups_encode_aux (n : nat) s :
  (length s <= n)%nat -> b64_groups (b64_encode s) = Some s.
Proof.
  revert s; induction n as [|n IH]; intros s Hn.
  { destruct s; [done | simpl in Hn; lia]. }
  destruct s as [|a [|b [|c s]]]; [done | | |].
  - simpl. rewrite !b64_val_char by solve_byte. simpl.
    by rewrite (byte_of_eq _ a) by solve_byte.
  - simpl. rewrite !b64_val_char by solve_byte. simpl.
    by rewrite (byte_of_eq _ a), (byte_of_eq _ b) by solve_byte.
  - simpl. rewrite !b64_val_char by solve_byte. rewrite IH by (simpl in Hn; lia). simpl.
    by rewrite (byte_of_eq _ a), (byte_of_eq _ b), (byte_of_eq _ c) by solve_byte.
Qed.

Lemma b64_groups_encode s : b64_groups (b64_encode s) = Some s.
Proof. by eapply b64_groups_encode_aux. Qed.

(** The bytes an encoding consists of. *)
Definition is_b64 (c : Byte.byte) : bool :=
  match b64_val c with Some _ => true | None => bool_decide (c = pad) end.

Lemma is_b64_char v : 0 <= v < 64 -> is_b64 (b64_char v) = true.
Proof. intros. unfold is_b64. by rewrite b64_val_char. Qed.

Lemma b64_encode_chars_aux (n : nat) s :
  (length s <= n)%nat -> forallb is_b64 (b64_encode s) = true.
Proof.
  revert s; induction n as [|n IH]; intros s Hn.
  { destruct s; [done | simpl in Hn; lia]. }
  destruct s as [|a [|b [|c s]]]; [done | | |]; simpl;
    rewrite !is_b64_char by solve_byte; [done | done |].
  by rewrite IH by (simpl in Hn; lia).
Qed.

Lemma b64_encode_chars s : forallb is_b64 (b64_encode s) = true.
Proof. by eapply b64_encode_chars_aux. Qed.

Lemma is_b64_plain c :
  is_b64 c = true -> is_nl c = false /\ bval c < 128 /\ bval c <> 32.
Proof. destruct c; vm_compute; intros; (discriminate || (split_and!; [done | done | discriminate])). Qed.

Lemma b64_decode_encode s : b64_decode (b64_encode s) = Some s.
Proof.
  unfold b64_decode. rewrite filter_all; [apply b64_groups_encode|].
  apply (forallb_mono is_b64); [| apply b64_encode_chars].
  intros c Hb. by destruct (is_b64_plain _ Hb) as [-> _].
Qed.

(** Whole groups of three bytes are encoded on their own. *)
Lemma b64_encode_app k s t :
  length s = (3 * k)%nat -> b64_encode (s ++ t) = b64_encode s ++ b64_encode t.
Proof.
  revert s. induction k as [|k IH]; intros s Hs; [by destruct s|].
  destruct s as [|a [|b [|c s]]]; simpl in Hs; try lia.
  cbn [b64_encode app]. by rewrite IH by lia.
Qed.

Lemma b64_encode_length_aux (n : nat) s :
  (length s <= n)%nat -> length (b64_encode s) = (4 * ((length s + 2) / 3))%nat.
Proof.
  revert s; induction n as [|n IH]; intros s Hn.
  { destruct s; [done | simpl in Hn; lia]. }
  destruct s as [|a [|b [|c s]]]; [done | done | done |].
  change (b64_encode (a :: b :: c :: s)) with
    ([b64_char (bval a / 4); b64_char (bval a mod 4 * 16 + bval b / 16);
      b64_char (bval b mod 16 * 4 + bval c / 64); b64_char (bval c mod 64)] ++ b64_encode s).
  rewrite length_app, IH by (simpl in Hn; lia). simpl length.
  replace (S (S (S (length s))) + 2)%nat with ((length s + 2) + 1 * 3)%nat by lia.
  rewrite Nat.div_add by lia. lia.
Qed.

(** The encoded length, [4 * ceil(n / 3)]. *)
Lemma b64_encode_length s : length (b64_encode s) = (4 * ((length s + 2) / 3))%nat.
Proof. by eapply b64_encode_length_aux. Qed.
