(* ===== verification/GoIP.v ===== *)
(** * Package net/netip: is the text an IP address?

    [net.ParseIP], of which net/mail asks only whether it succeeds: IPv4 in
    dotted decimal without leading zeros; IPv6 with one ellipsis and a trailing
    IPv4 part; a zone is refused.  The parsers are the loops of the source over
    the unread text. *)
From Stdlib Require Import Strings.Byte.
From S2P Require Import Prelude GoStrings.

Definition dot : Byte.byte := Byte.x2e.
Definition colon_byte : Byte.byte := Byte.x3a.

(** ** IPv4 *)

(** The loop of [parseIPv4Fields]: [pos] fields are complete, [val] is the
    present one, of [digLen] digits. *)
Fixpoint ipv4_fields (pos val digLen : Z) (s : bytes) : bool :=
  match s with
  | [] => (pos =? 3) && (0 <? digLen)
  | c :: r =>
    if is_digit c then
      if (digLen =? 1) && (val =? 0) then false
      else let val := val * 10 + (bval c - 48) in
           if 255 <? val then false else ipv4_fields pos val (digLen + 1) r
    else if bool_decide (c = dot) then
      if (digLen =? 0) || bool_decide (r = []) then false
      else if pos =? 3 then false
      else ipv4_fields (pos + 1) 0 0 r
    else false
  end.

Definition parseIPv4 (s : bytes) : bool := ipv4_fields 0 0 0 s.

(** ** IPv6 *)

Definition hex_val (c : Byte.byte) : option Z :=
  if in_range 48 57 c then Some (bval c - 48)
  else if in_range 97 102 c then Some (bval c - 97 + 10)
  else if in_range 65 70 c then Some (bval c - 65 + 10)
  else None.

(** The digits of a group: their number and the rest; more than four fail. *)
Fixpoint hex_group (off : nat) (s : bytes) : option (nat * bytes) :=
  match s with
  | c :: r =>
    match hex_val c with
    | Some _ => if (3 <? off)%nat then None else hex_group (S off) r
    | None => Some (off, s)
    end
  | [] => Some (off, [])
  end.

(** The loop of [parseIPv6], where [i] bytes of the address are known, and the
    checks after it.  [ellipsis]: one was seen. *)
Fixpoint ipv6_groups (fuel : nat) (i : Z) (ellipsis : bool) (s : bytes) : bool :=
  match fuel with
  | O => false
  | S fuel =>
    if 16 <=? i then bool_decide (s = []) && negb ellipsis
    else
      match hex_group 0 s with
      | None | Some (O, _) => false
      | Some (_, r) =>
        match r with
        | [] => if i + 2 <? 16 then ellipsis else negb ellipsis
        | c :: r' =>
          if bool_decide (c = dot) then
            if negb ellipsis && negb (i =? 12) then false
            else if 16 <? i + 4 then false
            else ipv4_fields 0 0 0 s && (if i + 4 <? 16 then ellipsis else negb ellipsis)
          else if negb (bool_decide (c = colon_byte)) then false
          else
            match r' with
            | [] => false
            | d :: r'' =>
              if bool_decide (d = colon_byte) then
                if ellipsis then false
                else match r'' with
                     | [] => i + 2 <? 16
                     | _ => ipv6_groups fuel (i + 2) true r''
                     end
              else ipv6_groups fuel (i + 2) ellipsis r'
            end
        end
      end
  end.

(** At most eight groups, and the round that finds the address full. *)
Definition parseIPv6 (s : bytes) : bool :=
  match s with
  | c0 :: c1 :: r =>
    if bool_decide (c0 = colon_byte) && bool_decide (c1 = colon_byte)
    then bool_decide (r = []) || ipv6_groups 9 0 true r
    else ipv6_groups 9 0 false s
  | _ => ipv6_groups 9 0 false s
  end.

(** The first dot, colon or percent sign decides.  A percent sign starts a zone,
    and an address with a zone is refused wherever it is. *)
Definition ParseIP (s : bytes) : bool :=
  match List.find (fun c => bool_decide (c = dot) || bool_decide (c = colon_byte)
                            || bool_decide (c = Byte.x25)) s with
  | Some c => if bool_decide (c = dot) then parseIPv4 s
              else if bool_decide (c = colon_byte)
              then negb (bool_decide (Byte.x25 ∈ s)) && parseIPv6 s
              else false
  | None => false
  end.

(** The fuel is enough: a round moves [i] on by two. *)
Lemma ipv6_groups_fuel n i e s :
  i < 18 <= i + 2 * Z.of_nat n -> ipv6_groups (S n) i e s = ipv6_groups n i e s.
Proof.
  revert i e s. induction n as [|n IH]; intros i e s Hn; [lia|].
  set (m := S n) at 1. cbn [ipv6_groups]. subst m.
  destruct (Z.leb_spec 16 i); [done|].
  repeat (case_match; try done); rewrite IH by lia; done.
Qed.

Example ParseIP_samples :
  (ParseIP (str "192.168.0.1"), ParseIP (str "256.0.0.1"), ParseIP (str "1.2.3"), ParseIP (str "01.2.3.4"),
   ParseIP (str "1.2.3.4."), ParseIP (str "::"), ParseIP (str "2001:db8::1"),
   ParseIP (str "1:2:3:4:5:6:7:8"), ParseIP (str "1:2:3:4:5:6:7::"),
   ParseIP (str "::ffff:1.2.3.4"), ParseIP (str "fe80::1%eth0"), ParseIP (str "1::2::3"))
  = (true, false, false, false, false, true, true, true, true, true, false, false).
Proof. vm_compute. reflexivity. Qed.

Example ParseIP_refused :
  (ParseIP (str "1:2:3:4:5:6:7:8:9"), ParseIP (str "1:2:3:4:5:6:7:8::"), ParseIP (str "12345::"),
   ParseIP (str "1:"), ParseIP (str ":1"), ParseIP (str "1.2.3.4::"), ParseIP (str "localhost"))
  = (false, false, false, false, false, false, false).
Proof. vm_compute. reflexivity. Qed.
