(* ===== verification/GoMime.v ===== *)
(** * Message headers and media types

    The parts of [net/mail], [net/textproto] and [mime] the program uses:
    [mail.ReadMessage] with its header reader, canonical header keys,
    [Header.Get] and [MIMEHeader.Set], and [mime.ParseMediaType] (its media
    type and error).  [net/mail.ParseAddress] and the quoted-printable reader
    are the operations of the class [MailParsers], through which the components
    use them; GoMail has the instance. *)
From Stdlib Require Import Strings.Byte.
From S2P Require Import Prelude GoErrors GoStrings.

Definition cr : Byte.byte := Byte.x0d.
Definition lf : Byte.byte := Byte.x0a.
Definition crlf : bytes := [cr; lf].
Definition sp : Byte.byte := Byte.x20.
Definition tab : Byte.byte := Byte.x09.
Definition colon : Byte.byte := Byte.x3a.

(** Space or tab, the blanks of a header line. *)
Definition is_blank (c : Byte.byte) : bool := bool_decide (c = sp) || bool_decide (c = tab).

(** [mail.ParseAddress(s)], of which the program uses only the [Address]
    field, and [io.ReadAll] of a [quotedprintable.Reader]. *)
Class MailParsers := {
  parse_address : bytes -> option bytes;
  qp_read_all : bytes -> option bytes;
}.

(** What the components rely on: an empty string is no address, and the address
    returned is made of bytes of the input ([GoMail.ParseAddress_subset]). *)
Class MailParsersOk `{MailParsers} : Prop := {
  parse_address_nil : parse_address [] = None;
  parse_address_subset s a c : parse_address s = Some a -> c ∈ a -> c ∈ s;
}.

(** The statement [if parsed, err := mail.ParseAddress(a); err == nil { a =
    parsed.Address }], which several parts of the program apply. *)
Definition bare_addr `{MailParsers} (a : bytes) : bytes :=
  match parse_address a with Some a' => a' | None => a end.

Lemma bare_addr_subset `{MailParsersOk} a c : c ∈ bare_addr a -> c ∈ a.
Proof.
  unfold bare_addr. destruct (parse_address a) eqn:E; [|done].
  by apply parse_address_subset.
Qed.

(** ** Reading lines *)

(** [textproto.Reader.ReadLine]: the next line without its LF or CRLF, and the
    unread input; [None] at the end of the input. *)
Definition drop_cr (l : bytes) : bytes :=
  match reverse l with
  | c :: r => if bool_decide (c = cr) then reverse r else l
  | [] => l
  end.

Definition read_line (s : bytes) : option (bytes * bytes) :=
  match s with
  | [] => None
  | _ => match cut s lf with
         | Some (l, rest) => Some (drop_cr l, rest)
         | None => Some (s, [])
         end
  end.

(** [textproto.trim]. *)
Definition trim_blank (s : bytes) : bytes := trim_right is_blank (trim_left is_blank s).

(** The loop [for r.skipSpace() > 0] of [readContinuedLineSlice]. *)
Fixpoint continuation (fuel : nat) (buf s : bytes) : bytes * bytes :=
  match fuel, s with
  | S k, c :: _ =>
    if is_blank c then
      match read_line (trim_left is_blank s) with
      | Some (l, rest) => continuation k (buf ++ [sp] ++ trim_blank l) rest
      | None => (buf ++ [sp], [])
      end
    else (buf, s)
  | _, _ => (buf, s)
  end.

(** [ReadContinuedLine]: [None] at the end of the input. *)
Definition read_continued_line (s : bytes) : option (bytes * bytes) :=
  match read_line s with
  | None => None
  | Some ([], rest) => Some ([], rest)
  | Some (l, rest) => Some (continuation (length rest) (trim_blank l) rest)
  end.

(** ** Header keys and values *)

(** [validHeaderFieldByte]: the token bytes of RFC 7230. *)
Definition is_token_char (c : Byte.byte) : bool :=
  is_upper c || is_lower c || is_digit c
  || existsb (fun d => bool_decide (c = d)) (str "!#$%&'*+-.^_`|~").

Fixpoint canon_aux (upper : bool) (s : bytes) : bytes :=
  match s with
  | [] => []
  | c :: s' =>
    (if upper then upper_byte c else lower_byte c) :: canon_aux (bool_decide (c = Byte.x2d)) s'
  end.

(** [textproto.CanonicalMIMEHeaderKey]. *)
Definition canonical_key (s : bytes) : bytes :=
  if forallb is_token_char s then canon_aux true s else s.

(** [mail.Header], [textproto.MIMEHeader]: [map[string][]string]. *)
Abbreviation header := (gmap bytes (list bytes)).

Definition header_get (h : header) (key : bytes) : bytes :=
  match h !! canonical_key key with
  | Some (v :: _) => v
  | _ => []
  end.

Definition header_set (h : header) (key value : bytes) : header :=
  <[canonical_key key := [value]]> h.

Definition header_add (h : header) (key value : bytes) : header :=
  <[key := default [] (h !! key) ++ [value]]> h.

(** ** [mail.ReadMessage] *)

Inductive header_end := HdrDone | HdrEOF | HdrMalformed (why : string).

(** The loop of [readHeader]; every round consumes a line, so the length of the
    input bounds the rounds. *)
Fixpoint read_header_loop (fuel : nat) (h : header) (s : bytes) : header * bytes * header_end :=
  match fuel with
  | O => (h, s, HdrEOF)
  | S k =>
    match read_continued_line s with
    | None => (h, [], HdrEOF)
    | Some ([], rest) => (h, rest, HdrDone)
    | Some (kv, rest) =>
      match cut kv colon with
      | None => (h, rest, HdrMalformed "malformed header line")
      | Some (key, v) =>
        let ck := canonical_key key in
        if bool_decide (ck = []) then read_header_loop k h rest
        else read_header_loop k (header_add h ck (trim_left is_blank v)) rest
      end
    end
  end.

Definition read_header (s : bytes) : header * bytes * header_end :=
  match s with
  | c :: _ =>
    if is_blank c then (∅, s, HdrMalformed "malformed initial line")
    else read_header_loop (S (length s)) ∅ s
  | [] => read_header_loop 1 ∅ s
  end.

(** A message: its header and the unread rest of the input, its body. *)
Definition read_message (raw : bytes) : result (header * bytes) :=
  match read_header raw with
  | (h, body, HdrDone) => Ok (h, body)
  | (h, body, HdrEOF) =>
    if bool_decide (h = ∅) then Err (Opaque "EOF") else Ok (h, body)
  | (_, _, HdrMalformed why) => Err (Opaque why)
  end.

(** ** [mime.ParseMediaType] *)

Section MediaType.
Context `{UnicodeTables}.

(** [consumeToken]: RFC 2045 token bytes, printable ASCII less the tspecials. *)
Definition is_tspecial (c : Byte.byte) : bool :=
  existsb (fun d => bool_decide (c = d)) (Byte.x22 :: str "()<>@,;:\/[]?=").
Definition is_mime_token_char (c : Byte.byte) : bool :=
  (32 <? bval c) && (bval c <? 127) && negb (is_tspecial c).

Definition consume_token (s : bytes) : bytes * bytes :=
  (take_while is_mime_token_char s, drop_while is_mime_token_char s).

Definition is_crlf_byte (c : Byte.byte) : bool :=
  bool_decide (c = cr) || bool_decide (c = lf).

(** The quoted-string loop of [consumeValue]; [None] is the result [("", v)]. *)
Fixpoint consume_quoted (acc s : bytes) : option (bytes * bytes) :=
  match s with
  | [] => None
  | c :: s1 =>
    if bool_decide (c = Byte.x22) then Some (acc, s1)
    else if bool_decide (c = Byte.x5c) then
      match s1 with
      | d :: s2 =>
        if is_tspecial d then consume_quoted (acc ++ [d]) s2
        else consume_quoted (acc ++ [c]) s1
      | [] => consume_quoted (acc ++ [c]) s1
      end
    else if is_crlf_byte c then None
    else consume_quoted (acc ++ [c]) s1
  end.

Definition consume_value (v : bytes) : bytes * bytes :=
  match v with
  | [] => ([], [])
  | c :: v' =>
    if bool_decide (c = Byte.x22) then default ([], v) (consume_quoted [] v')
    else consume_token v
  end.

(** [consumeMediaParam]; [None] is the result with an empty key. *)
Definition consume_media_param (v : bytes) : option (bytes * bytes * bytes) :=
  match trim_left_space v with
  | c :: rest =>
    if bool_decide (c = Byte.x3b) then
      let '(tok, rest) := consume_token (trim_left_space rest) in
      let param := to_lower tok in
      if bool_decide (param = []) then None
      else match trim_left_space rest with
           | d :: rest =>
             if bool_decide (d = Byte.x3d) then
               let rest := trim_left_space rest in
               let '(value, rest2) := consume_value rest in
               if bool_decide (value = []) && bool_decide (rest2 = rest) then None
               else Some (param, value, rest2)
             else None
           | [] => None
           end
    else None
  | [] => None
  end.

(** [checkMediaTypeDisposition]: [token] or [token/token]. *)
Definition check_media_type (s : bytes) : bool :=
  let '(typ, rest) := consume_token s in
  if bool_decide (typ = []) then false
  else match rest with
       | [] => true
       | c :: rest' =>
         if bool_decide (c = Byte.x2f) then
           let '(subtype, rest2) := consume_token rest' in
           bool_decide (subtype <> []) && bool_decide (rest2 = [])
         else false
       end.

(** The parameter loop.  The code keeps the parameters whose name contains an
    asterisk in a map per base name; a name belongs to one base, so one map
    decides the duplicates. *)
Fixpoint media_params (fuel : nat) (params : gmap bytes bytes) (v : bytes) : option string :=
  match fuel with
  | O => None
  | S k =>
    match trim_left_space v with
    | [] => None
    | v =>
      match consume_media_param v with
      | None =>
        if bool_decide (trim_space v = str ";") then None
        else Some "mime: invalid media parameter"%string
      | Some (key, value, rest) =>
        match params !! key with
        | Some value' =>
          if bool_decide (value' = value) then media_params k params rest
          else Some "mime: duplicate parameter name"%string
        | None => media_params k (<[key := value]> params) rest
        end
      end
    end
  end.

(** [mime.ParseMediaType], its media type and error. *)
Definition parse_media_type (v : bytes) : result bytes :=
  let '(base, rest) := match cut v Byte.x3b with
                       | Some (base, r) => (base, Byte.x3b :: r)
                       | None => (v, [])
                       end in
  let mediatype := trim_space (to_lower base) in
  if check_media_type mediatype then
    match media_params (S (length rest)) ∅ rest with
    | None => Ok mediatype
    | Some why => Err (Opaque why)
    end
  else Err (Opaque "mime: invalid media type").
End MediaType.

(** ** The fuel is enough

    Every round of the loops above consumes input, so any fuel over the length
    of the input gives the same result. *)

Lemma read_line_length s l rest : read_line s = Some (l, rest) -> (length rest < length s)%nat.
Proof.
  unfold read_line. destruct s as [|c s]; [done|].
  destruct (cut (c :: s) lf) as [[l' r]|] eqn:E; intros [= _ <-]; [by eapply cut_length | simpl; lia].
Qed.

Lemma continuation_fuel k k' buf s :
  (length s <= k)%nat -> (length s <= k')%nat ->
  continuation k buf s = continuation k' buf s /\ (length (continuation k buf s).2 <= length s)%nat.
Proof.
  revert k' buf s. induction k as [|k IH]; intros k' buf s Hk Hk'.
  { destruct s; [|simpl in Hk; lia]. by destruct k'. }
  destruct s as [|c s]; [by destruct k'|]. destruct k' as [|k']; [simpl in Hk'; lia|].
  cbn [continuation]. destruct (is_blank c) eqn:Ec; [|done].
  destruct (read_line (trim_left is_blank (c :: s))) as [[l rest]|] eqn:E; [|split; [done | simpl; lia]].
  assert (Hr : (length rest < length (c :: s))%nat).
  { apply read_line_length in E. unfold trim_left in E.
    pose proof (drop_while_length is_blank (c :: s)). lia. }
  destruct (IH k' (buf ++ [sp] ++ trim_blank l) rest) as [H1 H2]; [simpl in *; lia..|].
  split; [done | lia].
Qed.

Lemma read_continued_line_length s l rest :
  read_continued_line s = Some (l, rest) -> (length rest < length s)%nat.
Proof.
  unfold read_continued_line. destruct (read_line s) as [[l0 r0]|] eqn:E; [|done].
  apply read_line_length in E. destruct l0 as [|c l0]; [by intros [= _ <-]|].
  intros [= Hc]. pose proof (continuation_fuel (length r0) (length r0) (trim_blank (c :: l0)) r0) as [_ Hl];
    [lia..|]. rewrite Hc in Hl. simpl in Hl. lia.
Qed.

(** The header loop of any input ends before its fuel does. *)
Theorem read_header_loop_fuel k k' h s :
  (length s < k)%nat -> (length s < k')%nat -> read_header_loop k h s = read_header_loop k' h s.
Proof.
  revert k' h s. induction k as [|k IH]; intros k' h s Hk Hk'; [lia|].
  destruct k' as [|k']; [lia|]. cbn [read_header_loop].
  destruct (read_continued_line s) as [[kv rest]|] eqn:E; [|done].
  apply read_continued_line_length in E. destruct kv as [|c kv]; [done|].
  destruct (cut (c :: kv) colon) as [[key v]|]; [|done].
  destruct (bool_decide _); apply IH; lia.
Qed.

Section MediaFuel.
Context `{UnicodeTables}.

Lemma consume_quoted_length acc s v rest :
  consume_quoted acc s = Some (v, rest) -> (length rest < length s)%nat.
Proof.
  remember (length s) as n eqn:Hn. revert acc s Hn.
  induction n as [n IH] using lt_wf_ind. intros acc s -> Hq.
  destruct s as [|c s1]; [done|]. cbn [consume_quoted] in Hq.
  destruct (bool_decide _); [injection Hq as _ <-; simpl; lia|].
  assert (H1 : forall acc, consume_quoted acc s1 = Some (v, rest) -> (length rest < length (c :: s1))%nat).
  { intros acc' Hq'. specialize (IH (length s1) ltac:(simpl; lia) acc' s1 eq_refl Hq'). simpl. lia. }
  destruct (bool_decide _); [|destruct (is_crlf_byte c); [done | eauto]].
  destruct s1 as [|d s2]; [done|]. destruct (is_tspecial d); [|eauto].
  specialize (IH (length s2) ltac:(simpl; lia) _ s2 eq_refl Hq). simpl. lia.
Qed.

Lemma consume_value_length v : (length (consume_value v).2 <= length v)%nat.
Proof.
  unfold consume_value, consume_token. destruct v as [|c v]; [done|].
  destruct (bool_decide _); [|apply drop_while_length].
  destruct (consume_quoted [] v) as [[a r]|] eqn:E; [|done].
  apply consume_quoted_length in E. simpl. lia.
Qed.

Lemma consume_media_param_length v k x rest :
  consume_media_param v = Some (k, x, rest) -> (length rest < length v)%nat.
Proof.
  unfold consume_media_param, consume_token. pose proof (trim_left_space_length v) as L0.
  destruct (trim_left_space v) as [|c r0]; [done|]. destruct (bool_decide _); [|done].
  pose proof (trim_left_space_length r0) as L1.
  set (r1 := trim_left_space r0) in *. destruct (bool_decide _); [done|].
  pose proof (drop_while_length is_mime_token_char r1) as L2.
  pose proof (trim_left_space_length (drop_while is_mime_token_char r1)) as L3.
  destruct (trim_left_space (drop_while _ r1)) as [|d r3]; [done|]. destruct (bool_decide _); [|done].
  pose proof (trim_left_space_length r3) as L4.
  pose proof (consume_value_length (trim_left_space r3)) as L5.
  destruct (consume_value (trim_left_space r3)) as [val r5].
  destruct (bool_decide _ && _); [done|]. intros [= _ _ <-]. simpl in *. lia.
Qed.

(** So does the parameter loop of [mime.ParseMediaType]. *)
Theorem media_params_fuel k k' params v :
  (length v < k)%nat -> (length v < k')%nat -> media_params k params v = media_params k' params v.
Proof.
  revert k' params v. induction k as [|k IH]; intros k' params v Hk Hk'; [lia|].
  destruct k' as [|k']; [lia|]. cbn [media_params].
  pose proof (trim_left_space_length v) as L0. destruct (trim_left_space v) as [|c r] eqn:E; [done|].
  destruct (consume_media_param (c :: r)) as [[[key x] rest]|] eqn:Ec; [|done].
  apply consume_media_param_length in Ec.
  destruct (params !! key); [destruct (bool_decide _); [|done]|]; apply IH; lia.
Qed.
End MediaFuel.

Example parse_media_type_params `{UnicodeTables} :
  parse_media_type (str "Text/Plain; charset=utf-8;") = Ok (str "text/plain").
Proof. vm_compute. reflexivity. Qed.

Example parse_media_type_dup `{UnicodeTables} :
  parse_media_type (str "a/b; x=1; x=2") = Err (Opaque "mime: duplicate parameter name").
Proof. vm_compute. reflexivity. Qed.

(** ** Reading back a header block

    A header field [key: value] on one line is read as that field. *)

(** Text that stays on its header line. *)
Definition one_line (s : bytes) : Prop := (cr ∉ s) /\ (lf ∉ s).

#[global] Instance one_line_dec s : Decision (one_line s).
Proof. unfold one_line. apply _. Defined.

Lemma one_line_app s t : one_line (s ++ t) <-> (one_line s /\ one_line t).
Proof. unfold one_line. rewrite !elem_of_app. tauto. Qed.

Lemma drop_cr_snoc l : drop_cr (l ++ [cr]) = l.
Proof.
  unfold drop_cr. rewrite reverse_app. simpl. by rewrite reverse_involutive.
Qed.

Lemma read_line_crlf l rest : one_line l -> read_line (l ++ crlf ++ rest) = Some (l, rest).
Proof.
  intros [Hcr Hlf]. unfold read_line.
  replace (l ++ crlf ++ rest) with ((l ++ [cr]) ++ lf :: rest)
    by (by rewrite <- app_assoc).
  rewrite cut_app; [| intros [H|H%list_elem_of_singleton]%elem_of_app; done].
  rewrite drop_cr_snoc.
  destruct ((l ++ [cr]) ++ lf :: rest) eqn:E; [| done].
  apply (f_equal length) in E. rewrite !length_app in E. simpl in E. lia.
Qed.

(** The next line is not a continuation line. *)
Definition fresh_line (s : bytes) : Prop :=
  match s with c :: _ => is_blank c = false | [] => True end.

Lemma continuation_fresh fuel buf s : fresh_line s -> continuation fuel buf s = (buf, s).
Proof. destruct fuel, s as [|c s]; simpl; try done. by intros ->. Qed.

Lemma read_continued_line_field l rest :
  one_line l -> l <> [] -> fresh_line rest ->
  read_continued_line (l ++ crlf ++ rest) = Some (trim_blank l, rest).
Proof.
  intros Hl Hne Hf. unfold read_continued_line. rewrite read_line_crlf by done.
  destruct l; [done|]. by rewrite continuation_fresh.
Qed.

Lemma read_continued_line_blank rest : read_continued_line (crlf ++ rest) = Some ([], rest).
Proof.
  unfold read_continued_line. change (crlf ++ rest) with ([] ++ crlf ++ rest).
  rewrite read_line_crlf; [done|]. split; apply not_elem_of_nil.
Qed.

(** A field name: token bytes, at least one. *)
Definition field_name (k : bytes) : Prop := k <> [] /\ forallb is_token_char k = true.

#[global] Instance field_name_dec k : Decision (field_name k).
Proof. unfold field_name. apply _. Defined.

Lemma token_char_plain c :
  is_token_char c = true -> c <> colon /\ c <> cr /\ c <> lf /\ is_blank c = false.
Proof. destruct c; vm_compute; intros; (discriminate || (split_and!; done)). Qed.

Lemma field_name_notin k c :
  forallb is_token_char k = true -> is_token_char c = false -> c ∉ k.
Proof.
  intros Hk Hc Hin. rewrite forallb_forall in Hk.
  apply list_elem_of_In, Hk in Hin. congruence.
Qed.

Lemma field_name_one_line k : field_name k -> one_line k.
Proof. intros [_ Hk]. split; by eapply field_name_notin. Qed.

Lemma canonical_key_nonempty k : field_name k -> canonical_key k <> [].
Proof. intros [Hne Hk]. unfold canonical_key. rewrite Hk. by destruct k. Qed.

Definition field (key value : bytes) : bytes := key ++ str ": " ++ value ++ crlf.

Lemma field_name_fresh k s : field_name k -> fresh_line (k ++ s).
Proof.
  intros [Hne Hk]. destruct k as [|c k]; [done|]. simpl in Hk |- *.
  apply andb_true_iff in Hk as [Hc _]. apply (token_char_plain _ Hc).
Qed.

Lemma field_line_app k v rest : field k v ++ rest = (k ++ str ": " ++ v) ++ crlf ++ rest.
Proof. unfold field. by rewrite <- !app_assoc. Qed.

(** The trimmed header line splits into the key and the trimmed value. *)
Lemma cut_field_line k v :
  field_name k ->
  exists v', cut (trim_blank (k ++ str ": " ++ v)) colon = Some (k, v')
             /\ trim_left is_blank v' = trim_blank v.
Proof.
  intros Hk. exists (trim_right is_blank (sp :: v)). split.
  - unfold trim_blank.
    assert (Hl : trim_left is_blank (k ++ str ": " ++ v) = k ++ str ": " ++ v).
    { destruct Hk as [Hne Ht]. destruct k as [|c k]; [done|]. simpl in Ht.
      apply andb_true_iff in Ht as [Hc _]. apply token_char_plain in Hc as (_ & _ & _ & Hb).
      unfold trim_left. simpl. by rewrite Hb. }
    rewrite Hl. change (str ": " ++ v) with (colon :: sp :: v).
    rewrite trim_right_app by done. apply cut_app.
    destruct Hk as [_ Ht]. by eapply field_name_notin.
  - rewrite trim_left_right. done.
Qed.

Lemma trim_blank_field_nonempty k v : field_name k -> trim_blank (k ++ str ": " ++ v) <> [].
Proof. intros Hk E. destruct (cut_field_line k v Hk) as (v' & H & _). by rewrite E in H. Qed.

(** One field of the block. *)
Lemma read_header_loop_field fuel h k v rest :
  field_name k -> one_line v -> fresh_line rest ->
  read_header_loop (S fuel) h (field k v ++ rest)
  = read_header_loop fuel (header_add h (canonical_key k) (trim_blank v)) rest.
Proof.
  intros Hk Hv Hf. rewrite field_line_app.
  cbn [read_header_loop].
  rewrite read_continued_line_field; [| | | done].
  2:{ rewrite !one_line_app. split_and!; [by apply field_name_one_line | | done].
      by apply (bool_decide_unpack _). }
  2:{ destruct Hk as [Hne _]. by destruct k. }
  pose proof (trim_blank_field_nonempty k v Hk) as Hne.
  destruct (cut_field_line k v Hk) as (v' & -> & ->).
  destruct (trim_blank _); [done|].
  by rewrite bool_decide_eq_false_2 by by apply canonical_key_nonempty.
Qed.

(** The blank line that ends the block. *)
Lemma read_header_loop_end fuel h rest :
  read_header_loop (S fuel) h (crlf ++ rest) = (h, rest, HdrDone).
Proof. cbn [read_header_loop]. by rewrite read_continued_line_blank. Qed.

(** A block of fields, read in order. *)
Definition fields (l : list (bytes * bytes)) : bytes := mjoin ((fun kv => field kv.1 kv.2) <$> l).

Definition add_fields (h : header) (l : list (bytes * bytes)) : header :=
  foldl (fun h kv => header_add h (canonical_key kv.1) (trim_blank kv.2)) h l.

Lemma fields_cons k v l : fields ((k, v) :: l) = field k v ++ fields l.
Proof. done. Qed.

Lemma fields_fresh l rest :
  Forall (fun kv => field_name kv.1) l -> fresh_line rest -> fresh_line (fields l ++ rest).
Proof.
  intros Hl Hr. destruct l as [|[k v] l]; [done|].
  apply Forall_cons in Hl as [Hk _]. rewrite fields_cons. unfold field.
  rewrite <- !app_assoc. by apply field_name_fresh.
Qed.

Lemma read_header_loop_fields fuel h l rest :
  Forall (fun kv => field_name kv.1 /\ one_line kv.2) l -> (length l < fuel)%nat ->
  read_header_loop fuel h (fields l ++ crlf ++ rest) = (add_fields h l, rest, HdrDone).
Proof.
  revert fuel h; induction l as [|[k v] l IH]; intros fuel h Hl Hfuel.
  - destruct fuel; [simpl in Hfuel; lia|]. apply read_header_loop_end.
  - destruct fuel as [|fuel]; [simpl in Hfuel; lia|].
    apply Forall_cons in Hl as [[Hk Hv] Hl].
    rewrite fields_cons, <- app_assoc.
    rewrite read_header_loop_field; [| exact Hk | exact Hv |].
    + apply IH; [done | simpl in Hfuel; lia].
    + apply fields_fresh; [by eapply Forall_impl; [exact Hl | intros ? [? ?]] | done].
Qed.

Lemma fields_length l : (length l <= length (fields l))%nat.
Proof.
  induction l as [|[k v] l IH]; [done|].
  rewrite fields_cons. unfold field. rewrite !length_app. simpl. lia.
Qed.

(** [header.Get] after a block of fields: the first value of the key. *)
Lemma add_fields_keep h l ck v vs :
  h !! ck = Some (v :: vs) -> exists vs', add_fields h l !! ck = Some (v :: vs').
Proof.
  unfold add_fields. revert h vs. induction l as [|kv l IH]; intros h vs Hh; [by exists vs|].
  cbn [foldl]. destruct (decide (canonical_key kv.1 = ck)) as [E|E].
  - apply (IH _ (vs ++ [trim_blank kv.2])). unfold header_add.
    by rewrite E, lookup_insert_eq, Hh.
  - apply (IH _ vs). unfold header_add. by rewrite lookup_insert_ne.
Qed.

Lemma header_get_fields h l k :
  h !! canonical_key k = None ->
  header_get (add_fields h l) k
  = match List.find (fun kv => bool_decide (canonical_key kv.1 = canonical_key k)) l with
    | Some kv => trim_blank kv.2
    | None => []
    end.
Proof.
  revert h. induction l as [|kv l IH]; intros h Hh.
  { unfold header_get. cbn. by rewrite Hh. }
  cbn [List.find]. case_bool_decide as E.
  - destruct (add_fields_keep (header_add h (canonical_key kv.1) (trim_blank kv.2)) l
                (canonical_key k) (trim_blank kv.2) []) as (vs & Hvs).
    { unfold header_add. by rewrite E, lookup_insert_eq, Hh. }
    unfold header_get. change (add_fields h (kv :: l))
      with (add_fields (header_add h (canonical_key kv.1) (trim_blank kv.2)) l). by rewrite Hvs.
  - apply IH. unfold header_add. by rewrite lookup_insert_ne.
Qed.

Lemma add_fields_other h l ck :
  h !! ck = None -> Forall (fun kv => canonical_key kv.1 <> ck) l -> add_fields h l !! ck = None.
Proof.
  unfold add_fields. intros Hh Hl. revert h Hh.
  induction Hl as [|kv l Hk Hl IH]; intros h Hh; [done|].
  apply IH. unfold header_add. by rewrite lookup_insert_ne.
Qed.

Lemma add_fields_app h l1 l2 : add_fields h (l1 ++ l2) = add_fields (add_fields h l1) l2.
Proof. unfold add_fields. by rewrite foldl_app. Qed.

Lemma fields_app l1 l2 : fields (l1 ++ l2) = fields l1 ++ fields l2.
Proof.
  induction l1 as [|[k v] l1 IH]; [done|].
  cbn [app]. by rewrite !fields_cons, IH, app_assoc.
Qed.

(** [read_message] reads the block back, and the rest is the body. *)
Lemma read_message_fields l body :
  l <> [] -> Forall (fun kv => field_name kv.1 /\ one_line kv.2) l ->
  read_message (fields l ++ crlf ++ body) = Ok (add_fields ∅ l, body).
Proof.
  intros Hne Hl. unfold read_message, read_header.
  assert (Hf : fresh_line (fields l ++ crlf ++ body)).
  { apply fields_fresh; [by eapply Forall_impl; [exact Hl | intros ? [? ?]] | done]. }
  assert (Hlen : (length l < S (length (fields l ++ crlf ++ body)))%nat).
  { rewrite length_app. pose proof (fields_length l). lia. }
  destruct (fields l ++ crlf ++ body) as [|c s] eqn:E.
  - destruct l as [|[k v] l]; [done|]. pose proof (fields_length ((k, v) :: l)).
    apply app_eq_nil in E as [E _]. rewrite E in H. simpl in H. lia.
  - simpl in Hf. rewrite Hf. rewrite <- E. rewrite read_header_loop_fields; [done|done|].
    rewrite <- E in Hlen. done.
Qed.
