(* ===== verification/GoQuoted.v ===== *)
(** * mime/quotedprintable: [io.ReadAll] of a [Reader]

    The reader takes its input line by line from a [bufio.Reader] of 4096 bytes,
    so that a longer line is an error; trailing white space of a line is dropped,
    a soft line break joins lines, and an equals sign that is not followed by two
    hexadecimal digits stands for itself inside a line. *)
From Stdlib Require Import Strings.Byte.
From S2P Require Import Prelude GoStrings GoIP GoMime.

Definition equals_byte : Byte.byte := Byte.x3d.

(** The state of [r.rerr]. *)
Inductive read_err := ReadMore | ReadEOF | ReadFailed.

Definition bufio_size : nat := 4096.

(** [ReadSlice] up to a line feed: the slice, the rest and the error; the buffer
    is full when it holds no line feed. *)
Definition read_slice (s : bytes) : bytes * bytes * read_err :=
  match cut (take bufio_size s) lf with
  | Some (l, _) => (l ++ [lf], drop (S (length l)) s, ReadMore)
  | None => if (length s <? bufio_size)%nat then (s, [], ReadEOF)
            else (take bufio_size s, drop bufio_size s, ReadFailed)
  end.

Definition is_qp_space (c : Byte.byte) : bool :=
  bool_decide (c = lf) || bool_decide (c = cr) || bool_decide (c = sp) || bool_decide (c = tab).

(** The line without the white space at its end, and the error after it. *)
Definition qp_line (whole : bytes) (rerr : read_err) : bytes * read_err :=
  let line := trim_right is_qp_space whole in
  if bool_decide (last line = Some equals_byte) then
    let stripped := drop (length line) whole in
    let line := removelast line in
    (line, if has_prefix stripped [lf] || has_prefix stripped crlf
              || (bool_decide (stripped = []) && negb (bool_decide (line = []))
                  && match rerr with ReadEOF => true | _ => false end)
           then rerr else ReadFailed)
  else if bool_decide (last whole = Some lf) then
    (if has_prefix (reverse whole) [lf; cr] then line ++ crlf else line ++ [lf], rerr)
  else (line, rerr).

(** The bytes of a line. *)
Fixpoint qp_decode (line : bytes) : option bytes :=
  match line with
  | [] => Some []
  | b :: r =>
    if bool_decide (b = equals_byte) then
      let literal (_ : unit) :=
        match r with
        | c :: _ => if bool_decide (c = cr) || bool_decide (c = lf) then None
                    else t ← qp_decode r; Some (equals_byte :: t)
        | [] => None
        end in
      match r with
      | h :: l :: r' =>
        match hex_val h, hex_val l with
        | Some hb, Some lb => t ← qp_decode r'; Some (byte_of (hb * 16 + lb) :: t)
        | _, _ => literal ()
        end
      | _ => literal ()
      end
    else if bool_decide (b = tab) || bool_decide (b = cr) || bool_decide (b = lf)
            || (0x80 <=? bval b) || in_range 32 126 b
    then t ← qp_decode r; Some (b :: t)
    else None
  end.

Fixpoint qp_loop (fuel : nat) (s : bytes) : option bytes :=
  match fuel with
  | O => None
  | S fuel =>
    let '(whole, rest, rerr) := read_slice s in
    let '(line, rerr) := qp_line whole rerr in
    text ← qp_decode line;
    match rerr with
    | ReadMore => more ← qp_loop fuel rest; Some (text ++ more)
    | ReadEOF => Some text
    | ReadFailed => None
    end
  end.

(** [io.ReadAll(quotedprintable.NewReader(r))]; [None] for an error. *)
Definition QuotedPrintable (s : bytes) : option bytes := qp_loop (S (length s)) s.

(** A round that does not end the input takes a byte at least. *)
Lemma read_slice_length s whole rest rerr :
  read_slice s = (whole, rest, rerr) -> rerr = ReadMore -> (length rest < length s)%nat.
Proof.
  unfold read_slice. destruct (cut (take bufio_size s) lf) as [[l r]|] eqn:E.
  - intros [= _ <- _] _. destruct s as [|c s]; [by rewrite take_nil in E|].
    rewrite length_drop. cbn [length]. lia.
  - destruct (length s <? bufio_size)%nat; by intros [= _ _ <-].
Qed.

Lemma qp_line_more whole rerr : (qp_line whole rerr).2 = ReadMore -> rerr = ReadMore.
Proof. unfold qp_line. destruct rerr; repeat case_match; cbn [snd]; congruence. Qed.

Lemma qp_loop_fuel n s : (length s < n)%nat -> qp_loop (S n) s = qp_loop n s.
Proof.
  revert s. induction n as [|n IH]; intros s Hn; [lia|]. set (m := S n) at 1. cbn [qp_loop]. subst m.
  destruct (read_slice s) as [[whole rest] rerr] eqn:Er.
  pose proof (qp_line_more whole rerr) as Hm. destruct (qp_line whole rerr) as [line rerr'].
  destruct (qp_decode line); [|done]. cbn [mbind option_bind]. destruct rerr'; try done.
  specialize (Hm eq_refl). pose proof (read_slice_length _ _ _ _ Er Hm). by rewrite IH by lia.
Qed.

Example QuotedPrintable_forms :
  (QuotedPrintable (str "foo=20bar=3D"), QuotedPrintable (str "foo=" ++ crlf ++ str "bar  " ++ crlf),
   QuotedPrintable (str "a=zz"), QuotedPrintable (str "soft="), QuotedPrintable (str "="),
   QuotedPrintable (str "a= b" ++ [lf]), QuotedPrintable (str "a=  " ++ [lf]),
   QuotedPrintable [Byte.x01], QuotedPrintable (replicate 4096 Byte.x61))
  = (Some (str "foo bar="), Some (str "foobar" ++ crlf), Some (str "a=zz"), Some (str "soft"),
     None, Some (str "a= b" ++ [lf]), None, None, None).
Proof. vm_compute. reflexivity. Qed.
