(* ===== verification/GoMail.v ===== *)
(** * net/mail: addresses

    [mail.ParseAddress], of which the program uses whether it fails and the
    [Address] field.  The parser is the recursive descent of the source over the
    unread text; a display name is consumed but not kept, since only its errors
    matter (an encoded word in an unknown charset is one).  Module GoLibrary is the
    instance of [MailParsers], with its laws. *)
From Stdlib Require Import Strings.Byte.
From S2P Require Import Prelude GoStrings Base64 GoIP GoMime GoQuoted.

(** ** Characters *)

Definition isMultibyte (r : Z) : bool := 0x80 <=? r.
Definition isVchar (r : Z) : bool := ((33 <=? r) && (r <=? 126)) || isMultibyte r.
Definition isWSP (r : Z) : bool := (r =? 32) || (r =? 9).

(** The rune is the ASCII character. *)
Definition is_char (r : Z) (c : Byte.byte) : bool := r =? bval c.

Definition specials : bytes := Byte.x22 :: str "()<>[]:;@\,".

Definition isAtext (r : Z) (dotted : bool) : bool :=
  if is_char r dot then dotted
  else if existsb (is_char r) specials then false
  else isVchar r.

Definition backslash : Byte.byte := Byte.x5c.
Definition dquote : Byte.byte := Byte.x22.

Definition isQtext (r : Z) : bool :=
  if is_char r backslash || is_char r dquote then false else isVchar r.

Definition isDtext (r : Z) : bool :=
  if is_char r Byte.x5b || is_char r Byte.x5d || is_char r backslash then false else isVchar r.

(** The bytes of a run of runes. *)
Definition unrunes (rs : list (Z * bytes)) : bytes := mjoin (snd <$> rs).

(** [size == 1 && r == utf8.RuneError]. *)
Definition invalid_rune (rc : Z * bytes) : bool := (length rc.2 =? 1)%nat && (rc.1 =? rune_error).

(** ** Tokens *)

Definition skipSpace (s : bytes) : bytes := trim_left is_blank s.

Definition consume (c : Byte.byte) (s : bytes) : option bytes :=
  match s with
  | d :: r => if bool_decide (d = c) then Some r else None
  | [] => None
  end.

(** The runes of an atom; an invalid byte behind them is an error. *)
Fixpoint atom_runes (dotted : bool) (rs : list (Z * bytes)) : option (bytes * bytes) :=
  match rs with
  | [] => Some ([], [])
  | rc :: rest =>
    if invalid_rune rc then None
    else if negb (isAtext rc.1 dotted) then Some ([], unrunes rs)
    else '(a, r) ← atom_runes dotted rest; Some (rc.2 ++ a, r)
  end.

(** [consumeAtom]. *)
Definition consumeAtom (dotted permissive : bool) (s : bytes) : option (bytes * bytes) :=
  '(atom, r) ← atom_runes dotted (runes s);
  if bool_decide (atom = []) then None
  else if negb permissive
          && (has_prefix atom [dot] || bool_decide (is_Some (index atom [dot; dot]))
              || bool_decide (last atom = Some dot))
  then None
  else Some (atom, r).

(** [consumeQuotedString] behind the opening quote; a valid rune is written back
    as it was read. *)
Fixpoint quoted_runes (escaped : bool) (rs : list (Z * bytes)) : option (bytes * bytes) :=
  match rs with
  | [] => None
  | rc :: rest =>
    let keep (_ : unit) := '(q, r) ← quoted_runes false rest; Some (rc.2 ++ q, r) in
    if invalid_rune rc then None
    else if escaped then if negb (isVchar rc.1) && negb (isWSP rc.1) then None else keep ()
    else if isQtext rc.1 || isWSP rc.1 then keep ()
    else if is_char rc.1 dquote then Some ([], unrunes rest)
    else if is_char rc.1 backslash then quoted_runes true rest
    else None
  end.

Definition consumeQuotedString (s : bytes) : option (bytes * bytes) :=
  quoted_runes false (runes (tail s)).

(** [consumeDomainLiteral] behind the opening bracket. *)
Fixpoint dtext_runes (rs : list (Z * bytes)) : option (bytes * bytes) :=
  match rs with
  | [] => None
  | rc :: rest =>
    if is_char rc.1 Byte.x5d then Some ([], unrunes rest)
    else if invalid_rune rc then None
    else if negb (isDtext rc.1) then None
    else '(d, r) ← dtext_runes rest; Some (rc.2 ++ d, r)
  end.

Definition consumeDomainLiteral (s : bytes) : option (bytes * bytes) :=
  '(dtext, r) ← dtext_runes (runes (tail s));
  if ParseIP dtext then Some ([Byte.x5b] ++ dtext ++ [Byte.x5d], r) else None.

(** ** Comments and white space *)

(** [consumeComment] behind the opening parenthesis: the text and the rest,
    [None] when it is not closed. *)
Fixpoint comment_loop (depth : Z) (s : bytes) : option (bytes * bytes) :=
  match s with
  | [] => None
  | c :: r =>
    if bool_decide (c = backslash) then
      match r with
      | c2 :: r2 => '(t, rest) ← comment_loop depth r2; Some (c2 :: t, rest)
      | [] => None
      end
    else if bool_decide (c = Byte.x29) && (depth =? 1) then Some ([], r)
    else
      let depth := if bool_decide (c = Byte.x28) then depth + 1
                   else if bool_decide (c = Byte.x29) then depth - 1 else depth in
      '(t, rest) ← comment_loop depth r; Some (c :: t, rest)
  end.

Definition consumeComment : bytes -> option (bytes * bytes) := comment_loop 1.

Fixpoint cfws_loop (fuel : nat) (s : bytes) : option bytes :=
  let s := skipSpace s in
  match fuel, consume Byte.x28 s with
  | _, None => Some s
  | O, Some _ => None
  | S fuel, Some r => '(_, r) ← consumeComment r; cfws_loop fuel r
  end.

(** [skipCFWS]: at most one comment per byte. *)
Definition skipCFWS (s : bytes) : option bytes := cfws_loop (length s) s.

(** ** Encoded words *)

(** [decodeRFC2047Word]: decoded, not an encoded word, or an encoded word in a
    charset that is not known, which is the only error. *)
Inductive word_kind := WordDecoded | WordPlain | WordBadCharset.

(** [qDecode], of which the error matters. *)
Fixpoint q_ok (s : bytes) : bool :=
  match s with
  | [] => true
  | c :: r =>
    if bool_decide (c = Byte.x5f) then q_ok r
    else if bool_decide (c = Byte.x3d) then
      match r with
      | h :: l :: r => bool_decide (is_Some (hex_val h)) && bool_decide (is_Some (hex_val l)) && q_ok r
      | _ => false
      end
    else if in_range 32 126 c || bool_decide (c = lf) || bool_decide (c = cr) || bool_decide (c = tab)
    then q_ok r else false
  end.

Definition question : Byte.byte := Byte.x3f.

Definition cut_or_all (s : bytes) (c : Byte.byte) : bytes * bytes := default (s, []) (cut s c).

(** [strings.HasSuffix]. *)
Definition has_suffix (s p : bytes) : bool := has_prefix (reverse s) (reverse p).

Definition known_charset (charset : bytes) : bool :=
  equal_fold_ascii charset (str "utf-8") || equal_fold_ascii charset (str "iso-8859-1")
  || equal_fold_ascii charset (str "us-ascii").

(** [mime.WordDecoder.Decode]. *)
Definition decodeRFC2047Word (word : bytes) : word_kind :=
  if (len word <? 8) || negb (has_prefix word (str "=?")) || negb (has_suffix word (str "?="))
     || negb (length (List.filter (fun c => bool_decide (c = question)) word) =? 4)%nat
  then WordPlain
  else
    let word := take (length word - 4) (drop 2 word) in
    let '(charset, text) := cut_or_all word question in
    if bool_decide (charset = []) then WordPlain
    else
      let '(encoding, text) := cut_or_all text question in
      let decodes :=
        match encoding with
        | [e] => if bool_decide (e ∈ str "Bb") then bool_decide (is_Some (b64_decode text))
                 else bool_decide (e ∈ str "Qq") && q_ok text
        | _ => false
        end in
      if negb decodes then WordPlain
      else if known_charset charset then WordDecoded else WordBadCharset.

(** ** Addresses *)

Definition at_sign : Byte.byte := Byte.x40.

(** [consumeAddrSpec]; when it fails the text is read anew from where it began. *)
Definition consumeAddrSpec (s : bytes) : option (bytes * bytes) :=
  let s := skipSpace s in
  '(localPart, s) ← match s with
                    | [] => None
                    | c :: _ =>
                      if bool_decide (c = dquote) then
                        '(q, r) ← consumeQuotedString s; if bool_decide (q = []) then None else Some (q, r)
                      else consumeAtom true false s
                    end;
  s ← consume at_sign s;
  let s := skipSpace s in
  '(domain, s) ← match s with
                 | [] => None
                 | c :: _ => if bool_decide (c = Byte.x5b) then consumeDomainLiteral s
                             else consumeAtom true false s
                 end;
  Some (localPart ++ [at_sign] ++ domain, s).

(** The loop of [consumePhrase], the text behind the phrase: a word that fails
    ends the phrase if there was one before. *)
Fixpoint phrase_loop (fuel : nat) (any : bool) (s : bytes) : option bytes :=
  s ← (if any then skipCFWS s else Some s);
  let s := skipSpace s in
  let stop (s : bytes) := if any then Some s else None in
  match s, fuel with
  | [], _ => stop []
  | _, O => None
  | c :: _, S fuel =>
    if bool_decide (c = dquote) then
      match consumeQuotedString s with
      | Some (_, r) => phrase_loop fuel true r
      | None => stop s
      end
    else
      match consumeAtom true true s with
      | Some (word, r) =>
        match decodeRFC2047Word word with
        | WordBadCharset => stop r
        | _ => phrase_loop fuel true r
        end
      | None => stop s
      end
  end.

Definition consumePhrase (s : bytes) : option bytes := phrase_loop (length s) false s.

(** [consumeDisplayNameComment] behind its opening parenthesis. *)
Definition consumeDisplayNameComment (s : bytes) : option bytes :=
  '(comment, r) ← consumeComment s;
  let words := List.filter (fun w => negb (bool_decide (w = [])))
                 (split ((fun c => if bool_decide (c = tab) then sp else c) <$> comment) sp) in
  if existsb (fun w => match decodeRFC2047Word w with WordBadCharset => true | _ => false end) words
  then None else Some r.

(** [parseAddress]; [group] is what a colon after the display name leads to. *)
Definition parseAddress (group : option (bytes -> option (list bytes * bytes))) (s : bytes)
    : option (list bytes * bytes) :=
  let s := skipSpace s in
  match s with
  | [] => None
  | c :: _ =>
    match consumeAddrSpec s with
    | Some (spec, s) =>
      let s := skipSpace s in
      match consume Byte.x28 s with
      | Some r => s ← consumeDisplayNameComment r; Some ([spec], s)
      | None => Some ([spec], s)
      end
    | None =>
      s ← (if bool_decide (c = Byte.x3c) then Some s else consumePhrase s);
      let s := skipSpace s in
      match group, consume colon s with
      | Some parse_group, Some s => parse_group s
      | _, _ =>
        s ← consume Byte.x3c s;
        '(spec, s) ← consumeAddrSpec s;
        s ← consume Byte.x3e s;
        Some ([spec], s)
      end
    end
  end.

(** [consumeGroupList]. *)
Fixpoint group_loop (fuel : nat) (s : bytes) : option (list bytes * bytes) :=
  match fuel with
  | O => None
  | S fuel =>
    '(addrs, s) ← parseAddress None (skipSpace s);
    s ← skipCFWS s;
    match consume Byte.x3b s with
    | Some s => s ← skipCFWS s; Some (addrs, s)
    | None =>
      s ← consume Byte.x2c s;
      '(more, s) ← group_loop fuel s;
      Some (addrs ++ more, s)
    end
  end.

Definition consumeGroupList (s : bytes) : option (list bytes * bytes) :=
  let s := skipSpace s in
  match consume Byte.x3b s with
  | Some s => s ← skipCFWS s; Some ([], s)
  | None => group_loop (S (length s)) s
  end.

(** [mail.ParseAddress], its [Address]. *)
Definition ParseAddress (s : bytes) : option bytes :=
  '(addrs, s) ← parseAddress (Some consumeGroupList) s;
  s ← skipCFWS s;
  match s, addrs with
  | [], [a] => Some a
  | _, _ => None
  end.

Example ParseAddress_forms :
  (ParseAddress (str "jdoe@machine.example"),
   ParseAddress (str "John Doe <jdoe@machine.example>"),
   ParseAddress (Byte.x22 :: str "Joe Q. Public" ++ Byte.x22 :: str " <john.q.public@example.com>"),
   ParseAddress (str " ( ignore me ) <jdoe@[192.168.0.1]> (x)"),
   ParseAddress (str "jdoe@machine.example (John)"),
   ParseAddress (str "Group1: <addr1@example.com>;"),
   ParseAddress (str "=?us-ascii?Q?Firstname_Lastname?= <u@example.com>"),
   ParseAddress (Byte.x22 :: str "john doe" ++ Byte.x22 :: str "@example.com"),
   ParseAddress (str "John (middle) Doe <jdoe@machine.example>"))
  = (Some (str "jdoe@machine.example"), Some (str "jdoe@machine.example"),
     Some (str "john.q.public@example.com"), None, Some (str "jdoe@machine.example"),
     Some (str "addr1@example.com"), Some (str "u@example.com"), Some (str "john doe@example.com"),
     Some (str "jdoe@machine.example")).
Proof. vm_compute. reflexivity. Qed.

Example ParseAddress_errors :
  ParseAddress <$> [str ""; str "john.doe"; str "a@gmail.com b@gmail.com"; str "John Doe@foo.bar";
                    str "<jdoe#machine.example>"; str "cfws@example.com ("; str "empty group: ;";
                    str "root group: embed group: null@example.com;"; str "group not closed: null@example.com";
                    str "group: a@example.com, b@example.com;"; str "(John) Doe <jdoe@machine.example>";
                    str "<jdoe@[256.0.0.1]>"; str "=?iso-8859-2?Q?x?= <unknown@gmail.com>";
                    str ".a@b"; str "a..b@c"; str "a.@b"; str "a@b."]
  = replicate 17 None.
Proof. vm_compute. reflexivity. Qed.

(** ** What a parser takes *)

(** From [s] the parser took some text, which holds the bytes of [q], and left [r]. *)
Definition takes (s q r : bytes) : Prop := exists p, s = p ++ r /\ q ⊆ p.

Lemma takes_trans s q1 r1 q2 r2 : takes s q1 r1 -> takes r1 q2 r2 -> takes s (q1 ++ q2) r2.
Proof.
  intros (p1 & -> & H1) (p2 & -> & H2). exists (p1 ++ p2). split; [by rewrite app_assoc|].
  intros c. rewrite !elem_of_app. intros [?|?]; auto.
Qed.

Lemma takes_less s q r q' : takes s q r -> q' ⊆ q -> takes s q' r.
Proof. intros (p & -> & Hq) Hq'. exists p. split; [done|]. intros c Hc. auto. Qed.

Lemma takes_none s q r : takes s q r -> takes s [] r.
Proof. intros H. eapply takes_less; [exact H|]. intros c ?%elem_of_nil. done. Qed.

Lemma takes_refl s : takes s [] s.
Proof. exists []. split; [done|]. intros c ?%elem_of_nil. done. Qed.

Lemma takes_then s r1 q r2 : takes s [] r1 -> takes r1 q r2 -> takes s q r2.
Proof. intros H1 H2. exact (takes_trans _ _ _ _ _ H1 H2). Qed.

Lemma takes_subset s q r : takes s q r -> q ⊆ s.
Proof. intros (p & -> & Hq) c Hc. apply elem_of_app. left. auto. Qed.

Lemma takes_rest s q r : takes s q r -> r ⊆ s.
Proof. intros (p & -> & Hq) c Hc. apply elem_of_app. by right. Qed.

Lemma takes_length s q r : takes s q r -> (length r <= length s)%nat.
Proof. intros (p & -> & _). rewrite length_app. lia. Qed.

Lemma takes_shorter s q r : takes s q r -> q <> [] -> (length r < length s)%nat.
Proof.
  intros (p & -> & Hq) Hne. rewrite length_app. destruct p; [|cbn; lia].
  destruct q as [|c q]; [done|]. specialize (Hq c ltac:(left)). by apply elem_of_nil in Hq.
Qed.

Create HintDb takes.
#[export] Hint Resolve takes_refl takes_none : takes.

Lemma unrunes_runes s : unrunes (runes s) = s.
Proof. apply runes_join. Qed.

Lemma unrunes_cons rc rs : unrunes (rc :: rs) = rc.2 ++ unrunes rs.
Proof. done. Qed.

Lemma takes_app p r : takes (p ++ r) p r.
Proof. by exists p. Qed.

Lemma takes_rune rc rs : takes (unrunes (rc :: rs)) rc.2 (unrunes rs).
Proof. apply takes_app. Qed.

Lemma skipSpace_takes s : takes s [] (skipSpace s).
Proof.
  destruct (drop_while_suffix is_blank s) as [p Hp]. exists p. split; [exact Hp|].
  intros c ?%elem_of_nil. done.
Qed.

Lemma consume_takes c s r : consume c s = Some r -> takes s [c] r.
Proof.
  unfold consume. destruct s as [|d s]; [done|]. case_bool_decide; [|done]. intros [= <-]. subst.
  exact (takes_app [c] s).
Qed.

Lemma atom_runes_takes d rs a r : atom_runes d rs = Some (a, r) -> takes (unrunes rs) a r.
Proof.
  revert a r. induction rs as [|rc rs IH]; intros a r; cbn [atom_runes].
  { intros [= <- <-]. apply takes_refl. }
  destruct (invalid_rune rc); [done|]. destruct (negb _); [intros [= <- <-]; apply takes_refl|].
  destruct (atom_runes d rs) as [[a' r']|]; [|done]. intros [= <- <-].
  eapply takes_trans; [apply takes_rune | by apply IH].
Qed.

Lemma quoted_runes_takes e rs q r : quoted_runes e rs = Some (q, r) -> takes (unrunes rs) q r.
Proof.
  revert e q r. induction rs as [|rc rs IH]; intros e q r; cbn [quoted_runes]; [done|].
  assert (Hkeep : forall q r, ('(q, r) ← quoted_runes false rs; Some (rc.2 ++ q, r)) = Some (q, r) ->
                              takes (unrunes (rc :: rs)) q r).
  { intros q1 r1. destruct (quoted_runes false rs) as [[q' r']|] eqn:E; [|done]. intros [= <- <-].
    eapply takes_trans; [apply takes_rune | by eapply IH]. }
  assert (Hskip : takes (unrunes (rc :: rs)) [] (unrunes rs)) by (eapply takes_none, takes_rune).
  destruct (invalid_rune rc); [done|].
  destruct e; [destruct (_ && _); [done | apply Hkeep]|].
  destruct (_ || _); [apply Hkeep|]. destruct (is_char rc.1 dquote); [by intros [= <- <-]|].
  destruct (is_char rc.1 backslash); [|done]. intros Hq. eapply takes_then; [exact Hskip | by eapply IH].
Qed.

Lemma dtext_runes_takes rs d r : dtext_runes rs = Some (d, r) -> takes (unrunes rs) d r.
Proof.
  revert d r. induction rs as [|rc rs IH]; intros d r; cbn [dtext_runes]; [done|].
  destruct (is_char _ _); [intros [= <- <-]; eapply takes_none, takes_rune|].
  destruct (invalid_rune rc); [done|]. destruct (negb _); [done|].
  destruct (dtext_runes rs) as [[d' r']|]; [|done]. intros [= <- <-].
  eapply takes_trans; [apply takes_rune | by apply IH].
Qed.

Lemma tail_takes c s : takes (c :: s) [c] s.
Proof. exact (takes_app [c] s). Qed.

Lemma consumeAtom_takes d p s a r : consumeAtom d p s = Some (a, r) -> takes s a r /\ a <> [].
Proof.
  unfold consumeAtom. destruct (atom_runes d (runes s)) as [[a' r']|] eqn:E; [|done].
  apply atom_runes_takes in E. rewrite unrunes_runes in E. cbn [mbind option_bind].
  case_bool_decide; [done|]. destruct (_ && _); [done|]. by intros [= <- <-].
Qed.

Lemma consumeQuotedString_takes c s q r :
  consumeQuotedString (c :: s) = Some (q, r) -> takes (c :: s) q r /\ (length r < length (c :: s))%nat.
Proof.
  unfold consumeQuotedString. cbn [tail]. intros E%quoted_runes_takes. rewrite unrunes_runes in E.
  split; [eapply takes_then; [eapply takes_none, tail_takes | done]|].
  apply takes_length in E. cbn. lia.
Qed.

(** An ASCII rune is its byte. *)
Lemma runes_ascii_bytes s : Forall (fun rc : Z * bytes => rc.1 < 0x80 -> rc.2 = [byte_of rc.1]) (runes s).
Proof.
  remember (length s) as n eqn:Hn. assert (Hl : (length s <= n)%nat) by lia. clear Hn.
  revert s Hl. induction n as [|n IH]; intros [|c0 s] Hl; simpl in Hl; try constructor; [lia|].
  pose proof (bval_range c0). cbn [runes].
  repeat match goal with
  | |- context [if ?b then _ else _] => destruct b eqn:?
  | |- context [match ?l with [] => _ | _ => _ end] => is_var l; destruct l as [|? ?]
  end; constructor; try (apply IH; simpl in *; lia); cbn [fst snd];
  try (unfold rune_error; lia); try (intros _; by rewrite byte_of_bval);
  unfold in_range in *; intros Hlt; exfalso;
  repeat match goal with H : context [bval ?c] |- _ =>
    lazymatch goal with _ : 0 <= bval c < 256 |- _ => fail | _ => pose proof (bval_range c) end end;
  lia.
Qed.

Lemma dtext_bracket_takes rs d r :
  Forall (fun rc : Z * bytes => rc.1 < 0x80 -> rc.2 = [byte_of rc.1]) rs ->
  dtext_runes rs = Some (d, r) -> takes (unrunes rs) (d ++ [Byte.x5d]) r.
Proof.
  intros Ha. revert d r. induction Ha as [|rc rs Hrc Ha IH]; intros d r; cbn [dtext_runes]; [done|].
  destruct (is_char rc.1 Byte.x5d) eqn:Ec.
  - intros [= <- <-]. apply Z.eqb_eq in Ec. pose proof (takes_rune rc rs) as Ht.
    rewrite Hrc, Ec in Ht by (rewrite Ec; done). exact Ht.
  - destruct (invalid_rune rc); [done|]. destruct (negb _); [done|].
    destruct (dtext_runes rs) as [[d' r']|]; [|done]. intros [= <- <-].
    rewrite <- app_assoc. eapply takes_trans; [apply takes_rune | by apply IH].
Qed.

Lemma consumeDomainLiteral_takes s d r :
  consumeDomainLiteral (Byte.x5b :: s) = Some (d, r) -> takes (Byte.x5b :: s) d r.
Proof.
  unfold consumeDomainLiteral. cbn [tail].
  destruct (dtext_runes (runes s)) as [[t r']|] eqn:E; [|done]. cbn [mbind option_bind].
  destruct (ParseIP t); [|done]. intros [= <- <-].
  apply dtext_bracket_takes in E; [|apply runes_ascii_bytes]. rewrite unrunes_runes in E.
  exact (takes_trans _ _ _ _ _ (tail_takes _ _) E).
Qed.

Lemma comment_loop_takes d s t r : comment_loop d s = Some (t, r) -> takes s [] r.
Proof.
  revert d t r. induction s as [s IH] using (induction_ltof1 _ (@length Byte.byte)). unfold ltof in IH.
  intros d t r. destruct s as [|c s]; cbn [comment_loop]; [done|].
  assert (Hc : takes (c :: s) [] s) by (eapply takes_none, tail_takes).
  case_bool_decide.
  - destruct s as [|c2 s2]; [done|]. destruct (comment_loop d s2) as [[t' r']|] eqn:E; [|done].
    intros [= _ <-]. apply IH in E; [|cbn; lia]. eapply takes_then; [exact Hc|].
    eapply takes_then; [eapply takes_none, tail_takes | exact E].
  - destruct (_ && _); [by intros [= _ <-]|].
    destruct (comment_loop _ s) as [[t' r']|] eqn:E; [|done]. intros [= _ <-].
    apply IH in E; [|cbn; lia]. by eapply takes_then.
Qed.

Lemma comment_takes c s r t rest :
  consume c s = Some r -> consumeComment r = Some (t, rest) ->
  takes s [] rest /\ (length rest < length s)%nat.
Proof.
  intros Hc Hr%comment_loop_takes. apply consume_takes in Hc.
  split; [eapply takes_then; [eapply takes_none, Hc | exact Hr]|].
  apply takes_shorter in Hc; [|done]. apply takes_length in Hr. lia.
Qed.

Lemma cfws_loop_takes n s r : cfws_loop n s = Some r -> takes s [] r.
Proof.
  revert s. induction n as [|n IH]; intros s; cbn [cfws_loop]; pose proof (skipSpace_takes s) as Hs;
    destruct (consume Byte.x28 (skipSpace s)) as [r1|] eqn:Ec; try done; try (by intros [= <-]).
  destruct (consumeComment r1) as [[t r2]|] eqn:Et; [|done]. cbn [mbind option_bind]. intros Hr.
  destruct (comment_takes _ _ _ _ _ Ec Et) as [Ht _].
  eapply takes_then; [exact Hs|]. eapply takes_then; [exact Ht | by apply IH].
Qed.

Lemma skipCFWS_takes s r : skipCFWS s = Some r -> takes s [] r.
Proof. apply cfws_loop_takes. Qed.

(** More fuel than one round per byte changes nothing. *)
Lemma cfws_loop_fuel n s : (length s <= n)%nat -> cfws_loop (S n) s = cfws_loop n s.
Proof.
  revert s. induction n as [|n IH]; intros s Hn.
  - destruct s; [done | cbn in Hn; lia].
  - set (m := S n) at 1. cbn [cfws_loop]. subst m.
    destruct (consume Byte.x28 (skipSpace s)) as [r1|] eqn:Ec; [|done].
    destruct (consumeComment r1) as [[t r2]|] eqn:Et; [|done]. cbn [mbind option_bind].
    destruct (comment_takes _ _ _ _ _ Ec Et) as [_ Hlt].
    pose proof (takes_length _ _ _ (skipSpace_takes s)). apply IH. lia.
Qed.

Lemma consumeAddrSpec_takes s a r :
  consumeAddrSpec s = Some (a, r) -> takes s a r /\ (length r < length s)%nat.
Proof.
  unfold consumeAddrSpec. pose proof (skipSpace_takes s) as Hs. destruct (skipSpace s) as [|c s1]; [done|].
  assert (Hl : forall l r1, (if bool_decide (c = dquote)
                then '(q, r) ← consumeQuotedString (c :: s1); if bool_decide (q = []) then None else Some (q, r)
                else consumeAtom true false (c :: s1)) = Some (l, r1) -> takes (c :: s1) l r1).
  { intros l r1. case_bool_decide.
    - destruct (consumeQuotedString _) as [[q r2]|] eqn:E; [|done]. cbn [mbind option_bind].
      case_bool_decide; [done|]. intros [= <- <-]. by apply consumeQuotedString_takes.
    - by intros [? _]%consumeAtom_takes. }
  destruct (if bool_decide _ then _ else _) as [[l r1]|]; [|done]. cbn [mbind option_bind].
  specialize (Hl l r1 eq_refl).
  destruct (consume at_sign r1) as [r2|] eqn:Ec; [|done]. apply consume_takes in Ec.
  cbn [mbind option_bind]. pose proof (skipSpace_takes r2) as Hs2.
  destruct (skipSpace r2) as [|c3 s3]; [done|].
  assert (Hd : forall d r4, (if bool_decide (c3 = Byte.x5b) then consumeDomainLiteral (c3 :: s3)
                 else consumeAtom true false (c3 :: s3)) = Some (d, r4) -> takes (c3 :: s3) d r4).
  { intros d r4. case_bool_decide; [subst; apply consumeDomainLiteral_takes|]. by intros [? _]%consumeAtom_takes. }
  destruct (if bool_decide _ then _ else _) as [[d r4]|]; [|done]. cbn [mbind option_bind].
  specialize (Hd d r4 eq_refl). intros [= <- <-].
  assert (Ht : takes s (l ++ [at_sign] ++ d) r4).
  { eapply takes_then; [exact Hs|]. eapply takes_trans; [exact Hl|]. eapply takes_trans; [exact Ec|].
    by eapply takes_then. }
  split; [exact Ht|]. apply takes_shorter in Ht; [done|]. by destruct l.
Qed.

Lemma phrase_loop_takes n any s r : phrase_loop n any s = Some r -> takes s [] r.
Proof.
  revert any s. induction n as [|n IH]; intros any s; cbn [phrase_loop];
    (destruct (if any then skipCFWS s else Some s) as [s1|] eqn:E1; [|done]); cbn [mbind option_bind];
    (assert (H1 : takes s [] (skipSpace s1)) by
       (eapply takes_then; [|apply skipSpace_takes]; destruct any;
        [by apply skipCFWS_takes | injection E1 as <-; apply takes_refl]));
    destruct (skipSpace s1) as [|c s2]; try done; try (destruct any; [by intros [= <-] | done]).
  assert (Hstop : forall r', (if any then Some r' else None) = Some r -> takes (c :: s2) [] r' -> takes s [] r).
  { intros r'. destruct any; [|done]. intros [= <-]. by apply takes_then. }
  case_bool_decide as Hc.
  - destruct (consumeQuotedString (c :: s2)) as [[q r2]|] eqn:Eq.
    + intros Hr%IH. apply consumeQuotedString_takes in Eq as [Eq _].
      eapply takes_then; [exact H1|]. eapply takes_then; [eapply takes_none, Eq | done].
    + intros Hr. eapply Hstop; [exact Hr | apply takes_refl].
  - destruct (consumeAtom true true (c :: s2)) as [[w r2]|] eqn:Eq.
    + apply consumeAtom_takes in Eq as [Eq _].
      destruct (decodeRFC2047Word w); intros Hr;
        [ | | eapply Hstop; [exact Hr | eapply takes_none, Eq]];
        (apply IH in Hr; eapply takes_then; [exact H1|]; eapply takes_then; [eapply takes_none, Eq | done]).
    + intros Hr. eapply Hstop; [exact Hr | apply takes_refl].
Qed.

Lemma phrase_loop_fuel n any (s : bytes) :
  (length s <= n)%nat -> phrase_loop (S n) any s = phrase_loop n any s.
Proof.
  revert any s. induction n as [|n IH]; intros any s Hn; [destruct s; [by destruct any | cbn in Hn; lia]|].
  set (m := S n) at 1. cbn [phrase_loop]. subst m.
  destruct (if any then skipCFWS s else Some s) as [s1|] eqn:E1; [|reflexivity]. cbn [mbind option_bind].
  assert (H1 : takes s [] (skipSpace s1)).
  { eapply takes_then; [|apply skipSpace_takes]. destruct any;
      [by apply skipCFWS_takes | injection E1 as <-; apply takes_refl]. }
  apply takes_length in H1. destruct (skipSpace s1) as [|c s2]; [done|]. case_bool_decide.
  - destruct (consumeQuotedString (c :: s2)) as [[q r2]|] eqn:Eq; [|done].
    apply consumeQuotedString_takes in Eq as [_ Eq]. apply IH. lia.
  - destruct (consumeAtom true true (c :: s2)) as [[w r2]|] eqn:Eq; [|done].
    apply consumeAtom_takes in Eq as [Eq Hne]. apply takes_shorter in Eq; [|done].
    destruct (decodeRFC2047Word w); (apply IH; lia) || done.
Qed.

(** What a parser of several addresses takes. *)
Definition takes_list (s : bytes) (l : list bytes) (r : bytes) : Prop :=
  takes s [] r /\ Forall (fun a => a ⊆ s) l.

Lemma takes_list_one s s1 a r : takes s [] s1 -> takes s1 a r -> takes_list s [a] r.
Proof.
  intros H1 H2. split; [eapply takes_none, takes_then; eauto|]. constructor; [|constructor].
  eapply takes_subset, takes_then; eauto.
Qed.

Lemma takes_list_then s s1 l r : takes s [] s1 -> takes_list s1 l r -> takes_list s l r.
Proof.
  intros H1 [H2 Hl]. split; [by eapply takes_then|]. eapply Forall_impl; [exact Hl|].
  intros a Ha c Hc. eapply takes_rest; [exact H1 | auto].
Qed.

Lemma consumeDisplayNameComment_takes s r : consumeDisplayNameComment s = Some r -> takes s [] r.
Proof.
  unfold consumeDisplayNameComment. destruct (consumeComment s) as [[t r']|] eqn:E; [|done].
  cbn [mbind option_bind]. destruct (existsb _ _); [done|]. intros [= <-].
  by eapply comment_loop_takes.
Qed.

Lemma parseAddress_takes group s l r :
  (forall parse s l r, group = Some parse -> parse s = Some (l, r) -> takes_list s l r) ->
  parseAddress group s = Some (l, r) -> takes_list s l r.
Proof.
  intros Hg. unfold parseAddress. pose proof (skipSpace_takes s) as Hs.
  destruct (skipSpace s) as [|c s0]; [done|]. intros E. eapply takes_list_then; [exact Hs|].
  revert E. generalize (c :: s0). clear s Hs s0. intros s.
  destruct (consumeAddrSpec s) as [[spec s1]|] eqn:Ea.
  - apply consumeAddrSpec_takes in Ea as [Ea _]. pose proof (skipSpace_takes s1) as Hs1.
    assert (Hspec : takes s spec (skipSpace s1)).
    { rewrite <- (app_nil_r spec). by eapply takes_trans. }
    destruct (consume Byte.x28 (skipSpace s1)) as [r1|] eqn:Ec.
    + destruct (consumeDisplayNameComment r1) as [r2|] eqn:Ed; [|done]. intros [= <- <-].
      apply consumeDisplayNameComment_takes in Ed. apply consume_takes in Ec.
      eapply takes_list_one; [apply takes_refl|]. rewrite <- (app_nil_r spec).
      eapply takes_trans; [exact Hspec|]. eapply takes_then; [eapply takes_none, Ec | exact Ed].
    + intros [= <- <-]. eapply takes_list_one; [apply takes_refl | exact Hspec].
  - destruct (if bool_decide (c = Byte.x3c) then @Some bytes s else consumePhrase s) as [s1|] eqn:Ep; [|done].
    assert (Hp : takes s [] (skipSpace s1)).
    { eapply takes_then; [|apply skipSpace_takes]. revert Ep.
      case_bool_decide; [intros [= <-]; apply takes_refl | apply phrase_loop_takes]. }
    cbn [mbind option_bind]. intros E. eapply takes_list_then; [exact Hp|]. clear Hp Ep Ea s.
    revert E. generalize (skipSpace s1). clear s1. intros s.
    assert (Hangle : (s ← consume Byte.x3c s; '(spec, s) ← consumeAddrSpec s;
                      s ← consume Byte.x3e s; Some ([spec], s)) = Some (l, r) -> takes_list s l r).
    { destruct (consume Byte.x3c s) as [r1|] eqn:E1; [|done]. cbn [mbind option_bind].
      destruct (consumeAddrSpec r1) as [[spec r2]|] eqn:E2; [|done]. cbn [mbind option_bind].
      destruct (consume Byte.x3e r2) as [r3|] eqn:E3; [|done]. intros [= <- <-].
      apply consume_takes in E1, E3. apply consumeAddrSpec_takes in E2 as [E2 _].
      eapply takes_list_one; [eapply takes_none, E1|]. rewrite <- (app_nil_r spec).
      eapply takes_trans; [exact E2 | eapply takes_none, E3]. }
    destruct group as [parse|]; [|exact Hangle].
    destruct (consume colon s) as [r1|] eqn:E1; [|exact Hangle].
    intros Hparse. apply consume_takes in E1. eapply takes_list_then; [eapply takes_none, E1|].
    by eapply Hg.
Qed.

Lemma group_loop_takes n s l r : group_loop n s = Some (l, r) -> takes_list s l r.
Proof.
  revert s l r. induction n as [|n IH]; intros s l r; cbn [group_loop]; [done|].
  destruct (parseAddress None (skipSpace s)) as [[addrs s1]|] eqn:E1; [|done]. cbn [mbind option_bind].
  apply parseAddress_takes in E1; [|done].
  apply (takes_list_then s) in E1; [|apply skipSpace_takes]. destruct E1 as [H1 Ha].
  destruct (skipCFWS s1) as [s2|] eqn:E2; [|done]. apply skipCFWS_takes in E2. cbn [mbind option_bind].
  assert (H2 : takes s [] s2) by by eapply takes_then.
  destruct (consume Byte.x3b s2) as [s3|] eqn:E3.
  - destruct (skipCFWS s3) as [s4|] eqn:E4; [|done]. intros [= <- <-].
    apply skipCFWS_takes in E4. apply consume_takes in E3. split; [|done].
    eapply takes_then; [exact H2|]. eapply takes_then; [eapply takes_none, E3 | exact E4].
  - destruct (consume Byte.x2c s2) as [s3|] eqn:E4; [|done]. cbn [mbind option_bind].
    destruct (group_loop n s3) as [[more s4]|] eqn:E5; [|done]. intros [= <- <-].
    apply IH in E5. apply consume_takes in E4.
    assert (H3 : takes s [] s3) by (eapply takes_then; [exact H2 | eapply takes_none, E4]).
    apply (takes_list_then s) in E5 as [H4 Hm]; [|exact H3]. split; [done|]. by apply Forall_app.
Qed.

Lemma group_loop_fuel n s : (length s < n)%nat -> group_loop (S n) s = group_loop n s.
Proof.
  revert s. induction n as [|n IH]; intros s Hn; [lia|]. set (m := S n) at 1. cbn [group_loop]. subst m.
  destruct (parseAddress None (skipSpace s)) as [[addrs s1]|] eqn:E1; [|done]. cbn [mbind option_bind].
  apply parseAddress_takes in E1 as [H1 _]; [|done]. apply takes_length in H1.
  pose proof (takes_length _ _ _ (skipSpace_takes s)).
  destruct (skipCFWS s1) as [s2|] eqn:E2; [|done]. apply skipCFWS_takes, takes_length in E2. cbn [mbind option_bind].
  destruct (consume Byte.x3b s2); [done|].
  destruct (consume Byte.x2c s2) as [s3|] eqn:E4; [|done]. apply consume_takes, takes_shorter in E4; [|done].
  cbn [mbind option_bind]. by rewrite IH by lia.
Qed.

Lemma consumeGroupList_takes s l r : consumeGroupList s = Some (l, r) -> takes_list s l r.
Proof.
  unfold consumeGroupList. intros E. eapply takes_list_then; [apply skipSpace_takes|]. revert E.
  generalize (skipSpace s). clear s. intros s.
  destruct (consume Byte.x3b s) as [s1|] eqn:E1; [|apply group_loop_takes].
  destruct (skipCFWS s1) as [s2|] eqn:E2; [|done]. intros [= <- <-].
  apply consume_takes in E1. apply skipCFWS_takes in E2. split; [|constructor].
  by eapply takes_then; [eapply takes_none, E1|].
Qed.

(** The address is made of bytes of the text. *)
Theorem ParseAddress_subset s a : ParseAddress s = Some a -> a ⊆ s.
Proof.
  unfold ParseAddress. destruct (parseAddress _ s) as [[l r]|] eqn:E; [|done]. cbn [mbind option_bind].
  apply parseAddress_takes in E as [_ Hl]; [|intros parse s' l' r' [= <-]; apply consumeGroupList_takes].
  destruct (skipCFWS r) as [[|]|]; try done. cbn [mbind option_bind]. destruct l as [|a' [|]]; try done.
  intros [= <-]. by apply Forall_cons in Hl as [? _].
Qed.

(** ** Dot-atoms *)

(** A dot-atom of ASCII characters: no dot at either end, no two in a row. *)
Definition dot_atom (a : bytes) : bool :=
  negb (bool_decide (a = [])) && forallb (fun c => is_ascii c && isAtext (bval c) true) a
  && negb (has_prefix a [dot] || bool_decide (is_Some (index a [dot; dot]))
           || bool_decide (last a = Some dot)).

Lemma runes_ascii_cons c s : is_ascii c = true -> runes (c :: s) = (bval c, [c]) :: runes s.
Proof. unfold is_ascii. intros Hc. cbn [runes]. by rewrite Hc. Qed.

Lemma atom_runes_ascii d a c r :
  forallb (fun c => is_ascii c && isAtext (bval c) d) a = true ->
  is_ascii c = true -> isAtext (bval c) d = false ->
  atom_runes d (runes (a ++ c :: r)) = Some (a, c :: r) /\ atom_runes d (runes a) = Some (a, []).
Proof.
  intros Ha Hc Hd.
  assert (Hinv : forall b, is_ascii b = true -> invalid_rune (bval b, [b]) = false).
  { intros b. unfold is_ascii, invalid_rune, rune_error. cbn. lia. }
  induction a as [|b a IH]; cbn [app].
  - rewrite runes_ascii_cons by done. cbn [atom_runes fst]. rewrite Hinv, Hd by done.
    cbn [negb]. rewrite unrunes_cons, unrunes_runes. done.
  - cbn [forallb] in Ha. apply andb_true_iff in Ha as [[Hb Hat]%andb_true_iff Ha].
    rewrite !runes_ascii_cons by done. destruct (IH Ha) as [E1 E2]. cbn [atom_runes fst snd].
    rewrite Hinv, Hat, E1, E2 by done. done.
Qed.

Lemma consumeAtom_dot_atom a c r :
  dot_atom a = true -> is_ascii c = true -> isAtext (bval c) true = false ->
  consumeAtom true false (a ++ c :: r) = Some (a, c :: r) /\ consumeAtom true false a = Some (a, []).
Proof.
  intros Ha Hc Hd. unfold dot_atom in Ha. apply andb_true_iff in Ha as [[Hne Hat]%andb_true_iff Hdots].
  destruct (atom_runes_ascii true a c r Hat Hc Hd) as [E1 E2]. unfold consumeAtom. rewrite E1, E2.
  cbn [mbind option_bind]. apply negb_true_iff in Hne, Hdots. apply bool_decide_eq_false in Hne.
  by rewrite (bool_decide_eq_false_2 _ Hne), Hdots.
Qed.

(** The first byte of a dot-atom starts neither white space nor another token. *)
Lemma dot_atom_head a :
  dot_atom a = true ->
  exists c t, a = c :: t /\ is_blank c = false
    /\ bool_decide (c = dquote) = false /\ bool_decide (c = Byte.x5b) = false.
Proof.
  unfold dot_atom. intros Ha. apply andb_true_iff in Ha as [[Hne Hat]%andb_true_iff _].
  destruct a as [|c t]; [done|]. exists c, t. cbn [forallb] in Hat.
  apply andb_true_iff in Hat as [[_ Hat]%andb_true_iff _].
  assert (Hno : forall d, isAtext (bval d) true = false -> bool_decide (c = d) = false).
  { intros d Hd. apply bool_decide_eq_false. intros ->. congruence. }
  unfold is_blank. by rewrite !Hno.
Qed.

Lemma skipSpace_head c t : is_blank c = false -> skipSpace (c :: t) = c :: t.
Proof. unfold skipSpace, trim_left. cbn [drop_while]. by intros ->. Qed.

(** A plain address is read as itself. *)
Theorem ParseAddress_dot_atom l d :
  dot_atom l = true -> dot_atom d = true -> ParseAddress (l ++ at_sign :: d) = Some (l ++ at_sign :: d).
Proof.
  intros Hl Hd. destruct (consumeAtom_dot_atom l at_sign d Hl eq_refl eq_refl) as [El _].
  destruct (consumeAtom_dot_atom d at_sign [] Hd eq_refl eq_refl) as [_ Ed].
  destruct (dot_atom_head l Hl) as (c & t & -> & Hb & Hq & _).
  destruct (dot_atom_head d Hd) as (c2 & t2 & -> & Hb2 & _ & Hbr).
  assert (Espec : consumeAddrSpec ((c :: t) ++ at_sign :: c2 :: t2)
                  = Some ((c :: t) ++ [at_sign] ++ c2 :: t2, [])).
  { unfold consumeAddrSpec. cbn [app] in *. rewrite skipSpace_head, Hq, El by done.
    cbn [mbind option_bind consume]. rewrite bool_decide_eq_true_2 by done. cbn [mbind option_bind].
    rewrite skipSpace_head, Hbr, Ed by done. done. }
  unfold ParseAddress, parseAddress. cbn [app] in *. rewrite skipSpace_head, Espec by done. done.
Qed.

Lemma dot_atom_no_blanks a : dot_atom a = true -> forallb (fun c => negb (is_blank c)) a = true.
Proof.
  unfold dot_atom. intros [[_ Ha]%andb_true_iff _]%andb_true_iff. rewrite forallb_forall in Ha.
  apply forallb_forall. intros c Hc. apply Ha, andb_true_iff in Hc as [_ Hc].
  destruct (is_blank c) eqn:Hb; [|done]. unfold is_blank in Hb.
  apply orb_true_iff in Hb as [->%bool_decide_eq_true| ->%bool_decide_eq_true]; done.
Qed.

Lemma trim_blank_dot_atom l d :
  dot_atom l = true -> dot_atom d = true -> trim_blank (l ++ at_sign :: d) = l ++ at_sign :: d.
Proof.
  intros Hl%dot_atom_no_blanks Hd%dot_atom_no_blanks.
  assert (H : forallb (fun c => negb (is_blank c)) (l ++ at_sign :: d) = true).
  { rewrite forallb_app, Hl. cbn [forallb]. by rewrite Hd. }
  unfold trim_blank. by rewrite trim_left_notin, trim_right_notin.
Qed.

(** ** The instance of the interface *)

Module GoLibrary.
#[export] Instance parsers : MailParsers :=
  {| parse_address := ParseAddress; qp_read_all := QuotedPrintable |}.

#[export] Instance parsers_ok : MailParsersOk.
Proof. split; [done|]. intros s a c Hs Hc. by eapply ParseAddress_subset. Qed.

(** A case table for the samples: ASCII only. *)
#[export] Instance unicode : UnicodeTables :=
  fun r => if (65 <=? r) && (r <=? 90) then r + 32 else r.
End GoLibrary.
