(* ===== verification/Envelope.v ===== *)
(** * internal/envelope: the MIME envelope of an RNS packet

    [Encode] builds the transport e-mail of a packet and [Decode] recovers the
    packet or says why not.  The main theorems: the round trip for every packet
    up to [MaxPacketSize], that this bound is the exact one, the relational
    specification [Decode] implements, and that a message is "not ours" exactly
    when it carries no transport marker.

    [time.Now] and [uuid.New] are the arguments [now] (the formatted date) and
    [uuid] of [Encode]. *)
From Stdlib Require Import Strings.Byte.
From S2P Require Import Prelude GoErrors GoStrings Base64 GoMime GoMail.

Definition transportHeader : bytes := str "X-RNS-Transport".
Definition octet_stream : bytes := str "application/octet-stream".

Record Params := mkParams { p_From : bytes; p_To : bytes; p_Packet : bytes }.

(** Limits; the bound on packets is the formula of the source. *)
Definition MaxBodySize : Z := Z.shiftl 1 20.
Definition MaxPacketSize : Z := MaxBodySize / 78 * 57 + (MaxBodySize mod 78 - 2) / 4 * 3.

Record Decoded := mkDecoded {
  d_MessageID : bytes;
  d_From : bytes;
  d_To : bytes;
  d_Packet : bytes;
}.

#[global] Instance Decoded_eq_dec : EqDecision Decoded.
Proof. solve_decision. Defined.

Section Envelope.
Context `{UnicodeTables} `{MailParsers}.

(** ** Encoding *)

Definition domainFromAddr (addr : bytes) : bytes :=
  let addr := bare_addr addr in
  match last_index addr Byte.x40 with
  | Some i => drop (i + 1) addr
  | None => str "rns-transport"
  end.

Definition header_keys : list bytes :=
  [str "From"; str "To"; str "Date"; str "Message-ID"; str "MIME-Version";
   str "Content-Type"; str "Content-Transfer-Encoding"; transportHeader].

Definition envelope_header (p : Params) (now mid : bytes) : header :=
  let h : header := ∅ in
  let h := header_set h (str "From") (p_From p) in
  let h := header_set h (str "To") (p_To p) in
  let h := header_set h (str "Date") now in
  let h := header_set h (str "Message-ID") mid in
  let h := header_set h (str "MIME-Version") (str "1.0") in
  let h := header_set h (str "Content-Type") octet_stream in
  let h := header_set h (str "Content-Transfer-Encoding") (str "base64") in
  header_set h transportHeader (str "1").

(** The loop that wraps the base64 text at 76 characters; at most one round
    per character. *)
Fixpoint wrap_loop (fuel : nat) (encoded : bytes) (i : nat) : bytes :=
  match fuel with
  | O => []
  | S k =>
    if bool_decide (i < length encoded)%nat then
      let end_ := Nat.min (i + 76) (length encoded) in
      take (end_ - i) (drop i encoded) ++ crlf ++ wrap_loop k encoded (i + 76)
    else []
  end.

Definition wrapped_body (pkt : bytes) : bytes :=
  let encoded := b64_encode pkt in wrap_loop (length encoded) encoded 0.

Definition Encode (uuid now : bytes) (p : Params) : result (bytes * bytes) :=
  if bool_decide (p_From p = []) || bool_decide (p_To p = []) || bool_decide (p_Packet p = [])
  then Err (Errorf "encode: From, To and Packet are required" [])
  else
    let mid := str "<" ++ uuid ++ str "@" ++ domainFromAddr (p_From p) ++ str ">" in
    let h := envelope_header p now mid in
    let buf := mjoin ((fun key => field key (header_get h key)) <$> header_keys) in
    Ok (buf ++ crlf ++ wrapped_body (p_Packet p), mid).

(** ** Decoding *)

Definition isTransport (h : header) (mediaType : bytes) : bool :=
  bool_decide (header_get h transportHeader = str "1") && bool_decide (mediaType = octet_stream).

Definition extractAddress (h : header) (key : bytes) : result bytes :=
  let raw := header_get h key in
  if bool_decide (raw = []) then Err (Errorf "missing header" [])
  else match parse_address raw with
       | Some a => Ok a
       | None => Err (Errorf "parse address" [Opaque "mail"])
       end.

(** [-1] for CR, LF and the space. *)
Definition drop_wrap (r : Z) : Z :=
  if (r =? 13) || (r =? 10) || (r =? 32) then -1 else r.

Definition decodeBody (body cte : bytes) : result bytes :=
  let enc := to_lower (trim_space cte) in
  if bool_decide (enc = str "base64") then
    match b64_decode (strings_map drop_wrap body) with
    | Some decoded => Ok decoded
    | None => Err (Errorf "decode base64" [Opaque "illegal base64 data"])
    end
  else if bool_decide (enc = str "quoted-printable") then
    match qp_read_all body with
    | Some decoded => Ok decoded
    | None => Err (Errorf "decode quoted-printable" [Opaque "quotedprintable"])
    end
  else if bool_decide (enc ∈ [str "7bit"; str "8bit"; str "binary"; []]) then Ok body
  else Err (Errorf "unsupported Content-Transfer-Encoding" []).

(** One line of the raw scan. *)
Definition marker_line (line : bytes) : bool :=
  match trim_right (fun c => bool_decide (c = cr)) line with
  | [] => false
  | c :: l =>
    if is_blank c then false
    else match cut (c :: l) colon with
         | None => false
         | Some (name, value) =>
           equal_fold_ascii (trim_space name) transportHeader
           && bool_decide (trim_space value = str "1")
         end
  end.

Definition header_block (raw : bytes) : bytes :=
  match index raw (crlf ++ crlf) with
  | Some n => take n raw
  | None => match index raw [lf; lf] with
            | Some n => take n raw
            | None => raw
            end
  end.

Definition hasTransportMarker (raw : bytes) : bool :=
  existsb marker_line (split (header_block raw) lf).

Definition not_transport (msg : string) : error := Errorf msg [Sentinel ErrNotTransport].

(** Phase B: the body of a confirmed transport message. *)
Definition decode_packet (h : header) (msg_body : bytes) : result bytes :=
  let body := take (Z.to_nat (MaxBodySize + 1)) msg_body in
  if MaxBodySize <? len body then Err (Errorf "body exceeds maximum size" [])
  else
    let? pkt := decodeBody body (header_get h (str "Content-Transfer-Encoding")) in
    if bool_decide (pkt = []) then Err (Errorf "no packet found" []) else Ok pkt.

Definition Decode (raw : bytes) : result Decoded :=
  match read_message raw with
  | Err err =>
    if hasTransportMarker raw then Err (Errorf "parse transport message" [err])
    else Err (not_transport "parse message")
  | Ok (h, msg_body) =>
    let hasMarker := bool_decide (header_get h transportHeader = str "1") in
    let ct := header_get h (str "Content-Type") in
    if bool_decide (ct = []) then
      if hasMarker then Err (Errorf "transport envelope: missing Content-Type header" [])
      else Err (not_transport "missing Content-Type header")
    else match parse_media_type ct with
    | Err _ =>
      if hasMarker then Err (Errorf "transport envelope: parse content-type" [])
      else Err (not_transport "parse content-type")
    | Ok mediaType =>
      if negb (isTransport h mediaType) then
        if hasMarker then Err (Errorf "transport envelope: unexpected content-type" [])
        else Err (not_transport "content-type")
      else match extractAddress h (str "From") with
      | Err e => Err (Errorf "transport envelope" [e])
      | Ok from =>
        match extractAddress h (str "To") with
        | Err e => Err (Errorf "transport envelope" [e])
        | Ok to =>
          let? pkt := decode_packet h msg_body in
          Ok (mkDecoded (header_get h (str "Message-ID")) from to pkt)
        end
      end
    end
  end.
End Envelope.

(** ** The wrapped body *)

Lemma drop_wrap_b64 c : is_b64 c = true -> drop_wrap (bval c) = bval c.
Proof. destruct c; vm_compute; intros; (done || discriminate). Qed.

Lemma take_min_drop {A} (l : list A) i :
  take (Nat.min (i + 76) (length l) - i) (drop i l) = take 76 (drop i l).
Proof.
  apply list_eq. intros j. rewrite !lookup_take. rewrite lookup_drop.
  repeat case_decide; try done; try lia.
  destruct (l !! (i + j)%nat) eqn:E; [|done]. apply lookup_lt_Some in E. lia.
Qed.

(** Removing the line breaks gives the text back. *)
Lemma wrap_loop_unwrap fuel e i :
  forallb is_b64 e = true -> (length e - i <= fuel)%nat ->
  List.filter (fun c => 0 <=? drop_wrap (bval c)) (wrap_loop fuel e i) = drop i e.
Proof.
  intros He. revert i; induction fuel as [|k IH]; intros i Hk; cbn [wrap_loop].
  - by rewrite drop_ge by lia.
  - case_bool_decide; [| by rewrite drop_ge by lia].
    rewrite take_min_drop, !List.filter_app, IH by lia. simpl.
    rewrite filter_all.
    + rewrite <- drop_drop. by rewrite take_drop.
    + apply (forallb_mono is_b64); [| by apply forallb_take, forallb_drop].
      intros c Hc. rewrite drop_wrap_b64 by done. pose proof (bval_range c). lia.
Qed.

Lemma wrap_loop_ascii fuel e i :
  forallb is_ascii e = true -> forallb is_ascii (wrap_loop fuel e i) = true.
Proof.
  intros He. revert i; induction fuel as [|k IH]; intros i; [done|]. cbn [wrap_loop].
  case_bool_decide; [|done].
  rewrite !forallb_app, IH, forallb_take; [done | by apply forallb_drop].
Qed.

(** Two bytes of line break per line of at most 76 characters. *)
Lemma wrap_loop_length fuel e i :
  (length e - i <= fuel)%nat ->
  len (wrap_loop fuel e i) = Z.of_nat (length e - i) + 2 * ((Z.of_nat (length e - i) + 75) / 76).
Proof.
  unfold len. revert i; induction fuel as [|k IH]; intros i Hk; cbn [wrap_loop].
  - replace (length e - i)%nat with 0%nat by lia. done.
  - case_bool_decide as Hi.
    + rewrite take_min_drop, !length_app, length_take, length_drop.
      rewrite !Nat2Z.inj_add, IH by lia. change (Z.of_nat (length crlf)) with 2.
      replace (length e - (i + 76))%nat with (length e - i - 76)%nat by lia.
      Z.div_mod_to_equations. lia.
    + replace (length e - i)%nat with 0%nat by lia. done.
Qed.

Lemma b64_encode_ascii s : forallb is_ascii (b64_encode s) = true.
Proof.
  apply (forallb_mono is_b64); [| apply b64_encode_chars].
  intros c (_ & Hc & _)%is_b64_plain. unfold is_ascii. lia.
Qed.

Lemma wrapped_body_unwrap pkt : strings_map drop_wrap (wrapped_body pkt) = b64_encode pkt.
Proof.
  unfold wrapped_body. rewrite strings_map_ascii_filter.
  - rewrite wrap_loop_unwrap; [done | apply b64_encode_chars | lia].
  - apply wrap_loop_ascii, b64_encode_ascii.
  - intros c _. unfold drop_wrap. case_match; [right; lia | by left].
Qed.

Lemma wrapped_body_length pkt :
  let m := (len pkt + 2) / 3 in len (wrapped_body pkt) = 4 * m + 2 * ((m + 18) / 19).
Proof.
  unfold wrapped_body. rewrite wrap_loop_length by lia.
  rewrite Nat.sub_0_r, b64_encode_length. unfold len.
  rewrite Nat2Z.inj_mul, Nat2Z.inj_div, Nat2Z.inj_add.
  change (Z.of_nat 2) with 2. change (Z.of_nat 3) with 3. change (Z.of_nat 4) with 4.
  cbv zeta. Z.div_mod_to_equations. lia.
Qed.

(** Whole lines of the wrapped body are the wrapping of their own text, *)
Lemma wrap_loop_take k fuel fuel' e i :
  (i + 76 * k <= length e)%nat -> (length e - i <= fuel)%nat -> (76 * k <= fuel')%nat ->
  take (78 * k) (wrap_loop fuel e i) = wrap_loop fuel' (take (i + 76 * k) e) i.
Proof.
  revert fuel fuel' i. induction k as [|k IH]; intros fuel fuel' i Hk Hf Hf'.
  { destruct fuel'; cbn [wrap_loop]; [done|]. rewrite bool_decide_eq_false_2; [done|].
    rewrite length_take. lia. }
  destruct fuel as [|fuel]; [lia|]. destruct fuel' as [|fuel']; [lia|]. cbn [wrap_loop].
  rewrite !bool_decide_eq_true_2 by (rewrite ?length_take; lia).
  rewrite !take_min_drop.
  assert (Hc : take 76 (drop i (take (i + 76 * S k) e)) = take 76 (drop i e)).
  { rewrite skipn_firstn_comm, take_take. do 2 f_equal. lia. }
  rewrite Hc. set (c := take 76 (drop i e)).
  assert (Hl : length (c ++ crlf) = 78%nat)
    by (subst c; rewrite length_app, length_take, length_drop; change (length crlf) with 2%nat; lia).
  rewrite !(app_assoc c), take_app_ge by lia. f_equal. rewrite Hl.
  replace (78 * S k - 78)%nat with (78 * k)%nat by lia.
  rewrite (IH fuel fuel' (i + 76)%nat) by lia. do 2 f_equal. lia.
Qed.

(** and hold 57 bytes of the packet each. *)
Lemma wrapped_body_take k pkt :
  (57 * k <= length pkt)%nat -> take (78 * k) (wrapped_body pkt) = wrapped_body (take (57 * k) pkt).
Proof.
  intros Hk. assert (He : take (76 * k) (b64_encode pkt) = b64_encode (take (57 * k) pkt)).
  { rewrite <- (take_drop (57 * k) pkt) at 1.
    assert (Hl : length (take (57 * k) pkt) = (3 * (19 * k))%nat) by (rewrite length_take; lia).
    rewrite (b64_encode_app (19 * k)) by done. apply take_app_length'.
    rewrite b64_encode_length, Hl. replace (3 * (19 * k) + 2)%nat with (2 + 19 * k * 3)%nat by lia.
    rewrite Nat.div_add by lia. simpl. lia. }
  assert (Hl : (76 * k <= length (b64_encode pkt))%nat).
  { rewrite b64_encode_length. pose proof (Nat.Div0.div_le_mono (19 * k * 3) (length pkt + 2) 3).
    rewrite Nat.div_mul in * by lia. lia. }
  unfold wrapped_body. rewrite (wrap_loop_take k _ (length (b64_encode (take (57 * k) pkt)))).
  - change (0 + 76 * k)%nat with (76 * k)%nat. by rewrite He.
  - lia.
  - lia.
  - rewrite <- He, length_take. lia.
Qed.

(** ** The header of an envelope *)

Definition envelope_fields (p : Params) (now mid : bytes) : list (bytes * bytes) :=
  [(str "From", p_From p); (str "To", p_To p); (str "Date", now); (str "Message-ID", mid);
   (str "MIME-Version", str "1.0"); (str "Content-Type", octet_stream);
   (str "Content-Transfer-Encoding", str "base64"); (transportHeader, str "1")].

(** The header lines [Encode] writes are these fields. *)
Lemma envelope_lines p now mid :
  mjoin ((fun key => field key (header_get (envelope_header p now mid) key)) <$> header_keys)
  = fields (envelope_fields p now mid).
Proof. vm_compute. reflexivity. Qed.

(** Header fields relays put in front of the message ([Received] and the
    like): one line each, under other names than the envelope's own. *)
Definition relay_fields (relay : list (bytes * bytes)) : Prop :=
  Forall (fun kv => (field_name kv.1 /\ one_line kv.2)
                    /\ canonical_key kv.1 ∉ (canonical_key <$> header_keys)) relay.

#[global] Instance relay_fields_dec relay : Decision (relay_fields relay).
Proof. unfold relay_fields. apply _. Defined.

Section EnvelopeHeader.
Context (relay : list (bytes * bytes)) (Hrelay : relay_fields relay) (p : Params) (now mid : bytes).

(** The header read back from those lines. *)
Definition envelope_header_read : header := add_fields ∅ (relay ++ envelope_fields p now mid).

Lemma envelope_read key :
  canonical_key key ∈ canonical_key <$> header_keys ->
  header_get envelope_header_read key
  = match List.find (fun kv => bool_decide (canonical_key kv.1 = canonical_key key))
            (envelope_fields p now mid) with
    | Some kv => trim_blank kv.2
    | None => []
    end.
Proof.
  intros Hk. unfold envelope_header_read. rewrite add_fields_app. apply header_get_fields.
  apply add_fields_other; [done|]. eapply Forall_impl; [exact Hrelay|].
  cbn. intros kv [_ Hn] E. apply Hn. by rewrite E.
Qed.

Ltac own_key := rewrite envelope_read; [vm_compute; reflexivity | by apply (bool_decide_unpack _)].

Lemma envelope_read_From : header_get envelope_header_read (str "From") = trim_blank (p_From p).
Proof. own_key. Qed.
Lemma envelope_read_To : header_get envelope_header_read (str "To") = trim_blank (p_To p).
Proof. own_key. Qed.
Lemma envelope_read_MessageID :
  header_get envelope_header_read (str "Message-ID") = trim_blank mid.
Proof. own_key. Qed.
Lemma envelope_read_ContentType :
  header_get envelope_header_read (str "Content-Type") = octet_stream.
Proof. own_key. Qed.
Lemma envelope_read_CTE :
  header_get envelope_header_read (str "Content-Transfer-Encoding") = str "base64".
Proof. own_key. Qed.
Lemma envelope_read_marker : header_get envelope_header_read transportHeader = str "1".
Proof. own_key. Qed.

Lemma envelope_isTransport : isTransport envelope_header_read octet_stream = true.
Proof. unfold isTransport. by rewrite envelope_read_marker. Qed.
End EnvelopeHeader.

Create Rewrite HintDb envelope.
#[export] Hint Rewrite envelope_read_From envelope_read_To envelope_read_MessageID
  envelope_read_ContentType envelope_read_CTE envelope_read_marker : envelope.

Lemma envelope_fields_ok p now mid :
  one_line (p_From p) -> one_line (p_To p) -> one_line now -> one_line mid ->
  Forall (fun kv => field_name kv.1 /\ one_line kv.2) (envelope_fields p now mid).
Proof.
  intros. unfold envelope_fields. rewrite !Forall_cons, Forall_nil.
  split_and!; try done; by apply (bool_decide_unpack _).
Qed.

Lemma domainFromAddr_one_line `{MailParsersOk} addr :
  one_line addr -> one_line (domainFromAddr addr).
Proof.
  intros [H1 H2]. unfold domainFromAddr.
  destruct (last_index _ _) as [i|]; [| by apply (bool_decide_unpack _)].
  assert (Hl : one_line (bare_addr addr)).
  { split; intros Hc%bare_addr_subset; done. }
  revert Hl. rewrite <- (take_drop (i + 1) (bare_addr addr)) at 1.
  by intros [_ ?]%one_line_app.
Qed.

Lemma mid_trim s : trim_blank (str "<" ++ s ++ str ">") = str "<" ++ s ++ str ">".
Proof.
  change (str "<" ++ s ++ str ">") with ((Byte.x3c :: s) ++ [Byte.x3e]).
  unfold trim_blank.
  change (trim_left is_blank ((Byte.x3c :: s) ++ [Byte.x3e])) with ((Byte.x3c :: s) ++ [Byte.x3e]).
  by rewrite trim_right_app.
Qed.

(** ** Correctness *)

(** [Encode] on complete parameters: the field block, a blank line, the body. *)
Lemma Encode_ok `{MailParsers} uuid now p raw mid :
  Encode uuid now p = Ok (raw, mid) ->
  p_Packet p <> []
  /\ mid = str "<" ++ (uuid ++ str "@" ++ domainFromAddr (p_From p)) ++ str ">"
  /\ raw = fields (envelope_fields p now mid) ++ crlf ++ wrapped_body (p_Packet p).
Proof.
  unfold Encode. destruct (_ || _) eqn:E; [done|].
  apply orb_false_iff in E as [_ Hp]. apply bool_decide_eq_false in Hp.
  rewrite envelope_lines. intros [<- <-]%Ok_pair_inj.
  by rewrite <- (app_assoc uuid), <- (app_assoc (str "@")).
Qed.

Lemma decodeBody_wrapped `{UnicodeTables} `{MailParsers} pkt :
  decodeBody (wrapped_body pkt) (str "base64") = Ok pkt.
Proof.
  unfold decodeBody. change (to_lower (trim_space (str "base64"))) with (str "base64").
  rewrite bool_decide_eq_true_2 by done.
  by rewrite wrapped_body_unwrap, b64_decode_encode.
Qed.

Lemma MaxBodySize_eq : MaxBodySize = 1048576.
Proof. reflexivity. Qed.

Lemma MaxPacketSize_eq : MaxPacketSize = 766266.
Proof. reflexivity. Qed.

(** C9: [MaxPacketSize] is exactly the largest packet whose wrapped body fits
    the budget [Decode] reads: a packet is within [MaxPacketSize] if and only if
    its encoded body is within [MaxBodySize]. *)
Theorem MaxPacketSize_exact pkt :
  len pkt <= MaxPacketSize <-> len (wrapped_body pkt) <= MaxBodySize.
Proof.
  rewrite wrapped_body_length, MaxBodySize_eq, MaxPacketSize_eq.
  pose proof (len_nonneg pkt). cbv zeta. Z.div_mod_to_equations. lia.
Qed.

Lemma wrapped_body_fits pkt : len pkt <= 766266 -> len (wrapped_body pkt) <= 1048576.
Proof.
  rewrite wrapped_body_length. pose proof (len_nonneg pkt). cbv zeta.
  Z.div_mod_to_equations. lia.
Qed.

Lemma decode_packet_wrapped `{UnicodeTables} `{MailParsers} h pkt :
  header_get h (str "Content-Transfer-Encoding") = str "base64" ->
  pkt <> [] -> len pkt <= MaxPacketSize ->
  decode_packet h (wrapped_body pkt) = Ok pkt.
Proof.
  intros Hcte Hne Hlen. rewrite MaxPacketSize_eq in Hlen.
  pose proof (wrapped_body_fits pkt Hlen) as Hb. unfold decode_packet.
  rewrite take_ge by (rewrite MaxBodySize_eq; unfold len in Hb; lia).
  replace (MaxBodySize <? len (wrapped_body pkt)) with false
    by (rewrite MaxBodySize_eq; lia).
  rewrite Hcte, decodeBody_wrapped. simpl. by rewrite bool_decide_eq_false_2.
Qed.

Lemma octet_stream_media `{UnicodeTables} : parse_media_type octet_stream = Ok octet_stream.
Proof. vm_compute. reflexivity. Qed.

Lemma extractAddress_ok `{MailParsersOk} h k raw a :
  header_get h k = raw -> parse_address raw = Some a -> extractAddress h k = Ok a.
Proof.
  intros Hg Hp. unfold extractAddress. rewrite Hg, Hp.
  rewrite bool_decide_eq_false_2; [done|]. intros ->. rewrite parse_address_nil in Hp. done.
Qed.

(** A message with the envelope's header, below whatever relays added, and a
    body that holds a packet. *)
Lemma Decode_message `{UnicodeTables} `{MailParsersOk} relay p now mid from to pkt :
  relay_fields relay ->
  one_line (p_From p) -> one_line (p_To p) -> one_line now -> one_line mid ->
  parse_address (trim_blank (p_From p)) = Some from ->
  parse_address (trim_blank (p_To p)) = Some to ->
  pkt <> [] -> len pkt <= MaxPacketSize ->
  Decode (fields (relay ++ envelope_fields p now mid) ++ crlf ++ wrapped_body pkt)
  = Ok (mkDecoded (trim_blank mid) from to pkt).
Proof.
  intros Hr HF HT Hnow Hmid Hfrom Hto Hne Hlen.
  unfold Decode. rewrite read_message_fields.
  2: { by destruct relay. }
  2: { apply Forall_app. split; [| by apply envelope_fields_ok].
       eapply Forall_impl; [exact Hr|]. by intros kv [? _]. }
  change (add_fields ∅ (relay ++ envelope_fields p now mid))
    with (envelope_header_read relay p now mid).
  rewrite envelope_read_marker, envelope_read_ContentType by done.
  rewrite (bool_decide_eq_false_2 (octet_stream = [])) by done.
  rewrite octet_stream_media, envelope_isTransport by done. cbn [negb].
  rewrite (extractAddress_ok _ _ _ _ (envelope_read_From _ Hr _ _ _) Hfrom).
  rewrite (extractAddress_ok _ _ _ _ (envelope_read_To _ Hr _ _ _) Hto).
  rewrite decode_packet_wrapped; [| by apply envelope_read_CTE | done | done].
  cbn [res_bind]. by rewrite envelope_read_MessageID.
Qed.

(** The Message-ID [Encode] generates. *)
Lemma generated_mid_ok `{MailParsersOk} uuid addr :
  let mid := str "<" ++ (uuid ++ str "@" ++ domainFromAddr addr) ++ str ">" in
  one_line uuid -> one_line addr -> one_line mid /\ trim_blank mid = mid.
Proof.
  cbv zeta. intros Hu Ha. split; [| apply mid_trim]. rewrite !one_line_app.
  split_and!; try (by apply (bool_decide_unpack _)); [done | by apply domainFromAddr_one_line].
Qed.

(** The round trip. *)
Lemma Decode_Encode_lemma `{UnicodeTables} `{MailParsersOk} relay uuid now p raw mid from to :
  Encode uuid now p = Ok (raw, mid) -> relay_fields relay ->
  one_line (p_From p) -> one_line (p_To p) -> one_line now -> one_line uuid ->
  parse_address (trim_blank (p_From p)) = Some from ->
  parse_address (trim_blank (p_To p)) = Some to ->
  len (p_Packet p) <= MaxPacketSize ->
  Decode (fields relay ++ raw) = Ok (mkDecoded mid from to (p_Packet p)).
Proof.
  intros (Hne & -> & ->)%Encode_ok Hr HF HT Hnow Hu Hfrom Hto Hlen.
  destruct (generated_mid_ok uuid (p_From p) Hu HF) as [Hmid Htrim].
  rewrite app_assoc, <- fields_app, (Decode_message _ _ _ _ from to) by done.
  by rewrite Htrim.
Qed.

(** C6: Round trip: [Decode] recovers from the e-mail [Encode] builds, with any
    header fields relays put in front of it on the way, the packet, the bare
    sender and recipient addresses and the Message-ID, for every packet of at
    most [MaxPacketSize] bytes, provided the two addresses parse and no
    parameter breaks its header line. *)
Theorem Decode_Encode `{UnicodeTables} `{MailParsersOk} relay uuid now p raw mid from to :
  Encode uuid now p = Ok (raw, mid) -> relay_fields relay ->
  one_line (p_From p) -> one_line (p_To p) -> one_line now -> one_line uuid ->
  parse_address (trim_blank (p_From p)) = Some from ->
  parse_address (trim_blank (p_To p)) = Some to ->
  len (p_Packet p) <= MaxPacketSize ->
  Decode (fields relay ++ raw) = Ok (mkDecoded mid from to (p_Packet p)).
Proof. apply Decode_Encode_lemma. Qed.

(** *** What [Decode] accepts *)

(** The specification of an accepted message: it parses, carries the marker and
    the media type, its two addresses parse, and its body, within the budget,
    decodes under the declared transfer encoding to a non-empty packet. *)
Definition valid_envelope `{UnicodeTables} `{MailParsers} (raw : bytes) (d : Decoded) : Prop :=
  exists h body,
    read_message raw = Ok (h, body)
    /\ header_get h transportHeader = str "1"
    /\ (header_get h (str "Content-Type") <> []
        /\ parse_media_type (header_get h (str "Content-Type")) = Ok octet_stream)
    /\ (header_get h (str "From") <> []
        /\ parse_address (header_get h (str "From")) = Some (d_From d))
    /\ (header_get h (str "To") <> []
        /\ parse_address (header_get h (str "To")) = Some (d_To d))
    /\ d_MessageID d = header_get h (str "Message-ID")
    /\ len body <= MaxBodySize
    /\ decodeBody body (header_get h (str "Content-Transfer-Encoding")) = Ok (d_Packet d)
    /\ d_Packet d <> [].

Lemma extractAddress_Ok_iff `{MailParsers} h k a :
  extractAddress h k = Ok a <-> (header_get h k <> [] /\ parse_address (header_get h k) = Some a).
Proof.
  unfold extractAddress. case_bool_decide; [split; [done | by intros [? _]]|].
  destruct (parse_address _); split; [intros [= ->] | intros [_ [= ->]] | | intros [_ ?]]; done.
Qed.

Lemma take_over {A} (l : list A) n :
  0 <= n -> (n <? len (take (Z.to_nat (n + 1)) l)) = (n <? len l).
Proof.
  intros. unfold len. rewrite length_take.
  destruct (Z.ltb_spec n (Z.of_nat (Z.to_nat (n + 1) `min` length l)));
    destruct (Z.ltb_spec n (Z.of_nat (length l))); lia.
Qed.

Lemma decode_packet_Ok_iff `{UnicodeTables} `{MailParsers} h body pkt :
  decode_packet h body = Ok pkt <->
  (len body <= MaxBodySize
   /\ decodeBody body (header_get h (str "Content-Transfer-Encoding")) = Ok pkt /\ pkt <> []).
Proof.
  unfold decode_packet. rewrite take_over by (rewrite MaxBodySize_eq; lia).
  destruct (MaxBodySize <? len body) eqn:E; [split; [done | lia]|].
  rewrite take_ge by (unfold len in E; lia).
  destruct (decodeBody _ _) as [p|]; simpl; [| by split; [|intros (_ & ? & _)]].
  case_bool_decide; split; [done | | |];
    [intros (_ & [= ->] & ?) | intros [= ->] | intros (_ & [= ->] & _)]; try done.
  by split_and!; [lia | |].
Qed.

Lemma isTransport_true h m :
  isTransport h m = true <-> (header_get h transportHeader = str "1" /\ m = octet_stream).
Proof. unfold isTransport. by rewrite andb_true_iff, !bool_decide_eq_true. Qed.

(** C7: [Decode] succeeds with [d] if and only if the message is a valid
    transport envelope for [d]: the executable decoder implements the
    relational specification, and in particular never returns an empty packet
    or one from an over-long body. *)
Theorem Decode_valid_envelope `{UnicodeTables} `{MailParsers} raw d :
  Decode raw = Ok d <-> valid_envelope raw d.
Proof.
  unfold Decode, valid_envelope. destruct (read_message raw) as [[h body]|e].
  2:{ split; [by destruct (hasTransportMarker raw) | by intros (? & ? & [=] & _)]. }
  split.
  - case_bool_decide as Hct; [by destruct (bool_decide _)|].
    destruct (parse_media_type _) as [mt|] eqn:Hmt; [| by destruct (bool_decide _)].
    destruct (isTransport h mt) eqn:Ht; simpl; [| by destruct (bool_decide _)].
    apply isTransport_true in Ht as [Hm ->].
    destruct (extractAddress h (str "From")) as [f|] eqn:Hf; [|done].
    destruct (extractAddress h (str "To")) as [t|] eqn:Hto; [|done].
    destruct (decode_packet h body) as [p|] eqn:Hp; simpl; [|done].
    intros <-%Ok_inj. exists h, body. apply extractAddress_Ok_iff in Hf, Hto.
    apply decode_packet_Ok_iff in Hp as (? & ? & ?). simpl. done.
  - intros (h' & body' & E & Hm & [Hct Hmt] & Hf & Hto & Hid & Hlen & Hb & Hne).
    apply Ok_pair_inj in E as [<- <-].
    rewrite bool_decide_eq_false_2 by done. rewrite Hmt.
    rewrite (proj2 (isTransport_true _ _)) by done. simpl.
    apply extractAddress_Ok_iff in Hf as ->. apply extractAddress_Ok_iff in Hto as ->.
    rewrite (proj2 (decode_packet_Ok_iff _ _ (d_Packet d))) by done. simpl.
    rewrite <- Hid. by destruct d.
Qed.

(** *** Ours or not ours *)

(** A header text: what stands before the first empty line, lines ending in CRLF
    or, where there is no such line, in LF; without an empty line, everything. *)
Definition header_text (raw hdr : bytes) : Prop :=
  before_first (crlf ++ crlf) raw hdr
  \/ absent (crlf ++ crlf) raw /\ before_first [lf; lf] raw hdr
  \/ absent (crlf ++ crlf) raw /\ absent [lf; lf] raw /\ hdr = raw.

(** A line, up to its CRs, that is the marker's header field and not the
    continuation of another: [X-RNS-Transport], in any letter case, a colon and
    [1], with white space around the name and the value. *)
Definition marker_field (line : bytes) : Prop :=
  exists name value crs : bytes,
    line = (name ++ colon :: value) ++ crs
    /\ Forall (eq cr) crs /\ last (name ++ colon :: value) <> Some cr
    /\ (forall c, head line = Some c -> is_blank c = false) /\ (colon ∉ name)
    /\ equal_fold_ascii (trim_space name) transportHeader = true
    /\ trim_space value = str "1".

(** The transport marker of a message: its header field when the message
    parses; when it does not, a line of its header text that reads as that field. *)
Definition marked (raw : bytes) : Prop :=
  match read_message raw with
  | Ok (h, _) => header_get h transportHeader = str "1"
  | Err _ => exists hdr line, header_text raw hdr /\ piece_of lf hdr line /\ marker_field line
  end.

(** The part of a line before its CRs, for which [marker_line] decides. *)
Lemma marker_line_spec line : marker_line line = true <-> marker_field line.
Proof.
  unfold marker_line, marker_field.
  destruct (proj1 (trim_right_spec (fun c => bool_decide (c = cr)) line _) eq_refl) as (crs & Hline & Hcrs & Hlast).
  assert (Hcr : Forall (eq cr) crs).
  { eapply Forall_impl; [exact Hcrs|]. by intros c ->%bool_decide_eq_true. }
  split.
  - destruct (trim_right _ line) as [|c l] eqn:Et; [done|]. destruct (is_blank c) eqn:Hb; [done|].
    destruct (cut (c :: l) colon) as [[name value]|] eqn:Ec; [|done].
    apply cut_Some in Ec as [E Hn]. intros [Hf Hv%bool_decide_eq_true]%andb_true_iff.
    exists name, value, crs. rewrite <- E. split_and!; try done.
    + intros Hl. by apply Hlast, bool_decide_eq_false in Hl.
    + rewrite Hline. by intros ? [= <-].
  - intros (name & value & crs' & Hl & Hc & Hlast' & Hhead & Hn & Hf & Hv).
    rewrite (proj2 (trim_right_spec (fun c => bool_decide (c = cr)) line (name ++ colon :: value))).
    2:{ exists crs'. split; [done|]. split.
        - eapply Forall_impl; [exact Hc|]. intros c <-. by apply bool_decide_eq_true.
        - intros c Hl'. apply bool_decide_eq_false. congruence. }
    destruct (name ++ colon :: value) as [|c l] eqn:E; [by destruct name|].
    rewrite (Hhead c) by (by rewrite Hl). rewrite <- E, cut_app, Hf, Hv by done. done.
Qed.

Lemma header_block_spec raw : header_text raw (header_block raw).
Proof.
  unfold header_text, header_block.
  pose proof (index_spec raw (crlf ++ crlf)) as H1. destruct (index raw (crlf ++ crlf)); [by left|].
  pose proof (index_spec raw [lf; lf]) as H2. destruct (index raw [lf; lf]); [by right; left | by right; right].
Qed.

Lemma header_text_unique raw h1 h2 : header_text raw h1 -> header_text raw h2 -> h1 = h2.
Proof.
  assert (Habs : forall sep h, absent sep raw -> before_first sep raw h -> False).
  { intros sep h Ha [[q Hq] _]. exact (Ha _ _ Hq). }
  intros [B1|[[A1 B1]|(A1 & A1' & ->)]] [B2|[[A2 B2]|(A2 & A2' & ->)]];
    try match goal with A : absent ?sep raw, B : before_first ?sep raw _ |- _ => destruct (Habs _ _ A B) end;
    try done; eauto using before_first_unique.
Qed.

Lemma hasTransportMarker_spec raw :
  hasTransportMarker raw = true
  <-> exists hdr line, header_text raw hdr /\ piece_of lf hdr line /\ marker_field line.
Proof.
  unfold hasTransportMarker. rewrite existsb_exists. split.
  - intros (line & Hin%list_elem_of_In & Hl). exists (header_block raw), line.
    split; [apply header_block_spec|]. split; [by apply split_elem | by apply marker_line_spec].
  - intros (hdr & line & Hh & Hp & Hm). exists line.
    rewrite (header_text_unique raw hdr (header_block raw) Hh (header_block_spec raw)) in Hp.
    split; [by apply list_elem_of_In, split_elem | by apply marker_line_spec].
Qed.

Definition is_not_transport {A} (r : result A) : bool :=
  match r with Err e => errors_is ErrNotTransport e | Ok _ => false end.

Lemma decodeBody_ours `{UnicodeTables} `{MailParsers} body cte :
  is_not_transport (decodeBody body cte) = false.
Proof. unfold decodeBody. repeat case_match; done. Qed.

Lemma decode_packet_ours `{UnicodeTables} `{MailParsers} h body :
  is_not_transport (decode_packet h body) = false.
Proof.
  unfold decode_packet. destruct (_ <? _); [done|].
  pose proof (decodeBody_ours (take (Z.to_nat (MaxBodySize + 1)) body)
                (header_get h (str "Content-Transfer-Encoding"))) as Hb.
  destruct (decodeBody _ _); [| done]. simpl. by case_bool_decide.
Qed.

Lemma extractAddress_ours `{MailParsers} h k : is_not_transport (extractAddress h k) = false.
Proof. unfold extractAddress. by repeat case_match. Qed.

Lemma read_message_err_opaque raw e : read_message raw = Err e -> errors_is ErrNotTransport e = false.
Proof. unfold read_message. repeat case_match; by intros [= <-]. Qed.

(** C8: [Decode] says "not ours" ([ErrNotTransport], the error that lets the
    worker skip a message for good) exactly on the messages that carry no
    transport marker: of a message that parses the marker is its header field, of
    a broken one any line of its header text that reads as that field. *)
Theorem Decode_not_transport_iff `{UnicodeTables} `{MailParsers} raw :
  is_not_transport (Decode raw) = true <-> ~ marked raw.
Proof.
  unfold Decode, marked. destruct (read_message raw) as [[h body]|e] eqn:Hr.
  2:{ apply read_message_err_opaque in Hr. rewrite <- hasTransportMarker_spec.
      destruct (hasTransportMarker raw); simpl; [by rewrite Hr | done]. }
  destruct (bool_decide (header_get h transportHeader = str "1")) eqn:Hm.
  - match goal with |- ?x = true <-> _ => assert (E : x = false) end.
    { destruct (bool_decide (header_get h (str "Content-Type") = [])); [done|].
      destruct (parse_media_type _) as [mt|]; [|done]. destruct (negb _); [done|].
      pose proof (extractAddress_ours h (str "From")) as H1.
      pose proof (extractAddress_ours h (str "To")) as H2.
      pose proof (decode_packet_ours h body) as H3.
      destruct (extractAddress h (str "From")); simpl in *; [| by rewrite H1].
      destruct (extractAddress h (str "To")); simpl in *; [| by rewrite H2].
      by destruct (decode_packet h body). }
    rewrite E. apply bool_decide_eq_true in Hm. by split; [|intros []].
  - unfold isTransport. rewrite Hm. apply bool_decide_eq_false in Hm.
    destruct (bool_decide (header_get h (str "Content-Type") = [])); [done|].
    by destruct (parse_media_type _) as [mt|].
Qed.

(** ** Witnesses *)

Module EnvelopeSamples.
Import GoLibrary.

Definition params : Params :=
  mkParams (str "alice@a.example") (str "bob@b.example") (str "hello").
Definition now : bytes := str "Tue, 23 Mar 2026 12:34:56 +0000".
Definition uuid : bytes := str "550e8400-e29b-41d4-a716-446655440000".

Example encoded_body : wrapped_body (p_Packet params) = str "aGVsbG8=" ++ crlf.
Proof. vm_compute. reflexivity. Qed.

Example regular_mail_not_ours :
  is_not_transport (Decode (str "Subject: x" ++ crlf ++ crlf ++ str "hi")) = true.
Proof. vm_compute. reflexivity. Qed.
End EnvelopeSamples.

(** A marked header the parser refuses, and a letter without the marker. *)
Lemma Decode_not_transport_iff_witness :
  let broken := str "X-rns-transport : 1" ++ crlf ++ str "no field" ++ crlf ++ crlf ++ str "x" in
  let letter := str "Subject: X-RNS-Transport: 1" ++ crlf ++ crlf ++ str "x" in
  (exists e, read_message broken = Err e)
  /\ is_not_transport (@Decode GoLibrary.unicode GoLibrary.parsers broken) = false /\ ~ marked letter.
Proof.
  intros broken letter.
  assert (Hb : exists e, read_message broken = Err e) by (eexists; vm_compute; reflexivity).
  split; [exact Hb|]. split.
  - apply not_true_is_false. intros E%Decode_not_transport_iff. apply E. destruct Hb as [e Hb].
    unfold marked. rewrite Hb. apply hasTransportMarker_spec. vm_compute. reflexivity.
  - apply (@Decode_not_transport_iff GoLibrary.unicode GoLibrary.parsers letter). vm_compute. reflexivity.
Defined.

Lemma Decode_Encode_witness :
  exists raw mid,
    @Encode GoLibrary.parsers EnvelopeSamples.uuid EnvelopeSamples.now EnvelopeSamples.params
    = Ok (raw, mid)
    /\ @Decode GoLibrary.unicode GoLibrary.parsers
         (fields [(str "Received", str "by mx.b.example")] ++ raw)
       = Ok (mkDecoded mid (str "alice@a.example") (str "bob@b.example") (str "hello")).
Proof.
  eexists _, _. split; [reflexivity|].
  apply (@Decode_Encode GoLibrary.unicode GoLibrary.parsers GoLibrary.parsers_ok
           [(str "Received", str "by mx.b.example")]
           EnvelopeSamples.uuid EnvelopeSamples.now EnvelopeSamples.params);
    first [ reflexivity | by apply (bool_decide_unpack _) | vm_compute; discriminate ].
Defined.
