(* ===== verification/Online.v ===== *)
(** * internal/online: the online/offline aggregator

    [Aggregator] combines the IMAP and the SMTP health signal and calls back on
    transitions of their conjunction.  [SetIMAP] and [SetSMTP] hold the mutex
    for their whole body, so a concurrent run is a sequence of these calls in
    lock order.  The theorems: the cached value always is the conjunction, and
    the callbacks are exactly the changes of the conjunction after the initial
    [false] (a refinement of the edge detector [edges]). *)
From S2P Require Import Prelude.

Record Aggregator := mkAggregator {
  a_imap : bool;
  a_smtp : bool;
  a_last : bool;
}.

(** A call of the component's interface. *)
Inductive signal := IMAP (online : bool) | SMTP (online : bool).

Section Aggregator.
(** The world the callback ([iface.SetOnline]) acts on. *)
Context {W : Type} (callback : bool -> W -> W).

Definition update (a : Aggregator) (w : W) : Aggregator * W :=
  let combined := a_imap a && a_smtp a in
  if bool_decide (combined <> a_last a)
  then (mkAggregator (a_imap a) (a_smtp a) combined, callback combined w)
  else (a, w).

Definition NewAggregator (w : W) : Aggregator * W :=
  let a := mkAggregator false false true in
  let w := callback false w in
  (mkAggregator (a_imap a) (a_smtp a) false, w).

Definition SetIMAP (online : bool) (a : Aggregator) (w : W) : Aggregator * W :=
  update (mkAggregator online (a_smtp a) (a_last a)) w.

Definition SetSMTP (online : bool) (a : Aggregator) (w : W) : Aggregator * W :=
  update (mkAggregator (a_imap a) online (a_last a)) w.

Definition apply_signal (s : signal) (a : Aggregator) (w : W) : Aggregator * W :=
  match s with IMAP b => SetIMAP b a w | SMTP b => SetSMTP b a w end.

Definition run_signals (ss : list signal) (aw : Aggregator * W) : Aggregator * W :=
  foldl (fun aw s => apply_signal s aw.1 aw.2) aw ss.
End Aggregator.

(** ** Specification *)

(** The pair of component states after a sequence of signals. *)
Definition health (p : bool * bool) (s : signal) : bool * bool :=
  match s with IMAP b => (b, p.2) | SMTP b => (p.1, b) end.

(** The combined value after each signal. *)
Fixpoint combined_history (p : bool * bool) (ss : list signal) : list bool :=
  match ss with
  | [] => []
  | s :: ss' => let p' := health p s in (p'.1 && p'.2) :: combined_history p' ss'
  end.

(** The values at which a history changes, from a current value. *)
Fixpoint edges (cur : bool) (hist : list bool) : list bool :=
  match hist with
  | [] => []
  | b :: hist' => if Bool.eqb b cur then edges cur hist' else b :: edges b hist'
  end.

(** No two neighbours are equal. *)
Fixpoint alternating (cur : bool) (l : list bool) : Prop :=
  match l with
  | [] => True
  | b :: l' => b = negb cur /\ alternating b l'
  end.

Lemma edges_alternating cur hist : alternating cur (edges cur hist).
Proof.
  revert cur; induction hist as [|b hist IH]; intros cur; simpl; [done|].
  destruct b, cur; simpl; auto.
Qed.

(** The value in force after a sequence of values. *)
Definition final (cur : bool) (l : list bool) : bool := foldl (fun _ b => b) cur l.

Lemma edges_final cur hist : final cur (edges cur hist) = final cur hist.
Proof.
  unfold final. revert cur; induction hist as [|b hist IH]; intros cur; simpl; [done|].
  destruct (Bool.eqb b cur) eqn:E; simpl; [| done].
  apply Bool.eqb_prop in E as ->. apply IH.
Qed.

(** One more signal. *)
Lemma combined_history_snoc p ss s :
  combined_history p (ss ++ [s])
  = combined_history p ss ++ [let p' := foldl health p (ss ++ [s]) in p'.1 && p'.2].
Proof. revert p. induction ss as [|s0 ss IH]; intros p; [done|]. cbn. by rewrite IH. Qed.

Lemma edges_snoc cur hist b :
  edges cur (hist ++ [b]) = edges cur hist ++ edges (final cur hist) [b].
Proof.
  unfold final. revert cur. induction hist as [|b0 hist IH]; intros cur; [done|].
  cbn [app edges foldl]. destruct (Bool.eqb b0 cur) eqn:E; rewrite IH; [|done].
  by apply Bool.eqb_prop in E as ->.
Qed.

Lemma final_combined_history p ss :
  final (p.1 && p.2) (combined_history p ss) = (foldl health p ss).1 && (foldl health p ss).2.
Proof. revert p. induction ss as [|s ss IH]; intros p; [done|]. apply IH. Qed.

(** ** Correctness *)

Definition agg_inv (a : Aggregator) : Prop := a_last a = a_imap a && a_smtp a.

Lemma update_spec {W} (cb : bool -> W -> W) a w :
  update cb a w =
  (mkAggregator (a_imap a) (a_smtp a) (a_imap a && a_smtp a),
   foldl (fun w b => cb b w) w (edges (a_last a) [a_imap a && a_smtp a])).
Proof. unfold update. destruct a as [[] [] []]; reflexivity. Qed.

Lemma apply_signal_spec {W} (cb : bool -> W -> W) s a w :
  let p := health (a_imap a, a_smtp a) s in
  apply_signal cb s a w =
  (mkAggregator p.1 p.2 (p.1 && p.2), foldl (fun w b => cb b w) w (edges (a_last a) [p.1 && p.2])).
Proof. destruct s; apply update_spec. Qed.

(** The cached value always is the conjunction of the two component
    states, whatever sequence of calls the aggregator has served. *)
Theorem run_signals_inv {W} (cb : bool -> W -> W) ss w :
  agg_inv (run_signals cb ss (NewAggregator cb w)).1.
Proof.
  assert (Hinv : agg_inv (NewAggregator cb w).1) by done. revert Hinv.
  generalize (NewAggregator cb w) as aw. induction ss as [|s ss IH]; intros aw Hinv; [done|].
  apply IH. by rewrite apply_signal_spec.
Qed.

Lemma run_signals_from {W} (cb : bool -> W -> W) ss a w :
  (run_signals cb ss (a, w)).2 =
  foldl (fun w b => cb b w) w
    (edges (a_last a) (combined_history (a_imap a, a_smtp a) ss)).
Proof.
  revert a w; induction ss as [|s ss IH]; intros a w; [done|].
  unfold run_signals in *. simpl foldl at 1. rewrite apply_signal_spec, IH.
  simpl combined_history. set (p := health (a_imap a, a_smtp a) s).
  simpl. rewrite <- surjective_pairing.
  destruct (Bool.eqb (p.1 && p.2) (a_last a)) eqn:E; simpl; [| done].
  by apply Bool.eqb_prop in E as ->.
Qed.

(** Refinement: over any sequence of calls the callbacks are the initial
    [false] followed by exactly the changes of [imap && smtp], in order; so the
    consumer is told about every transition, once, and about nothing else. *)
Theorem run_signals_edges {W} (cb : bool -> W -> W) ss w :
  (run_signals cb ss (NewAggregator cb w)).2 =
  foldl (fun w b => cb b w) (cb false w) (edges false (combined_history (false, false) ss)).
Proof. apply run_signals_from. Qed.

(** The callbacks themselves, recorded: after the initial [false] they alternate,
    and the last one is the present conjunction. *)
Lemma run_signals_trace ss :
  (run_signals (fun b w => w ++ [b]) ss (NewAggregator (fun b w => w ++ [b]) [])).2
  = false :: edges false (combined_history (false, false) ss).
Proof.
  etransitivity; [apply run_signals_from|]. simpl.
  generalize (edges false (combined_history (false, false) ss)) as l.
  enough (Hl : forall (l acc : list bool), foldl (fun w b => w ++ [b]) acc l = acc ++ l)
    by (intros l; apply Hl).
  induction l as [|b l IH]; intros acc; simpl; [by rewrite app_nil_r|].
  by rewrite IH, <- app_assoc.
Qed.

(** The recorded callbacks: strictly alternating from the initial [false],
    and the value last reported to the pipe interface is the conjunction of the
    last health signals. *)
Theorem callbacks_alternate ss :
  exists l,
    (run_signals (fun b w => w ++ [b]) ss (NewAggregator (fun b w => w ++ [b]) [])).2 = false :: l
    /\ alternating false l
    /\ final false l = final false (combined_history (false, false) ss).
Proof.
  exists (edges false (combined_history (false, false) ss)).
  split_and!; [apply run_signals_trace | apply edges_alternating | apply edges_final].
Qed.

Example both_needed :
  (run_signals (fun b w => w ++ [b]) [SMTP true; IMAP true; IMAP true; SMTP false]
     (NewAggregator (fun b w => w ++ [b]) [])).2 = [false; true; false].
Proof. reflexivity. Qed.
