(* ===== verification/Inbox.v ===== *)
(** * internal/inbox: the checkpoint file

    [JSONRepo] keeps one record (folder, UIDVALIDITY, last UID) in a JSON file
    that is replaced atomically (write to [path.tmp], rename).  The file system
    is a map from paths to contents with a script of faults, one entry per
    system call; a failed write leaves any content behind in the temporary file.

    [Repository] is the interface the IMAP worker uses, with its contract
    [RepositorySpec] (a checkpoint per folder and UIDVALIDITY that only grows,
    and is untouched by a failed call); the theorems show that [JSONRepo]
    implements it, and that a crash between any two system calls leaves the old
    or the new checkpoint. *)
From S2P Require Import Prelude GoErrors GoStrings.

Record checkpoint := mkCheckpoint {
  cp_Folder : bytes;
  cp_UIDValidity : Z;
  cp_LastUID : Z;
}.

#[global] Instance checkpoint_eq_dec : EqDecision checkpoint.
Proof. solve_decision. Defined.

Definition zero_checkpoint : checkpoint := mkCheckpoint [] 0 0.

(** [encoding/json] on the record: [json.Marshal] and [json.Unmarshal]. *)
Class CheckpointCodec := {
  cp_marshal : checkpoint -> bytes;
  cp_unmarshal : bytes -> option checkpoint;
}.

(** ** The file system *)

(** The outcome of one system call: success, or failure with the content a
    failed write leaves in its file ([None]: the file is not touched). *)
Inductive io_outcome := IoOk | IoFail (left : option bytes).

Record Disk := mkDisk {
  d_files : gmap bytes bytes;
  d_faults : list io_outcome;
}.

(** The outcome of the next call; after the script all calls succeed. *)
Definition next_io (d : Disk) : Disk * io_outcome :=
  match d_faults d with
  | [] => (d, IoOk)
  | o :: os => (mkDisk (d_files d) os, o)
  end.

Inductive read_result := ReadOk (data : bytes) | ReadNotExist | ReadErr.

Definition os_ReadFile (path : bytes) (d : Disk) : Disk * read_result :=
  let '(d, o) := next_io d in
  match o with
  | IoFail _ => (d, ReadErr)
  | IoOk => (d, match d_files d !! path with Some data => ReadOk data | None => ReadNotExist end)
  end.

(** Directories are not part of the map. *)
Definition os_MkdirAll (d : Disk) : Disk * option error :=
  let '(d, o) := next_io d in
  match o with
  | IoOk => (d, None)
  | IoFail _ => (d, Some (Opaque "mkdir"))
  end.

Definition os_WriteFile (path data : bytes) (d : Disk) : Disk * option error :=
  let '(d, o) := next_io d in
  match o with
  | IoOk => (mkDisk (<[path := data]> (d_files d)) (d_faults d), None)
  | IoFail (Some partial) =>
    (mkDisk (<[path := partial]> (d_files d)) (d_faults d), Some (Opaque "write"))
  | IoFail None => (d, Some (Opaque "write"))
  end.

(** [os.Rename] replaces the target in one step. *)
Definition os_Rename (src dst : bytes) (d : Disk) : Disk * option error :=
  let '(d, o) := next_io d in
  match o, d_files d !! src with
  | IoOk, Some data => (mkDisk (<[dst := data]> (delete src (d_files d))) (d_faults d), None)
  | _, _ => (d, Some (Opaque "rename"))
  end.

(** ** The repository interface *)

Class Repository (W : Type) := {
  AdvanceCheckpoint : bytes -> Z -> Z -> W -> W * option error;
  GetCheckpoint : bytes -> Z -> W -> W * result Z;
}.

(** The contract: [rep_cp] is the checkpoint the world holds for a folder and
    UIDVALIDITY.  It is stated for the folder names the store can represent. *)
Class RepositorySpec (W : Type) `{Repository W} := {
  rep_cp : W -> bytes -> Z -> Z;
  rep_folder : bytes -> Prop;
  rep_range w f v : is_u32 (rep_cp w f v);
  get_frame f v w f' v' : rep_cp (GetCheckpoint f v w).1 f' v' = rep_cp w f' v';
  get_value f v w u : (GetCheckpoint f v w).2 = Ok u -> u = rep_cp w f v;
  advance_ok f v u w :
    rep_folder f -> is_u32 v -> is_u32 u ->
    (AdvanceCheckpoint f v u w).2 = None ->
    rep_cp (AdvanceCheckpoint f v u w).1 f v = Z.max (rep_cp w f v) u;
  advance_err f v u w e f' v' :
    (AdvanceCheckpoint f v u w).2 = Some e ->
    rep_cp (AdvanceCheckpoint f v u w).1 f' v' = rep_cp w f' v';
  advance_other f v u w f' v' :
    rep_folder f -> is_u32 v -> is_u32 u -> (f', v') <> (f, v) ->
    rep_cp (AdvanceCheckpoint f v u w).1 f' v' <= rep_cp w f' v';
}.

(** ** JSONRepo *)

Section JSONRepo.
Context `{CheckpointCodec} (path : bytes).

Definition tmp_path : bytes := path ++ str ".tmp".

(** A missing or a corrupt file is the zero record. *)
Definition load (d : Disk) : Disk * result checkpoint :=
  let '(d, r) := os_ReadFile path d in
  match r with
  | ReadErr => (d, Err (Opaque "read"))
  | ReadNotExist => (d, Ok zero_checkpoint)
  | ReadOk data =>
    (d, Ok (match cp_unmarshal data with Some cp => cp | None => zero_checkpoint end))
  end.

Definition save (cp : checkpoint) (d : Disk) : Disk * option error :=
  let data := cp_marshal cp in
  match os_MkdirAll d with
  | (d, Some e) => (d, Some e)
  | (d, None) =>
    match os_WriteFile tmp_path data d with
    | (d, Some e) => (d, Some e)
    | (d, None) => os_Rename tmp_path path d
    end
  end.

(** The record belongs to the mailbox asked for. *)
Definition matches (folder : bytes) (uidValidity : Z) (cp : checkpoint) : bool :=
  bool_decide (cp_Folder cp = folder) && (cp_UIDValidity cp =? uidValidity).

Definition json_GetCheckpoint (folder : bytes) (uidValidity : Z) (d : Disk) : Disk * result Z :=
  let '(d, r) := load d in
  match r with
  | Err e => (d, Err e)
  | Ok cp => if matches folder uidValidity cp then (d, Ok (cp_LastUID cp)) else (d, Ok 0)
  end.

(** The record to store. *)
Definition advanced (folder : bytes) (uidValidity uid : Z) (cp : checkpoint) : checkpoint :=
  if negb (matches folder uidValidity cp) then mkCheckpoint folder uidValidity uid
  else if cp_LastUID cp <? uid then mkCheckpoint (cp_Folder cp) (cp_UIDValidity cp) uid
  else cp.

Definition json_AdvanceCheckpoint (folder : bytes) (uidValidity uid : Z) (d : Disk)
    : Disk * option error :=
  let '(d, r) := load d in
  match r with
  | Err e => (d, Some e)
  | Ok cp => save (advanced folder uidValidity uid cp) d
  end.

(** The repository of any world with a disk. *)
Definition JSONRepo {W} `{Has W Disk} : Repository W := {|
  AdvanceCheckpoint f v u := on (json_AdvanceCheckpoint f v u);
  GetCheckpoint f v := on (json_GetCheckpoint f v);
|}.
End JSONRepo.

(** ** Correctness *)

(** What the repository relies on from [encoding/json]: a record with a folder
    name the encoding represents and 32-bit numbers is read back as it was
    written, and numbers read fit their field. *)
Class CheckpointCodecOk `{CheckpointCodec} := {
  folder_ok : bytes -> Prop;
  cp_roundtrip f v u :
    folder_ok f -> is_u32 v -> is_u32 u ->
    cp_unmarshal (cp_marshal (mkCheckpoint f v u)) = Some (mkCheckpoint f v u);
  cp_unmarshal_range data cp : cp_unmarshal data = Some cp -> is_u32 (cp_LastUID cp);
}.

Section JSONRepoSpec.
Context `{CheckpointCodecOk} (path : bytes).

(** The record a read of the file yields. *)
Definition file_cp (d : Disk) : checkpoint :=
  match d_files d !! path with
  | Some data => default zero_checkpoint (cp_unmarshal data)
  | None => zero_checkpoint
  end.

(** The checkpoint of a mailbox. *)
Definition disk_cp (d : Disk) (folder : bytes) (uidValidity : Z) : Z :=
  if matches folder uidValidity (file_cp d) then cp_LastUID (file_cp d) else 0.

Lemma tmp_path_ne : tmp_path path <> path.
Proof.
  unfold tmp_path. intros E. apply (f_equal length) in E. rewrite length_app in E.
  simpl in E. lia.
Qed.

Lemma next_io_files d : d_files (next_io d).1 = d_files d.
Proof. unfold next_io. by destruct (d_faults d). Qed.

Lemma load_spec d :
  d_files (load path d).1 = d_files d
  /\ (forall cp, (load path d).2 = Ok cp -> cp = file_cp d).
Proof.
  unfold load, os_ReadFile. pose proof (next_io_files d) as Hf.
  destruct (next_io d) as [d' [|l]]; simpl in *; [|done].
  unfold file_cp. rewrite Hf. destruct (d_files d !! path) as [data|]; simpl.
  - split; [done|]. intros cp [= <-]. by destruct (cp_unmarshal data).
  - split; [done|]. by intros cp [= <-].
Qed.

Lemma file_cp_files d d' : d_files d !! path = d_files d' !! path -> file_cp d = file_cp d'.
Proof. unfold file_cp. by intros ->. Qed.

Lemma disk_cp_files d d' f v :
  d_files d !! path = d_files d' !! path -> disk_cp d f v = disk_cp d' f v.
Proof. unfold disk_cp. by intros ->%file_cp_files. Qed.

(** Every system call but the rename leaves the checkpoint file alone. *)
Lemma save_spec cp d :
  let r := save path cp d in
  match r.2 with
  | Some _ => d_files r.1 !! path = d_files d !! path
  | None => d_files r.1 !! path = Some (cp_marshal cp)
  end.
Proof.
  unfold save, os_MkdirAll. pose proof (next_io_files d) as H1.
  destruct (next_io d) as [d1 [|l1]]; simpl in *; [| by rewrite H1].
  unfold os_WriteFile. pose proof (next_io_files d1) as H2.
  destruct (next_io d1) as [d2 [|[l2|]]]; simpl in *.
  - unfold os_Rename. set (d3 := mkDisk _ _). pose proof (next_io_files d3) as H3.
    destruct (next_io d3) as [d4 [|l4]]; simpl in *.
    + rewrite H3. simpl. rewrite lookup_insert_eq. simpl. by rewrite lookup_insert_eq.
    + rewrite H3. simpl. rewrite lookup_insert_ne by apply tmp_path_ne. congruence.
  - rewrite lookup_insert_ne by apply tmp_path_ne. congruence.
  - congruence.
Qed.

Lemma matches_advanced f v u cp : matches f v (advanced f v u cp) = true.
Proof.
  unfold advanced. destruct (matches f v cp) eqn:E; simpl.
  - destruct (cp_LastUID cp <? u); [| done]. revert E. unfold matches. simpl. done.
  - unfold matches. simpl. by rewrite bool_decide_eq_true_2, Z.eqb_refl.
Qed.

Lemma matches_true f v cp : matches f v cp = true -> cp_Folder cp = f /\ cp_UIDValidity cp = v.
Proof. unfold matches. intros [H1%bool_decide_eq_true H2%Z.eqb_eq]%andb_true_iff. done. Qed.

Lemma file_cp_range d : is_u32 (cp_LastUID (file_cp d)).
Proof.
  unfold file_cp. destruct (d_files d !! path) as [data|]; [| by unfold is_u32; simpl; lia].
  destruct (cp_unmarshal data) as [cp|] eqn:E; simpl; [| by unfold is_u32; simpl; lia].
  by eapply cp_unmarshal_range.
Qed.

Lemma advanced_roundtrip f v u d :
  folder_ok f -> is_u32 v -> is_u32 u ->
  cp_unmarshal (cp_marshal (advanced f v u (file_cp d))) = Some (advanced f v u (file_cp d)).
Proof.
  intros Hf Hv Hu. pose proof (file_cp_range d) as Hr. unfold advanced.
  destruct (matches f v (file_cp d)) eqn:E; simpl; [| by apply cp_roundtrip].
  apply matches_true in E as [Ef Ev]. destruct (file_cp d) as [f' v' u']; simpl in *; subst.
  destruct (u' <? u); by apply cp_roundtrip.
Qed.

(** One call of [AdvanceCheckpoint]: the file is either untouched or, exactly
    when the call succeeds, holds the advanced record. *)
Lemma advance_file f v u d :
  folder_ok f -> is_u32 v -> is_u32 u ->
  let r := json_AdvanceCheckpoint path f v u d in
  match r.2 with
  | Some _ => file_cp r.1 = file_cp d
  | None => file_cp r.1 = advanced f v u (file_cp d)
  end.
Proof.
  intros Hf Hv Hu. unfold json_AdvanceCheckpoint.
  destruct (load_spec d) as [Hl1 Hl2]. destruct (load path d) as [d1 [cp|e]]; simpl in *.
  2:{ apply file_cp_files. by rewrite Hl1. }
  rewrite (Hl2 cp eq_refl). pose proof (save_spec (advanced f v u (file_cp d)) d1) as Hs.
  destruct (save path _ d1) as [d2 [e|]]; simpl in *.
  - apply file_cp_files. congruence.
  - unfold file_cp at 1. rewrite Hs, advanced_roundtrip by done. done.
Qed.

Lemma advanced_cp f v u cp :
  0 <= u ->
  cp_LastUID (advanced f v u cp) = Z.max (if matches f v cp then cp_LastUID cp else 0) u.
Proof.
  intros Hu. unfold advanced. destruct (matches f v cp); simpl; [| lia].
  destruct (cp_LastUID cp <? u) eqn:E; simpl; lia.
Qed.
End JSONRepoSpec.

(** C29: [JSONRepo.AdvanceCheckpoint] is atomic: whatever fails, and so also
    when the process stops between (or inside) its system calls, the file holds
    the old record; when the call succeeds it holds the advanced one. *)
Theorem AdvanceCheckpoint_atomic `{CheckpointCodecOk} path f v u d :
  folder_ok f -> is_u32 v -> is_u32 u ->
  let r := json_AdvanceCheckpoint path f v u d in
  match r.2 with
  | Some _ => file_cp path r.1 = file_cp path d
  | None => file_cp path r.1 = advanced f v u (file_cp path d)
  end.
Proof. apply advance_file. Qed.

(** The JSON repository implements the contract of the interface. *)
#[export] Instance JSONRepoSpec `{CheckpointCodecOk} {W} `{Has W Disk} path :
  RepositorySpec W (H := JSONRepo path).
Proof.
  refine {| rep_cp w := disk_cp path (get w); rep_folder := folder_ok |}.
  - intros w f v. unfold disk_cp. destruct (matches f v _); [apply file_cp_range|].
    unfold is_u32. lia.
  - intros f v w f' v'. simpl. unfold on. simpl. rewrite get_put. apply disk_cp_files.
    unfold json_GetCheckpoint. destruct (load_spec path (get w)) as [Hl _].
    destruct (load path (get w)) as [d [cp|e]]; [destruct (matches f v cp)|]; simpl in *; by rewrite Hl.
  - intros f v w u. simpl. unfold json_GetCheckpoint.
    destruct (load_spec path (get w)) as [_ Hl].
    destruct (load path (get w)) as [d [cp|e]]; simpl in *; [|done].
    specialize (Hl cp eq_refl). subst cp. unfold disk_cp.
    destruct (matches f v (file_cp path (get w))); simpl; by intros [= ->].
  - intros f v u w Hf Hv Hu Hr. simpl in *. rewrite get_put.
    pose proof (advance_file path f v u (get w) Hf Hv Hu) as Ha. simpl in Ha. rewrite Hr in Ha.
    unfold disk_cp. rewrite Ha, matches_advanced, advanced_cp by (unfold is_u32 in Hu; lia). done.
  - intros f v u w e f' v' Hr. simpl in *. rewrite get_put. apply disk_cp_files.
    unfold json_AdvanceCheckpoint in *.
    destruct (load_spec path (get w)) as [Hl1 Hl2].
    destruct (load path (get w)) as [d1 [cp|e1]]; simpl in *; [| by rewrite Hl1].
    pose proof (save_spec path (advanced f v u cp) d1) as Hs.
    destruct (save path _ d1) as [d2 [e2|]]; simpl in *; [congruence | done].
  - intros f v u w f' v' Hf Hv Hu Hne. simpl in *. rewrite get_put.
    pose proof (advance_file path f v u (get w) Hf Hv Hu) as Ha. cbv zeta in Ha.
    destruct (json_AdvanceCheckpoint path f v u (get w)) as [d [e|]]; cbn [fst snd] in *;
      unfold disk_cp; rewrite Ha; [lia|].
    destruct (matches f' v' (advanced f v u _)) eqn:E.
    + apply matches_true in E as [E1 E2].
      pose proof (matches_advanced f v u (file_cp path (get w))) as [E3 E4]%matches_true.
      exfalso. apply Hne. congruence.
    + destruct (matches f' v' (file_cp path (get w))); [|done]. pose proof (file_cp_range path (get w)) as Hr.
      unfold is_u32 in Hr. lia.
Defined.
