(* ===== verification/Json.v ===== *)
(** * encoding/json on the checkpoint record

    [json.Marshal] of the record and [json.Unmarshal] into it: string quoting
    with the HTML-safe escapes, a full JSON syntax check (nesting depth
    included), keys matched exactly or by case folding, unknown keys skipped,
    the last of duplicate keys winning, [null] leaving a field alone, and a
    value of the wrong type or range refused.  The instance [checkpoint_json] of
    [CheckpointCodec] satisfies its law for every folder name that is valid
    UTF-8. *)
From Stdlib Require Import Strings.Byte.
From S2P Require Import Prelude GoErrors GoStrings GoMime Inbox.

(** ** Printing *)

(** [appendString] on one rune. *)
Definition quote_rune (rc : Z * bytes) : bytes :=
  let '(r, bs) := rc in
  if r <? 0x80 then
    if (r =? 0x22) || (r =? 0x5c) then [Byte.x5c; byte_of r]
    else if r =? 8 then str "\b"
    else if r =? 12 then str "\f"
    else if r =? 10 then str "\n"
    else if r =? 13 then str "\r"
    else if r =? 9 then str "\t"
    else if (r <? 0x20) || (r =? 0x26) || (r =? 0x3c) || (r =? 0x3e)
    then str "\u00" ++ [hex_digit (r / 16); hex_digit (r mod 16)]
    else [byte_of r]
  else if (r =? rune_error) && bool_decide (length bs = 1%nat) then str "\ufffd"
  else if (r =? 0x2028) || (r =? 0x2029) then str "\u202" ++ [hex_digit (r mod 16)]
  else bs.

Definition dquote : Byte.byte := Byte.x22.

Definition quote (s : bytes) : bytes :=
  dquote :: mjoin (quote_rune <$> runes s) ++ [dquote].

(** The member names; a string literal of the model cannot hold a quote. *)
Definition key (name : string) : bytes := dquote :: str name ++ [dquote; Byte.x3a].

Definition marshal (cp : checkpoint) : bytes :=
  [Byte.x7b] ++ key "folder" ++ quote (cp_Folder cp)
  ++ [Byte.x2c] ++ key "uidvalidity" ++ itoa (cp_UIDValidity cp)
  ++ [Byte.x2c] ++ key "last_uid" ++ itoa (cp_LastUID cp) ++ [Byte.x7d].

(** ** Parsing *)

#[warnings="-register-all"]
Inductive json :=
  | JNull
  | JBool (b : bool)
  | JNum (lit : bytes)
  | JStr (s : bytes)
  | JArr
  | JObj (members : list (bytes * json)).

Definition is_json_space (c : Byte.byte) : bool :=
  let v := bval c in (v =? 32) || (v =? 9) || (v =? 13) || (v =? 10).

Definition skip_space (s : bytes) : bytes := drop_while is_json_space s.

(** The raw text of a string literal, up to its closing quote. *)
Fixpoint scan_raw (s : bytes) : option (bytes * bytes) :=
  match s with
  | [] => None
  | c :: s1 =>
    if bool_decide (c = dquote) then Some ([], s1)
    else if bool_decide (c = Byte.x5c) then
      match s1 with
      | [] => None
      | d :: s2 => match scan_raw s2 with Some (raw, r) => Some (c :: d :: raw, r) | None => None end
      end
    else match scan_raw s1 with Some (raw, r) => Some (c :: raw, r) | None => None end
  end.

Definition hex_val (r : Z) : option Z :=
  if (48 <=? r) && (r <=? 57) then Some (r - 48)
  else if (97 <=? r) && (r <=? 102) then Some (r - 87)
  else if (65 <=? r) && (r <=? 70) then Some (r - 55)
  else None.

Definition u4 (a b c d : Z) : option Z :=
  a ← hex_val a; b ← hex_val b; c ← hex_val c; d ← hex_val d;
  Some (a * 4096 + b * 256 + c * 16 + d).

Definition is_surrogate (r : Z) : bool := (0xD800 <=? r) && (r <? 0xE000).

(** [utf16.DecodeRune], [None] for an invalid pair. *)
Definition utf16_pair (r1 r2 : Z) : option Z :=
  if (0xD800 <=? r1) && (r1 <? 0xDC00) && (0xDC00 <=? r2) && (r2 <? 0xE000)
  then Some ((r1 - 0xD800) * 1024 + (r2 - 0xDC00) + 0x10000) else None.

(** The byte a one-letter escape stands for. *)
Definition simple_escape (r : Z) : option Byte.byte :=
  if (r =? 0x22) || (r =? 0x5c) || (r =? 0x2f) then Some (byte_of r)
  else if r =? 98 then Some (byte_of 8)
  else if r =? 102 then Some (byte_of 12)
  else if r =? 110 then Some (byte_of 10)
  else if r =? 114 then Some (byte_of 13)
  else if r =? 116 then Some (byte_of 9)
  else None.

(** [unquote], with the checks of the scanner. *)
Fixpoint unquote (l : list (Z * bytes)) : option bytes :=
  match l with
  | [] => Some []
  | (r, _) :: l1 =>
    if r <? 0x20 then None
    else if r =? 0x5c then
      match l1 with
      | (117, _) :: (a, _) :: (b, _) :: (c, _) :: (d, _) :: l2 =>
        match u4 a b c d with
        | None => None
        | Some rr =>
          if is_surrogate rr then
            match l2 with
            | (92, _) :: (117, _) :: (a', _) :: (b', _) :: (c', _) :: (d', _) :: l3 =>
              match u4 a' b' c' d' ≫= utf16_pair rr with
              | Some dec => app (encode_rune dec) <$> unquote l3
              | None => app (encode_rune rune_error) <$> unquote l2
              end
            | _ => app (encode_rune rune_error) <$> unquote l2
            end
          else app (encode_rune rr) <$> unquote l2
        end
      | (e, _) :: l2 =>
        match simple_escape e with
        | Some c => cons c <$> unquote l2
        | None => None
        end
      | [] => None
      end
    else app (encode_rune r) <$> unquote l1
  end.

(** A string literal after its opening quote. *)
Definition parse_string (s : bytes) : option (bytes * bytes) :=
  match scan_raw s with
  | Some (raw, rest) => v ← unquote (runes raw); Some (v, rest)
  | None => None
  end.

(** A number literal. *)
Definition lex_int (s : bytes) : option (bytes * bytes) :=
  match s with
  | c :: r =>
    if bool_decide (c = Byte.x30) then Some ([c], r)
    else if is_digit c then Some (c :: take_while is_digit r, drop_while is_digit r)
    else None
  | [] => None
  end.

(** One or more digits. *)
Definition lex_digits (s : bytes) : option (bytes * bytes) :=
  match take_while is_digit s with
  | [] => None
  | ds => Some (ds, drop_while is_digit s)
  end.

Definition lex_frac (s : bytes) : option (bytes * bytes) :=
  match s with
  | c :: r =>
    if bool_decide (c = Byte.x2e)
    then match lex_digits r with Some (ds, r) => Some (c :: ds, r) | None => None end
    else Some ([], s)
  | [] => Some ([], [])
  end.

Definition lex_exp (s : bytes) : option (bytes * bytes) :=
  match s with
  | c :: r =>
    if bool_decide (c = Byte.x65) || bool_decide (c = Byte.x45) then
      let '(sg, r) := match r with
                      | d :: r' => if bool_decide (d = Byte.x2b) || bool_decide (d = Byte.x2d)
                                   then ([d], r') else ([], r)
                      | [] => ([], [])
                      end in
      match lex_digits r with Some (ds, r) => Some (c :: sg ++ ds, r) | None => None end
    else Some ([], s)
  | [] => Some ([], [])
  end.

Definition lex_number (s : bytes) : option (bytes * bytes) :=
  let '(sg, r) := match s with
                  | c :: r => if bool_decide (c = Byte.x2d) then ([c], r) else ([], s)
                  | [] => ([], [])
                  end in
  match lex_int r with
  | None => None
  | Some (i, r) =>
    match lex_frac r with
    | None => None
    | Some (f, r) =>
      match lex_exp r with
      | None => None
      | Some (e, r) => Some (sg ++ i ++ f ++ e, r)
      end
    end
  end.

Definition lex_literal (lit : bytes) (v : json) (s : bytes) : option (json * bytes) :=
  if has_prefix s lit then Some (v, drop (length lit) s) else None.

(** [maxNestingDepth] of the scanner. *)
Definition max_depth : Z := 10000.

(** A value, the elements of an array and the members of an object.  [n] bounds
    the recursion: two levels per byte are enough; [d] is the nesting left. *)
Fixpoint parse_value (n : nat) (d : Z) (s : bytes) {struct n} : option (json * bytes) :=
  match n, skip_space s with
  | O, _ | _, [] => None
  | S n, c :: r =>
    if bool_decide (c = dquote) then
      match parse_string r with Some (v, r) => Some (JStr v, r) | None => None end
    else if bool_decide (c = Byte.x5b) then
      if d <=? 0 then None
      else match skip_space r with
           | [] => None
           | c' :: r' => if bool_decide (c' = Byte.x5d) then Some (JArr, r')
                         else match parse_elems n (d - 1) r with
                              | Some r => Some (JArr, r) | None => None end
           end
    else if bool_decide (c = Byte.x7b) then
      if d <=? 0 then None
      else match skip_space r with
           | [] => None
           | c' :: r' => if bool_decide (c' = Byte.x7d) then Some (JObj [], r')
                         else match parse_members n (d - 1) r with
                              | Some (ms, r) => Some (JObj ms, r) | None => None end
           end
    else if bool_decide (c = Byte.x74) then lex_literal (str "true") (JBool true) (c :: r)
    else if bool_decide (c = Byte.x66) then lex_literal (str "false") (JBool false) (c :: r)
    else if bool_decide (c = Byte.x6e) then lex_literal (str "null") JNull (c :: r)
    else match lex_number (c :: r) with Some (lit, r) => Some (JNum lit, r) | None => None end
  end
with parse_elems (n : nat) (d : Z) (s : bytes) {struct n} : option bytes :=
  match n with
  | O => None
  | S n =>
    match parse_value n d s with
    | None => None
    | Some (_, r) =>
      match skip_space r with
      | [] => None
      | c :: r => if bool_decide (c = Byte.x2c) then parse_elems n d r
                  else if bool_decide (c = Byte.x5d) then Some r
                  else None
      end
    end
  end
with parse_members (n : nat) (d : Z) (s : bytes) {struct n} : option (list (bytes * json) * bytes) :=
  match n, skip_space s with
  | O, _ | _, [] => None
  | S n, q :: r =>
    if negb (bool_decide (q = dquote)) then None
    else match parse_string r with
    | None => None
    | Some (k, r) =>
      match skip_space r with
      | [] => None
      | c :: r =>
        if negb (bool_decide (c = Byte.x3a)) then None
        else match parse_value n d r with
        | None => None
        | Some (v, r) =>
          match skip_space r with
          | [] => None
          | c :: r =>
            if bool_decide (c = Byte.x2c) then
              match parse_members n d r with
              | Some (ms, r) => Some ((k, v) :: ms, r)
              | None => None
              end
            else if bool_decide (c = Byte.x7d) then Some ([(k, v)], r)
            else None
          end
        end
      end
    end
  end.

(** ** Decoding into the record *)

(** A [uint32] field: an integer literal in range; [null] leaves it alone. *)
Definition decode_u32 (v : json) (old : Z) : option Z :=
  match v with
  | JNull => Some old
  | JNum lit =>
    match digits_val lit with
    | Some u => if u <? 2 ^ 32 then Some u else None
    | None => None
    end
  | _ => None
  end.

(** A [string] field. *)
Definition decode_string (v : json) (old : bytes) : option bytes :=
  match v with
  | JNull => Some old
  | JStr s => Some s
  | _ => None
  end.

(** One member: the field of that name, exactly or by case folding. *)
Definition decode_member (cp : checkpoint) (m : bytes * json) : option checkpoint :=
  let '(k, v) := m in
  if equal_fold_ascii k (str "folder") then
    f ← decode_string v (cp_Folder cp);
    Some (mkCheckpoint f (cp_UIDValidity cp) (cp_LastUID cp))
  else if equal_fold_ascii k (str "uidvalidity") then
    u ← decode_u32 v (cp_UIDValidity cp);
    Some (mkCheckpoint (cp_Folder cp) u (cp_LastUID cp))
  else if equal_fold_ascii k (str "last_uid") then
    u ← decode_u32 v (cp_LastUID cp);
    Some (mkCheckpoint (cp_Folder cp) (cp_UIDValidity cp) u)
  else Some cp.

Fixpoint decode_members (cp : checkpoint) (ms : list (bytes * json)) : option checkpoint :=
  match ms with
  | [] => Some cp
  | m :: ms => cp ← decode_member cp m; decode_members cp ms
  end.

Definition unmarshal (data : bytes) : option checkpoint :=
  match parse_value (2 * length data + 2) max_depth data with
  | Some (v, rest) =>
    match skip_space rest, v with
    | [], JNull => Some zero_checkpoint
    | [], JObj ms => decode_members zero_checkpoint ms
    | _, _ => None
    end
  | None => None
  end.

#[export] Instance checkpoint_json : CheckpointCodec :=
  {| cp_marshal := marshal; cp_unmarshal := unmarshal |}.

(** ** The parser's fuel is enough *)

Lemma scan_raw_length s raw r : scan_raw s = Some (raw, r) -> (length r < length s)%nat.
Proof.
  remember (length s) as n eqn:Hn. revert s raw Hn.
  induction n as [n IH] using lt_wf_ind. intros s raw -> Hs.
  destruct s as [|c s1]; [done|]. cbn [scan_raw] in Hs.
  destruct (bool_decide _); [injection Hs as _ <-; simpl; lia|].
  destruct (bool_decide _).
  - destruct s1 as [|d s2]; [done|]. destruct (scan_raw s2) as [[raw2 r2]|] eqn:E; [|done].
    injection Hs as _ <-. specialize (IH (length s2) ltac:(simpl; lia) s2 raw2 eq_refl E). simpl. lia.
  - destruct (scan_raw s1) as [[raw2 r2]|] eqn:E; [|done].
    injection Hs as _ <-. specialize (IH (length s1) ltac:(simpl; lia) s1 raw2 eq_refl E). simpl. lia.
Qed.

Lemma parse_string_length s v r : parse_string s = Some (v, r) -> (length r < length s)%nat.
Proof.
  unfold parse_string. destruct (scan_raw s) as [[raw rest]|] eqn:E; [|done].
  destruct (unquote _); [|done]. intros [= _ <-]. by eapply scan_raw_length.
Qed.

Lemma lex_digits_length s l r : lex_digits s = Some (l, r) -> (length r <= length s)%nat.
Proof.
  unfold lex_digits. destruct (take_while _ _); [done|]. intros [= _ <-]. apply drop_while_length.
Qed.

Lemma lex_number_length s l r : lex_number s = Some (l, r) -> (length r < length s)%nat.
Proof.
  unfold lex_number. destruct s as [|c s]; [done|].
  set (p := if bool_decide (c = Byte.x2d) then _ else _).
  assert (Hp : (length p.2 <= length (c :: s))%nat) by (unfold p; destruct (bool_decide _); simpl; lia).
  destruct p as [sg r0]. cbn [snd] in Hp.
  destruct (lex_int r0) as [[i r1]|] eqn:Ei; [|done].
  assert (H1 : (length r1 < length r0)%nat).
  { unfold lex_int in Ei. destruct r0 as [|d r0]; [done|].
    destruct (bool_decide _); [injection Ei as _ <-; simpl; lia|].
    destruct (is_digit d); [|done]. injection Ei as _ <-.
    pose proof (drop_while_length is_digit r0). simpl. lia. }
  destruct (lex_frac r1) as [[f r2]|] eqn:Ef; [|done].
  assert (H2 : (length r2 <= length r1)%nat).
  { unfold lex_frac in Ef. destruct r1 as [|d r1]; [by injection Ef as _ <-|].
    destruct (bool_decide _); [|by injection Ef as _ <-].
    destruct (lex_digits r1) as [[ds r3]|] eqn:Ed; [|done]. injection Ef as _ <-.
    apply lex_digits_length in Ed. simpl. lia. }
  destruct (lex_exp r2) as [[e r3]|] eqn:Ee; [|done]. intros [= _ <-].
  assert (H3 : (length r3 <= length r2)%nat); [|lia].
  unfold lex_exp in Ee. destruct r2 as [|d r2]; [by injection Ee as _ <-|].
  destruct (bool_decide _ || _); [|by injection Ee as _ <-].
  set (q := match r2 with [] => _ | _ => _ end) in Ee.
  assert (Hq : (length q.2 <= length r2)%nat).
  { unfold q. destruct r2 as [|x r2]; [done|]. destruct (_ || _); simpl; lia. }
  destruct q as [sg' r4]. cbn [snd] in Hq.
  destruct (lex_digits r4) as [[ds r5]|] eqn:Ed; [|done]. injection Ee as _ <-.
  apply lex_digits_length in Ed. simpl. lia.
Qed.

Lemma lex_literal_length lit v s x r :
  lit <> [] -> lex_literal lit v s = Some (x, r) -> (length r < length s)%nat.
Proof.
  unfold lex_literal. intros Hl. destruct (has_prefix s lit) eqn:E; [|done]. intros [= _ <-].
  destruct lit as [|a lit]; [done|]. destruct s as [|b s]; [done|].
  simpl. rewrite length_drop. lia.
Qed.

Lemma skip_space_length s : (length (skip_space s) <= length s)%nat.
Proof. apply drop_while_length. Qed.

(** Reading a value, elements or members consumes input. *)
Lemma parse_length n :
  (forall d s v r, parse_value n d s = Some (v, r) -> (length r < length s)%nat)
  /\ (forall d s r, parse_elems n d s = Some r -> (length r < length s)%nat)
  /\ (forall d s ms r, parse_members n d s = Some (ms, r) -> (length r < length s)%nat).
Proof.
  induction n as [|n (IHv & IHe & IHm)]; [done|]. split_and!.
  - intros d s v r. cbn [parse_value]. pose proof (skip_space_length s) as L0.
    destruct (skip_space s) as [|c s1]; [done|]. pose proof (skip_space_length s1) as L1. simpl in L0.
    destruct (bool_decide _).
    { destruct (parse_string s1) as [[x r1]|] eqn:E; [|done]. intros [= _ <-].
      apply parse_string_length in E. lia. }
    destruct (bool_decide _).
    { destruct (d <=? 0); [done|]. destruct (skip_space s1) as [|c' r']; [done|]. simpl in L1.
      destruct (bool_decide _); [intros [= _ <-]; lia|].
      destruct (parse_elems n (d - 1) s1) as [r1|] eqn:E; [|done]. intros [= _ <-].
      apply IHe in E. lia. }
    destruct (bool_decide _).
    { destruct (d <=? 0); [done|]. destruct (skip_space s1) as [|c' r']; [done|]. simpl in L1.
      destruct (bool_decide _); [intros [= _ <-]; lia|].
      destruct (parse_members n (d - 1) s1) as [[ms r1]|] eqn:E; [|done]. intros [= _ <-].
      apply IHm in E. lia. }
    do 3 (destruct (bool_decide _); [intros Hx%lex_literal_length; [simpl in *; lia | done]|]).
    destruct (lex_number (c :: s1)) as [[l r1]|] eqn:E; [|done]. intros [= _ <-].
    apply lex_number_length in E. simpl in E. lia.
  - intros d s r. cbn [parse_elems]. destruct (parse_value n d s) as [[v r0]|] eqn:E; [|done].
    apply IHv in E. pose proof (skip_space_length r0) as L0.
    destruct (skip_space r0) as [|c r1]; [done|]. simpl in L0.
    destruct (bool_decide _); [intros Hx%IHe; lia|].
    destruct (bool_decide _); [intros [= <-]; lia | done].
  - intros d s ms r. cbn [parse_members]. pose proof (skip_space_length s) as L0.
    destruct (skip_space s) as [|q s1]; [done|]. simpl in L0. destruct (negb _); [done|].
    destruct (parse_string s1) as [[k r0]|] eqn:E; [|done]. apply parse_string_length in E.
    pose proof (skip_space_length r0) as L1. destruct (skip_space r0) as [|c r1]; [done|]. simpl in L1.
    destruct (negb _); [done|]. destruct (parse_value n d r1) as [[v r2]|] eqn:Ev; [|done].
    apply IHv in Ev. pose proof (skip_space_length r2) as L2.
    destruct (skip_space r2) as [|c' r3]; [done|]. simpl in L2.
    destruct (bool_decide _).
    + destruct (parse_members n d r3) as [[ms' r4]|] eqn:Em; [|done]. intros [= _ <-].
      apply IHm in Em. lia.
    + destruct (bool_decide _); [intros [= _ <-]; lia | done].
Qed.

(** Two levels of recursion per byte are enough: any more fuel gives the same
    result, so [None] always means a syntax error (or the nesting limit). *)
Lemma parse_fuel n n' d s :
  ((2 * length s + 1 <= n)%nat -> (2 * length s + 1 <= n')%nat ->
   parse_value n d s = parse_value n' d s)
  /\ ((2 * length s + 2 <= n)%nat -> (2 * length s + 2 <= n')%nat ->
      parse_elems n d s = parse_elems n' d s)
  /\ ((2 * length s + 1 <= n)%nat -> (2 * length s + 1 <= n')%nat ->
      parse_members n d s = parse_members n' d s).
Proof.
  revert n' d s. induction n as [|n IH]; intros n' d s; [split_and!; lia|].
  destruct n' as [|n']; [split_and!; lia|]. split_and!; intros Hn Hn'.
  - cbn [parse_value]. pose proof (skip_space_length s) as L0.
    destruct (skip_space s) as [|c s1]; [done|]. simpl in L0.
    destruct (IH n' (d - 1) s1) as (_ & He & Hm). by rewrite He, Hm by lia.
  - cbn [parse_elems]. destruct (IH n' d s) as (Hv & _). rewrite Hv by lia.
    destruct (parse_value n' d s) as [[v r0]|] eqn:E; [|done]. apply parse_length in E.
    pose proof (skip_space_length r0) as L0. destruct (skip_space r0) as [|c r1]; [done|]. simpl in L0.
    destruct (IH n' d r1) as (_ & He & _). by rewrite He by lia.
  - cbn [parse_members]. pose proof (skip_space_length s) as L0.
    destruct (skip_space s) as [|q s1]; [done|]. simpl in L0. destruct (negb _); [done|].
    destruct (parse_string s1) as [[k r0]|] eqn:E; [|done]. apply parse_string_length in E.
    pose proof (skip_space_length r0) as L1. destruct (skip_space r0) as [|c r1]; [done|]. simpl in L1.
    destruct (negb _); [done|]. destruct (IH n' d r1) as (Hv & _). rewrite Hv by lia.
    destruct (parse_value n' d r1) as [[v r2]|] eqn:Ev; [|done]. apply parse_length in Ev.
    pose proof (skip_space_length r2) as L2. destruct (skip_space r2) as [|c' r3]; [done|]. simpl in L2.
    destruct (IH n' d r3) as (_ & _ & Hm). by rewrite Hm by lia.
Qed.

(** [unmarshal] with any fuel over its own. *)
Theorem unmarshal_fuel data n :
  (2 * length data + 2 <= n)%nat ->
  parse_value n max_depth data = parse_value (2 * length data + 2) max_depth data.
Proof. intros Hn. apply parse_fuel; lia. Qed.

Definition is_scalar (r : Z) : Prop := 0 <= r < 0xD800 \/ 0xE000 <= r < 0x110000.

Ltac decide_ltb :=
  repeat match goal with
  | |- context [?a <? ?b] =>
      first [ replace (a <? b) with true by zdiv | replace (a <? b) with false by zdiv ]
  end.

Lemma runes_encode r t : is_scalar r -> runes (encode_rune r ++ t) = (r, encode_rune r) :: runes t.
Proof.
  unfold is_scalar. intros Hr. unfold encode_rune.
  destruct (Z.ltb_spec r 0x80) as [H1|H1].
  { replace (0 <=? r) with true by lia. simpl. rewrite bval_byte_of_id by lia.
    by replace (r <? 128) with true by lia. }
  rewrite andb_false_r.
  destruct (Z.ltb_spec r 0x800) as [H2|H2].
  { replace (0x80 <=? r) with true by lia. cbn [andb app runes]. 
    rewrite !bval_byte_of_id by zdiv. unfold in_range. rewrite bval_byte_of_id by zdiv.
    decide_ltb.
    replace (128 <=? 128 + r mod 64) with true by zdiv.
    replace (128 + r mod 64 <=? 191) with true by zdiv. simpl. do 2 f_equal. zdiv. }
  rewrite andb_false_r.
  replace ((r <? 0) || (0x10FFFF <? r) || ((0xD800 <=? r) && (r <=? 0xDFFF))) with false by lia.
  destruct (Z.ltb_spec r 0x10000) as [H3|H3].
  - cbn [andb app runes].
    rewrite !bval_byte_of_id by zdiv. unfold in_range. rewrite !bval_byte_of_id by zdiv.
    decide_ltb.
    match goal with |- context [if ?b then _ else _] => replace b with true end.
    + f_equal. f_equal. zdiv.
    + symmetry. rewrite !andb_true_iff, !Z.leb_le.
      destruct (Z.eqb_spec (224 + r / 4096) 224), (Z.eqb_spec (224 + r / 4096) 237); zdiv.
  - cbn [andb app runes].
    rewrite !bval_byte_of_id by zdiv. unfold in_range. rewrite !bval_byte_of_id by zdiv.
    decide_ltb.
    match goal with |- context [if ?b then _ else _] => replace b with true end.
    + f_equal. f_equal. zdiv.
    + symmetry. rewrite !andb_true_iff, !Z.leb_le.
      destruct (Z.eqb_spec (240 + r / 262144) 240), (Z.eqb_spec (240 + r / 262144) 244); zdiv.
Qed.

(** ** Round trip *)

(** A string literal chunk: the scanner passes over it and it decodes to [bs]. *)
Definition chunk_ok (chunk bs : bytes) : Prop :=
  forall t, scan_raw (chunk ++ t) = (fun p => (chunk ++ p.1, p.2)) <$> scan_raw t
            /\ unquote (runes (chunk ++ t)) = app bs <$> unquote (runes t).

Lemma quote_ascii_ok c : is_ascii c = true -> chunk_ok (quote_rune (bval c, [c])) [c].
Proof.
  intros Hc t.
  destruct c; try discriminate Hc; cbn; destruct (scan_raw t) as [[]|]; split; reflexivity.
Qed.

Lemma scan_raw_high bs t :
  forallb (fun c => negb (is_ascii c)) bs = true ->
  scan_raw (bs ++ t) = (fun p => (bs ++ p.1, p.2)) <$> scan_raw t.
Proof.
  induction bs as [|c bs IH]; cbn [app forallb].
  - by destruct (scan_raw t) as [[]|].
  - intros [Hc Hb]%andb_true_iff. cbn [scan_raw].
    rewrite (bool_decide_eq_false_2 (c = dquote)) by (intros ->; discriminate).
    rewrite (bool_decide_eq_false_2 (c = Byte.x5c)) by (intros ->; discriminate).
    rewrite IH by done. by destruct (scan_raw t) as [[]|].
Qed.

Lemma encode_rune_high r :
  is_scalar r -> 0x80 <= r -> forallb (fun c => negb (is_ascii c)) (encode_rune r) = true.
Proof.
  unfold is_scalar, encode_rune, is_ascii. intros Hr Hl.
  replace (r <? 0x80) with false by lia. rewrite andb_false_r.
  repeat match goal with |- context [if ?b then _ else _] => destruct b eqn:? end; try reflexivity;
    cbn [forallb]; rewrite !bval_byte_of, ?andb_true_iff, !negb_true_iff, !Z.ltb_ge; zdiv.
Qed.

Lemma quote_rune_ok r : is_scalar r -> chunk_ok (quote_rune (r, encode_rune r)) (encode_rune r).
Proof.
  intros Hr. destruct (Z.ltb_spec r 0x80) as [H1|H1].
  - assert (0 <= r) by (unfold is_scalar in Hr; lia).
    replace (encode_rune r) with [byte_of r].
    2:{ unfold encode_rune. by replace ((0 <=? r) && (r <? 0x80)) with true by lia. }
    rewrite <- (bval_byte_of_id r) at 1 by lia. apply quote_ascii_ok.
    unfold is_ascii. rewrite bval_byte_of_id; lia.
  - destruct (bool_decide (r = 0x2028)) eqn:E1; [| destruct (bool_decide (r = 0x2029)) eqn:E2].
    + apply bool_decide_eq_true in E1 as ->. intros t. cbn.
      destruct (scan_raw t) as [[]|]; split; reflexivity.
    + apply bool_decide_eq_true in E2 as ->. intros t. cbn.
      destruct (scan_raw t) as [[]|]; split; reflexivity.
    + apply bool_decide_eq_false in E1, E2. unfold quote_rune.
      replace (r <? 0x80) with false by lia.
      replace ((r =? 0x2028) || (r =? 0x2029)) with false by lia.
      assert ((r =? rune_error) && bool_decide (length (encode_rune r) = 1%nat) = false) as ->.
      { destruct (Z.eqb_spec r rune_error) as [->|]; reflexivity. }
      intros t. split; [by apply scan_raw_high, encode_rune_high|].
      rewrite runes_encode by done. cbn [unquote].
      replace (r <? 0x20) with false by lia. by replace (r =? 0x5c) with false by lia.
Qed.

(** The text of a valid UTF-8 string between its quotes. *)
Lemma parse_string_quoted rs t :
  Forall is_scalar rs ->
  let f := mjoin (encode_rune <$> rs) in
  parse_string (mjoin (quote_rune <$> runes f) ++ dquote :: t) = Some (f, t).
Proof.
  intros Hrs. cbn zeta. set (q := mjoin _).
  assert (H : scan_raw (q ++ dquote :: t) = Some (q, t)
              /\ unquote (runes q) = Some (mjoin (encode_rune <$> rs))).
  { subst q. induction Hrs as [|r rs Hr Hrs [IH1 IH2]]; [split; reflexivity|].
    rewrite fmap_cons, mjoin_cons, runes_encode by done.
    rewrite fmap_cons, mjoin_cons, <- app_assoc.
    destruct (quote_rune_ok r Hr (mjoin (quote_rune <$> runes (mjoin (encode_rune <$> rs)))
                                  ++ dquote :: t)) as [-> _].
    rewrite (proj2 (quote_rune_ok r Hr _)), IH1, IH2. split; reflexivity. }
  unfold parse_string. destruct H as [-> ->]. done.
Qed.

(** ** Decimal numbers *)

(** A decimal numeral ends at a comma or a closing brace. *)
Lemma parse_value_itoa n d u c t :
  is_u32 u -> c = Byte.x2c \/ c = Byte.x7d ->
  parse_value (S n) d (itoa u ++ c :: t) = Some (JNum (itoa u), c :: t)
  /\ digits_val (itoa u) = Some u.
Proof.
  intros Hu Hc. unfold is_u32 in Hu.
  destruct (digits_aux_spec 20 u ltac:(lia)) as (H1 & H2 & H3). fold (itoa u) in *.
  split; [| done].
  assert (Hcd : is_digit c = false) by by destruct Hc as [-> | ->].
  assert (Hfe : lex_frac (c :: t) = Some ([], c :: t) /\ lex_exp (c :: t) = Some ([], c :: t))
    by by destruct Hc as [-> | ->].
  destruct (Z.eqb_spec u 0) as [-> | Hu0].
  { destruct Hc as [-> | ->]; reflexivity. }
  destruct H3 as (c0 & r & E & Hc0); [lia|]. rewrite E in *. cbn [app].
  simpl in H2. apply andb_true_iff in H2 as [Hd0 Hr].
  assert (Hv : 48 <= bval c0 <= 57) by (unfold is_digit, in_range in Hd0; lia).
  assert (Hne : forall b, bval b < 48 \/ 57 < bval b -> bool_decide (c0 = b) = false).
  { intros b Hb. apply bool_decide_eq_false. intros ->. lia. }
  cbn [parse_value]. unfold skip_space. cbn [drop_while]. unfold is_json_space at 1.
  replace ((bval c0 =? 32) || (bval c0 =? 9) || (bval c0 =? 13) || (bval c0 =? 10)) with false by lia.
  rewrite !Hne by (cbn; lia).
  unfold lex_number. rewrite Hne by (cbn; lia). unfold lex_int.
  rewrite (bool_decide_eq_false_2 _ Hc0), Hd0.
  destruct (take_drop_while is_digit r c t Hr Hcd) as [-> ->].
  destruct Hfe as [-> ->]. cbn [app]. by rewrite app_nil_r.
Qed.

(** ** The record *)

Lemma parse_value_quoted n d rs t :
  Forall is_scalar rs ->
  let f := mjoin (encode_rune <$> rs) in
  parse_value (S n) d (quote f ++ t) = Some (JStr f, t).
Proof.
  intros Hrs f. unfold quote. rewrite <- app_comm_cons, <- app_assoc. cbn [app].
  set (s := mjoin _ ++ _).
  change (match parse_string s with Some (v, r) => Some (JStr v, r) | None => None end
          = Some (JStr f, t)).
  subst s f. by rewrite parse_string_quoted.
Qed.

(** One member of the printed object, followed by another or by the brace. *)
Lemma parse_members_step n d name text v c t :
  forallb is_ascii (str name) = true ->
  forallb (fun b => negb (bool_decide (b = dquote)) && negb (bool_decide (b = Byte.x5c))
                    && (0x20 <=? bval b)) (str name) = true ->
  parse_value n d (text ++ c :: t) = Some (v, c :: t) ->
  c = Byte.x2c \/ c = Byte.x7d ->
  parse_members (S n) d (key name ++ text ++ c :: t)
  = if bool_decide (c = Byte.x7d) then Some ([(str name, v)], t)
    else match parse_members n d t with
         | Some (ms, r) => Some ((str name, v) :: ms, r)
         | None => None
         end.
Proof.
  intros Ha Hn Hv Hc.
  assert (Hk : forall s t', forallb is_ascii s = true ->
    forallb (fun b => negb (bool_decide (b = dquote)) && negb (bool_decide (b = Byte.x5c))
                      && (0x20 <=? bval b)) s = true ->
    scan_raw (s ++ dquote :: t') = Some (s, t') /\ unquote (runes s) = Some s).
  { clear. intros s t'. induction s as [|b s IH]; [by split|].
    cbn [forallb app]. intros [Hb Hs]%andb_true_iff [Hb' Hs']%andb_true_iff.
    destruct (IH Hs Hs') as [IH1 IH2]. rewrite !andb_true_iff, !negb_true_iff in Hb'.
    destruct Hb' as [[Hq Hbs] Hc]. cbn [scan_raw]. rewrite Hq, Hbs, IH1. split; [done|].
    change (b :: s) with ([b] ++ s). rewrite runes_ascii by (simpl; by rewrite Hb, Hs).
    rewrite runes_ascii in IH2 by done. cbn [app]. rewrite fmap_cons. cbn [unquote].
    replace (bval b <? 0x20) with false by lia.
    assert ((bval b =? 0x5c) = false) as ->.
    { apply Z.eqb_neq. intros E. apply bool_decide_eq_false in Hbs. apply Hbs.
      apply bval_inj. rewrite E. reflexivity. }
    rewrite IH2. unfold encode_rune. unfold is_ascii in Hb.
    pose proof (bval_range b). replace (0 <=? bval b) with true by lia. rewrite Hb.
    cbn. by rewrite byte_of_bval. }
  destruct (Hk (str name) (Byte.x3a :: text ++ c :: t) Ha Hn) as [H1 H2].
  unfold key. rewrite <- app_comm_cons, <- app_assoc. cbn [app].
  cbn [parse_members]. unfold skip_space. cbn [drop_while is_json_space].
  change (is_json_space dquote) with false. cbn iota.
  rewrite bool_decide_eq_true_2 by done. cbn [negb].
  unfold parse_string. rewrite H1, H2. cbn -[parse_value parse_members bool_decide].
  rewrite Hv. destruct Hc as [-> | ->]; reflexivity.
Qed.

(** [json.Unmarshal] reads back what [json.Marshal] wrote. *)
Lemma unmarshal_marshal rs v u :
  Forall is_scalar rs -> is_u32 v -> is_u32 u ->
  let cp := mkCheckpoint (mjoin (encode_rune <$> rs)) v u in
  unmarshal (marshal cp) = Some cp.
Proof.
  intros Hrs Hv Hu cp. unfold unmarshal.
  replace (2 * length (marshal cp) + 2)%nat with (S (S (S (S (S (2 * length (marshal cp) - 3))))))
    by (unfold marshal, key; cbn [app length]; lia).
  generalize (2 * length (marshal cp) - 3)%nat as n. intros n.
  unfold marshal, cp. cbn [cp_Folder cp_UIDValidity cp_LastUID app].
  destruct (parse_value_itoa (S n) (max_depth - 1) v Byte.x2c
              (key "last_uid" ++ itoa u ++ [Byte.x7d]) Hv (or_introl eq_refl)) as [Pv Dv].
  destruct (parse_value_itoa n (max_depth - 1) u Byte.x7d [] Hu (or_intror eq_refl)) as [Pu Du].
  set (ms := key "folder" ++ _).
  assert (Hms : parse_members (S (S (S (S n)))) (max_depth - 1) ms
    = Some ([(str "folder", JStr (cp_Folder cp)); (str "uidvalidity", JNum (itoa v));
             (str "last_uid", JNum (itoa u))], [])).
  { subst ms. rewrite (parse_members_step _ _ "folder" _ _ Byte.x2c _ eq_refl eq_refl
                         (parse_value_quoted _ _ _ _ Hrs) (or_introl eq_refl)).
    change (bool_decide (Byte.x2c = Byte.x7d)) with false. cbn iota.
    rewrite (parse_members_step _ _ "uidvalidity" _ _ Byte.x2c _ eq_refl eq_refl Pv (or_introl eq_refl)).
    rewrite (parse_members_step _ _ "last_uid" _ _ Byte.x7d _ eq_refl eq_refl Pu (or_intror eq_refl)).
    reflexivity. }
  change (parse_value (S (S (S (S (S n))))) max_depth (Byte.x7b :: ms))
    with (match parse_members (S (S (S (S n)))) (max_depth - 1) ms with
          | Some (ms, r) => Some (JObj ms, r) | None => None end).
  rewrite Hms. cbn [skip_space drop_while].
  unfold decode_members, decode_member, decode_u32. rewrite Dv, Du.
  unfold is_u32 in *. replace (v <? 2 ^ 32) with true by lia.
  replace (u <? 2 ^ 32) with true by lia. reflexivity.
Qed.

(** ** The law of the codec *)

Lemma decode_u32_range v old u : is_u32 old -> decode_u32 v old = Some u -> is_u32 u.
Proof.
  unfold is_u32. intros Ho. destruct v; try done; simpl; [by intros [= <-]|].
  assert (Hnn : forall s a w, 0 <= a -> foldl (fun acc c => v ← acc;
            if is_digit c then Some (v * 10 + (bval c - 48)) else None) (Some a) s = Some w -> 0 <= w).
  { clear. intros s. induction s as [|c s IH]; simpl; intros a w Ha; [intros [= <-]; done|].
    destruct (is_digit c) eqn:E; [apply IH; unfold is_digit, in_range in E; lia|].
    assert (forall s, foldl (fun acc c => v ← acc;
            if is_digit c then Some (v * 10 + (bval c - 48)) else None) None s = None) as ->; [|done].
    clear. intros s; induction s; simpl; auto. }
  unfold digits_val. destruct (foldl _ _ lit) as [w|] eqn:E; [|done].
  apply Hnn in E; [|lia]. destruct (Z.ltb_spec w (2 ^ 32)); [intros [= <-]; lia | done].
Qed.

Lemma decode_member_range cp m cp' :
  is_u32 (cp_LastUID cp) -> decode_member cp m = Some cp' -> is_u32 (cp_LastUID cp').
Proof.
  intros Hr. destruct m as [k v]. unfold decode_member.
  destruct (equal_fold_ascii k (str "folder"));
    [| destruct (equal_fold_ascii k (str "uidvalidity"));
       [| destruct (equal_fold_ascii k (str "last_uid")) eqn:E]].
  - destruct (decode_string v _); by intros [= <-].
  - destruct (decode_u32 v _); by intros [= <-].
  - destruct (decode_u32 v _) as [u|] eqn:E'; [|done]. intros [= <-].
    by eapply decode_u32_range.
  - by intros [= <-].
Qed.

Lemma unmarshal_range data cp : unmarshal data = Some cp -> is_u32 (cp_LastUID cp).
Proof.
  assert (Hz : is_u32 (cp_LastUID zero_checkpoint)) by (unfold is_u32; simpl; lia).
  unfold unmarshal. destruct (parse_value _ _ data) as [[v rest]|]; [|done].
  destruct (skip_space rest); [|done]. destruct v; try done; [by intros [= <-]|].
  revert Hz. generalize zero_checkpoint. induction members as [|m ms IH]; intros c Hc; simpl.
  - by intros [= <-].
  - destruct (decode_member c m) as [c'|] eqn:E; [|done]. apply IH. by eapply decode_member_range.
Qed.

(** A folder name the encoding represents: valid UTF-8. *)
Definition valid_utf8 (s : bytes) : Prop :=
  exists rs, Forall is_scalar rs /\ s = mjoin (encode_rune <$> rs).

#[export] Instance checkpoint_json_ok : CheckpointCodecOk (H := checkpoint_json).
Proof.
  refine {| folder_ok := valid_utf8 : bytes -> Prop |}.
  - intros f v u (rs & Hrs & ->). by apply unmarshal_marshal.
  - apply unmarshal_range.
Defined.

Lemma valid_utf8_ascii s : forallb is_ascii s = true -> valid_utf8 s.
Proof.
  intros Hs. exists (bval <$> s). induction s as [|c s IH]; [by split; [constructor|]|].
  simpl in Hs. apply andb_true_iff in Hs as [Hc Hs]. destruct (IH Hs) as [H1 H2].
  split.
  - rewrite fmap_cons. constructor; [|done]. unfold is_ascii in Hc. unfold is_scalar.
    pose proof (bval_range c). lia.
  - rewrite !fmap_cons, mjoin_cons, encode_rune_ascii by done. simpl. by f_equal.
Qed.

(** C30: The checkpoint file, end to end: after a successful
    [AdvanceCheckpoint] on any file content whatever (absent, corrupt, another
    mailbox), a later read that does not fail yields for that mailbox the larger
    of the old checkpoint and the new UID, and for another UIDVALIDITY zero. *)
Theorem AdvanceCheckpoint_GetCheckpoint path f v v' u d d' d'' o :
  valid_utf8 f -> is_u32 v -> is_u32 u ->
  json_AdvanceCheckpoint path f v u d = (d', None) ->
  json_GetCheckpoint path f v' d' = (d'', Ok o) ->
  o = if v' =? v then Z.max (disk_cp path d f v) u else 0.
Proof.
  intros Hf Hv Hu Ha Hg. pose proof (advance_file path f v u d Hf Hv Hu) as H.
  rewrite Ha in H. simpl in H. unfold json_GetCheckpoint in Hg.
  destruct (load_spec path d') as [_ Hl]. destruct (load path d') as [d1 [cp|e]]; simpl in *.
  2: congruence.
  rewrite (Hl cp eq_refl), H in Hg. destruct (Z.eqb_spec v' v) as [->|Hne].
  - rewrite matches_advanced in Hg. apply (f_equal snd), Ok_inj in Hg as <-.
    rewrite advanced_cp by (unfold is_u32 in Hu; lia). done.
  - destruct (matches f v' (advanced f v u (file_cp path d))) eqn:E.
    + apply matches_true in E as [_ E]. pose proof (matches_advanced f v u (file_cp path d)) as E'.
      apply matches_true in E' as [_ E']. congruence.
    + by apply (f_equal snd), Ok_inj in Hg as <-.
Qed.

Definition sample_path : bytes := str "state/checkpoint.json".

(** The file held another mailbox's record. *)
Definition sample_disk : Disk :=
  mkDisk {[ sample_path := marshal (mkCheckpoint (str "INBOX") 7 40) ]} [].

Lemma AdvanceCheckpoint_GetCheckpoint_witness :
  (json_GetCheckpoint sample_path (str "INBOX") 7
     (json_AdvanceCheckpoint sample_path (str "INBOX") 7 42 sample_disk).1).2 = Ok 42
  /\ 42 = Z.max (disk_cp sample_path sample_disk (str "INBOX") 7) 42.
Proof.
  split; [vm_compute; reflexivity|].
  apply (AdvanceCheckpoint_GetCheckpoint sample_path (str "INBOX") 7 7 42 sample_disk
           (json_AdvanceCheckpoint sample_path (str "INBOX") 7 42 sample_disk).1
           (json_AdvanceCheckpoint sample_path (str "INBOX") 7 42 sample_disk).1 42).
  - by apply valid_utf8_ascii.
  - unfold is_u32. lia.
  - unfold is_u32. lia.
  - vm_compute. reflexivity.
  - vm_compute. reflexivity.
Defined.

Lemma AdvanceCheckpoint_atomic_witness :
  let d := mkDisk (d_files sample_disk) [IoOk; IoOk; IoFail (Some (str "{"))] in
  file_cp sample_path (json_AdvanceCheckpoint sample_path (str "INBOX") 7 42 d).1
  = file_cp sample_path d.
Proof.
  apply (AdvanceCheckpoint_atomic sample_path (str "INBOX") 7 42
           (mkDisk (d_files sample_disk) [IoOk; IoOk; IoFail (Some (str "{"))])).
  - by apply valid_utf8_ascii.
  - unfold is_u32. lia.
  - unfold is_u32. lia.
Defined.
