(* ===== verification/Transport.v ===== *)
(** * internal/transport: deadlines, dialling and the SMTP sender

    Module [Deadline] models [TimeoutConn]; the rest models [DialTCP] and
    [SMTPSender] over [Net], the record of the calls made to the network
    libraries (package [net], [crypto/tls], go-smtp) with the script of their
    outcomes: every call takes its outcome from the script and is logged with
    it.  The [Sender] class is the interface the pipe handler uses; its contract
    [SenderSpec] is that of at-most-once delivery: a [nil] result means the
    message was committed, an [ErrDataOutcomeUnknown] that it may have been, any
    other error that it was not. *)
From S2P Require Import Prelude GoErrors GoStrings.

(** ** TimeoutConn

    Times are nanoseconds since the Unix epoch; the zero [time.Time] is [None]. *)

Record TimeoutConn := mkTimeoutConn {
  tc_timeout : Z;        (* atomic.Int64, nanoseconds *)
  tc_hardDeadline : Z;   (* atomic.Int64, UnixNano; 0 = none *)
}.

Module Deadline.
Definition NewTimeoutConn (timeout : Z) : TimeoutConn := mkTimeoutConn timeout 0.

Definition SetTimeout (d : Z) (c : TimeoutConn) : TimeoutConn :=
  mkTimeoutConn d (tc_hardDeadline c).

Definition SetHardDeadline (t : option Z) (c : TimeoutConn) : TimeoutConn :=
  match t with
  | None => mkTimeoutConn (tc_timeout c) 0
  | Some t => mkTimeoutConn (tc_timeout c) (wrap64 t)
  end.

Definition effectiveDeadline (now : Z) (c : TimeoutConn) : Z :=
  let deadline := now + tc_timeout c in
  let hard := tc_hardDeadline c in
  if 0 <? hard then if hard <? deadline then hard else deadline else deadline.

(** The wrapped connection: [SetReadDeadline], [SetWriteDeadline], [Read] and
    [Write] of a [net.Conn]. *)
Class NetConn (W : Type) := {
  set_read_deadline : Z -> W -> W * option error;
  set_write_deadline : Z -> W -> W * option error;
  conn_read : Z -> W -> W * (bytes * option error);
  conn_write : bytes -> W -> W * (Z * option error);
}.

Section IO.
Context `{NetConn W}.

Definition Read (now : Z) (c : TimeoutConn) (n : Z) (w : W) : W * (bytes * option error) :=
  match set_read_deadline (effectiveDeadline now c) w with
  | (w, Some err) => (w, ([], Some err))
  | (w, None) => conn_read n w
  end.

Definition Write (now : Z) (c : TimeoutConn) (b : bytes) (w : W) : W * (Z * option error) :=
  match set_write_deadline (effectiveDeadline now c) w with
  | (w, Some err) => (w, (0, Some err))
  | (w, None) => conn_write b w
  end.
End IO.

(** A call on the connection. *)
Inductive op := OSetTimeout (d : Z) | OSetHardDeadline (t : option Z).

Definition apply_op (o : op) (c : TimeoutConn) : TimeoutConn :=
  match o with OSetTimeout d => SetTimeout d c | OSetHardDeadline t => SetHardDeadline t c end.
End Deadline.

(** ** Calls to the network libraries *)

Inductive tls_mode := ModeTLS | ModeSTARTTLS | ModePlain.

(** [tlsMode] is a string: ["tls"], ["starttls"], or anything else. *)
Definition mode_of (s : bytes) : tls_mode :=
  if bool_decide (s = str "tls") then ModeTLS
  else if bool_decide (s = str "starttls") then ModeSTARTTLS else ModePlain.

Inductive auth_mech := PLAIN | LOGIN.

Inductive net_event :=
  | EvCtxErr
  | EvDial (host : bytes) (port : Z)
  | EvSetDeadline (t : option Z)
  | EvHandshake
  | EvRawClose
  | EvSetHardDeadline (t : option Z)
  | EvStartTLS
  | EvSupportsAuth (m : auth_mech)
  | EvAuth (m : auth_mech)
  | EvMail (from : bytes)
  | EvRcpt (to : bytes)
  | EvData
  | EvWrite (msg : bytes)
  | EvDataClose
  | EvQuit
  | EvClientClose.

Record Net := mkNet {
  n_script : list (option error);
  n_trace : list (net_event * option error);
}.

(** One library call: its outcome comes from the script (success when it is used up). *)
Definition net_call (ev : net_event) (n : Net) : Net * option error :=
  let o := default None (head (n_script n)) in
  (mkNet (tail (n_script n)) (n_trace n ++ [(ev, o)]), o).

(** A call without a result. *)
Definition net_log (ev : net_event) (n : Net) : Net :=
  mkNet (n_script n) (n_trace n ++ [(ev, None)]).

(** A call whose error the code drops ([_ = f()]). *)
Definition net_ignore (ev : net_event) (n : Net) : Net := (net_call ev n).1.

Definition DialTCP (ctx_deadline : option Z) (host : bytes) (port : Z) (tlsMode : bytes)
    (ioTimeout : Z) (n : Net) : Net * result TimeoutConn :=
  match mode_of tlsMode with
  | ModeTLS =>
    match net_call (EvDial host port) n with
    | (n, Some err) => (n, Err err)
    | (n, None) =>
      let '(n, derr) := match ctx_deadline with
                        | Some d => net_call (EvSetDeadline (Some d)) n
                        | None => (n, None)
                        end in
      match derr with
      | Some err => (net_ignore EvRawClose n, Err err)
      | None =>
        match net_call EvHandshake n with
        | (n, Some err) => (net_ignore EvRawClose n, Err err)
        | (n, None) =>
          match net_call (EvSetDeadline None) n with
          | (n, Some err) => (net_ignore EvRawClose n, Err err)
          | (n, None) => (n, Ok (Deadline.NewTimeoutConn ioTimeout))
          end
        end
      end
    end
  | _ =>
    match net_call (EvDial host port) n with
    | (n, Some err) => (n, Err err)
    | (n, None) => (n, Ok (Deadline.NewTimeoutConn ioTimeout))
    end
  end.

(** ** SMTPSender *)

Definition second : Z := 1000000000.
Definition smtpIOTimeout : Z := 60 * second.

Record SMTPSender := mkSMTPSender {
  s_Host : bytes;
  s_Port : Z;
  s_Username : bytes;
  s_Password : bytes;
  s_From : bytes;
  s_TLSMode : bytes;
}.

(** The mechanism [connect] picks. *)
Definition choose_auth (n : Net) : Net * auth_mech :=
  match net_call (EvSupportsAuth PLAIN) n with
  | (n, None) => (n, PLAIN)
  | (n, Some _) =>
    match net_call (EvSupportsAuth LOGIN) n with
    | (n, None) => (n, LOGIN)
    | (n, Some _) => (n, PLAIN)
    end
  end.

Section SMTPSender.
Context (s : SMTPSender).

Definition connect (ctx_deadline : option Z) (label : string) (n : Net) : Net * result TimeoutConn :=
  match net_call EvCtxErr n with
  | (n, Some err) => (n, Err err)
  | (n, None) =>
    match DialTCP ctx_deadline (s_Host s) (s_Port s) (s_TLSMode s) smtpIOTimeout n with
    | (n, Err dialErr) => (n, Err (Errorf (label ++ " dial") [dialErr]))
    | (n, Ok tc) =>
      let '(n, tc) := match ctx_deadline with
                      | Some d => (net_log (EvSetHardDeadline (Some d)) n,
                                   Deadline.SetHardDeadline (Some d) tc)
                      | None => (n, tc)
                      end in
      let '(n, tlsErr) := match mode_of (s_TLSMode s) with
                          | ModeSTARTTLS => net_call EvStartTLS n
                          | _ => (n, None)
                          end in
      match tlsErr with
      | Some err => (net_ignore EvRawClose n, Err (Errorf (label ++ " starttls") [err]))
      | None =>
        match net_call EvCtxErr n with
        | (n, Some err) => (net_ignore EvClientClose n, Err err)
        | (n, None) =>
          let '(n, auth) := choose_auth n in
          match net_call (EvAuth auth) n with
          | (n, Some err) => (net_ignore EvClientClose n, Err (Errorf (label ++ " auth") [err]))
          | (n, None) => (n, Ok tc)
          end
        end
      end
    end
  end.

(** The deferred function of [Send] and [Probe]. *)
Definition hang_up (n : Net) : Net :=
  net_ignore EvClientClose (net_log (EvSetHardDeadline None) n).

(** The SMTP transaction of [Send], on a connected client. *)
Definition transaction (to msg : bytes) (n : Net) : Net * option error :=
  match net_call EvCtxErr n with
  | (n, Some err) => (n, Some err)
  | (n, None) =>
    match net_call (EvMail (s_From s)) n with
    | (n, Some err) => (n, Some (Errorf "smtp mail" [err]))
    | (n, None) =>
      match net_call (EvRcpt to) n with
      | (n, Some err) => (n, Some (Errorf "smtp rcpt" [err]))
      | (n, None) =>
        match net_call EvData n with
        | (n, Some err) => (n, Some (Errorf "smtp data" [err]))
        | (n, None) =>
          match net_call (EvWrite msg) n with
          | (n, Some err) => (n, Some (Errorf "smtp write" [err]))
          | (n, None) =>
            match net_call EvDataClose n with
            | (n, Some err) =>
              let closeErr := Errorf "smtp data close" [err] in
              if errors_as_smtp err then (n, Some closeErr)
              else (n, Some (DataOutcomeUnknown closeErr))
            | (n, None) => (net_ignore EvQuit n, None)
            end
          end
        end
      end
    end
  end.

Definition smtp_Send (ctx_deadline : option Z) (to msg : bytes) (n : Net) : Net * option error :=
  match connect ctx_deadline "smtp" n with
  | (n, Err err) => (n, Some err)
  | (n, Ok _) => let '(n, r) := transaction to msg n in (hang_up n, r)
  end.

Definition smtp_Probe (ctx_deadline : option Z) (n : Net) : Net * option error :=
  match connect ctx_deadline "smtp probe" n with
  | (n, Err err) => (n, Some err)
  | (n, Ok _) => (hang_up (net_ignore EvQuit n), None)
  end.
End SMTPSender.

(** ** The sender interface *)

Class Sender (W : Type) := {
  Send : option Z -> bytes -> bytes -> W -> W * option error;
  Probe : option Z -> W -> W * option error;
}.

(** The contract.  [sure_commits] counts the messages the server has certainly
    taken over, [maybe_commits] those it may have taken over. *)
Class SenderSpec (W : Type) `{Sender W} := {
  sender_wf : W -> Prop;
  sure_commits : W -> Z;
  maybe_commits : W -> Z;
  send_wf d to msg w : sender_wf w -> sender_wf (Send d to msg w).1;
  probe_wf d w : sender_wf w -> sender_wf (Probe d w).1;
  send_commits d to msg w :
    sender_wf w ->
    let r := Send d to msg w in
    let ds := sure_commits r.1 - sure_commits w in
    let dm := maybe_commits r.1 - maybe_commits w in
    match r.2 with
    | None => ds = 1 /\ dm = 1
    | Some e => if errors_as_unknown e then ds = 0 /\ dm = 1 else ds = 0 /\ dm = 0
    end;
  probe_commits d w :
    sender_wf w ->
    sure_commits (Probe d w).1 = sure_commits w /\ maybe_commits (Probe d w).1 = maybe_commits w;
}.

(** [*SMTPSender] as a [Sender] of any world with a network. *)
Definition SMTPSender_Sender (s : SMTPSender) {W} `{Has W Net} : Sender W := {|
  Send d to msg := on (smtp_Send s d to msg);
  Probe d := on (smtp_Probe s d);
|}.

(** ** Measures of the call log *)

(** Sum of a weight over the log. *)
Definition meas (f : net_event * option error -> Z) (n : Net) : Z :=
  foldr (fun te acc => f te + acc) 0 (n_trace n).

(** The message was certainly, or possibly, committed: SMTP commits at the final
    dot; an explicit 4xx or 5xx reply refuses the message, no reply leaves it open. *)
Definition sure_weight (te : net_event * option error) : Z :=
  match te with (EvDataClose, None) => 1 | _ => 0 end.

Definition maybe_weight (te : net_event * option error) : Z :=
  match te with
  | (EvDataClose, None) => 1
  | (EvDataClose, Some e) => if errors_as_smtp e then 0 else 1
  | _ => 0
  end.

(** Connections opened less connections closed. *)
Definition open_weight (te : net_event * option error) : Z :=
  match te with
  | (EvDial _ _, None) => 1
  | (EvRawClose, _) | (EvClientClose, _) => -1
  | _ => 0
  end.

(** The libraries cannot build a value of the package's own error type. *)
Definition external (o : option error) : Prop :=
  match o with Some e => errors_as_unknown e = false | None => True end.

Definition net_wf (n : Net) : Prop := Forall external (n_script n).

Lemma foldr_sum_app {A} (f : A -> Z) (l1 l2 : list A) :
  foldr (fun a acc => f a + acc) 0 (l1 ++ l2)
  = foldr (fun a acc => f a + acc) 0 l1 + foldr (fun a acc => f a + acc) 0 l2.
Proof. induction l1; simpl; lia. Qed.

Lemma net_call_spec ev n n' o :
  net_call ev n = (n', o) ->
  (forall f, meas f n' = meas f n + f (ev, o)) /\ (net_wf n -> net_wf n' /\ external o).
Proof.
  unfold net_call. intros [= <- <-]. split.
  - intros f. unfold meas. simpl. rewrite foldr_sum_app. simpl. lia.
  - unfold net_wf. simpl. destruct (n_script n) as [|o os]; simpl; [done|].
    by intros [? ?]%Forall_cons.
Qed.

Lemma net_log_meas f ev n : meas f (net_log ev n) = meas f n + f (ev, None).
Proof. unfold meas, net_log. simpl. rewrite foldr_sum_app. simpl. lia. Qed.

Lemma net_ignore_meas f ev n :
  exists o, meas f (net_ignore ev n) = meas f n + f (ev, o).
Proof.
  unfold net_ignore. destruct (net_call ev n) as [n' o] eqn:E.
  exists o. by apply net_call_spec in E as [-> _].
Qed.

Lemma net_ignore_wf ev n : net_wf n -> net_wf (net_ignore ev n).
Proof.
  unfold net_ignore. destruct (net_call ev n) as [n' o] eqn:E.
  intros Hn. by apply net_call_spec in E as [_ [? _]].
Qed.

(** Symbolic execution: split on the outcome of every call in turn. *)
Ltac net_step :=
  match goal with
  | |- context [net_call ?ev ?n] =>
    let E := fresh "E" in
    destruct (net_call ev n) as [? [?|]] eqn:E; apply net_call_spec in E as [? ?]
  end.

(** Evaluate a measure over the calls made. *)
Ltac net_meas :=
  repeat match goal with
  | |- context [meas ?f (net_ignore ?ev ?n)] =>
    let o := fresh "o" in let E := fresh "E" in
    destruct (net_ignore_meas f ev n) as [o E]; rewrite E; clear E
  | |- context [meas ?f (net_log ?ev ?n)] => rewrite (net_log_meas f ev n)
  | H : forall f, meas f ?n = _ |- context [meas _ ?n] => rewrite H
  | H : meas _ _ = _ /\ _ |- _ => destruct H
  | H : meas ?f ?n = _ |- context [meas ?f ?n] => rewrite H
  end.

(** Run a piece of code symbolically and compute the measures of its log. *)
Ltac net_run :=
  repeat (net_step; cbn [fst snd]); net_meas;
  cbn [sure_weight maybe_weight open_weight fst snd]; try lia.

(** A dial commits nothing, and a connection stays open exactly when it is
    returned. *)
Lemma DialTCP_meas d host port mode t n :
  let r := DialTCP d host port mode t n in
  meas sure_weight r.1 = meas sure_weight n
  /\ meas maybe_weight r.1 = meas maybe_weight n
  /\ meas open_weight r.1 = meas open_weight n + match r.2 with Ok _ => 1 | Err _ => 0 end.
Proof. unfold DialTCP. destruct (mode_of mode); [destruct d|..]; split_and!; net_run. Qed.

(** The well-formedness side of the same symbolic run. *)
Ltac net_wf_run :=
  repeat (net_step; cbn [fst snd]);
  repeat match goal with
  | H : net_wf ?n, H' : net_wf ?n -> _ |- _ => destruct (H' H) as [? ?]; clear H'
  end;
  cbn [external errors_as_unknown existsb] in *;
  repeat match goal with
  | |- net_wf (net_ignore _ _) => apply net_ignore_wf
  | |- net_wf (net_log _ _) => change (net_wf (net_log ?ev ?n)) with (net_wf n)
  | H : errors_as_unknown ?e = false |- context [errors_as_unknown ?e] => rewrite H
  end; try done.

Lemma DialTCP_wf d host port mode t n :
  net_wf n ->
  let r := DialTCP d host port mode t n in
  net_wf r.1 /\ match r.2 with Ok _ => True | Err e => errors_as_unknown e = false end.
Proof.
  intros Hn. unfold DialTCP. destruct (mode_of mode); [destruct d|..]; split; net_wf_run.
Qed.

Lemma choose_auth_meas n :
  meas sure_weight (choose_auth n).1 = meas sure_weight n
  /\ meas maybe_weight (choose_auth n).1 = meas maybe_weight n
  /\ meas open_weight (choose_auth n).1 = meas open_weight n.
Proof. unfold choose_auth. split_and!; net_run. Qed.

Lemma choose_auth_wf n : net_wf n -> net_wf (choose_auth n).1.
Proof. intros Hn. unfold choose_auth. net_wf_run. Qed.

(** Both sides of a run at once: the changes of the three measures, and
    well-formedness. *)
Definition delta (ds dm dop : Z) (n n' : Net) : Prop :=
  (meas sure_weight n' = meas sure_weight n + ds
   /\ meas maybe_weight n' = meas maybe_weight n + dm
   /\ meas open_weight n' = meas open_weight n + dop)
  /\ (net_wf n -> net_wf n').

Lemma delta_trans a b c a' b' c' n1 n2 n3 :
  delta a b c n1 n2 -> delta a' b' c' n2 n3 -> delta (a + a') (b + b') (c + c') n1 n3.
Proof. unfold delta. intros [(? & ? & ?) ?] [(? & ? & ?) ?]. split; [split_and!; lia | auto]. Qed.

(** Symbolic execution of the functions above the two helpers. *)
Ltac net_helpers :=
  match goal with
  | |- context [DialTCP ?d ?h ?p ?m ?t ?n] =>
    let H := fresh "Hm" in let H' := fresh "Hw" in
    pose proof (DialTCP_meas d h p m t n) as H; pose proof (DialTCP_wf d h p m t n) as H';
    destruct (DialTCP d h p m t n) as [? [?|?]]; cbn [fst snd] in H, H'
  | |- context [choose_auth ?n] =>
    let H := fresh "Hm" in let H' := fresh "Hw" in
    pose proof (choose_auth_meas n) as H; pose proof (choose_auth_wf n) as H';
    destruct (choose_auth n) as [? ?]; cbn [fst snd] in H, H'
  end.

Ltac net_exec := repeat (first [net_step | net_helpers]; cbn [fst snd]).

Lemma net_log_wf ev n : net_wf (net_log ev n) = net_wf n.
Proof. reflexivity. Qed.

Ltac net_wf_close :=
  rewrite ?net_log_wf in *;
  repeat match goal with
  | H : net_wf ?n, H' : net_wf ?n -> _ |- _ => specialize (H' H)
  | H : net_wf _ /\ _ |- _ => destruct H
  end;
  repeat (apply net_ignore_wf || rewrite net_log_wf); try done.

Ltac net_delta :=
  split;
  [ split_and!; net_meas; cbn [sure_weight maybe_weight open_weight]; lia
  | intros ?; net_wf_close ].

(** What [connect] leaves behind: the connection it returns is the only one it
    leaves open, and it commits nothing. *)
Lemma connect_delta s d label n :
  let r := connect s d label n in
  delta 0 0 (match r.2 with Ok _ => 1 | Err _ => 0 end) n r.1.
Proof. unfold connect. destruct d, (mode_of (s_TLSMode s)); net_exec; net_delta. Qed.

(** Its errors are those of the libraries, wrapped. *)
Lemma connect_err s d label n e :
  net_wf n -> (connect s d label n).2 = Err e -> errors_as_unknown e = false.
Proof.
  intros Hn. unfold connect. destruct d, (mode_of (s_TLSMode s)); net_exec;
    intros [= <-]; rewrite ?errors_as_unknown_wrap1; net_wf_close; naive_solver.
Qed.

(** The transaction: its result tells what the server has, up to the one
    ambiguous case. *)
Lemma transaction_delta s to msg n :
  net_wf n ->
  let r := transaction s to msg n in
  match r.2 with
  | None => delta 1 1 0 n r.1
  | Some e => if errors_as_unknown e then delta 0 1 0 n r.1 else delta 0 0 0 n r.1
  end.
Proof.
  intros Hn. unfold transaction. net_exec; net_wf_close;
    rewrite ?errors_as_unknown_wrap1; cbn [external] in *;
    try match goal with
    | |- context [errors_as_smtp ?e] => destruct (errors_as_smtp e) eqn:Hsmtp; cbn [fst snd]
    end;
    rewrite ?errors_as_unknown_wrap1; cbn [errors_as_unknown];
    repeat match goal with H : errors_as_unknown _ = false |- _ => rewrite H; clear H end;
    (split; [split_and!; net_meas; cbn [sure_weight maybe_weight open_weight];
             rewrite ?Hsmtp; lia
            | intros _; net_wf_close]).
Qed.

Lemma hang_up_delta n : delta 0 0 (-1) n (hang_up n).
Proof. unfold hang_up. net_delta. Qed.

Lemma smtp_Send_commits_lemma s d to msg n :
  net_wf n ->
  let r := smtp_Send s d to msg n in
  let ds := meas sure_weight r.1 - meas sure_weight n in
  let dm := meas maybe_weight r.1 - meas maybe_weight n in
  match r.2 with
  | None => ds = 1 /\ dm = 1
  | Some e => if errors_as_unknown e then ds = 0 /\ dm = 1 else ds = 0 /\ dm = 0
  end.
Proof.
  intros Hn. unfold smtp_Send. pose proof (connect_delta s d "smtp" n) as [(? & ? & ?) Hw].
  pose proof (connect_err s d "smtp" n) as He.
  destruct (connect s d "smtp" n) as [n1 [tc|e]]; cbn [fst snd] in *.
  2:{ rewrite (He e) by done. cbn [fst snd]. lia. }
  pose proof (transaction_delta s to msg n1 (Hw Hn)) as Ht.
  destruct (transaction s to msg n1) as [n2 r]; cbn [fst snd] in *.
  destruct (hang_up_delta n2) as [(? & ? & ?) _]. unfold delta in Ht.
  destruct r as [e|]; [destruct (errors_as_unknown e)|]; lia.
Qed.

(** C20: [SMTPSender.Send] tells the truth about the message: a [nil] result
    means the server committed it, [ErrDataOutcomeUnknown] is returned exactly
    in the one ambiguous case (the final dot was sent and no SMTP reply came
    back), and any other error means the message was certainly not taken over. *)
Theorem smtp_Send_commits s d to msg n :
  net_wf n ->
  let r := smtp_Send s d to msg n in
  let ds := meas sure_weight r.1 - meas sure_weight n in
  let dm := meas maybe_weight r.1 - meas maybe_weight n in
  match r.2 with
  | None => ds = 1 /\ dm = 1
  | Some e => if errors_as_unknown e then ds = 0 /\ dm = 1 else ds = 0 /\ dm = 0
  end.
Proof. apply smtp_Send_commits_lemma. Qed.

Lemma transaction_open s to msg n :
  meas open_weight (transaction s to msg n).1 = meas open_weight n.
Proof.
  unfold transaction. net_exec;
    try match goal with
    | |- context [errors_as_smtp ?e] => destruct (errors_as_smtp e); cbn [fst snd]
    end; net_meas; cbn [open_weight]; lia.
Qed.

(** C21: No connection leaks: every path of [Send] and [Probe], error paths
    included, closes the connection it dialled. *)
Theorem smtp_closes s d to msg n :
  meas open_weight (smtp_Send s d to msg n).1 = meas open_weight n
  /\ meas open_weight (smtp_Probe s d n).1 = meas open_weight n.
Proof.
  split.
  - unfold smtp_Send. pose proof (connect_delta s d "smtp" n) as [(? & ? & ?) _].
    destruct (connect s d "smtp" n) as [n1 [tc|e]]; cbn [fst snd] in *; [|lia].
    pose proof (transaction_open s to msg n1) as Ht.
    destruct (transaction s to msg n1) as [n2 r]; cbn [fst snd] in *.
    destruct (hang_up_delta n2) as [(? & ? & ?) _]. lia.
  - unfold smtp_Probe. pose proof (connect_delta s d "smtp probe" n) as [(? & ? & ?) _].
    destruct (connect s d "smtp probe" n) as [n1 [tc|e]]; cbn [fst snd] in *; [|lia].
    destruct (hang_up_delta (net_ignore EvQuit n1)) as [(? & ? & ->) _].
    net_meas. cbn [open_weight]. lia.
Qed.

Lemma smtp_Send_wf s d to msg n : net_wf n -> net_wf (smtp_Send s d to msg n).1.
Proof.
  intros Hn. unfold smtp_Send. pose proof (connect_delta s d "smtp" n) as [_ Hw].
  destruct (connect s d "smtp" n) as [n1 [tc|e]]; cbn [fst snd] in *; [|auto].
  pose proof (transaction_delta s to msg n1 (Hw Hn)) as Ht.
  destruct (transaction s to msg n1) as [n2 r]; cbn [fst snd] in *.
  apply hang_up_delta. unfold delta in Ht.
  destruct r as [e|]; [destruct (errors_as_unknown e)|]; apply Ht; auto.
Qed.

Lemma smtp_Probe_delta s d n : delta 0 0 0 n (smtp_Probe s d n).1.
Proof.
  unfold smtp_Probe. pose proof (connect_delta s d "smtp probe" n) as [(? & ? & ?) Hw].
  destruct (connect s d "smtp probe" n) as [n1 [tc|e]]; cbn [fst snd] in *.
  2:{ by split; [split_and!; lia|]. }
  destruct (hang_up_delta (net_ignore EvQuit n1)) as [(Q1 & Q2 & Q3) Hw'].
  split; [split_and!; rewrite ?Q1, ?Q2, ?Q3; net_meas; cbn [sure_weight maybe_weight open_weight]; lia|].
  intros Hn. apply Hw', net_ignore_wf, Hw, Hn.
Qed.

(** [SMTPSender] implements the contract of the sender interface. *)
#[export] Instance SMTPSender_Spec s {W} `{Has W Net} : SenderSpec W (H := SMTPSender_Sender s).
Proof.
  refine {| sender_wf w := net_wf (get w);
            sure_commits w := meas sure_weight (get w);
            maybe_commits w := meas maybe_weight (get w) |}.
  - intros d to msg w Hw. simpl. rewrite get_put. by apply smtp_Send_wf.
  - intros d w Hw. simpl. rewrite get_put. by apply smtp_Probe_delta.
  - intros d to msg w Hw. simpl. rewrite get_put. by apply smtp_Send_commits_lemma.
  - intros d w Hw. simpl. rewrite get_put.
    destruct (smtp_Probe_delta s d (get w)) as [(? & ? & ?) _]. lia.
Defined.

(** ** The effective deadline *)

Definition run_ops (ops : list Deadline.op) (c : TimeoutConn) : TimeoutConn :=
  foldl (fun c o => Deadline.apply_op o c) c ops.

(** The settings in force after a sequence of calls. *)
Definition timeout_in_force (t0 : Z) (ops : list Deadline.op) : Z :=
  foldl (fun t o => match o with Deadline.OSetTimeout d => d | _ => t end) t0 ops.

Definition hard_in_force (h0 : option Z) (ops : list Deadline.op) : option Z :=
  foldl (fun h o => match o with Deadline.OSetHardDeadline t => t | _ => h end) h0 ops.

(** Hard deadlines a [time.Time] with a positive [UnixNano] denotes. *)
Definition hard_ok (o : Deadline.op) : Prop :=
  match o with Deadline.OSetHardDeadline (Some t) => 0 < t < 2 ^ 63 | _ => True end.

Definition hard_repr (h : option Z) (n : Z) : Prop :=
  match h with Some t => n = t /\ 0 < t < 2 ^ 63 | None => n = 0 end.

Lemma run_ops_repr ops c h :
  Forall hard_ok ops -> hard_repr h (tc_hardDeadline c) ->
  tc_timeout (run_ops ops c) = timeout_in_force (tc_timeout c) ops
  /\ hard_repr (hard_in_force h ops) (tc_hardDeadline (run_ops ops c)).
Proof.
  revert c h; induction ops as [|o ops IH]; intros c h Hops Hh; [done|].
  apply Forall_cons in Hops as [Ho Hops]. simpl. destruct o as [d|[t|]]; simpl in *.
  - by apply (IH (Deadline.SetTimeout d c)).
  - apply (IH (Deadline.SetHardDeadline (Some t) c)); [done|]. simpl.
    rewrite wrap64_id by (unfold is_i64; lia). lia.
  - by apply (IH (Deadline.SetHardDeadline None c)).
Qed.

(** After any sequence of [SetTimeout] and [SetHardDeadline] calls, the
    deadline set before the next read or write is the earlier of now plus the
    timeout in force and the hard deadline in force, if there is one. *)
Theorem effectiveDeadline_min t0 ops now :
  Forall hard_ok ops ->
  Deadline.effectiveDeadline now (run_ops ops (Deadline.NewTimeoutConn t0))
  = match hard_in_force None ops with
    | Some h => Z.min (now + timeout_in_force t0 ops) h
    | None => now + timeout_in_force t0 ops
    end.
Proof.
  intros Hops. destruct (run_ops_repr ops (Deadline.NewTimeoutConn t0) None Hops eq_refl) as [Ht Hh].
  unfold Deadline.effectiveDeadline. rewrite Ht. simpl tc_timeout.
  destruct (hard_in_force None ops) as [h|]; simpl in Hh.
  - destruct Hh as [-> Hh]. replace (0 <? h) with true by lia.
    destruct (h <? now + timeout_in_force t0 ops) eqn:E; lia.
  - by rewrite Hh.
Qed.

Lemma effectiveDeadline_min_witness :
  let ops := [Deadline.OSetHardDeadline (Some 500); Deadline.OSetTimeout 1000] in
  Forall hard_ok ops
  /\ Deadline.effectiveDeadline 10 (run_ops ops (Deadline.NewTimeoutConn 60)) = 500.
Proof.
  assert (Hops : Forall hard_ok [Deadline.OSetHardDeadline (Some 500); Deadline.OSetTimeout 1000])
    by (repeat constructor).
  split; [exact Hops|]. rewrite (effectiveDeadline_min 60 _ 10 Hops). reflexivity.
Defined.

(** ** Witnesses *)

Module TransportSamples.
Definition sender : SMTPSender :=
  mkSMTPSender (str "smtp.example") 587 (str "u") (str "p") (str "a@a.example") (str "none").

(** A server that loses the connection after the final dot. *)
Definition lost_reply : Net :=
  mkNet [None; None; None; None; None; None; None; None; None; None; Some (Opaque "EOF")] [].
End TransportSamples.

Lemma smtp_Send_commits_witness :
  net_wf TransportSamples.lost_reply
  /\ let r := smtp_Send TransportSamples.sender None (str "b@b.example") (str "m")
                TransportSamples.lost_reply in
     meas sure_weight r.1 - meas sure_weight TransportSamples.lost_reply = 0
     /\ meas maybe_weight r.1 - meas maybe_weight TransportSamples.lost_reply = 1.
Proof.
  assert (Hw : net_wf TransportSamples.lost_reply) by (repeat constructor).
  split; [exact Hw|].
  exact (smtp_Send_commits TransportSamples.sender None (str "b@b.example") (str "m") _ Hw).
Defined.
