(* ===== verification/Pipe.v ===== *)
(** * internal/pipe: outbound packets, recovery, and injection

    [HandlePacket] encodes a packet and sends it with a small retry budget;
    [recover] probes the server with exponential backoff; [InjectWithRetry]
    delivers an inbound packet.  They are functions over a world [W] with a
    [Sender]; each [select] of a context against a timer takes its outcome from
    a list of booleans ([true]: the timer fired; the end of the list is the
    cancelled context), and the durations waited are returned.

    Module [Recovery] is the small-step model of the goroutines that share the
    [recovering] flag: [HandlePacket], [StartupProbe] and [recover], for a handler
    with or without [setOnline] and for any recovery delay. *)
From S2P Require Import Prelude GoErrors GoStrings GoMime GoMail Envelope Transport.

Definition maxRetries : nat := 3.
Definition sendTimeout : Z := 30 * second.

(** [backoff *= 2] and [backoff*2] on a [time.Duration]. *)
Definition double (d : Z) : Z := wrap64 (d * 2).

Record Handler := mkHandler {
  h_email : bytes;
  h_smtpFrom : bytes;
  h_recoveryDelay : Z;
  h_maxRecoveryDelay : Z;
}.

(** The mutable state: the flag, and the goroutines [go h.recover(ctx)] started. *)
Record HandlerState := mkHandlerState {
  hs_recovering : bool;
  hs_started : nat;
}.

(** What the log of a call reports; [HandlePacket] itself always returns [nil]. *)
Inductive outcome := EncodeFailed | PacketSent | DeliveryAmbiguous | LostTimeout | RetriesExhausted.

#[global] Instance outcome_eq_dec : EqDecision outcome.
Proof. solve_decision. Defined.

(** [context.WithTimeout]: the earlier of the two deadlines. *)
Definition with_timeout (ctx_deadline : option Z) (now d : Z) : option Z :=
  Some (match ctx_deadline with Some t => Z.min t (now + d) | None => now + d end).

Section Handler.
Context {W : Type} {sender : Sender W} {hstate : Has W HandlerState} {mail : MailParsers}.
(** [h.setOnline], which may be [nil]. *)
Context (setOnline : option (bool -> W -> W)) (h : Handler).

Definition beginRecovery (w : W) : W :=
  match setOnline with
  | Some set =>
    if 0 <? h_recoveryDelay h then
      let st : HandlerState := get w in
      if hs_recovering st then w
      else
        let w := put (mkHandlerState true (hs_started st)) w in
        let w := set false w in
        put (mkHandlerState (hs_recovering (get w)) (S (hs_started (get w)))) w
    else w
  | None => w
  end.

(** The attempts loop, [left] attempts from the end; returns the durations
    waited as well. *)
Fixpoint send_loop (left : nat) (deadline : option Z) (msg : bytes) (backoff : Z)
    (waits : list bool) (w : W) : W * list Z * outcome :=
  match left with
  | O => (w, [], RetriesExhausted)
  | S left' =>
    match Send deadline (h_email h) msg w with
    | (w, Some err) =>
      if errors_as_unknown err then (w, [], DeliveryAmbiguous)
      else if bool_decide (left' = 0)%nat then send_loop left' deadline msg backoff waits w
      else match waits with
           | true :: waits' =>
             let '(w, ds, o) := send_loop left' deadline msg (double backoff) waits' w in
             (w, backoff :: ds, o)
           | _ => (w, [backoff], LostTimeout)
           end
    | (w, None) => (w, [], PacketSent)
    end
  end.

Definition HandlePacket (uuid date : bytes) (ctx_deadline : option Z) (now : Z)
    (pkt : bytes) (waits : list bool) (w : W) : W * list Z * outcome :=
  match Encode uuid date (mkParams (h_smtpFrom h) (h_email h) pkt) with
  | Err _ => (w, [], EncodeFailed)
  | Ok (envBytes, _) =>
    let sendCtx := with_timeout ctx_deadline now sendTimeout in
    let '(w, ds, o) := send_loop maxRetries sendCtx envBytes second waits w in
    match o with
    | DeliveryAmbiguous | RetriesExhausted => (beginRecovery w, ds, o)
    | _ => (w, ds, o)
    end
  end.

(** The probe loop of [recover]; [true] when the interface came back online. *)
Fixpoint recover_loop (waits : list bool) (ctx_deadline : option Z) (set : bool -> W -> W)
    (backoff : Z) (w : W) : W * list Z * bool :=
  match waits with
  | true :: waits' =>
    match Probe ctx_deadline w with
    | (w, Some _) =>
      let '(w, ds, ok) :=
        recover_loop waits' ctx_deadline set (Z.min (double backoff) (h_maxRecoveryDelay h)) w in
      (w, backoff :: ds, ok)
    | (w, None) => (set true w, [backoff], true)
    end
  | _ => (w, [backoff], false)
  end.

(** [recover], with its deferred [recovering.Store(false)]. *)
Definition recover (waits : list bool) (ctx_deadline : option Z) (set : bool -> W -> W) (w : W)
    : W * list Z * bool :=
  let '(w, ds, ok) := recover_loop waits ctx_deadline set (h_recoveryDelay h) w in
  (put (mkHandlerState false (hs_started (get w))) w, ds, ok).

Definition StartupProbe (ctx_deadline : option Z) (w : W) : W :=
  match setOnline with
  | None => w
  | Some set =>
    match Probe ctx_deadline w with
    | (w, Some _) => beginRecovery w
    | (w, None) => set true w
    end
  end.
End Handler.

(** ** InjectWithRetry *)

Section Inject.
(** [ctx.Err()], [iface.Receive] of the rnspipe package, and the one-second
    [select], each over the world. *)
Context {W : Type} (ctx_err : W -> option error) (receive : bytes -> W -> W * option error).

(** [waits] as above: every round that is not the last takes one entry. *)
Fixpoint InjectWithRetry (pkt : bytes) (waits : list bool) (w : W) : W * option error :=
  match ctx_err w with
  | Some err => (w, Some err)
  | None =>
    match receive pkt w with
    | (w, None) => (w, None)
    | (w, Some err) =>
      if negb (errors_is RnsErrOffline err) && negb (errors_is RnsErrNotStarted err)
      then (w, Some err)
      else match waits with
           | true :: waits' => InjectWithRetry pkt waits' w
           | _ => (w, Some (default (Sentinel CtxCanceled) (ctx_err w)))
           end
    end
  end.
End Inject.

(** ** Delivery *)

(** The handler's world: its own state and the callback are independent of the
    sender's. *)
Class HandlerWorld (W : Type) `{SenderSpec W} `{Has W HandlerState} (set : bool -> W -> W) : Prop := {
  hw_put st w : sure_commits (put st w) = sure_commits w /\ maybe_commits (put st w) = maybe_commits w;
  hw_set b w : sure_commits (set b w) = sure_commits w /\ maybe_commits (set b w) = maybe_commits w;
  hw_set_state b w : get (A := HandlerState) (set b w) = get w;
  hw_send_state d to msg w : get (A := HandlerState) (Send d to msg w).1 = get w;
  hw_probe_state d w : get (A := HandlerState) (Probe d w).1 = get w;
}.

Section Delivery.
Context `{HandlerWorld W set} `{MailParsers}.
Implicit Types (h : Handler) (w : W).

Definition commits_of (o : outcome) : Z * Z :=
  match o with
  | PacketSent => (1, 1)
  | DeliveryAmbiguous => (0, 1)
  | EncodeFailed | LostTimeout | RetriesExhausted => (0, 0)
  end.

Lemma send_loop_commits h left d msg b waits w :
  sender_wf w ->
  let r := send_loop h left d msg b waits w in
  sure_commits r.1.1 = sure_commits w + (commits_of r.2).1
  /\ maybe_commits r.1.1 = maybe_commits w + (commits_of r.2).2.
Proof.
  revert b waits w; induction left as [|left IH]; intros b waits w Hw; simpl; [lia|].
  pose proof (send_commits d (h_email h) msg w Hw) as Hs.
  pose proof (send_wf d (h_email h) msg w Hw) as Hw1.
  destruct (Send d (h_email h) msg w) as [w1 [e|]]; simpl in *; [|lia].
  destruct (errors_as_unknown e); simpl; [lia|].
  case_bool_decide; [specialize (IH b waits w1 Hw1); cbv zeta in IH; lia|].
  destruct waits as [|[] waits]; simpl; try lia.
  specialize (IH (double b) waits w1 Hw1). cbv zeta in IH.
  destruct (send_loop h left d msg (double b) waits w1) as [[w2 ds] o]; simpl in *. lia.
Qed.

Lemma send_loop_state h left d msg b waits w :
  get (A := HandlerState) (send_loop h left d msg b waits w).1.1 = get w.
Proof.
  revert b waits w; induction left as [|left IH]; intros b waits w; simpl; [done|].
  pose proof (hw_send_state d (h_email h) msg w) as Hs.
  destruct (Send d (h_email h) msg w) as [w1 [e|]]; simpl in *; [|done].
  destruct (errors_as_unknown e); simpl; [done|].
  case_bool_decide; [by rewrite IH|].
  destruct waits as [|[] waits]; simpl; try done.
  specialize (IH (double b) waits w1).
  destruct (send_loop h left d msg (double b) waits w1) as [[w2 ds] o]; simpl in *. congruence.
Qed.

Lemma beginRecovery_commits h w :
  sure_commits (beginRecovery (Some set) h w) = sure_commits w
  /\ maybe_commits (beginRecovery (Some set) h w) = maybe_commits w.
Proof.
  unfold beginRecovery. destruct (0 <? _); [|done]. destruct (hs_recovering _); [done|].
  split; rewrite ?(proj1 (hw_put _ _)), ?(proj2 (hw_put _ _)),
    ?(proj1 (hw_set _ _)), ?(proj2 (hw_set _ _)), ?(proj1 (hw_put _ _)), ?(proj2 (hw_put _ _)); done.
Qed.

Lemma beginRecovery_state h w :
  0 < h_recoveryDelay h ->
  get (beginRecovery (Some set) h w)
  = if hs_recovering (get w) then get w else mkHandlerState true (S (hs_started (get w))).
Proof.
  intros Hd. unfold beginRecovery. replace (0 <? h_recoveryDelay h) with true by lia.
  destruct (hs_recovering (get w)) eqn:E; [done|].
  by rewrite get_put, hw_set_state, get_put.
Qed.

Lemma HandlePacket_inv h uuid date d now pkt waits w :
  HandlePacket (Some set) h uuid date d now pkt waits w = (w, [], EncodeFailed)
  \/ exists d' msg,
    let r := send_loop h maxRetries d' msg second waits w in
    HandlePacket (Some set) h uuid date d now pkt waits w
    = (match r.2 with
       | DeliveryAmbiguous | RetriesExhausted => beginRecovery (Some set) h r.1.1
       | _ => r.1.1
       end, r.1.2, r.2).
Proof.
  unfold HandlePacket. destruct (Encode _ _ _) as [[msg mid]|]; [right | by left].
  exists (with_timeout d now sendTimeout), msg. cbv zeta.
  destruct (send_loop _ _ _ _ _ _ _) as [[w1 ds] []]; reflexivity.
Qed.
End Delivery.

(** C10: At-most-once delivery: one [HandlePacket] call never lets the server
    take the message over twice, however the attempts fail; when it reports the
    packet as sent it was committed exactly once, when it reports an ambiguous
    delivery it may have been committed at most once (and is not retried), and
    when it reports the packet lost it was not committed at all. *)
Theorem HandlePacket_at_most_once `{HandlerWorld W set} `{MailParsers}
    h uuid date d now pkt waits (w : W) :
  sender_wf w ->
  let r := HandlePacket (Some set) h uuid date d now pkt waits w in
  sure_commits r.1.1 = sure_commits w + (commits_of r.2).1
  /\ maybe_commits r.1.1 = maybe_commits w + (commits_of r.2).2.
Proof.
  intros Hw. destruct (HandlePacket_inv (set := set) h uuid date d now pkt waits w) as [-> | (d' & msg & ->)];
    [simpl; lia|]. cbv zeta.
  pose proof (send_loop_commits h maxRetries d' msg second waits w Hw) as Hs. cbv zeta in Hs.
  destruct (send_loop _ _ _ _ _ _ _) as [[w1 ds] o]; simpl in *.
  pose proof (beginRecovery_commits (set := set) h w1). destruct o; simpl in *; lia.
Qed.

(** C22: Recovery is entered exactly on an ambiguous delivery or on exhausted
    retries: then the flag is set and, if it was not, one goroutine is started;
    every other outcome, a send timeout included, leaves the recovery state
    alone. *)
Theorem HandlePacket_recovery `{HandlerWorld W set} `{MailParsers}
    h uuid date d now pkt waits (w : W) :
  0 < h_recoveryDelay h ->
  let r := HandlePacket (Some set) h uuid date d now pkt waits w in
  get (A := HandlerState) r.1.1 =
  match r.2 with
  | DeliveryAmbiguous | RetriesExhausted =>
    if hs_recovering (get w) then get w else mkHandlerState true (S (hs_started (get w)))
  | EncodeFailed | PacketSent | LostTimeout => get w
  end.
Proof.
  intros Hd. destruct (HandlePacket_inv (set := set) h uuid date d now pkt waits w) as [-> | (d' & msg & ->)];
    [done|]. cbv zeta.
  pose proof (send_loop_state (set := set) h maxRetries d' msg second waits w) as Hs.
  destruct (send_loop _ _ _ _ _ _ _) as [[w1 ds] o]; cbn [fst snd] in *.
  destruct o; rewrite ?beginRecovery_state by done; by rewrite Hs.
Qed.

(** ** A call is a sequence of the steps of its parts *)

(** Any preorder that relates the worlds before and after each call the handler
    makes relates the worlds before and after the handler's own operations. *)
Section Closure.
Context {W : Type} {sender : Sender W} {hstate : Has W HandlerState} {mail : MailParsers}.
Context (set : bool -> W -> W) (h : Handler) (R : W -> W -> Prop) `{!PreOrder R}.
Context (R_send : forall d to msg w, R w (Send d to msg w).1)
        (R_probe : forall d w, R w (Probe d w).1)
        (R_flag : forall (st : HandlerState) w, R w (put st w))
        (R_set : forall b w, R w (set b w)).
Implicit Types (w : W).

Lemma send_loop_closed left d msg b waits w : R w (send_loop h left d msg b waits w).1.1.
Proof.
  revert b waits w; induction left as [|left IH]; intros b waits w; cbn [send_loop]; [done|].
  pose proof (R_send d (h_email h) msg w) as Hs.
  destruct (Send d (h_email h) msg w) as [w1 [e|]]; [|done]. cbn [fst] in Hs.
  destruct (errors_as_unknown e); [done|].
  case_bool_decide; [by etrans|]. destruct waits as [|[] waits]; [done | | done].
  specialize (IH (double b) waits w1).
  destruct (send_loop h left d msg (double b) waits w1) as [[w2 ds] o]. by etrans.
Qed.

Lemma beginRecovery_closed w : R w (beginRecovery (Some set) h w).
Proof.
  unfold beginRecovery. destruct (0 <? _); [|done]. destruct (hs_recovering _); [done|].
  etrans; [apply R_flag|]. etrans; [apply R_set|]. apply R_flag.
Qed.

Lemma HandlePacket_closed uuid date d now pkt waits w :
  R w (HandlePacket (Some set) h uuid date d now pkt waits w).1.1.
Proof.
  destruct (HandlePacket_inv (set := set) h uuid date d now pkt waits w) as [-> | (d' & msg & ->)];
    [done|]. cbv zeta.
  pose proof (send_loop_closed maxRetries d' msg second waits w) as Hs.
  destruct (send_loop _ _ _ _ _ _ _) as [[w1 ds] []]; cbn [fst snd] in *; try done;
    (etrans; [exact Hs | apply beginRecovery_closed]).
Qed.

Lemma StartupProbe_closed d w : R w (StartupProbe (Some set) h d w).
Proof.
  unfold StartupProbe. pose proof (R_probe d w) as Hp.
  destruct (Probe d w) as [w1 [e|]]; (etrans; [exact Hp|]); [apply beginRecovery_closed | apply R_set].
Qed.

Lemma recover_closed waits d w : R w (recover h waits d set w).1.1.
Proof.
  unfold recover. assert (Hl : forall b w, R w (recover_loop h waits d set b w).1.1).
  { induction waits as [|[] waits IH]; intros b w1; cbn [recover_loop]; [done | | done].
    pose proof (R_probe d w1) as Hp. destruct (Probe d w1) as [w2 [e|]]; cbn [fst] in Hp.
    - specialize (IH (Z.min (double b) (h_maxRecoveryDelay h)) w2).
      destruct (recover_loop _ _ _ _ _ w2) as [[w3 ds] ok]. by etrans.
    - by etrans; [|apply R_set]. }
  specialize (Hl (h_recoveryDelay h) w).
  destruct (recover_loop _ _ _ _ _ w) as [[w1 ds] ok]. by etrans; [|apply R_flag].
Qed.
End Closure.

(** ** Attempts and waits *)

Lemma double_id d : 0 <= d -> 2 * d < 2 ^ 63 -> double d = 2 * d.
Proof. intros. unfold double. rewrite wrap64_id; unfold is_i64; lia. Qed.

(** A sender that counts the calls of [Send]. *)
Definition counting {W} (S0 : Sender W) : Sender (W * nat) := {|
  Send d to msg wn := let '(w, r) := Send d to msg wn.1 in ((w, S wn.2), r);
  Probe d wn := let '(w, r) := Probe d wn.1 in ((w, wn.2), r);
|}.

Lemma send_loop_attempts {W} (S0 : Sender W) h left d msg b waits (wn : W * nat) :
  (1 <= left)%nat -> 0 <= b -> b * 2 ^ Z.of_nat left < 2 ^ 63 ->
  let r := send_loop (sender := counting S0) h left d msg b waits wn in
  (r.1.1.2 = wn.2 + length r.1.2 + (if bool_decide (r.2 = LostTimeout) then 0 else 1))%nat
  /\ r.2 <> EncodeFailed
  /\ r.1.2 `prefix_of` ((fun i => b * 2 ^ Z.of_nat i) <$> seq 0 (left - 1))
  /\ (r.2 = RetriesExhausted -> length r.1.2 = left - 1)%nat.
Proof.
  revert b waits wn; induction left as [|left IH]; intros b waits wn Hl Hb Ho; [lia|].
  cbn [send_loop]. destruct wn as [w n]. simpl Send.
  destruct (Send d (h_email h) msg w) as [w1 [e|]]; cbn [fst snd].
  2:{ split_and!; [simpl; lia | done | apply prefix_nil | done]. }
  destruct (errors_as_unknown e); cbn [fst snd].
  { split_and!; [simpl; lia | done | apply prefix_nil | done]. }
  case_bool_decide as Hz.
  { subst left. cbn [send_loop fst snd]. split_and!; [simpl; lia | done | apply prefix_nil | done]. }
  assert (Hseq : seq 0 (S left - 1) = 0%nat :: (S <$> seq 0 (left - 1))).
  { rewrite fmap_S_seq. replace (S left - 1)%nat with (S (left - 1)) by lia. done. }
  assert (Hpow : b * 2 ^ Z.of_nat (S left) = (2 * b) * 2 ^ Z.of_nat left)
    by (rewrite Nat2Z.inj_succ, Z.pow_succ_r by lia; lia).
  assert (Hpos : 1 <= 2 ^ Z.of_nat left) by (apply Z.lt_pred_le, Z.pow_pos_nonneg; lia).
  rewrite Hseq, fmap_cons. replace (b * 2 ^ Z.of_nat 0) with b by lia.
  assert (Hlost : (S n = n + length [b] + 0)%nat /\ LostTimeout <> EncodeFailed
    /\ [b] `prefix_of` (b :: ((fun i => b * 2 ^ Z.of_nat i) <$> (S <$> seq 0 (left - 1))))
    /\ (LostTimeout = RetriesExhausted -> length [b] = S left - 1)%nat).
  { split_and!; [simpl; lia | done | apply prefix_cons, prefix_nil | done]. }
  destruct waits as [|[] waits]; [exact Hlost | | exact Hlost].
  assert (Hd : double b = 2 * b) by (apply double_id; nia).
  specialize (IH (double b) waits (w1, S n) ltac:(lia) ltac:(lia) ltac:(lia)). cbv zeta in IH.
  destruct (send_loop (sender := counting S0) h left d msg (double b) waits (w1, S n)) as [[wn2 ds] o].
  cbn [fst snd length] in *. destruct IH as (I1 & I2 & I3 & I4).
  split_and!; [lia | done | | intros E; specialize (I4 E); lia].
  apply prefix_cons. etransitivity; [exact I3|].
  replace ((fun i => b * 2 ^ Z.of_nat i) <$> (S <$> seq 0 (left - 1)))
    with ((fun i => double b * 2 ^ Z.of_nat i) <$> seq 0 (left - 1)); [done|].
  rewrite <- list_fmap_compose. apply list_fmap_ext. intros i x _. unfold compose.
  rewrite Hd, Nat2Z.inj_succ, Z.pow_succ_r by lia. lia.
Qed.

(** The retry budget: a call makes at most three send attempts, waits one
    second and then two seconds between them and nothing else, and gives up with
    [RetriesExhausted] only after all three attempts. *)
Theorem HandlePacket_budget {W} (S0 : Sender W) `{Has W HandlerState} `{MailParsers}
    set h uuid date d now pkt waits (wn : W * nat) :
  (forall b v, (set b v).2 = v.2) ->
  let r := HandlePacket (sender := counting S0) (Some set) h uuid date d now pkt waits wn in
  (r.1.1.2 <= wn.2 + maxRetries)%nat
  /\ r.1.2 `prefix_of` [second; 2 * second]
  /\ (r.2 = RetriesExhausted -> r.1.1.2 = wn.2 + maxRetries)%nat.
Proof.
  intros Hset. unfold HandlePacket. destruct (Encode _ _ _) as [[msg mid]|].
  2:{ cbn [fst snd]. split_and!; [lia | apply prefix_nil | done]. }
  pose proof (send_loop_attempts S0 h maxRetries (with_timeout d now sendTimeout) msg second waits wn
    ltac:(unfold maxRetries; lia) ltac:(unfold second; lia) ltac:(reflexivity)) as Hl.
  cbv zeta in Hl. change ((fun i => second * 2 ^ Z.of_nat i) <$> seq 0 (maxRetries - 1))
    with [second; 2 * second] in Hl.
  destruct (send_loop _ _ _ _ _ _ _) as [[w1 ds] o]. cbn [fst snd] in *.
  destruct Hl as (H1 & H2 & H3 & H4).
  assert (Hlen : (length ds <= 2)%nat) by (apply prefix_length in H3; done).
  assert (Hb : (beginRecovery (Some set) h w1).2 = w1.2).
  { unfold beginRecovery. destruct (0 <? _); [|done]. destruct (hs_recovering _); [done|].
    cbn. by rewrite Hset. }
  unfold maxRetries in *. destruct o; cbn [fst snd]; rewrite ?Hb; rewrite H1;
    (split_and!; [case_bool_decide; lia | done | intros E; try done]).
  specialize (H4 eq_refl). case_bool_decide; [done | lia].
Qed.

(** ** The recovery loop *)

Section RecoverLoop.
Context `{Sender W} (set : bool -> W -> W) (h : Handler).

(** The k-th wait of an exponential backoff with a cap. *)
Definition backoff_at (base cap : Z) (k : nat) : Z := Z.min (base * 2 ^ Z.of_nat k) cap.

Lemma backoff_at_succ base cap k :
  0 < base <= cap -> 2 * cap < 2 ^ 63 ->
  Z.min (double (backoff_at base cap k)) cap = backoff_at base cap (S k).
Proof.
  intros Hb Hc. unfold backoff_at.
  assert (0 < base * 2 ^ Z.of_nat k) by (apply Z.mul_pos_pos; [lia | apply Z.pow_pos_nonneg; lia]).
  rewrite double_id by lia. rewrite Nat2Z.inj_succ, Z.pow_succ_r by lia. lia.
Qed.

Lemma recover_loop_delays waits d base k w i x :
  0 < base <= h_maxRecoveryDelay h -> 2 * h_maxRecoveryDelay h < 2 ^ 63 ->
  (recover_loop h waits d set (backoff_at base (h_maxRecoveryDelay h) k) w).1.2 !! i = Some x ->
  x = backoff_at base (h_maxRecoveryDelay h) (k + i).
Proof.
  intros Hb Hc. revert k w i; induction waits as [|[] waits IH]; intros k w i; cbn [recover_loop].
  1,3: destruct i; simpl; [intros [= <-]; f_equal; lia | done].
  destruct (Probe d w) as [w1 [e|]].
  - rewrite backoff_at_succ by done. specialize (IH (S k) w1).
    destruct (recover_loop h waits d set _ w1) as [[w2 ds] ok]. cbn [fst snd] in *.
    destruct i as [|i]; simpl; [intros [= <-]; f_equal; lia|].
    intros Hi. rewrite (IH i Hi). f_equal. lia.
  - destruct i; simpl; [intros [= <-]; f_equal; lia | done].
Qed.

(** The first [k] probes fail and the next one succeeds. *)
Fixpoint recovers_after (k : nat) (d : option Z) (w : W) : Prop :=
  match k with
  | O => (Probe d w).2 = None
  | S k' => (Probe d w).2 <> None /\ recovers_after k' d (Probe d w).1
  end.

(** The world after [k] probes. *)
Definition after_probes (k : nat) (d : option Z) (w : W) : W :=
  Nat.iter k (fun w => (Probe d w).1) w.

Lemma recover_loop_online waits d b w k :
  recovers_after k d w -> take (S k) waits = replicate (S k) true ->
  let r := recover_loop h waits d set b w in
  r.2 = true /\ r.1.1 = set true (after_probes (S k) d w) /\ length r.1.2 = S k.
Proof.
  revert waits b w; induction k as [|k IH]; intros waits b w Hr Hw;
    destruct waits as [|[] waits]; try done; cbn [recover_loop].
  - simpl in Hr. destruct (Probe d w) as [w1 [e|]] eqn:E; simpl in Hr; [done|].
    unfold after_probes. simpl. by rewrite E.
  - destruct Hr as [Hne Hr]. destruct (Probe d w) as [w1 [e|]] eqn:E; simpl in Hne, Hr; [|done].
    specialize (IH waits (Z.min (double b) (h_maxRecoveryDelay h)) w1 Hr).
    assert (Hw' : take (S k) waits = replicate (S k) true) by (by injection Hw).
    specialize (IH Hw'). cbv zeta in IH.
    destruct (recover_loop h waits d set _ w1) as [[w2 ds] ok]. cbn [fst snd] in *.
    destruct IH as (-> & -> & Hlen). split_and!; [done | | simpl; lia].
    unfold after_probes. rewrite (Nat.iter_succ_r (S k)). by rewrite E.
Qed.
End RecoverLoop.

(** The waits of the recovery loop: the k-th is the base delay doubled k
    times, capped at the maximum, as long as twice the maximum fits an [int64]
    of nanoseconds. *)
Theorem recover_backoff `{Sender W} `{Has W HandlerState} set h waits d (w : W) i x :
  0 < h_recoveryDelay h <= h_maxRecoveryDelay h -> 2 * h_maxRecoveryDelay h < 2 ^ 63 ->
  (recover h waits d set w).1.2 !! i = Some x ->
  x = backoff_at (h_recoveryDelay h) (h_maxRecoveryDelay h) i.
Proof.
  intros Hb Hc. unfold recover.
  pose proof (recover_loop_delays set h waits d (h_recoveryDelay h) 0 w i x Hb Hc) as Hd.
  replace (backoff_at (h_recoveryDelay h) (h_maxRecoveryDelay h) 0) with (h_recoveryDelay h) in Hd
    by (unfold backoff_at; simpl; lia).
  destruct (recover_loop h waits d set (h_recoveryDelay h) w) as [[w1 ds] ok]. exact Hd.
Qed.

(** C25: Recovery ends: when the first [k] probes fail, the next succeeds and the
    context is not cancelled before, the loop makes exactly [k+1] probes, signals
    online once, as its last action on the world, and clears the flag. *)
Theorem recover_comes_online `{Sender W} `{Has W HandlerState} set h waits d (w : W) k :
  recovers_after k d w -> take (S k) waits = replicate (S k) true ->
  let w' := set true (after_probes (S k) d w) in
  exists ds,
    recover h waits d set w = (put (mkHandlerState false (hs_started (get w'))) w', ds, true)
    /\ length ds = S k.
Proof.
  intros Hr Hw. unfold recover.
  pose proof (recover_loop_online set h waits d (h_recoveryDelay h) w k Hr Hw) as Hl. cbv zeta in *.
  destruct (recover_loop h waits d set (h_recoveryDelay h) w) as [[w1 ds] ok]. cbn [fst snd] in Hl.
  destruct Hl as (-> & -> & Hlen). by exists ds.
Qed.

(** ** Injection *)

Section InjectSpec.
Context {W : Type} (ctx_err : W -> option error) (receive : bytes -> W -> W * option error).

Definition retryable (e : error) : bool :=
  errors_is RnsErrOffline e || errors_is RnsErrNotStarted e.

(** The first [k] deliveries are refused with a retryable error. *)
Fixpoint refused (k : nat) (pkt : bytes) (w : W) : Prop :=
  match k with
  | O => True
  | S k' => ctx_err w = None /\ (exists e, (receive pkt w).2 = Some e /\ retryable e = true)
            /\ refused k' pkt (receive pkt w).1
  end.

Definition after_receives (k : nat) (pkt : bytes) (w : W) : W :=
  Nat.iter k (fun w => (receive pkt w).1) w.

Lemma InjectWithRetry_result pkt waits w :
  exists k w0,
    w0 = after_receives k pkt w /\ refused k pkt w /\ (k <= S (length waits))%nat
    /\ ((ctx_err w0 = None /\ (receive pkt w0).2 = None
          /\ InjectWithRetry ctx_err receive pkt waits w = ((receive pkt w0).1, None))
        \/ (exists e, ctx_err w0 = None /\ (receive pkt w0).2 = Some e /\ retryable e = false
             /\ InjectWithRetry ctx_err receive pkt waits w = ((receive pkt w0).1, Some e))
        \/ (exists e, InjectWithRetry ctx_err receive pkt waits w = (w0, Some e))).
Proof.
  revert w; induction waits as [|b waits IH]; intros w; cbn [InjectWithRetry];
    (destruct (ctx_err w) as [e0|] eqn:Hc;
     [exists 0%nat, w; split_and!; simpl; [done | done | lia | right; right; by eexists]|]);
    destruct (receive pkt w) as [w1 [e|]] eqn:Hr.
  2,4: exists 0%nat, w; rewrite Hr; split_and!; simpl; [done | done | lia | by left].
  all: rewrite <- negb_orb; change (errors_is RnsErrOffline e || errors_is RnsErrNotStarted e)
         with (retryable e); destruct (retryable e) eqn:He; simpl negb.
  2,4: exists 0%nat, w; rewrite Hr; split_and!; simpl; [done | done | lia | right; left; by exists e].
  - exists 1%nat, w1. split_and!; simpl; rewrite ?Hr; simpl; try done; [by eauto | right; right; by eexists].
  - destruct b.
    + destruct (IH w1) as (k & w0 & -> & Hk & Hlen & Hres). exists (S k), (after_receives k pkt w1).
      unfold after_receives. rewrite Nat.iter_succ_r, Hr. split_and!; [done | | simpl; lia | done].
      simpl. rewrite Hr. simpl. eauto.
    + exists 1%nat, w1. split_and!; simpl; rewrite ?Hr; simpl; try done;
        [by eauto | lia | right; right; by eexists].
Qed.
End InjectSpec.

Lemma after_receives_succ {W} (receive : bytes -> W -> W * option error) k pkt w :
  after_receives receive (S k) pkt w = (receive pkt (after_receives receive k pkt w)).1.
Proof. done. Qed.

(** C27: A [nil] result of [InjectWithRetry] means exactly one successful
    delivery: after some number of refusals (the interface offline or not
    started) one [Receive] accepted the packet, and it was the last. *)
Theorem InjectWithRetry_delivers_once {W} (ctx_err : W -> option error) receive pkt waits w w' :
  InjectWithRetry ctx_err receive pkt waits w = (w', None) ->
  exists k,
    (k <= S (length waits))%nat /\ refused ctx_err receive k pkt w
    /\ (receive pkt (after_receives receive k pkt w)).2 = None
    /\ w' = after_receives receive (S k) pkt w.
Proof.
  destruct (InjectWithRetry_result ctx_err receive pkt waits w)
    as (k & w0 & -> & Hk & Hlen & [(Hc & Hr & ->) | [(e & _ & _ & _ & ->) | (e & ->)]]);
    [| done | done].
  intros [= <-]. exists k. by rewrite after_receives_succ.
Qed.

(** Liveness of the injection: if the interface refuses the packet [k] times
    and then accepts it, and the context is not cancelled before, the call
    returns [nil] having delivered the packet. *)
Theorem InjectWithRetry_live {W} (ctx_err : W -> option error) receive pkt waits k w :
  refused ctx_err receive k pkt w ->
  take k waits = replicate k true ->
  ctx_err (after_receives receive k pkt w) = None ->
  (receive pkt (after_receives receive k pkt w)).2 = None ->
  InjectWithRetry ctx_err receive pkt waits w = (after_receives receive (S k) pkt w, None).
Proof.
  revert waits w; induction k as [|k IH]; intros waits w Href Hw Hc Hr.
  - cbn in Hc, Hr |- *. destruct waits; cbn; rewrite Hc;
      destruct (receive pkt w) as [w1 [e|]]; simpl in *; done.
  - destruct Href as (Hc0 & (e & He & Hre) & Href). destruct waits as [|[] waits]; try done.
    cbn [InjectWithRetry]. rewrite Hc0.
    unfold after_receives in *. rewrite Nat.iter_succ_r in Hc, Hr. rewrite Nat.iter_succ_r.
    destruct (receive pkt w) as [w1 o] eqn:E; simpl in He, Href; subst o.
    rewrite <- negb_orb. change (errors_is RnsErrOffline e || errors_is RnsErrNotStarted e)
      with (retryable e). rewrite Hre. simpl negb. cbv iota.
    apply IH; try done. by injection Hw.
Qed.

(** ** The goroutines around the flag *)

Module Recovery.
(** Program counters.  A failed packet or a failed startup probe is at
    [PBegin], before the compare-and-swap of [beginRecovery]; the winner goes
    through [POffline] ([setOnline(false)]) and [PSpawn] ([go h.recover]).  A
    recovery goroutine waits and probes ([PProbe]), signals online ([POnline])
    and runs its deferred store ([PStore]).  [PStartup] and [PStartupOnline]
    are [StartupProbe]. *)
Inductive pc :=
  | PBegin | POffline | PSpawn
  | PProbe | POnline | PStore
  | PStartup | PStartupOnline
  | PDone.

#[export] Instance pc_eq_dec : EqDecision pc.
Proof. solve_decision. Defined.

(** The flag, the value last passed to [setOnline], whether the context is
    cancelled, and the goroutines.  [healthy] is not a variable of the program:
    it records whether the last completed send or probe succeeded. *)
Record state := mkState {
  recovering : bool;
  online : bool;
  cancelled : bool;
  healthy : bool;
  pool : list pc;
}.

Definition set_pc (s : state) (i : nat) (p : pc) : list pc := <[i := p]> (pool s).

(** What the goroutines read of the handler: whether [setOnline] is set, and
    [recoveryDelay]. *)
Record settings := mkSettings { callback : bool; delay : Z }.

(** [h.setOnline != nil && h.recoveryDelay > 0], the guard of [beginRecovery]. *)
Definition enabled (c : settings) : bool := callback c && (0 <? delay c).

Section Steps.
Context (c : settings).

Inductive step : state -> state -> Prop :=
  (** [HandlePacket] gives a packet up and calls [beginRecovery]. *)
  | packet_failed s :
      step s (mkState (recovering s) (online s) (cancelled s) false (pool s ++ [PBegin]))
  (** [HandlePacket] sends a packet. *)
  | packet_sent s :
      step s (mkState (recovering s) (online s) (cancelled s) true (pool s))
  | cancel s :
      step s (mkState (recovering s) (online s) true (healthy s) (pool s))
  | begin_disabled s i :
      pool s !! i = Some PBegin -> enabled c = false ->
      step s (mkState (recovering s) (online s) (cancelled s) (healthy s) (set_pc s i PDone))
  | cas_won s i :
      pool s !! i = Some PBegin -> enabled c = true -> recovering s = false ->
      step s (mkState true (online s) (cancelled s) (healthy s) (set_pc s i POffline))
  | cas_lost s i :
      pool s !! i = Some PBegin -> enabled c = true -> recovering s = true ->
      step s (mkState true (online s) (cancelled s) (healthy s) (set_pc s i PDone))
  | set_offline s i :
      pool s !! i = Some POffline ->
      step s (mkState (recovering s) false (cancelled s) (healthy s) (set_pc s i PSpawn))
  | spawn s i :
      pool s !! i = Some PSpawn ->
      step s (mkState (recovering s) (online s) (cancelled s) (healthy s)
                (set_pc s i PDone ++ [PProbe]))
  | probe_failed s i :
      pool s !! i = Some PProbe ->
      step s (mkState (recovering s) (online s) (cancelled s) false (pool s))
  | probe_ok s i :
      pool s !! i = Some PProbe ->
      step s (mkState (recovering s) (online s) (cancelled s) true (set_pc s i POnline))
  | probe_cancelled s i :
      pool s !! i = Some PProbe -> cancelled s = true ->
      step s (mkState (recovering s) (online s) (cancelled s) (healthy s) (set_pc s i PStore))
  | set_online s i :
      pool s !! i = Some POnline ->
      step s (mkState (recovering s) true (cancelled s) (healthy s) (set_pc s i PStore))
  | store s i :
      pool s !! i = Some PStore ->
      step s (mkState false (online s) (cancelled s) (healthy s) (set_pc s i PDone))
  | startup_skipped s i :
      pool s !! i = Some PStartup -> callback c = false ->
      step s (mkState (recovering s) (online s) (cancelled s) (healthy s) (set_pc s i PDone))
  | startup_ok s i :
      pool s !! i = Some PStartup -> callback c = true ->
      step s (mkState (recovering s) (online s) (cancelled s) true (set_pc s i PStartupOnline))
  | startup_failed s i :
      pool s !! i = Some PStartup -> callback c = true ->
      step s (mkState (recovering s) (online s) (cancelled s) false (set_pc s i PBegin))
  | startup_online s i :
      pool s !! i = Some PStartupOnline ->
      step s (mkState (recovering s) true (cancelled s) (healthy s) (set_pc s i PDone)).

(** [main] starts [StartupProbe] with the aggregator at [smtp = false]. *)
Definition init : state := mkState false false false false [PStartup].

Definition reachable (s : state) : Prop := rtc step init s.

(** A goroutine that holds the flag. *)
Definition owner (p : pc) : bool :=
  match p with
  | POffline | PSpawn | PProbe | POnline | PStore => true
  | PBegin | PStartup | PStartupOnline | PDone => false
  end.

Definition owners (l : list pc) : nat := length (List.filter owner l).

(** A goroutine that will still signal online, or start a recovery. *)
Definition pending (p : pc) : bool :=
  match p with
  | PBegin | POffline | PSpawn | PProbe | POnline | PStartup | PStartupOnline => true
  | PStore | PDone => false
  end.

Definition b2n (b : bool) : nat := if b then 1%nat else 0%nat.

Lemma owners_cons p l : owners (p :: l) = (b2n (owner p) + owners l)%nat.
Proof. unfold owners. simpl. by destruct (owner p). Qed.

Lemma owners_app l1 l2 : owners (l1 ++ l2) = (owners l1 + owners l2)%nat.
Proof. unfold owners. by rewrite List.filter_app, length_app. Qed.

Lemma owners_insert l i p q :
  l !! i = Some p ->
  (owners (<[i := q]> l) + b2n (owner p) = owners l + b2n (owner q))%nat.
Proof.
  revert i; induction l as [|p' l IH]; intros [|i]; simpl; try done.
  - intros [= ->]. rewrite !owners_cons. lia.
  - intros Hi. rewrite !owners_cons. specialize (IH i Hi). lia.
Qed.

Lemma owners_pos l i p : l !! i = Some p -> owner p = true -> (1 <= owners l)%nat.
Proof.
  revert i; induction l as [|p' l IH]; intros [|i]; simpl; try done; rewrite owners_cons.
  - intros [= ->] ->. simpl. lia.
  - intros Hi Hp. specialize (IH i Hi Hp). lia.
Qed.

Lemma owners_one l i j p q :
  owners l = 1%nat -> l !! i = Some p -> owner p = true ->
  l !! j = Some q -> owner q = true -> i = j.
Proof.
  intros Ho Hi Hp Hj Hq. destruct (decide (i = j)) as [|Hne]; [done|exfalso].
  pose proof (owners_insert l i p PDone Hi) as H1. rewrite Hp in H1. simpl in H1.
  assert (Hj' : <[i := PDone]> l !! j = Some q) by (by rewrite list_lookup_insert_ne).
  pose proof (owners_pos _ _ _ Hj' Hq). lia.
Qed.

(** The invariant. *)
Record inv (s : state) : Prop := {
  inv_owner : owners (pool s) = b2n (recovering s);
  inv_store : cancelled s = false -> forall i, pool s !! i = Some PStore -> online s = true;
  inv_pending : enabled c = true -> cancelled s = false -> online s = false ->
                exists i p, pool s !! i = Some p /\ pending p = true;
}.

Lemma inv_init : inv init.
Proof.
  split; [done | by intros _ [|i] | intros _ _ _; by exists 0%nat, PStartup].
Qed.

(** The pending goroutine other than the one that moves, or the one that moves. *)
Lemma pending_insert (l : list pc) i p q :
  l !! i = Some p ->
  (exists j r, l !! j = Some r /\ pending r = true) ->
  pending q = true \/ pending p = false ->
  exists j r, <[i := q]> l !! j = Some r /\ pending r = true.
Proof.
  intros Hi (j & r & Hj & Hr) Hq. destruct (decide (i = j)) as [->|Hne].
  - destruct Hq as [Hq|Hp]; [|congruence]. exists j, q. split; [|done].
    apply list_lookup_insert_eq. by eapply lookup_lt_Some.
  - exists j, r. by rewrite list_lookup_insert_ne.
Qed.

Lemma lookup_insert_cases (l : list pc) i (p q r : pc) j :
  l !! i = Some p -> <[i := q]> l !! j = Some r -> (j = i /\ r = q) \/ (j <> i /\ l !! j = Some r).
Proof.
  intros Hi Hj. destruct (decide (i = j)) as [->|Hne].
  - rewrite list_lookup_insert_eq in Hj by (by eapply lookup_lt_Some). left. by simplify_eq.
  - rewrite list_lookup_insert_ne in Hj by done. right. by split.
Qed.

Lemma owner_exists l : owners l = 1%nat -> exists i p, l !! i = Some p /\ owner p = true.
Proof.
  induction l as [|p l IH]; [done|]. rewrite owners_cons. destruct (owner p) eqn:Hp.
  - intros _. by exists 0%nat, p.
  - intros Ho. destruct (IH Ho) as (i & q & Hi & Hq). by exists (S i), q.
Qed.

(** A goroutine moves from [p] to [q]. *)
Lemma inv_move s i p q r' o' c' h' :
  inv s -> pool s !! i = Some p ->
  (b2n r' + b2n (owner p) = b2n (recovering s) + b2n (owner q))%nat ->
  (c' = false -> cancelled s = false) ->
  (c' = false -> q = PStore -> o' = true) ->
  (o' = false -> online s = false \/ (owner p = true /\ pending q = true)) ->
  (enabled c = true -> c' = false -> o' = false -> pending q = true \/ pending p = false
                 \/ (recovering s = true /\ owner p = false)) ->
  inv (mkState r' o' c' h' (set_pc s i q)).
Proof.
  intros [I1 I2 I3] Hi Hown Hc Hst Hon Hpend. unfold set_pc. split; simpl.
  - pose proof (owners_insert (pool s) i p q Hi). lia.
  - intros Hc' j Hj. destruct (lookup_insert_cases _ _ _ _ _ _ Hi Hj) as [[-> <-]|[Hne Hj']]; [auto|].
    destruct o'; [done|]. specialize (I2 (Hc Hc') j Hj').
    destruct (Hon eq_refl) as [?|[Hp _]]; [congruence|]. exfalso. apply Hne.
    eapply owners_one; [|exact Hj'|done|exact Hi|done].
    pose proof (owners_pos _ _ _ Hi Hp). destruct (recovering s); simpl in I1; lia.
  - intros Hen Hc' Ho'. destruct (pending q) eqn:Hq.
    { exists i, q. split; [|done]. apply list_lookup_insert_eq. by eapply lookup_lt_Some. }
    assert (Hoff : online s = false) by (destruct (Hon Ho') as [?|[_ ?]]; congruence).
    destruct (Hpend Hen Hc' Ho') as [?|[Hp|[Hrec Hp]]]; [congruence|..].
    { apply (pending_insert _ _ p); [done | auto | auto]. }
    rewrite Hrec in I1. destruct (owner_exists _ I1) as (k & r & Hk & Hr).
    assert (i <> k) by (intros ->; congruence). exists k, r.
    rewrite list_lookup_insert_ne by done. split; [done|].
    destruct r; try done. by rewrite (I2 (Hc Hc') k Hk) in Hoff.
Qed.

(** A goroutine is created. *)
Lemma inv_grow s p r' o' c' h' :
  inv s -> (b2n r' = b2n (recovering s) + b2n (owner p))%nat -> p <> PStore ->
  (c' = false -> cancelled s = false) -> o' = online s ->
  inv (mkState r' o' c' h' (pool s ++ [p])).
Proof.
  intros [I1 I2 I3] Hown Hp Hc ->. split; simpl.
  - rewrite owners_app, owners_cons. change (owners []) with 0%nat. lia.
  - intros Hc' j. rewrite lookup_app. destruct (pool s !! j) eqn:Hj.
    + intros [= ->]. eauto.
    + intros [_ [= ->]]%list_lookup_singleton_Some. done.
  - intros Hen Hc' Ho. destruct (I3 Hen (Hc Hc') Ho) as (j & q & Hj & Hq). exists j, q.
    split; [|done]. by apply lookup_app_l_Some.
Qed.

Ltac moves :=
  eapply inv_move; [eassumption | eassumption | ..]; simpl;
  repeat match goal with H : recovering _ = _ |- _ => rewrite H end;
  simpl; try lia; auto; try done; try (intros; congruence).

Lemma inv_step s s' : inv s -> step s s' -> inv s'.
Proof.
  intros Hinv Hstep. destruct Hstep as [s|s|s|s i Hi He|s i Hi He Hr|s i Hi He Hr|s i Hi|s i Hi|s i Hi|s i Hi
    |s i Hi Hc|s i Hi|s i Hi|s i Hi Hcb|s i Hi Hcb|s i Hi Hcb|s i Hi].
  1: by apply inv_grow; simpl; auto; lia.
  1,2,8: destruct Hinv as [I1 I2 I3]; by split.
  all: try (assert (He : enabled c = false) by (unfold enabled; by rewrite Hcb)).
  all: try (by moves).
  - destruct Hinv as [I1 I2 I3]. unfold set_pc. split; simpl.
    + pose proof (owners_insert _ _ _ PDone Hi). rewrite owners_app, owners_cons.
      change (owners []) with 0%nat. simpl in *. lia.
    + intros Hc j [Hj|[_ E]]%lookup_app_Some;
        [| by apply list_lookup_singleton_Some in E as [_ ?]].
      destruct (lookup_insert_cases _ _ _ _ _ _ Hi Hj) as [[_ ?]|[_ Hj']]; [done | eauto].
    + intros _ _ _. exists (length (<[i := PDone]> (pool s))), PProbe.
      split; [by apply list_lookup_middle | done].
  - assert (Hr : recovering s = true).
    { destruct Hinv as [I1 _ _]. pose proof (owners_pos _ _ _ Hi eq_refl).
      destruct (recovering s); [done | simpl in I1; lia]. }
    by moves.
Qed.

Lemma inv_reachable s : reachable s -> inv s.
Proof.
  unfold reachable. intros Hr. pose proof inv_init as Hinit. revert Hinit.
  induction Hr; [done|]. intros Hs. eauto using inv_step.
Qed.

(** Offline, nobody cancelled it, and every goroutine is done. *)
Definition stuck_offline (s : state) : Prop :=
  cancelled s = false /\ online s = false /\ Forall (eq PDone) (pool s).

(** With the recovery disabled the startup goroutine can end without a signal. *)
Lemma disabled_stuck : enabled c = false -> exists s, reachable s /\ stuck_offline s.
Proof.
  intros He. destruct (callback c) eqn:Hcb.
  - eexists. split; [|shelve].
    eapply rtc_l; [by apply startup_failed with (i := 0%nat)|].
    eapply rtc_l; [by apply begin_disabled with (i := 0%nat)|]. apply rtc_refl.
    Unshelve. split_and!; [done | done | by repeat constructor].
  - eexists. split; [apply rtc_once; by apply startup_skipped with (i := 0%nat)|].
    split_and!; [done | done | by repeat constructor].
Qed.
End Steps.
End Recovery.

(** The handler's settings. *)
Definition settings_of {W} (setOnline : option (bool -> W -> W)) (h : Handler) : Recovery.settings :=
  Recovery.mkSettings (bool_decide (is_Some setOnline)) (h_recoveryDelay h).

(** The guard of the goroutines is that of [beginRecovery]. *)
Lemma beginRecovery_disabled `{Has W HandlerState} (setOnline : option (bool -> W -> W)) h w :
  Recovery.enabled (settings_of setOnline h) = false -> beginRecovery setOnline h w = w.
Proof.
  unfold Recovery.enabled, settings_of, beginRecovery. destruct setOnline; [|done].
  cbn [Recovery.callback Recovery.delay]. rewrite bool_decide_eq_true_2 by done. cbn [andb]. by intros ->.
Qed.

(** C23: Mutual exclusion: in every reachable state at most one goroutine is
    inside the recovery (between winning the compare-and-swap and clearing the
    flag), and the flag is set exactly when there is one. *)
Theorem at_most_one_recovery c s :
  Recovery.reachable c s ->
  Recovery.owners (Recovery.pool s) = if Recovery.recovering s then 1%nat else 0%nat.
Proof. intros [Ho _ _]%Recovery.inv_reachable. by destruct (Recovery.recovering s). Qed.

(** C24: With the recovery enabled ([setOnline] is set and the delay is positive)
    the interface is never left offline with nobody to bring it back: as long as
    the context is not cancelled, whenever the last signal was offline some
    goroutine is still going to probe, signal online or start a recovery.  With the
    recovery disabled it can be: a state is reachable that is offline with every
    goroutine done. *)
Theorem never_stuck_offline c :
  if Recovery.callback c && (0 <? Recovery.delay c) then
    forall s, Recovery.reachable c s -> Recovery.cancelled s = false -> Recovery.online s = false ->
      exists i p, Recovery.pool s !! i = Some p /\ Recovery.pending p = true
  else exists s, Recovery.reachable c s /\ Recovery.stuck_offline s.
Proof.
  destruct (_ && _) eqn:He; [|by apply Recovery.disabled_stuck].
  intros s [_ _ Hp]%Recovery.inv_reachable. by apply Hp.
Qed.

Module RecoverySamples.
(** Recovery after five minutes, and switched off. *)
Definition five_minutes : Recovery.settings := Recovery.mkSettings true (300 * second).
Definition off : Recovery.settings := Recovery.mkSettings true 0.
End RecoverySamples.

Lemma at_most_one_recovery_witness :
  let c := RecoverySamples.five_minutes in
  Recovery.reachable c Recovery.init /\ Recovery.owners (Recovery.pool Recovery.init) = 0%nat.
Proof.
  intros c. assert (Hr : Recovery.reachable c Recovery.init) by (apply rtc_refl).
  split; [exact Hr | exact (at_most_one_recovery c _ Hr)].
Defined.

Lemma never_stuck_offline_witness :
  (exists i p, Recovery.pool Recovery.init !! i = Some p /\ Recovery.pending p = true)
  /\ exists s, Recovery.reachable RecoverySamples.off s /\ Recovery.stuck_offline s.
Proof.
  split.
  - exact (never_stuck_offline RecoverySamples.five_minutes Recovery.init (rtc_refl _ _) eq_refl eq_refl).
  - exact (never_stuck_offline RecoverySamples.off).
Defined.

(** C26: The reverse does not hold: a failure that [HandlePacket] reports after
    the probe of a running recovery succeeded and before that recovery's deferred
    store is dropped by the compare-and-swap, so the program can be quiescent,
    online and not recovering although the last packet was lost. *)
Theorem failure_report_dropped c :
  Recovery.enabled c = true ->
  exists s,
    Recovery.reachable c s /\ Recovery.cancelled s = false
    /\ Recovery.healthy s = false
    /\ Recovery.online s = true /\ Recovery.recovering s = false
    /\ Forall (eq Recovery.PDone) (Recovery.pool s).
Proof.
  intros He. assert (Hcb : Recovery.callback c = true) by (by apply andb_true_iff in He as [? _]).
  eexists. split.
  - unfold Recovery.reachable.
    eapply rtc_l; [apply Recovery.startup_failed with (i := 0%nat); (assumption || reflexivity)|].
    eapply rtc_l; [apply Recovery.cas_won with (i := 0%nat); (assumption || reflexivity)|].
    eapply rtc_l; [apply Recovery.set_offline with (i := 0%nat); (assumption || reflexivity)|].
    eapply rtc_l; [apply Recovery.spawn with (i := 0%nat); (assumption || reflexivity)|].
    eapply rtc_l; [apply Recovery.probe_ok with (i := 1%nat); (assumption || reflexivity)|].
    eapply rtc_l; [apply Recovery.set_online with (i := 1%nat); (assumption || reflexivity)|].
    eapply rtc_l; [apply Recovery.packet_failed|].
    eapply rtc_l; [apply Recovery.cas_lost with (i := 2%nat); (assumption || reflexivity)|].
    eapply rtc_l; [apply Recovery.store with (i := 1%nat); (assumption || reflexivity)|].
    apply rtc_refl.
  - simpl. by repeat constructor.
Qed.

Lemma failure_report_dropped_witness :
  Recovery.enabled RecoverySamples.five_minutes = true
  /\ exists s, Recovery.reachable RecoverySamples.five_minutes s /\ Recovery.online s = true
               /\ Recovery.healthy s = false.
Proof.
  split; [reflexivity|].
  destruct (failure_report_dropped RecoverySamples.five_minutes eq_refl) as (s & Hr & _ & Hh & Ho & _).
  by exists s.
Defined.

(** ** Witnesses *)

Module PipeSamples.
Import GoLibrary.

(** A network, the handler's state, and the signals given to [setOnline]. *)
Definition World : Type := Net * HandlerState * list bool.
Definition set (b : bool) (w : World) : World := (w.1, w.2 ++ [b]).

#[export] Instance sender : Sender World := SMTPSender_Sender TransportSamples.sender.
#[export] Instance sender_spec : SenderSpec World := SMTPSender_Spec TransportSamples.sender.

#[export] Instance world : HandlerWorld World set.
Proof. split; by intros. Qed.

Definition handler : Handler :=
  mkHandler (str "bob@b.example") (str "alice@a.example") (300 * second) (1800 * second).

Definition start (n : Net) : World := (n, mkHandlerState false 0, []).

(** The server refuses every connection. *)
Definition refused : Net := mkNet (replicate 20 (Some (Opaque "connection refused"))) [].

Definition handle (n : Net) :=
  HandlePacket (Some set) handler EnvelopeSamples.uuid EnvelopeSamples.now None 0
    (str "hello") [true; true; true] (start n).

Example lost_reply_outcome : (handle TransportSamples.lost_reply).2 = DeliveryAmbiguous.
Proof. vm_compute. reflexivity. Qed.

Example refused_outcome :
  (handle refused).2 = RetriesExhausted /\ (handle refused).1.1.2 = [false].
Proof. vm_compute. done. Qed.

Lemma lost_reply_wf : sender_wf (start TransportSamples.lost_reply).
Proof. repeat constructor. Qed.

(** Two failed probes, then a success. *)
Definition flaky : Net := mkNet [Some (Opaque "refused"); Some (Opaque "refused")] [].

(** A pipe interface that is offline for a number of rounds. *)
Definition receive (pkt : bytes) (w : nat * list bytes) : (nat * list bytes) * option error :=
  match w.1 with
  | O => ((O, w.2 ++ [pkt]), None)
  | S k => ((k, w.2), Some (Sentinel RnsErrOffline))
  end.
End PipeSamples.

Import GoLibrary PipeSamples.

Lemma HandlePacket_at_most_once_witness :
  let w := PipeSamples.start TransportSamples.lost_reply in
  sender_wf w
  /\ maybe_commits (PipeSamples.handle TransportSamples.lost_reply).1.1 = maybe_commits w + 1.
Proof.
  split; [exact PipeSamples.lost_reply_wf|].
  exact (proj2 (HandlePacket_at_most_once PipeSamples.handler EnvelopeSamples.uuid
                  EnvelopeSamples.now None 0 (str "hello") [true; true; true] _
                  PipeSamples.lost_reply_wf)).
Defined.

Lemma HandlePacket_recovery_witness :
  0 < h_recoveryDelay PipeSamples.handler
  /\ get (PipeSamples.handle PipeSamples.refused).1.1 = mkHandlerState true 1.
Proof.
  assert (Hd : 0 < h_recoveryDelay PipeSamples.handler) by reflexivity.
  split; [exact Hd|].
  exact (HandlePacket_recovery PipeSamples.handler EnvelopeSamples.uuid
           EnvelopeSamples.now None 0 (str "hello") [true; true; true]
           (PipeSamples.start PipeSamples.refused) Hd).
Defined.

Lemma HandlePacket_budget_witness :
  let set (b : bool) (v : PipeSamples.World * nat) := (PipeSamples.set b v.1, v.2) in
  let r := HandlePacket (sender := counting PipeSamples.sender) (mail := GoLibrary.parsers)
             (Some set) PipeSamples.handler EnvelopeSamples.uuid EnvelopeSamples.now None 0
             (str "hello") [true; true] (PipeSamples.start PipeSamples.refused, 0%nat) in
  r.1.1.2 = 3%nat /\ r.1.2 = [second; 2 * second].
Proof.
  set (set := fun (b : bool) (v : PipeSamples.World * nat) => (PipeSamples.set b v.1, v.2)).
  pose proof (HandlePacket_budget PipeSamples.sender set
    PipeSamples.handler EnvelopeSamples.uuid EnvelopeSamples.now None 0 (str "hello") [true; true]
    (PipeSamples.start PipeSamples.refused, 0%nat) (fun _ _ => eq_refl)) as (_ & _ & Hb).
  split; [exact (Hb eq_refl) | vm_compute; reflexivity].
Defined.

Lemma recover_backoff_witness :
  (recover PipeSamples.handler [true; true; true] None PipeSamples.set
     (PipeSamples.start PipeSamples.flaky)).1.2 !! 2%nat = Some (1200 * second).
Proof.
  assert (Hb : 0 < h_recoveryDelay PipeSamples.handler <= h_maxRecoveryDelay PipeSamples.handler)
    by (vm_compute; split; [reflexivity | discriminate]).
  destruct ((recover PipeSamples.handler [true; true; true] None PipeSamples.set
     (PipeSamples.start PipeSamples.flaky)).1.2 !! 2%nat) as [x|] eqn:E.
  - f_equal. rewrite (recover_backoff PipeSamples.set PipeSamples.handler [true; true; true] None
      (PipeSamples.start PipeSamples.flaky) 2 x Hb eq_refl E). reflexivity.
  - vm_compute in E. discriminate.
Defined.

Lemma recover_comes_online_witness :
  exists w', (recover PipeSamples.handler [true; true; true] None PipeSamples.set
     (PipeSamples.start PipeSamples.flaky)).1.1 = w' /\ w'.2 = [true].
Proof.
  assert (Hr : recovers_after 2 None (PipeSamples.start PipeSamples.flaky))
    by (vm_compute; split_and!; done).
  destruct (recover_comes_online PipeSamples.set PipeSamples.handler [true; true; true] None
              (PipeSamples.start PipeSamples.flaky) 2 Hr eq_refl) as (ds & E & _).
  eexists. split; [rewrite E; reflexivity | vm_compute; reflexivity].
Defined.

Lemma InjectWithRetry_delivers_once_witness :
  exists k, (0, [str "pkt"])%nat =
    after_receives PipeSamples.receive (S k) (str "pkt") (2%nat, []).
Proof.
  destruct (InjectWithRetry_delivers_once (fun _ => None) PipeSamples.receive (str "pkt")
              [true; true] (2%nat, []) (0%nat, [str "pkt"]) eq_refl) as (k & _ & _ & _ & E).
  by exists k.
Defined.

Lemma InjectWithRetry_live_witness :
  InjectWithRetry (fun _ => None) PipeSamples.receive (str "pkt") [true; true] (2%nat, [])
  = ((0%nat, [str "pkt"]), None).
Proof.
  refine (InjectWithRetry_live (fun _ => None) PipeSamples.receive (str "pkt") [true; true] 2
            (2%nat, []) _ eq_refl eq_refl eq_refl).
  simpl. split_and!; eauto.
Defined.
