(* ===== verification/Config.v ===== *)
(** * internal/config: the configuration

    [Load] merges the defaults, the environment and the command line, reads the
    password files, derives the checkpoint path, normalises and validates.  The
    operating system ([os.Getenv], [os.ReadFile]) is a parameter; the flag
    package, [strconv], [time.ParseDuration] and SHA-256 are modelled.  A field of the configuration is a [fld], its getter and its setter. *)
From Stdlib Require Import Strings.Byte.
From S2P Require Import Prelude GoErrors GoStrings GoTime GoSha256 GoFlag GoMime GoMail Envelope Transport.

(** ** The records *)

Record PipeConfig := mkPipeConfig { pipe_Name : bytes; pipe_MTU : Z }.

Record SMTPConfig := mkSMTPConfig {
  smtp_Host : bytes;
  smtp_Port : Z;
  smtp_Username : bytes;
  smtp_Password : bytes;
  smtp_From : bytes;
  smtp_TLS : bytes;
  smtp_RecoveryDelay : Z;
  smtp_MaxRecoveryDelay : Z;
}.

Record CleanupConfig := mkCleanupConfig { cl_Mode : bytes; cl_TargetFolder : bytes }.

Record IMAPConfig := mkIMAPConfig {
  imap_Host : bytes;
  imap_Port : Z;
  imap_Username : bytes;
  imap_Password : bytes;
  imap_Folder : bytes;
  imap_TLS : bytes;
  imap_PollInterval : Z;
  imap_ReconnectDelay : Z;
  imap_MaxReconnectDelay : Z;
  imap_Cleanup : CleanupConfig;
}.

Record CheckpointConfig := mkCheckpointConfig { cp_Path : bytes }.

Record PeerConfig := mkPeerConfig { peer_Email : bytes }.

Record LoggingConfig := mkLoggingConfig { log_Level : bytes; log_Format : bytes }.

Record Config := mkConfig {
  Pipe : PipeConfig;
  SMTP : SMTPConfig;
  IMAP : IMAPConfig;
  Checkpoint : CheckpointConfig;
  Peer : PeerConfig;
  Logging : LoggingConfig;
}.

Definition Defaults : Config := {|
  Pipe := {| pipe_Name := str "EmailTransport"; pipe_MTU := 500 |};
  SMTP := {| smtp_Host := []; smtp_Port := 587; smtp_Username := []; smtp_Password := [];
             smtp_From := []; smtp_TLS := str "starttls";
             smtp_RecoveryDelay := 300; smtp_MaxRecoveryDelay := 1800 |};
  IMAP := {| imap_Host := []; imap_Port := 993; imap_Username := []; imap_Password := [];
             imap_Folder := str "INBOX"; imap_TLS := str "tls";
             imap_PollInterval := 60 * second;
             imap_ReconnectDelay := 5; imap_MaxReconnectDelay := 300;
             imap_Cleanup := {| cl_Mode := str "none"; cl_TargetFolder := [] |} |};
  Checkpoint := {| cp_Path := [] |};
  Peer := {| peer_Email := [] |};
  Logging := {| log_Level := str "info"; log_Format := str "text" |};
|}.

(** ** Duration *)

(** [Duration] embeds a [time.Duration]; here it is the number of nanoseconds.
    [UnmarshalText] assigns before it returns the error, so that a bad text
    leaves a zero. *)
Definition UnmarshalText (text : bytes) : Z * option error :=
  match ParseDuration text with
  | Some d => (d, None)
  | None => (0, Some (Opaque "time: invalid duration"))
  end.

Definition MarshalText (d : Z) : bytes := Duration_String d.

(** ** Fields *)

Record fld (A : Type) := mkFld { fget : Config -> A; fset : A -> Config -> Config }.
Arguments mkFld {A} _ _.
Arguments fget {A} _ _.
Arguments fset {A} _ _ _.

Definition on_pipe (f : PipeConfig -> PipeConfig) (c : Config) : Config :=
  mkConfig (f (Pipe c)) (SMTP c) (IMAP c) (Checkpoint c) (Peer c) (Logging c).
Definition on_smtp (f : SMTPConfig -> SMTPConfig) (c : Config) : Config :=
  mkConfig (Pipe c) (f (SMTP c)) (IMAP c) (Checkpoint c) (Peer c) (Logging c).
Definition on_imap (f : IMAPConfig -> IMAPConfig) (c : Config) : Config :=
  mkConfig (Pipe c) (SMTP c) (f (IMAP c)) (Checkpoint c) (Peer c) (Logging c).

Definition PipeName : fld bytes := mkFld (fun c => pipe_Name (Pipe c))
  (fun v => on_pipe (fun p => mkPipeConfig v (pipe_MTU p))).
Definition PipeMTU : fld Z := mkFld (fun c => pipe_MTU (Pipe c))
  (fun v => on_pipe (fun p => mkPipeConfig (pipe_Name p) v)).
Definition SMTPHost : fld bytes := mkFld (fun c => smtp_Host (SMTP c))
  (fun v => on_smtp (fun '(mkSMTPConfig _ b c d e f g h) => mkSMTPConfig v b c d e f g h)).
Definition SMTPPort : fld Z := mkFld (fun c => smtp_Port (SMTP c))
  (fun v => on_smtp (fun '(mkSMTPConfig a _ c d e f g h) => mkSMTPConfig a v c d e f g h)).
Definition SMTPUsername : fld bytes := mkFld (fun c => smtp_Username (SMTP c))
  (fun v => on_smtp (fun '(mkSMTPConfig a b _ d e f g h) => mkSMTPConfig a b v d e f g h)).
Definition SMTPPassword : fld bytes := mkFld (fun c => smtp_Password (SMTP c))
  (fun v => on_smtp (fun '(mkSMTPConfig a b c _ e f g h) => mkSMTPConfig a b c v e f g h)).
Definition SMTPFrom : fld bytes := mkFld (fun c => smtp_From (SMTP c))
  (fun v => on_smtp (fun '(mkSMTPConfig a b c d _ f g h) => mkSMTPConfig a b c d v f g h)).
Definition SMTPTLS : fld bytes := mkFld (fun c => smtp_TLS (SMTP c))
  (fun v => on_smtp (fun '(mkSMTPConfig a b c d e _ g h) => mkSMTPConfig a b c d e v g h)).
Definition SMTPRecoveryDelay : fld Z := mkFld (fun c => smtp_RecoveryDelay (SMTP c))
  (fun v => on_smtp (fun '(mkSMTPConfig a b c d e f _ h) => mkSMTPConfig a b c d e f v h)).
Definition SMTPMaxRecoveryDelay : fld Z := mkFld (fun c => smtp_MaxRecoveryDelay (SMTP c))
  (fun v => on_smtp (fun '(mkSMTPConfig a b c d e f g _) => mkSMTPConfig a b c d e f g v)).
Definition IMAPHost : fld bytes := mkFld (fun c => imap_Host (IMAP c))
  (fun v => on_imap (fun '(mkIMAPConfig _ b c d e f g h i j) => mkIMAPConfig v b c d e f g h i j)).
Definition IMAPPort : fld Z := mkFld (fun c => imap_Port (IMAP c))
  (fun v => on_imap (fun '(mkIMAPConfig a _ c d e f g h i j) => mkIMAPConfig a v c d e f g h i j)).
Definition IMAPUsername : fld bytes := mkFld (fun c => imap_Username (IMAP c))
  (fun v => on_imap (fun '(mkIMAPConfig a b _ d e f g h i j) => mkIMAPConfig a b v d e f g h i j)).
Definition IMAPPassword : fld bytes := mkFld (fun c => imap_Password (IMAP c))
  (fun v => on_imap (fun '(mkIMAPConfig a b c _ e f g h i j) => mkIMAPConfig a b c v e f g h i j)).
Definition IMAPFolder : fld bytes := mkFld (fun c => imap_Folder (IMAP c))
  (fun v => on_imap (fun '(mkIMAPConfig a b c d _ f g h i j) => mkIMAPConfig a b c d v f g h i j)).
Definition IMAPTLS : fld bytes := mkFld (fun c => imap_TLS (IMAP c))
  (fun v => on_imap (fun '(mkIMAPConfig a b c d e _ g h i j) => mkIMAPConfig a b c d e v g h i j)).
Definition IMAPPollInterval : fld Z := mkFld (fun c => imap_PollInterval (IMAP c))
  (fun v => on_imap (fun '(mkIMAPConfig a b c d e f _ h i j) => mkIMAPConfig a b c d e f v h i j)).
Definition IMAPReconnectDelay : fld Z := mkFld (fun c => imap_ReconnectDelay (IMAP c))
  (fun v => on_imap (fun '(mkIMAPConfig a b c d e f g _ i j) => mkIMAPConfig a b c d e f g v i j)).
Definition IMAPMaxReconnectDelay : fld Z := mkFld (fun c => imap_MaxReconnectDelay (IMAP c))
  (fun v => on_imap (fun '(mkIMAPConfig a b c d e f g h _ j) => mkIMAPConfig a b c d e f g h v j)).
Definition IMAPCleanupMode : fld bytes := mkFld (fun c => cl_Mode (imap_Cleanup (IMAP c)))
  (fun v => on_imap (fun '(mkIMAPConfig a b c d e f g h i (mkCleanupConfig _ t)) =>
                       mkIMAPConfig a b c d e f g h i (mkCleanupConfig v t))).
Definition IMAPCleanupTargetFolder : fld bytes :=
  mkFld (fun c => cl_TargetFolder (imap_Cleanup (IMAP c)))
  (fun v => on_imap (fun '(mkIMAPConfig a b c d e f g h i (mkCleanupConfig m _)) =>
                       mkIMAPConfig a b c d e f g h i (mkCleanupConfig m v))).
Definition CheckpointPath : fld bytes := mkFld (fun c => cp_Path (Checkpoint c))
  (fun v '(mkConfig a b c _ e f) => mkConfig a b c (mkCheckpointConfig v) e f).
Definition PeerEmail : fld bytes := mkFld (fun c => peer_Email (Peer c))
  (fun v '(mkConfig a b c d _ f) => mkConfig a b c d (mkPeerConfig v) f).
Definition LoggingLevel : fld bytes := mkFld (fun c => log_Level (Logging c))
  (fun v '(mkConfig a b c d e f) => mkConfig a b c d e (mkLoggingConfig v (log_Format f))).
Definition LoggingFormat : fld bytes := mkFld (fun c => log_Format (Logging c))
  (fun v '(mkConfig a b c d e f) => mkConfig a b c d e (mkLoggingConfig (log_Level f) v)).

(** ** The environment *)

(** The operating system [Load] asks. *)
Class OS := {
  os_Getenv : bytes -> bytes;
  os_ReadFile : bytes -> result bytes;
}.

Section Env.
Context `{OS}.

(** [if v := os.Getenv(var); v != "" { field = v }]. *)
Definition env_str (var : string) (f : fld bytes) (cfg : Config) : Config :=
  let v := os_Getenv (str var) in
  if bool_decide (v = []) then cfg else fset f v cfg.

(** The same with [strconv.Atoi] or [time.ParseDuration]. *)
Definition env_parse (parse : bytes -> option Z) (var : string) (f : fld Z) (cfg : Config)
    : result Config :=
  let v := os_Getenv (str var) in
  if bool_decide (v = []) then Ok cfg
  else match parse v with
       | None => Err (Errorf ("invalid " ++ var) [Opaque "parse"])
       | Some n => Ok (fset f n cfg)
       end.

Definition env_int := env_parse atoi.

Definition applyEnv (cfg : Config) : result Config :=
  let cfg := env_str "RNS_EMAIL_PIPE_NAME" PipeName cfg in
  let? cfg := env_int "RNS_EMAIL_PIPE_MTU" PipeMTU cfg in
  let cfg := env_str "RNS_EMAIL_SMTP_HOST" SMTPHost cfg in
  let? cfg := env_int "RNS_EMAIL_SMTP_PORT" SMTPPort cfg in
  let cfg := env_str "RNS_EMAIL_SMTP_USERNAME" SMTPUsername cfg in
  let cfg := env_str "RNS_EMAIL_SMTP_PASSWORD" SMTPPassword cfg in
  let cfg := env_str "RNS_EMAIL_SMTP_FROM" SMTPFrom cfg in
  let cfg := env_str "RNS_EMAIL_SMTP_TLS" SMTPTLS cfg in
  let? cfg := env_int "RNS_EMAIL_SMTP_RECOVERY_DELAY" SMTPRecoveryDelay cfg in
  let? cfg := env_int "RNS_EMAIL_SMTP_MAX_RECOVERY_DELAY" SMTPMaxRecoveryDelay cfg in
  let cfg := env_str "RNS_EMAIL_IMAP_HOST" IMAPHost cfg in
  let? cfg := env_int "RNS_EMAIL_IMAP_PORT" IMAPPort cfg in
  let cfg := env_str "RNS_EMAIL_IMAP_USERNAME" IMAPUsername cfg in
  let cfg := env_str "RNS_EMAIL_IMAP_PASSWORD" IMAPPassword cfg in
  let cfg := env_str "RNS_EMAIL_IMAP_FOLDER" IMAPFolder cfg in
  let cfg := env_str "RNS_EMAIL_IMAP_TLS" IMAPTLS cfg in
  let? cfg := env_parse ParseDuration "RNS_EMAIL_IMAP_POLL_INTERVAL" IMAPPollInterval cfg in
  let? cfg := env_int "RNS_EMAIL_IMAP_RECONNECT_DELAY" IMAPReconnectDelay cfg in
  let? cfg := env_int "RNS_EMAIL_IMAP_MAX_RECONNECT_DELAY" IMAPMaxReconnectDelay cfg in
  let cfg := env_str "RNS_EMAIL_IMAP_CLEANUP_MODE" IMAPCleanupMode cfg in
  let cfg := env_str "RNS_EMAIL_IMAP_CLEANUP_TARGET_FOLDER" IMAPCleanupTargetFolder cfg in
  let cfg := env_str "RNS_EMAIL_CHECKPOINT_PATH" CheckpointPath cfg in
  let cfg := env_str "RNS_EMAIL_PEER_EMAIL" PeerEmail cfg in
  let cfg := env_str "RNS_EMAIL_LOG_LEVEL" LoggingLevel cfg in
  let cfg := env_str "RNS_EMAIL_LOG_FORMAT" LoggingFormat cfg in
  Ok cfg.
End Env.

(** ** The command line *)

Definition flag_table : list (bytes * flag_kind) :=
  [(str "pipe-name", FString); (str "pipe-mtu", FInt);
   (str "smtp-host", FString); (str "smtp-port", FInt); (str "smtp-username", FString);
   (str "smtp-password", FString); (str "smtp-password-file", FString);
   (str "smtp-from", FString); (str "smtp-tls", FString);
   (str "smtp-recovery-delay", FInt); (str "smtp-max-recovery-delay", FInt);
   (str "imap-host", FString); (str "imap-port", FInt); (str "imap-username", FString);
   (str "imap-password", FString); (str "imap-password-file", FString);
   (str "imap-folder", FString); (str "imap-tls", FString);
   (str "imap-poll-interval", FString);
   (str "imap-reconnect-delay", FInt); (str "imap-max-reconnect-delay", FInt);
   (str "imap-cleanup-mode", FString); (str "imap-cleanup-target-folder", FString);
   (str "peer-email", FString); (str "checkpoint-path", FString);
   (str "log-level", FString); (str "log-format", FString)].

(** The error of [fs.Parse]. *)
Definition flag_error_msg (e : flag_error) : string :=
  match e with
  | FlagBadSyntax => "bad flag syntax"
  | FlagHelp => "flag: help requested"
  | FlagUndefined _ => "flag provided but not defined"
  | FlagNeedsArg _ => "flag needs an argument"
  | FlagInvalid _ => "invalid value"
  end.

Section Flags.
Context (fl : flags).

(** [if *flag != "" { field = *flag }], and for an int flag [!= 0]. *)
Definition set_str (name : string) (f : fld bytes) (cfg : Config) : Config :=
  let v := flag_str fl (str name) in
  if bool_decide (v = []) then cfg else fset f v cfg.

Definition set_int (name : string) (f : fld Z) (cfg : Config) : Config :=
  let v := flag_int fl (str name) in
  if v =? 0 then cfg else fset f v cfg.

Definition set_poll_interval (cfg : Config) : result Config :=
  let v := flag_str fl (str "imap-poll-interval") in
  if bool_decide (v = []) then Ok cfg
  else match ParseDuration v with
       | None => Err (Errorf "invalid --imap-poll-interval" [Opaque "parse"])
       | Some d => Ok (fset IMAPPollInterval d cfg)
       end.

Definition applyFlags (cfg : Config) : result Config :=
  let cfg := set_str "pipe-name" PipeName cfg in
  let cfg := set_int "pipe-mtu" PipeMTU cfg in
  let cfg := set_str "smtp-host" SMTPHost cfg in
  let cfg := set_int "smtp-port" SMTPPort cfg in
  let cfg := set_str "smtp-username" SMTPUsername cfg in
  let cfg := set_str "smtp-password" SMTPPassword cfg in
  let cfg := set_str "smtp-from" SMTPFrom cfg in
  let cfg := set_str "smtp-tls" SMTPTLS cfg in
  let cfg := set_int "smtp-recovery-delay" SMTPRecoveryDelay cfg in
  let cfg := set_int "smtp-max-recovery-delay" SMTPMaxRecoveryDelay cfg in
  let cfg := set_str "imap-host" IMAPHost cfg in
  let cfg := set_int "imap-port" IMAPPort cfg in
  let cfg := set_str "imap-username" IMAPUsername cfg in
  let cfg := set_str "imap-password" IMAPPassword cfg in
  let cfg := set_str "imap-folder" IMAPFolder cfg in
  let cfg := set_str "imap-tls" IMAPTLS cfg in
  let? cfg := set_poll_interval cfg in
  let cfg := set_int "imap-reconnect-delay" IMAPReconnectDelay cfg in
  let cfg := set_int "imap-max-reconnect-delay" IMAPMaxReconnectDelay cfg in
  let cfg := set_str "imap-cleanup-mode" IMAPCleanupMode cfg in
  let cfg := set_str "imap-cleanup-target-folder" IMAPCleanupTargetFolder cfg in
  let cfg := set_str "peer-email" PeerEmail cfg in
  let cfg := set_str "checkpoint-path" CheckpointPath cfg in
  let cfg := set_str "log-level" LoggingLevel cfg in
  let cfg := set_str "log-format" LoggingFormat cfg in
  Ok cfg.
End Flags.

(** ** Password files *)

Section Files.
Context `{OS}.

Definition readPasswordFile (path : bytes) : result bytes :=
  let? data := os_ReadFile path in
  let line := default [] (head (split data lf)) in
  Ok (trim_right (fun c => bool_decide (c = cr)) line).

(** One of the two files. *)
Definition password_file (path : bytes) (what : string) (f : fld bytes) (cfg : Config)
    : result Config :=
  if bool_decide (path = []) then Ok cfg
  else match readPasswordFile path with
       | Err err => Err (Errorf ("reading " ++ what) [err])
       | Ok pw => Ok (fset f pw cfg)
       end.

Definition applyPasswordFiles (cfg : Config) (smtpPWFile imapPWFile : bytes) : result Config :=
  let? cfg := password_file smtpPWFile "--smtp-password-file" SMTPPassword cfg in
  password_file imapPWFile "--imap-password-file" IMAPPassword cfg.

(** A flag, or the environment variable when it is absent. *)
Definition flag_or_env (fl : flags) (name var : string) : bytes :=
  let v := flag_str fl (str name) in
  if bool_decide (v = []) then os_Getenv (str var) else v.
End Files.

(** ** The checkpoint path *)

Definition is_unsafe_path_rune (r : Z) : bool :=
  existsb (fun c => r =? bval c) (Byte.x22 :: Byte.x00 :: str "/\:*?<>|").

Definition sanitizePipeName (name : bytes) : bytes :=
  mjoin ((fun rc : Z * bytes => if is_unsafe_path_rune rc.1 then [dash] else encode_rune rc.1)
         <$> runes name).

(** [hex.EncodeToString]. *)
Definition hex_EncodeToString (s : bytes) : bytes :=
  mjoin ((fun c => [hex_digit (bval c / 16); hex_digit (bval c mod 16)]) <$> s).

Definition shortHash (s : bytes) : bytes := hex_EncodeToString (take 4 (Sum256 s)).

Definition DeriveCheckpointPath (pipeName : bytes) : bytes :=
  str "./checkpoint-" ++ sanitizePipeName pipeName ++ str "-" ++ shortHash pipeName
  ++ str ".json".

(** ** Normalize *)

Definition upd {A} (f : fld A) (g : A -> A) (cfg : Config) : Config := fset f (g (fget f cfg)) cfg.

Section Normalize.
Context `{UnicodeTables} `{MailParsers}.

Definition lower_trim (s : bytes) : bytes := to_lower (trim_space s).

Definition strip_display (s : bytes) : bytes :=
  if bool_decide (s = []) then s else default s (parse_address s).

Definition Normalize (cfg : Config) : Config :=
  let cfg := upd SMTPHost lower_trim cfg in
  let cfg := upd IMAPHost lower_trim cfg in
  let cfg := upd SMTPTLS lower_trim cfg in
  let cfg := upd IMAPTLS lower_trim cfg in
  let cfg := upd IMAPCleanupMode lower_trim cfg in
  let cfg := upd LoggingLevel lower_trim cfg in
  let cfg := upd LoggingFormat lower_trim cfg in
  let cfg := upd SMTPFrom strip_display cfg in
  upd PeerEmail strip_display cfg.
End Normalize.

(** ** Validate *)

Definition validTLS (s : bytes) : bool :=
  bool_decide (s ∈ [str "tls"; str "starttls"; str "none"]).
Definition validCleanup (s : bytes) : bool :=
  bool_decide (s ∈ [str "none"; str "delete"; str "move"]).
Definition validLevels (s : bytes) : bool :=
  bool_decide (s ∈ [str "debug"; str "info"; str "warn"; str "error"]).
Definition validFormats (s : bytes) : bool := bool_decide (s ∈ [str "text"; str "json"]).

Definition containsUnsafe (s : bytes) : bool := contains_any s [cr; lf; Byte.x00].

Section Validate.
Context `{MailParsers}.

Definition empty (s : bytes) : bool := bool_decide (s = []).
Definition no_address (s : bytes) : bool := bool_decide (parse_address s = None).

(** The checks in order: the condition and its message, without the values
    formatted into it. *)
Definition checks (cfg : Config) : list (bool * string) :=
  let '(mkConfig p s i (mkCheckpointConfig path) (mkPeerConfig peer) (mkLoggingConfig level fmt)) := cfg in
  let cl := imap_Cleanup i in
  [(empty (pipe_Name p), "pipe.name is required");
   (pipe_MTU p <=? 0, "pipe.mtu must be positive");
   (MaxPacketSize <? pipe_MTU p, "pipe.mtu exceeds maximum decodable packet size");
   ((smtp_Port s <=? 0) || (65535 <? smtp_Port s), "smtp.port must be 1-65535");
   (empty (smtp_Host s), "smtp.host is required");
   (empty (smtp_Username s), "smtp.username is required");
   (empty (smtp_Password s), "smtp.password is required");
   (empty (smtp_From s), "smtp.from is required");
   (negb (validTLS (smtp_TLS s)), "smtp.tls is not valid");
   (empty (imap_Host i), "imap.host is required");
   ((imap_Port i <=? 0) || (65535 <? imap_Port i), "imap.port must be 1-65535");
   (empty (imap_Username i), "imap.username is required");
   (empty (imap_Password i), "imap.password is required");
   (empty (imap_Folder i), "imap.folder is required");
   (negb (validTLS (imap_TLS i)), "imap.tls is not valid");
   (empty path, "checkpoint.path is required");
   (imap_PollInterval i <=? 0, "imap.poll_interval must be positive");
   (imap_ReconnectDelay i <=? 0, "imap.reconnect_delay must be positive");
   (imap_MaxReconnectDelay i <=? 0, "imap.max_reconnect_delay must be positive");
   (imap_MaxReconnectDelay i <? imap_ReconnectDelay i,
    "imap.max_reconnect_delay must be >= imap.reconnect_delay");
   (smtp_RecoveryDelay s <=? 0, "smtp.recovery_delay must be positive");
   (smtp_MaxRecoveryDelay s <=? 0, "smtp.max_recovery_delay must be positive");
   (smtp_MaxRecoveryDelay s <? smtp_RecoveryDelay s,
    "smtp.max_recovery_delay must be >= smtp.recovery_delay");
   (negb (validCleanup (cl_Mode cl)), "imap.cleanup.mode is not valid");
   (bool_decide (cl_Mode cl = str "move") && empty (cl_TargetFolder cl),
    "imap.cleanup.target_folder is required");
   (bool_decide (cl_Mode cl = str "move") && bool_decide (cl_TargetFolder cl = imap_Folder i),
    "imap.cleanup.target_folder must differ from imap.folder");
   (negb (validLevels level), "logging.level is not valid");
   (negb (validFormats fmt), "logging.format is not valid");
   (empty peer, "peer.email is required");
   (negb (empty peer) && no_address peer, "peer.email is not a valid address");
   (negb (empty (smtp_From s)) && no_address (smtp_From s), "smtp.from is not a valid address");
   (containsUnsafe (smtp_From s), "smtp.from contains invalid control characters");
   (containsUnsafe peer, "peer.email contains invalid control characters")].

Definition validation_errs (cfg : Config) : list string :=
  snd <$> List.filter fst (checks cfg).

Definition Validate (cfg : Config) : option error :=
  match validation_errs cfg with
  | [] => None
  | errs => Some (Opaque ("config validation: " ++ String.concat "; " errs))
  end.
End Validate.

(** ** Load *)

Section Load.
Context `{OS} `{UnicodeTables} `{MailParsers}.

Definition Load (args : list bytes) : result Config :=
  match parse_flags flag_table args no_flags with
  | inr e => Err (Errorf "parsing flags" [Opaque (flag_error_msg e)])
  | inl fl =>
    let? cfg := applyEnv Defaults in
    let? cfg := applyFlags fl cfg in
    let smtpPWFile := flag_or_env fl "smtp-password-file" "RNS_EMAIL_SMTP_PASSWORD_FILE" in
    let imapPWFile := flag_or_env fl "imap-password-file" "RNS_EMAIL_IMAP_PASSWORD_FILE" in
    let? cfg := applyPasswordFiles cfg smtpPWFile imapPWFile in
    let cfg := upd CheckpointPath
                 (fun p => if bool_decide (p = []) then DeriveCheckpointPath (fget PipeName cfg)
                           else p) cfg in
    let cfg := Normalize cfg in
    match Validate cfg with
    | Some err => Err err
    | None => Ok cfg
    end
  end.
End Load.

(** ** Logging helpers *)

Inductive slog_level := LevelDebug | LevelInfo | LevelWarn | LevelError.

Definition SlogLevel (cfg : Config) : slog_level :=
  let l := log_Level (Logging cfg) in
  if bool_decide (l = str "debug") then LevelDebug
  else if bool_decide (l = str "warn") then LevelWarn
  else if bool_decide (l = str "error") then LevelError
  else LevelInfo.

(** The warnings logged. *)
Definition WarnInsecureTLS (cfg : Config) : list string :=
  (if bool_decide (smtp_TLS (SMTP cfg) = str "none") then ["smtp.tls=none"%string] else [])
  ++ (if bool_decide (imap_TLS (IMAP cfg) = str "none") then ["imap.tls=none"%string] else []).

(** ** Laws of the fields *)

Class FldOk {A} (f : fld A) : Prop := {
  fget_fset v c : fget f (fset f v c) = v;
  fset_fget c : fset f (fget f c) c = c;
}.

Ltac fld_law := split; [intros v [[] [] [????????? []] [] [] []] | intros [[] [] [????????? []] [] [] []]]; reflexivity.

#[export] Instance PipeName_ok : FldOk PipeName. Proof. fld_law. Qed.
#[export] Instance PipeMTU_ok : FldOk PipeMTU. Proof. fld_law. Qed.
#[export] Instance SMTPHost_ok : FldOk SMTPHost. Proof. fld_law. Qed.
#[export] Instance SMTPPort_ok : FldOk SMTPPort. Proof. fld_law. Qed.
#[export] Instance SMTPUsername_ok : FldOk SMTPUsername. Proof. fld_law. Qed.
#[export] Instance SMTPPassword_ok : FldOk SMTPPassword. Proof. fld_law. Qed.
#[export] Instance SMTPFrom_ok : FldOk SMTPFrom. Proof. fld_law. Qed.
#[export] Instance SMTPTLS_ok : FldOk SMTPTLS. Proof. fld_law. Qed.
#[export] Instance SMTPRecoveryDelay_ok : FldOk SMTPRecoveryDelay. Proof. fld_law. Qed.
#[export] Instance SMTPMaxRecoveryDelay_ok : FldOk SMTPMaxRecoveryDelay. Proof. fld_law. Qed.
#[export] Instance IMAPHost_ok : FldOk IMAPHost. Proof. fld_law. Qed.
#[export] Instance IMAPPort_ok : FldOk IMAPPort. Proof. fld_law. Qed.
#[export] Instance IMAPUsername_ok : FldOk IMAPUsername. Proof. fld_law. Qed.
#[export] Instance IMAPPassword_ok : FldOk IMAPPassword. Proof. fld_law. Qed.
#[export] Instance IMAPFolder_ok : FldOk IMAPFolder. Proof. fld_law. Qed.
#[export] Instance IMAPTLS_ok : FldOk IMAPTLS. Proof. fld_law. Qed.
#[export] Instance IMAPPollInterval_ok : FldOk IMAPPollInterval. Proof. fld_law. Qed.
#[export] Instance IMAPReconnectDelay_ok : FldOk IMAPReconnectDelay. Proof. fld_law. Qed.
#[export] Instance IMAPMaxReconnectDelay_ok : FldOk IMAPMaxReconnectDelay. Proof. fld_law. Qed.
#[export] Instance IMAPCleanupMode_ok : FldOk IMAPCleanupMode. Proof. fld_law. Qed.
#[export] Instance IMAPCleanupTargetFolder_ok : FldOk IMAPCleanupTargetFolder. Proof. fld_law. Qed.
#[export] Instance CheckpointPath_ok : FldOk CheckpointPath. Proof. fld_law. Qed.
#[export] Instance PeerEmail_ok : FldOk PeerEmail. Proof. fld_law. Qed.
#[export] Instance LoggingLevel_ok : FldOk LoggingLevel. Proof. fld_law. Qed.
#[export] Instance LoggingFormat_ok : FldOk LoggingFormat. Proof. fld_law. Qed.

(** ** Precedence *)

Section Precedence.
Context `{OS} `{UnicodeTables} `{MailParsers}.

(** Every source step sets its field: to the value of the source or to what it
    was.  In this form a sequence of steps computes. *)
Definition or_str (v old : bytes) : bytes := if bool_decide (v = []) then old else v.

Lemma env_str_fset var f `{!FldOk f} c :
  env_str var f c = fset f (or_str (os_Getenv (str var)) (fget f c)) c.
Proof. unfold env_str, or_str. case_bool_decide; [by rewrite fset_fget | done]. Qed.

Lemma set_str_fset fl name f `{!FldOk f} c :
  set_str fl name f c = fset f (or_str (flag_str fl (str name)) (fget f c)) c.
Proof. unfold set_str, or_str. case_bool_decide; [by rewrite fset_fget | done]. Qed.

Definition or_int (v old : Z) : Z := if v =? 0 then old else v.

Lemma set_int_fset fl name f `{!FldOk f} c :
  set_int fl name f c = fset f (or_int (flag_int fl (str name)) (fget f c)) c.
Proof. unfold set_int, or_int. destruct (_ =? 0); [by rewrite fset_fget | done]. Qed.

(** The value of a parsed source that is empty or parses. *)
Definition or_parse (parse : bytes -> option Z) (v : bytes) (old : Z) : Z :=
  if bool_decide (v = []) then old else default old (parse v).

Definition parses (parse : bytes -> option Z) (v : bytes) : Prop :=
  v = [] \/ is_Some (parse v).

Lemma env_parse_fset parse var f `{!FldOk f} c c' :
  env_parse parse var f c = Ok c' ->
  parses parse (os_Getenv (str var))
  /\ c' = fset f (or_parse parse (os_Getenv (str var)) (fget f c)) c.
Proof.
  unfold env_parse, parses, or_parse. case_bool_decide.
  - intros [= <-]. rewrite fset_fget. auto.
  - destruct (parse _) as [n|]; [|done]. intros [= <-]. split; [right; by eexists | done].
Qed.

Lemma set_poll_fset fl c c' :
  set_poll_interval fl c = Ok c' ->
  let v := flag_str fl (str "imap-poll-interval") in
  parses ParseDuration v
  /\ c' = fset IMAPPollInterval (or_parse ParseDuration v (fget IMAPPollInterval c)) c.
Proof.
  unfold set_poll_interval, parses, or_parse. cbv zeta. case_bool_decide.
  - intros [= <-]. rewrite fset_fget. auto.
  - destruct (ParseDuration _) as [n|]; [|done]. intros [= <-].
    split; [right; by eexists | done].
Qed.

Lemma env_parse_err parse var f c v :
  os_Getenv (str var) = v -> v <> [] -> parse v = None ->
  env_parse parse var f c = Err (Errorf ("invalid " ++ var) [Opaque "parse"]).
Proof. unfold env_parse. intros -> Hv ->. by rewrite bool_decide_eq_false_2. Qed.

(** The settings: flag, environment variable, field, and what [Normalize] does
    to the value. *)
Definition str_settings : list (string * string * fld bytes * (bytes -> bytes)) :=
  [("pipe-name", "RNS_EMAIL_PIPE_NAME", PipeName, fun s => s);
   ("smtp-host", "RNS_EMAIL_SMTP_HOST", SMTPHost, lower_trim);
   ("smtp-username", "RNS_EMAIL_SMTP_USERNAME", SMTPUsername, fun s => s);
   ("smtp-from", "RNS_EMAIL_SMTP_FROM", SMTPFrom, strip_display);
   ("smtp-tls", "RNS_EMAIL_SMTP_TLS", SMTPTLS, lower_trim);
   ("imap-host", "RNS_EMAIL_IMAP_HOST", IMAPHost, lower_trim);
   ("imap-username", "RNS_EMAIL_IMAP_USERNAME", IMAPUsername, fun s => s);
   ("imap-folder", "RNS_EMAIL_IMAP_FOLDER", IMAPFolder, fun s => s);
   ("imap-tls", "RNS_EMAIL_IMAP_TLS", IMAPTLS, lower_trim);
   ("imap-cleanup-mode", "RNS_EMAIL_IMAP_CLEANUP_MODE", IMAPCleanupMode, lower_trim);
   ("imap-cleanup-target-folder", "RNS_EMAIL_IMAP_CLEANUP_TARGET_FOLDER",
    IMAPCleanupTargetFolder, fun s => s);
   ("peer-email", "RNS_EMAIL_PEER_EMAIL", PeerEmail, strip_display);
   ("log-level", "RNS_EMAIL_LOG_LEVEL", LoggingLevel, lower_trim);
   ("log-format", "RNS_EMAIL_LOG_FORMAT", LoggingFormat, lower_trim)]%string.

Definition int_settings : list (string * string * fld Z) :=
  [("pipe-mtu", "RNS_EMAIL_PIPE_MTU", PipeMTU);
   ("smtp-port", "RNS_EMAIL_SMTP_PORT", SMTPPort);
   ("smtp-recovery-delay", "RNS_EMAIL_SMTP_RECOVERY_DELAY", SMTPRecoveryDelay);
   ("smtp-max-recovery-delay", "RNS_EMAIL_SMTP_MAX_RECOVERY_DELAY", SMTPMaxRecoveryDelay);
   ("imap-port", "RNS_EMAIL_IMAP_PORT", IMAPPort);
   ("imap-reconnect-delay", "RNS_EMAIL_IMAP_RECONNECT_DELAY", IMAPReconnectDelay);
   ("imap-max-reconnect-delay", "RNS_EMAIL_IMAP_MAX_RECONNECT_DELAY", IMAPMaxReconnectDelay)]%string.

(** Flag, else environment, else default. *)
Definition resolved_str (fl : flags) (name var : string) (f : fld bytes) : bytes :=
  or_str (flag_str fl (str name)) (or_str (os_Getenv (str var)) (fget f Defaults)).

Definition resolved_int (fl : flags) (name var : string) (f : fld Z) : Z :=
  or_int (flag_int fl (str name)) (or_parse atoi (os_Getenv (str var)) (fget f Defaults)).

(** A password: the first line of the file when one is named. *)
Definition resolved_password (fl : flags) (name var : string) (file : bytes) (f : fld bytes)
    : result bytes :=
  if bool_decide (file = []) then Ok (resolved_str fl name var f) else readPasswordFile file.

Record loaded (fl : flags) (cfg : Config) : Prop := {
  ld_str : Forall (fun '(name, var, f, post) => fget f cfg = post (resolved_str fl name var f))
             str_settings;
  ld_int : Forall (fun '(name, var, f) => fget f cfg = resolved_int fl name var f
                                          /\ parses atoi (os_Getenv (str var))) int_settings;
  ld_poll : fget IMAPPollInterval cfg
            = or_parse ParseDuration (flag_str fl (str "imap-poll-interval"))
                (or_parse ParseDuration (os_Getenv (str "RNS_EMAIL_IMAP_POLL_INTERVAL"))
                   (60 * second))
            /\ parses ParseDuration (flag_str fl (str "imap-poll-interval"))
            /\ parses ParseDuration (os_Getenv (str "RNS_EMAIL_IMAP_POLL_INTERVAL"));
  ld_smtp_password :
    resolved_password fl "smtp-password" "RNS_EMAIL_SMTP_PASSWORD"
      (flag_or_env fl "smtp-password-file" "RNS_EMAIL_SMTP_PASSWORD_FILE") SMTPPassword
    = Ok (fget SMTPPassword cfg);
  ld_imap_password :
    resolved_password fl "imap-password" "RNS_EMAIL_IMAP_PASSWORD"
      (flag_or_env fl "imap-password-file" "RNS_EMAIL_IMAP_PASSWORD_FILE") IMAPPassword
    = Ok (fget IMAPPassword cfg);
  ld_checkpoint :
    fget CheckpointPath cfg
    = or_str (resolved_str fl "checkpoint-path" "RNS_EMAIL_CHECKPOINT_PATH" CheckpointPath)
        (DeriveCheckpointPath (fget PipeName cfg));
}.

(** The configuration a run of sources yields, as an explicit record. *)
Ltac settled T := eval cbv beta iota zeta delta [fset fget on_pipe on_smtp on_imap
    PipeName PipeMTU SMTPHost SMTPPort SMTPUsername SMTPPassword SMTPFrom SMTPTLS
    SMTPRecoveryDelay SMTPMaxRecoveryDelay IMAPHost IMAPPort IMAPUsername IMAPPassword
    IMAPFolder IMAPTLS IMAPPollInterval IMAPReconnectDelay IMAPMaxReconnectDelay
    IMAPCleanupMode IMAPCleanupTargetFolder CheckpointPath PeerEmail LoggingLevel
    LoggingFormat
    Pipe SMTP IMAP Checkpoint Peer Logging cp_Path peer_Email log_Level log_Format pipe_Name
    pipe_MTU smtp_Host smtp_Port smtp_Username smtp_Password smtp_From smtp_TLS
    smtp_RecoveryDelay smtp_MaxRecoveryDelay cl_Mode cl_TargetFolder imap_Host imap_Port
    imap_Username imap_Password imap_Folder imap_TLS imap_PollInterval imap_ReconnectDelay
    imap_MaxReconnectDelay imap_Cleanup] in T.

(** Evaluate the next source step on the record reached so far. *)
Ltac source_step E :=
  match type of E with
  | context [env_str ?v ?f (mkConfig ?c1 ?c2 ?c3 ?c4 ?c5 ?c6)] =>
    let c := constr:(mkConfig c1 c2 c3 c4 c5 c6) in
    let r := settled (fset f (or_str (os_Getenv (str v)) (fget f c)) c) in
    rewrite (env_str_fset v f c : _ = r) in E
  | context [set_str ?l ?v ?f (mkConfig ?c1 ?c2 ?c3 ?c4 ?c5 ?c6)] =>
    let c := constr:(mkConfig c1 c2 c3 c4 c5 c6) in
    let r := settled (fset f (or_str (flag_str l (str v)) (fget f c)) c) in
    rewrite (set_str_fset l v f c : _ = r) in E
  | context [set_int ?l ?v ?f (mkConfig ?c1 ?c2 ?c3 ?c4 ?c5 ?c6)] =>
    let c := constr:(mkConfig c1 c2 c3 c4 c5 c6) in
    let r := settled (fset f (or_int (flag_int l (str v)) (fget f c)) c) in
    rewrite (set_int_fset l v f c : _ = r) in E
  | res_bind _ _ = Ok _ =>
    let x := fresh "x" in let Hm := fresh "Hm" in
    apply res_bind_ok in E; destruct E as (x & Hm & E);
    first [apply env_parse_fset in Hm as [? Hm]; [| apply _] | apply set_poll_fset in Hm as [? Hm]];
    match type of Hm with x = ?T => let r := settled T in change (x = r) in Hm end;
    subst x
  end.

Lemma password_file_Ok path what f `{!FldOk f} c c' :
  password_file path what f c = Ok c' ->
  exists pw, c' = fset f pw c
    /\ (if bool_decide (path = []) then Ok (fget f c) else readPasswordFile path) = Ok pw.
Proof.
  unfold password_file. case_bool_decide.
  - intros [= <-]. exists (fget f c). by rewrite fset_fget.
  - destruct (readPasswordFile path) as [pw|]; [|done]. intros [= <-]. by exists pw.
Qed.

(** A successful [Load]: its flags parse, and the configuration is the one the
    sources determine; it has passed [Validate]. *)
Lemma Load_loaded args cfg :
  Load args = Ok cfg ->
  exists fl, parse_flags flag_table args no_flags = inl fl
             /\ loaded fl cfg /\ Validate cfg = None.
Proof.
  unfold Load. destruct (parse_flags flag_table args no_flags) as [fl|]; [|done].
  intros E. exists fl. split; [done|].
  inv_ok E. inv_ok E. inv_ok E.
  unfold applyEnv in Hm. cbv zeta in Hm. unfold Defaults, env_int in Hm.
  repeat source_step Hm. apply Ok_inj in Hm. subst x.
  unfold applyFlags in Hm0. cbv zeta in Hm0.
  repeat source_step Hm0. apply Ok_inj in Hm0. subst x0.
  unfold applyPasswordFiles in Hm1. inv_ok Hm1.
  apply password_file_Ok in Hm as (pw1 & -> & Hpw1); [|apply _].
  apply password_file_Ok in Hm1 as (pw2 & -> & Hpw2); [|apply _].
  destruct (Validate _) eqn:Hv; [done|]. apply Ok_inj in E. rewrite <- E.
  split; [|done]. clear Hv E.
  split.
  - repeat (apply Forall_cons_2; [reflexivity|]). apply Forall_nil_2.
  - repeat (apply Forall_cons_2; [split; [reflexivity | assumption]|]). apply Forall_nil_2.
  - split_and!; [reflexivity | assumption | assumption].
  - exact Hpw1.
  - exact Hpw2.
  - reflexivity.
Qed.
End Precedence.

(** ** Validation *)

Lemma contains_any_false s chars : contains_any s chars = false <-> forall c, c ∈ chars -> c ∉ s.
Proof.
  unfold contains_any. rewrite <- not_true_iff_false, existsb_exists. split.
  - intros Hn c Hc Hs. apply Hn. exists c. split; [by apply list_elem_of_In|].
    apply existsb_exists. exists c. split; [by apply list_elem_of_In|]. by apply bool_decide_eq_true.
  - intros Hn (c & Hc & (d & Hd & E)%existsb_exists). apply bool_decide_eq_true in E as ->.
    apply list_elem_of_In in Hc, Hd. by apply (Hn d).
Qed.

(** An address the mail parser accepts, free of the bytes that end a header
    line or an SMTP command. *)
Definition clean_address `{MailParsers} (a : bytes) : Prop :=
  a <> [] /\ is_Some (parse_address a) /\ (cr ∉ a) /\ (lf ∉ a) /\ (Byte.x00 ∉ a).

Record valid `{MailParsers} (cfg : Config) : Prop := {
  v_name : fget PipeName cfg <> [];
  v_mtu : 0 < fget PipeMTU cfg <= MaxPacketSize;
  v_smtp_port : 0 < fget SMTPPort cfg <= 65535;
  v_smtp_login : fget SMTPHost cfg <> [] /\ fget SMTPUsername cfg <> [] /\ fget SMTPPassword cfg <> [];
  v_smtp_tls : fget SMTPTLS cfg ∈ [str "tls"; str "starttls"; str "none"];
  v_from : clean_address (fget SMTPFrom cfg);
  v_imap_port : 0 < fget IMAPPort cfg <= 65535;
  v_imap_login : fget IMAPHost cfg <> [] /\ fget IMAPUsername cfg <> [] /\ fget IMAPPassword cfg <> [];
  v_imap_tls : fget IMAPTLS cfg ∈ [str "tls"; str "starttls"; str "none"];
  v_folder : fget IMAPFolder cfg <> [];
  v_checkpoint : fget CheckpointPath cfg <> [];
  v_poll : 0 < fget IMAPPollInterval cfg;
  v_reconnect : 0 < fget IMAPReconnectDelay cfg <= fget IMAPMaxReconnectDelay cfg;
  v_recovery : 0 < fget SMTPRecoveryDelay cfg <= fget SMTPMaxRecoveryDelay cfg;
  v_cleanup : fget IMAPCleanupMode cfg = str "none" \/ fget IMAPCleanupMode cfg = str "delete"
              \/ (fget IMAPCleanupMode cfg = str "move"
                  /\ fget IMAPCleanupTargetFolder cfg <> []
                  /\ fget IMAPCleanupTargetFolder cfg <> fget IMAPFolder cfg);
  v_level : fget LoggingLevel cfg ∈ [str "debug"; str "info"; str "warn"; str "error"];
  v_format : fget LoggingFormat cfg ∈ [str "text"; str "json"];
  v_peer : clean_address (fget PeerEmail cfg);
}.

Lemma Validate_None_iff `{MailParsers} cfg :
  Validate cfg = None <-> Forall (fun c => c.1 = false) (checks cfg).
Proof.
  unfold Validate, validation_errs.
  assert (Hf : Forall (fun c => c.1 = false) (checks cfg) <-> List.filter fst (checks cfg) = []).
  { induction (checks cfg) as [|[[] m] l IH]; simpl; [by split; [|constructor]|..].
    - split; [intros (Hc & _)%Forall_cons; done | done].
    - rewrite Forall_cons, <- IH. tauto. }
  rewrite Hf. destruct (List.filter fst (checks cfg)); simpl; [done|]. split; done.
Qed.

Lemma empty_false s : empty s = false <-> s <> [].
Proof. unfold empty. by rewrite bool_decide_eq_false. Qed.

Lemma negb_decide_false P `{Decision P} : negb (bool_decide P) = false <-> P.
Proof. by rewrite negb_false_iff, bool_decide_eq_true. Qed.

Lemma no_address_false `{MailParsers} s : no_address s = false <-> is_Some (parse_address s).
Proof.
  unfold no_address. rewrite bool_decide_eq_false, <- not_eq_None_Some. done.
Qed.

Lemma clean_address_iff `{MailParsers} a :
  clean_address a
  <-> (empty a = false /\ (negb (empty a) && no_address a) = false /\ containsUnsafe a = false).
Proof.
  unfold clean_address, containsUnsafe. rewrite empty_false, contains_any_false, andb_false_iff,
    negb_false_iff, no_address_false.
  assert (Ht : empty a = true <-> a = []) by (unfold empty; by rewrite bool_decide_eq_true).
  rewrite Ht. split.
  - intros (H1 & H2 & H3 & H4 & H5). split_and!; [done | by right |].
    intros c Hc. rewrite !elem_of_cons, elem_of_nil in Hc.
    by destruct Hc as [->|[->|[->|[]]]].
  - intros (H1 & [?|H2] & H3); [done|]. split_and!; try done; apply H3; rewrite !elem_of_cons; auto.
Qed.

Lemma Validate_iff_lemma `{MailParsers} cfg : Validate cfg = None <-> valid cfg.
Proof.
  rewrite Validate_None_iff. destruct cfg as [[n mtu] s i [path] [peer] [level fmt]].
  destruct s as [sh sp su spw sf st srd smrd], i as [ih ip iu ipw ifo it ipi ird imrd [cm ct]].
  unfold checks. rewrite Forall_foldr. cbn [foldr fst].
  cbn [pipe_Name pipe_MTU smtp_Host smtp_Port smtp_Username smtp_Password smtp_From smtp_TLS
       smtp_RecoveryDelay smtp_MaxRecoveryDelay imap_Host imap_Port imap_Username imap_Password
       imap_Folder imap_TLS imap_PollInterval imap_ReconnectDelay imap_MaxReconnectDelay
       imap_Cleanup cl_Mode cl_TargetFolder].
  pose proof (clean_address_iff sf) as Hsf. pose proof (clean_address_iff peer) as Hpeer.
  unfold validTLS, validCleanup, validLevels, validFormats.
  rewrite !negb_decide_false, !orb_false_iff, !Z.leb_gt, !Z.ltb_ge.
  assert (Hcl : cm ∈ [str "none"; str "delete"; str "move"]
                /\ (bool_decide (cm = str "move") && empty ct) = false
                /\ (bool_decide (cm = str "move") && bool_decide (ct = ifo)) = false
                <-> cm = str "none" \/ cm = str "delete"
                    \/ (cm = str "move" /\ ct <> [] /\ ct <> ifo)).
  { destruct (decide (cm = str "move")) as [->|Hm].
    - rewrite (bool_decide_eq_true_2 _ eq_refl), !andb_true_l, empty_false, bool_decide_eq_false.
      split; [intros (_ & H1 & H2); right; right; done|].
      intros [?|[?|(_ & H1 & H2)]]; [done | done |]. split_and!; [|done|done].
      by apply (bool_decide_unpack _).
    - rewrite (bool_decide_eq_false_2 _ Hm), !andb_false_l, !elem_of_cons, elem_of_nil.
      split; [intros ([?|[?|[?|[]]]] & _); auto; done|].
      intros [?|[?|(? & _)]]; [| |done]; split_and!; auto. }
  split.
  - intros (E1 & E2 & E3 & E4 & E5 & E6 & E7 & E8 & E9 & E10 & E11 & E12 & E13 & E14 & E15 & E16
            & E17 & E18 & E19 & E20 & E21 & E22 & E23 & E24 & E25 & E26 & E27 & E28 & E29 & E30
            & E31 & E32 & E33 & _).
    rewrite empty_false in E1, E5, E6, E7, E10, E12, E13, E14, E16.
    split; simpl;
      [done | lia | lia | done | done | by apply Hsf | lia | done | done | done | done | lia | lia
      | lia | by apply Hcl | done | done | by apply Hpeer].
  - intros []; simpl in *.
    apply Hsf in v_from0 as (F1 & F2 & F3). apply Hpeer in v_peer0 as (P1 & P2 & P3).
    apply Hcl in v_cleanup0 as (C1 & C2 & C3).
    destruct v_smtp_login0 as (S1 & S2 & S3), v_imap_login0 as (I1 & I2 & I3).
    rewrite <- empty_false in *.
    split_and!; (done || lia).
Qed.

(** C39: [Validate] accepts exactly the configurations that satisfy every
    requirement: bounds of MTU and ports, credentials, known modes, ordered
    positive delays, a cleanup folder that is another one, and addresses the mail
    parser accepts without CR, LF or NUL. *)
Theorem Validate_iff `{MailParsers} cfg : Validate cfg = None <-> valid cfg.
Proof. apply Validate_iff_lemma. Qed.

(** ** Consequences for Load *)

(** C40: Fail closed: an integer environment variable that is set but is no
    64-bit decimal makes [Load] fail, whatever the flags say; so does a duration
    that does not parse, and any configuration [Validate] rejects. *)
Theorem Load_fails_closed `{OS} `{UnicodeTables} `{MailParsers} args :
  (exists name var f, (name, var, f) ∈ int_settings
                      /\ os_Getenv (str var) <> [] /\ atoi (os_Getenv (str var)) = None)
  \/ (os_Getenv (str "RNS_EMAIL_IMAP_POLL_INTERVAL") <> []
      /\ ParseDuration (os_Getenv (str "RNS_EMAIL_IMAP_POLL_INTERVAL")) = None)
  \/ (exists e, parse_flags flag_table args no_flags = inr e) ->
  exists e, Load args = Err e.
Proof.
  intros Hbad. destruct (Load args) as [cfg|e] eqn:E; [|eauto]. exfalso.
  apply Load_loaded in E as (fl & Hp & Hl & _).
  destruct Hbad as [(name & var & f & Hin & Hv & Ha) | [(Hv & Ha) | (e & He)]].
  - pose proof (ld_int _ _ Hl) as Hi. rewrite Forall_forall in Hi.
    destruct (Hi _ Hin) as [_ [? | [n Hn]]]; [done|]. rewrite Ha in Hn. done.
  - destruct (ld_poll _ _ Hl) as (_ & _ & [? | [n Hn]]); [done|]. rewrite Ha in Hn. done.
  - by rewrite He in Hp.
Qed.

(** C38: What [Load] returns.  When it succeeds, its flags parsed, and every
    setting is the flag's value if given, else the environment variable's if set,
    else the default, as [Normalize] makes it; a password is the first line of its
    file when one is named (by flag, else by environment); the checkpoint path is
    derived from the pipe name when no source gives one; every integer and
    duration given parses; and the result satisfies every requirement of
    [Validate]. *)
Theorem Load_resolves `{OS} `{UnicodeTables} `{MailParsers} args cfg :
  Load args = Ok cfg ->
  exists fl, parse_flags flag_table args no_flags = inl fl /\ loaded fl cfg /\ valid cfg.
Proof.
  intros (fl & Hp & Hl & Hv)%Load_loaded. exists fl. by rewrite <- Validate_iff_lemma.
Qed.

(** ** The checkpoint path *)

Definition unsafe_path_bytes : bytes := Byte.x22 :: Byte.x00 :: str "/\:*?<>|".

Definition path_safe (s : bytes) : Prop := forall c, c ∈ s -> c ∉ unsafe_path_bytes.

Lemma path_safe_app s t : path_safe (s ++ t) <-> (path_safe s /\ path_safe t).
Proof.
  unfold path_safe. split.
  - intros Hs. split; intros c Hc; apply Hs, elem_of_app; auto.
  - intros [Hs Ht] c [?|?]%elem_of_app; auto.
Qed.

Lemma path_safe_mjoin (ls : list bytes) : Forall path_safe ls -> path_safe (mjoin ls).
Proof.
  induction 1 as [|l ls Hl Hls IH]; [by intros c ?%elem_of_nil|].
  rewrite mjoin_cons. by apply path_safe_app.
Qed.

Lemma path_safe_dec s :
  forallb (fun c => negb (bool_decide (c ∈ unsafe_path_bytes))) s = true -> path_safe s.
Proof.
  rewrite forallb_forall. intros Hs c Hc%list_elem_of_In Hu. specialize (Hs c Hc).
  by rewrite bool_decide_eq_true_2 in Hs.
Qed.

(** The bytes of a rune outside ASCII. *)
Lemma encode_rune_path_safe r :
  0 <= r -> is_unsafe_path_rune r = false -> path_safe (encode_rune r).
Proof.
  intros Hr Hu c Hc Hin. apply not_true_iff_false in Hu. apply Hu.
  unfold is_unsafe_path_rune. apply existsb_exists. exists c.
  split; [by apply list_elem_of_In|].
  assert (Hb : bval c < 0x80).
  { unfold unsafe_path_bytes in Hin. cbn in Hin. rewrite !elem_of_cons, elem_of_nil in Hin.
    repeat destruct Hin as [->|Hin]; done. }
  unfold encode_rune in Hc.
  destruct (Z.ltb_spec r 0x80) as [Hs|Hs].
  - replace (0 <=? r) with true in Hc by lia. cbn [andb] in Hc.
    rewrite elem_of_cons, elem_of_nil in Hc. destruct Hc as [->|[]].
    rewrite bval_byte_of_id by lia. lia.
  - rewrite andb_false_r in Hc. exfalso.
    repeat match goal with H : context [if ?b then _ else _] |- _ => destruct b eqn:? end;
      rewrite !elem_of_cons, elem_of_nil in Hc;
      repeat destruct Hc as [->|Hc]; try done;
      rewrite bval_byte_of in Hb; Z.to_euclidean_division_equations; lia.
Qed.

Lemma runes_nonneg s : Forall (fun rc : Z * bytes => 0 <= rc.1) (runes s).
Proof.
  remember (length s) as n eqn:Hn. assert (Hl : (length s <= n)%nat) by lia. clear Hn.
  revert s Hl. induction n as [|n IH]; intros [|c0 s] Hl; simpl in Hl; try constructor; [lia|].
  pose proof (bval_range c0). cbn [runes].
  repeat match goal with
  | |- context [if ?b then _ else _] => destruct b eqn:?
  | |- context [match ?l with [] => _ | _ => _ end] => is_var l; destruct l as [|? ?]
  end; constructor; try (apply IH; simpl in *; lia); cbn [fst]; try (unfold rune_error; lia);
  unfold in_range in *;
  repeat match goal with H : context [bval ?c] |- _ => 
    lazymatch goal with _ : 0 <= bval c < 256 |- _ => fail | _ => pose proof (bval_range c) end end;
  lia.
Qed.

Lemma hex_length s : length (hex_EncodeToString s) = (2 * length s)%nat.
Proof.
  unfold hex_EncodeToString. induction s as [|c s IH]; [done|].
  rewrite fmap_cons, mjoin_cons, length_app, IH. cbn. lia.
Qed.

Lemma shortHash_length s : length (shortHash s) = 8%nat.
Proof. unfold shortHash. rewrite hex_length, length_take, Sum256_length. done. Qed.

(** The derived checkpoint path stays in the working directory whatever the
    pipe name: it is [./] followed by a name without path separators, drive or
    wildcard characters, quotes or NUL, and before [.json] stand the eight
    hexadecimal digits of the hash. *)
Theorem DeriveCheckpointPath_local name :
  exists stem hash file,
    DeriveCheckpointPath name = str "./" ++ file /\ path_safe file
    /\ file = str "checkpoint-" ++ stem ++ str "-" ++ hash ++ str ".json" /\ length hash = 8%nat.
Proof.
  exists (sanitizePipeName name), (shortHash name),
    (str "checkpoint-" ++ sanitizePipeName name ++ str "-" ++ shortHash name ++ str ".json").
  split; [done|]. split; [|split; [done | apply shortHash_length]].
  rewrite !path_safe_app. split_and!; try (by apply path_safe_dec).
  - unfold sanitizePipeName. apply path_safe_mjoin. apply Forall_fmap.
    eapply Forall_impl; [apply runes_nonneg|]. intros [r bs] Hr. simpl in *.
    destruct (is_unsafe_path_rune r) eqn:Hu; [by apply path_safe_dec | by apply encode_rune_path_safe].
  - unfold shortHash, hex_EncodeToString. apply path_safe_mjoin, Forall_fmap, Forall_true.
    intros c. cbn. apply path_safe_dec. destruct c; reflexivity.
Qed.

(** A password file yields its first line: all of the content up to the
    first line feed, less trailing carriage returns; so it holds no line end. *)
Theorem readPasswordFile_line `{OS} path pw :
  readPasswordFile path = Ok pw ->
  exists line rest crs,
    os_ReadFile path = Ok (line ++ rest) /\ (lf ∉ line) /\ (rest = [] \/ head rest = Some lf)
    /\ line = pw ++ crs /\ Forall (eq cr) crs /\ last pw <> Some cr.
Proof.
  unfold readPasswordFile. intros E. inv_ok E. apply Ok_inj in E.
  assert (Hs : exists line rest, x = line ++ rest /\ default [] (head (split x lf)) = line
            /\ (lf ∉ line) /\ (rest = [] \/ head rest = Some lf)).
  { clear. induction x as [|c x (line & rest & Hx & Hd & Hn & Hr)].
    { exists [], []. split_and!; [done | done | apply not_elem_of_nil | by left]. }
    cbn [split]. destruct (decide (c = lf)) as [->|Hc].
    - exists [], (lf :: x). rewrite bool_decide_eq_true_2 by done. cbn.
      split_and!; [done | done | apply not_elem_of_nil | by right].
    - rewrite bool_decide_eq_false_2 by done. exists (c :: line), rest.
      split_and!; [by rewrite Hx | | | done].
      + destruct (split x lf); cbn in Hd |- *; by rewrite Hd.
      + rewrite elem_of_cons. intros [?|?]; congruence. }
  destruct Hs as (line & rest & Hx & Hd & Hn & Hr). rewrite Hd in E.
  assert (Ht : exists crs, line = pw ++ crs /\ Forall (eq cr) crs /\ last pw <> Some cr).
  { rewrite <- E. clear. induction line as [|c l (crs & IH1 & IH2 & IH3)]; [by exists []|].
    cbn [trim_right]. destruct (trim_right _ l) as [|d t] eqn:Et.
    - case_bool_decide as Hc; cbn in IH1; subst.
      + exists (cr :: crs). split_and!; [done | by constructor | done].
      + exists crs. split_and!; [done | done | by intros [= ->]].
    - exists crs. rewrite IH1. split_and!; [done | done | done]. }
  destruct Ht as (crs & Hl & Hf & Hp). exists line, rest, crs. by rewrite Hm, Hx.
Qed.

(** ** Durations as text *)

(** A [Duration] survives its text: [UnmarshalText] gives back what
    [MarshalText] wrote, for every 64-bit duration, the least one included. *)
Theorem Duration_roundtrip d : is_i64 d -> UnmarshalText (MarshalText d) = (d, None).
Proof. intros Hd. unfold UnmarshalText, MarshalText. by rewrite ParseDuration_String. Qed.

(** ** Types *)

(** Every number of the configuration. *)
Definition numbers (cfg : Config) : list Z :=
  [fget PipeMTU cfg; fget SMTPPort cfg; fget SMTPRecoveryDelay cfg; fget SMTPMaxRecoveryDelay cfg;
   fget IMAPPort cfg; fget IMAPReconnectDelay cfg; fget IMAPMaxReconnectDelay cfg;
   fget IMAPPollInterval cfg].

Lemma or_parse_range parse v old :
  (forall n, parse v = Some n -> is_i64 n) -> is_i64 old -> is_i64 (or_parse parse v old).
Proof.
  intros Hp Ho. unfold or_parse. case_bool_decide; [done|]. destruct (parse v); [by apply Hp | done].
Qed.

Lemma int_defaults :
  Forall (fun '(name, var, f) => is_i64 (fget f Defaults)) int_settings.
Proof. unfold is_i64. by repeat (apply Forall_cons_2 || apply Forall_nil_2). Qed.

(** C37: What [Load] returns is well typed: whatever the sources hold, each number
    and the poll interval is a positive 64-bit integer, and so is what the
    defaults give. *)
Theorem Load_typed `{OS} `{UnicodeTables} `{MailParsers} args cfg :
  Load args = Ok cfg -> Forall (fun n => 0 < n < 2 ^ 63) (numbers cfg).
Proof.
  intros (fl & Hp & Hl & Hv)%Load_loaded. apply Validate_iff_lemma in Hv.
  assert (Ht : typed_flags fl) by (eapply parse_flags_typed; [|exact Hp]; apply map_Forall_empty).
  assert (Hi : forall name var f, (name, var, f) ∈ int_settings -> is_i64 (fget f cfg)).
  { intros name var f Hin. destruct (proj1 (Forall_forall _ _) (ld_int _ _ Hl) _ Hin) as [-> _].
    unfold resolved_int, or_int. destruct (_ =? 0); [|by apply flag_int_range].
    apply or_parse_range; [apply atoi_range|]. exact (proj1 (Forall_forall _ _) int_defaults _ Hin). }
  assert (Hpoll : is_i64 (fget IMAPPollInterval cfg)).
  { destruct (ld_poll _ _ Hl) as [-> _]. repeat (apply or_parse_range; [apply ParseDuration_range|]).
    unfold is_i64, second. lia. }
  destruct Hv. unfold numbers, is_i64 in *. repeat (apply Forall_cons_2 || apply Forall_nil_2);
    (split; [lia|]); try lia; eapply Hi; unfold int_settings; repeat (apply list_elem_of_here || apply list_elem_of_further).
Qed.

(** ** A sample environment *)

Module ConfigSamples.
Import GoLibrary.

Definition env_table : list (string * string) :=
  [("RNS_EMAIL_SMTP_HOST", " SMTP.example.org "); ("RNS_EMAIL_SMTP_USERNAME", "u");
   ("RNS_EMAIL_SMTP_FROM", "me@example.org"); ("RNS_EMAIL_SMTP_PORT", "2525");
   ("RNS_EMAIL_IMAP_HOST", "imap.example.org"); ("RNS_EMAIL_IMAP_USERNAME", "u");
   ("RNS_EMAIL_IMAP_PASSWORD", "pw"); ("RNS_EMAIL_PEER_EMAIL", "peer@example.org")]%string.

Definition lookup_env (table : list (string * string)) (var : bytes) : bytes :=
  match List.find (fun e => bool_decide (str e.1 = var)) table with
  | Some e => str e.2
  | None => []
  end.

(** One password file. *)
Definition sample_os (table : list (string * string)) : OS := {|
  os_Getenv := lookup_env table;
  os_ReadFile path :=
    if bool_decide (path = str "/run/pw") then Ok (str "secret" ++ [cr; lf] ++ str "x")
    else Err (Opaque "no such file");
|}.

Definition args : list bytes :=
  [str "--smtp-password-file=/run/pw"; str "-smtp-port"; str "0x1D1";
   str "--imap-poll-interval"; str "30s"].

(** What the example loads. *)
Definition loaded_config : Config :=
  match @Load (sample_os env_table) _ _ args with Ok c => c | Err _ => Defaults end.
End ConfigSamples.

Import GoLibrary.

Lemma Load_resolves_witness :
  fget SMTPPort ConfigSamples.loaded_config = 465
  /\ exists fl, parse_flags flag_table ConfigSamples.args no_flags = inl fl
             /\ @loaded (ConfigSamples.sample_os ConfigSamples.env_table) _ _ fl
                  ConfigSamples.loaded_config
             /\ valid ConfigSamples.loaded_config.
Proof.
  split; [vm_compute; reflexivity|].
  apply (Load_resolves (H := ConfigSamples.sample_os ConfigSamples.env_table)
           ConfigSamples.args ConfigSamples.loaded_config).
  vm_compute. reflexivity.
Defined.

Lemma Load_fails_closed_witness :
  let os := ConfigSamples.sample_os (("RNS_EMAIL_PIPE_MTU", "12k")%string :: ConfigSamples.env_table) in
  exists e, @Load os _ _ ConfigSamples.args = Err e.
Proof.
  apply (Load_fails_closed
    (H := ConfigSamples.sample_os (("RNS_EMAIL_PIPE_MTU", "12k")%string :: ConfigSamples.env_table))).
  left. exists "pipe-mtu"%string, "RNS_EMAIL_PIPE_MTU"%string, PipeMTU.
  split; [left | split; [discriminate | vm_compute; reflexivity]].
Defined.

Lemma readPasswordFile_line_witness :
  let os := ConfigSamples.sample_os [] in
  exists line rest crs,
    os_ReadFile (str "/run/pw") = Ok (line ++ rest) /\ (lf ∉ line) /\ (rest = [] \/ head rest = Some lf)
    /\ line = str "secret" ++ crs /\ Forall (eq cr) crs /\ last (str "secret") <> Some cr.
Proof.
  apply (readPasswordFile_line (H := ConfigSamples.sample_os [])). vm_compute. reflexivity.
Defined.

Lemma Duration_roundtrip_witness :
  MarshalText (90 * second + 1500 * 1000) = str "1m30.0015s"
  /\ UnmarshalText (MarshalText (90 * second + 1500 * 1000)) = (90 * second + 1500 * 1000, None).
Proof.
  split; [vm_compute; reflexivity|]. apply (Duration_roundtrip (90 * second + 1500 * 1000)).
  split; vm_compute; [discriminate | reflexivity].
Defined.

Lemma Load_typed_witness :
  Forall (fun n => 0 < n < 2 ^ 63) (numbers ConfigSamples.loaded_config).
Proof.
  apply (Load_typed (H := ConfigSamples.sample_os ConfigSamples.env_table)
           ConfigSamples.args ConfigSamples.loaded_config).
  vm_compute. reflexivity.
Defined.
