(* ===== verification/ImapClient.v ===== *)
(** * internal/imap/client.go: the IMAP client

    [realClient] over [Imap], the record of the commands issued to go-imap with
    the script of the server's replies.  A capability set is what its [Has]
    answers; a FETCH reply is its messages, each a list of items, and the error
    of the final [Close].

    [Client] is the interface the worker uses.  Its contract [ClientSpec] says
    that [FetchSince] hands to the handler, in order and until the handler
    fails, a list of messages above the UID asked for that does not depend on
    the handler; and that only [MoveUIDs] and [DeleteUIDs] remove messages, no
    other than the ones they are given.  [realClient_Spec] discharges it. *)
From S2P Require Import Prelude GoErrors GoStrings GoMime GoMail Envelope Transport.

Definition imapDialTimeout : Z := 30 * second.
Definition imapIOTimeout : Z := 60 * second.
Definition imapIdleTimeout : Z := 30 * 60 * second.

Definition maxHeaderSize : Z := Z.shiftl 16 10.
Definition maxFetchLiteralSize : Z := maxHeaderSize + MaxBodySize + 1.

Definition errNoUIDPlus : error := Sentinel ErrNoUIDPlus.
Definition errUnsafeMove : error := Sentinel ErrUnsafeMove.

(** ** Capabilities *)

Inductive cap := CapUIDPlus | CapMove | CapIdle.

(** [goimap.CapSet], through its method [Has]. *)
Definition CapSet : Type := cap -> bool.

Definition hasUIDPlus (caps : CapSet) : bool := caps CapUIDPlus.
Definition hasMove (caps : CapSet) : bool := caps CapMove.
Definition hasIdle (caps : CapSet) : bool := caps CapIdle.

Definition requireUIDPlus (caps : CapSet) : option error :=
  if negb (hasUIDPlus caps) then Some errNoUIDPlus else None.

Definition requireSafeMove (caps : CapSet) : option error :=
  if negb (hasMove caps) && negb (hasUIDPlus caps) then Some errUnsafeMove else None.

(** A set of UID ranges. *)
Definition uidsToSet (uids : list Z) : list (Z * Z) := (fun uid => (uid, uid)) <$> uids.

(** ** Literals *)

(** An [io.Reader]: the bytes it yields, then the end of file or an error. *)
Record Reader := mkReader { r_data : bytes; r_err : option error }.

(** [io.ReadAll] of an [io.LimitReader] with limit [n]. *)
Definition read_limited (n : Z) (r : Reader) : Reader * result bytes :=
  if n <=? len (r_data r)
  then (mkReader (drop (Z.to_nat n) (r_data r)) (r_err r), Ok (take (Z.to_nat n) (r_data r)))
  else match r_err r with
       | Some err => (mkReader [] (Some err), Err err)
       | None => (mkReader [] None, Ok (r_data r))
       end.

Definition readLiteral (limit : Z) (r : Reader) : Reader * result (bytes * bool) :=
  match read_limited (limit + 1) r with
  | (r, Err err) => (r, Err err)
  | (r, Ok buf) =>
    if limit <? len buf
    then (mkReader [] (r_err r), Ok (take (Z.to_nat limit) buf, true))
    else (r, Ok (buf, false))
  end.

(** ** Commands and replies *)

Inductive fetch_item :=
  | ItemUID (uid : Z)
  | ItemBody (lit : option Reader)
  | ItemOther.

Record fetch_reply := mkFetchReply {
  fr_messages : list (list fetch_item);
  fr_close : option error;
}.

Inductive imap_cmd :=
  | CmdLogin (username password : bytes)
  | CmdSelect (mailbox : bytes)
  | CmdFetch (start stop : Z)
  | CmdIdle
  | CmdIdleClose
  | CmdIdleWait
  | CmdNoop
  | CmdMove (uids : list (Z * Z)) (dest : bytes)
  | CmdStoreDeleted (uids : list (Z * Z))
  | CmdUIDExpunge (uids : list (Z * Z))
  | CmdClose.

(** [realClient]: the connection with its capabilities, the outcomes to come
    (for a FETCH, what the server answers to the range it is asked for), and the
    log of the commands, each with the I/O timeout it ran under. *)
Record Imap := mkImap {
  i_tc : TimeoutConn;
  i_caps : CapSet;
  i_script : list (option error);
  i_select : list Z;
  i_fetch : list (Z -> Z -> fetch_reply);
  i_trace : list (imap_cmd * Z);
}.

(** One command and its tagged reply. *)
Definition imap_call (c : imap_cmd) (i : Imap) : Imap * option error :=
  (mkImap (i_tc i) (i_caps i) (tail (i_script i)) (i_select i) (i_fetch i)
     (i_trace i ++ [(c, tc_timeout (i_tc i))]),
   default None (head (i_script i))).

Definition imap_SetTimeout (d : Z) (i : Imap) : Imap :=
  mkImap (Deadline.SetTimeout d (i_tc i)) (i_caps i) (i_script i) (i_select i) (i_fetch i) (i_trace i).

(** The FETCH command: its reply. *)
Definition imap_Fetch (start stop : Z) (i : Imap) : Imap * fetch_reply :=
  (mkImap (i_tc i) (i_caps i) (i_script i) (i_select i) (tail (i_fetch i))
     (i_trace i ++ [(CmdFetch start stop, tc_timeout (i_tc i))]),
   default (fun _ _ => mkFetchReply [] None) (head (i_fetch i)) start stop).

(** The UIDVALIDITY of the reply to a successful SELECT, a [uint32]. *)
Definition imap_Select (mailbox : bytes) (i : Imap) : Imap * result Z :=
  match imap_call (CmdSelect mailbox) i with
  | (i, Some err) => (i, Err err)
  | (i, None) =>
    (mkImap (i_tc i) (i_caps i) (i_script i) (tail (i_select i)) (i_fetch i) (i_trace i),
     Ok (wrap32 (default 0 (head (i_select i)))))
  end.

(** ** Dial *)

Definition Dial (ctx_deadline : option Z) (host : bytes) (port : Z) (tlsMode : bytes) (n : Net)
    : Net * result TimeoutConn :=
  match DialTCP ctx_deadline host port tlsMode imapIOTimeout n with
  | (n, Err dialErr) =>
    (n, Err (Errorf (if bool_decide (tlsMode = str "tls") then "imap dial tls" else "imap dial")
               [dialErr]))
  | (n, Ok tc) =>
    match mode_of tlsMode with
    | ModeSTARTTLS =>
      match net_call EvStartTLS n with
      | (n, Some err) => (net_ignore EvRawClose n, Err (Errorf "imap starttls" [err]))
      | (n, None) => (n, Ok tc)
      end
    | _ => (n, Ok tc)
    end
  end.

(** ** The operations of realClient *)

Definition rc_Login (username password : bytes) (i : Imap) : Imap * option error :=
  imap_call (CmdLogin username password) i.

Definition rc_Select (mailbox : bytes) (i : Imap) : Imap * result Z := imap_Select mailbox i.

Definition rc_HasIdle (i : Imap) : bool := hasIdle (i_caps i).

Definition rc_Noop (i : Imap) : Imap * option error := imap_call CmdNoop i.

Definition rc_Close (i : Imap) : Imap * option error := imap_call CmdClose i.

Definition rc_MoveUIDs (uids : list Z) (dest : bytes) (i : Imap) : Imap * option error :=
  if bool_decide (uids = []) then (i, None)
  else match requireSafeMove (i_caps i) with
       | Some err => (i, Some err)
       | None =>
         match imap_call (CmdMove (uidsToSet uids) dest) i with
         | (i, Some err) => (i, Some (Errorf "move uids" [err]))
         | (i, None) => (i, None)
         end
       end.

Definition rc_DeleteUIDs (uids : list Z) (i : Imap) : Imap * option error :=
  if bool_decide (uids = []) then (i, None)
  else match requireUIDPlus (i_caps i) with
       | Some err => (i, Some err)
       | None =>
         let uidSet := uidsToSet uids in
         match imap_call (CmdStoreDeleted uidSet) i with
         | (i, Some err) => (i, Some (Errorf "store deleted flag" [err]))
         | (i, None) =>
           match imap_call (CmdUIDExpunge uidSet) i with
           | (i, Some err) => (i, Some (Errorf "uid expunge" [err]))
           | (i, None) => (i, None)
           end
         end
       end.

(** [idleWait]; [ctx_first] says which channel the [select] took. *)
Definition idleWait (ctx_first : bool) (wait closeFn : Imap -> Imap * option error) (i : Imap)
    : Imap * option error :=
  if ctx_first then
    match closeFn i with
    | (i, Some err) => ((wait i).1, Some (Errorf "idle close" [err]))
    | (i, None) => wait i
    end
  else wait i.

Definition rc_Idle (ctx_first : bool) (i : Imap) : Imap * option error :=
  let i := imap_SetTimeout imapIdleTimeout i in
  let '(i, err) :=
    match imap_call CmdIdle i with
    | (i, Some err) => (i, Some (Errorf "idle start" [err]))
    | (i, None) =>
      idleWait ctx_first (imap_call CmdIdleWait)
        (fun i => imap_call CmdIdleClose (imap_SetTimeout imapIOTimeout i)) i
    end in
  (imap_SetTimeout imapIOTimeout i, err).

(** *** FetchSince *)

(** The items of one message: its UID and body, or the error of a read. *)
Fixpoint read_items (items : list fetch_item) (uid : Z) (raw : option bytes)
    : result (Z * option bytes) :=
  match items with
  | [] => Ok (uid, raw)
  | ItemUID u :: items => read_items items u raw
  | ItemBody None :: items => read_items items uid raw
  | ItemBody (Some lit) :: items =>
    match (readLiteral maxFetchLiteralSize lit).2 with
    | Err err => Err (Errorf "fetch read body" [err])
    | Ok (buf, _) => read_items items uid (Some buf)
    end
  | ItemOther :: items => read_items items uid raw
  end.

(** A message handler over the variables [V] it captures and the world. *)
Definition handler (V W : Type) : Type := Z -> bytes -> V -> W -> V * W * option error.

Section Fetch.
Context {V W : Type} (lastUID : Z) (h : handler V W).

Fixpoint fetch_loop (msgs : list (list fetch_item)) (v : V) (w : W) : V * W * option error :=
  match msgs with
  | [] => (v, w, None)
  | items :: msgs =>
    match read_items items 0 None with
    | Err err => (v, w, Some err)
    | Ok (uid, raw) =>
      if wrap32 uid <=? lastUID then fetch_loop msgs v w
      else match raw with
           | None => fetch_loop msgs v w
           | Some raw =>
             match h (wrap32 uid) raw v w with
             | (v, w, Some err) => (v, w, Some err)
             | (v, w, None) => fetch_loop msgs v w
             end
           end
    end
  end.

Definition rc_FetchSince `{Has W Imap} (v : V) (w : W) : V * W * option error :=
  let '(i, reply) := imap_Fetch (wrap32 (lastUID + 1)) 0 (get w) in
  let '(v, w, retErr) := fetch_loop (fr_messages reply) v (put i w) in
  (v, w, match retErr with Some err => Some err | None => fr_close reply end).
End Fetch.

(** ** The client interface *)

Class Client (W : Type) := {
  Login : bytes -> bytes -> W -> W * option error;
  Select : bytes -> W -> W * result Z;
  FetchSince {V : Type} : Z -> handler V W -> V -> W -> V * W * option error;
  Idle : bool -> W -> W * option error;
  HasIdle : W -> bool;
  Noop : W -> W * option error;
  MoveUIDs : list Z -> bytes -> W -> W * option error;
  DeleteUIDs : list Z -> W -> W * option error;
  Close : W -> W * option error;
}.

#[export] Instance realClient {W} `{Has W Imap} : Client W := {|
  Login u p := on (rc_Login u p);
  Select m := on (rc_Select m);
  FetchSince V lastUID h := rc_FetchSince lastUID h;
  Idle c := on (rc_Idle c);
  HasIdle w := rc_HasIdle (get w);
  Noop := on rc_Noop;
  MoveUIDs uids dest := on (rc_MoveUIDs uids dest);
  DeleteUIDs uids := on (rc_DeleteUIDs uids);
  Close := on rc_Close;
|}.

(** Hand the messages to the handler until it fails; [tail] is the error of the
    fetch itself, after all of them. *)
Fixpoint deliver {V W} (h : handler V W) (msgs : list (Z * bytes)) (tail : option error)
    (v : V) (w : W) : V * W * option error :=
  match msgs with
  | [] => (v, w, tail)
  | (uid, raw) :: msgs =>
    match h uid raw v w with
    | (v, w, Some err) => (v, w, Some err)
    | (v, w, None) => deliver h msgs tail v w
    end
  end.

(** The contract.  [removed] is the list of the UIDs the client asked the
    server to remove; [cl_frame] relates worlds that differ in nothing but the
    client's own state. *)
Class ClientSpec (W : Type) `{Client W} := {
  removed : W -> list Z;
  cl_frame : W -> W -> Prop;
  fetched : Z -> W -> list (Z * bytes);
  fetch_tail : Z -> W -> option error;
  fetch_start : Z -> W -> W;
  fetch_deliver V lastUID (h : handler V W) v w :
    FetchSince lastUID h v w
    = deliver h (fetched lastUID w) (fetch_tail lastUID w) v (fetch_start lastUID w);
  fetched_range lastUID w uid raw :
    (uid, raw) ∈ fetched lastUID w -> lastUID < uid < 2 ^ 32;
  fetch_start_frame lastUID w :
    cl_frame w (fetch_start lastUID w) /\ removed (fetch_start lastUID w) = removed w;
  move_removed uids dest w :
    let w' := (MoveUIDs uids dest w).1 in
    cl_frame w w' /\ (removed w' = removed w \/ removed w' = removed w ++ uids);
  delete_removed uids w :
    let w' := (DeleteUIDs uids w).1 in
    cl_frame w w' /\ (removed w' = removed w \/ removed w' = removed w ++ uids);
  login_frame u p w : cl_frame w (Login u p w).1 /\ removed (Login u p w).1 = removed w;
  select_frame m w : cl_frame w (Select m w).1 /\ removed (Select m w).1 = removed w;
  select_u32 m w v : (Select m w).2 = Ok v -> is_u32 v;
  idle_frame c w : cl_frame w (Idle c w).1 /\ removed (Idle c w).1 = removed w;
  noop_frame w : cl_frame w (Noop w).1 /\ removed (Noop w).1 = removed w;
  close_frame w : cl_frame w (Close w).1 /\ removed (Close w).1 = removed w;
}.

(** ** Literals: what is buffered *)

(** [readLiteral] fails exactly when the source fails within its first
    [limit + 1] bytes; otherwise it buffers the first [limit] bytes, reports
    whether there were more, and leaves nothing unread. *)
Lemma readLiteral_spec limit r :
  0 <= limit ->
  match (readLiteral limit r).2 with
  | Err e => r_err r = Some e /\ len (r_data r) <= limit
  | Ok (buf, oversized) =>
    buf = take (Z.to_nat limit) (r_data r)
    /\ oversized = (limit <? len (r_data r))
    /\ r_data (readLiteral limit r).1 = []
    /\ (limit < len (r_data r) \/ r_err r = None)
  end.
Proof.
  intros Hl. unfold readLiteral, read_limited, len.
  destruct (Z.leb_spec (limit + 1) (Z.of_nat (length (r_data r)))) as [Hd|Hd].
  - rewrite length_take, Nat.min_l, Z2Nat.id by lia.
    replace (limit <? limit + 1) with true by lia.
    replace (limit <? Z.of_nat (length (r_data r))) with true by lia. simpl.
    rewrite take_take. split_and!; [f_equal; lia | done | done | lia].
  - destruct (r_err r) as [e|]; [simpl; split; [done | lia]|].
    replace (limit <? Z.of_nat (length (r_data r))) with false by lia. simpl.
    split_and!; [by rewrite take_ge by lia | done | done | by right].
Qed.

(** ** realClient implements the contract *)

(** The messages a reply yields above [lastUID], up to a failing read. *)
Fixpoint fetched_messages (lastUID : Z) (msgs : list (list fetch_item)) : list (Z * bytes) :=
  match msgs with
  | [] => []
  | items :: msgs =>
    match read_items items 0 None with
    | Err _ => []
    | Ok (uid, raw) =>
      let rest := fetched_messages lastUID msgs in
      if wrap32 uid <=? lastUID then rest
      else match raw with None => rest | Some raw => (wrap32 uid, raw) :: rest end
    end
  end.

(** The first failing read. *)
Fixpoint fetched_error (msgs : list (list fetch_item)) : option error :=
  match msgs with
  | [] => None
  | items :: msgs =>
    match read_items items 0 None with
    | Err err => Some err
    | Ok _ => fetched_error msgs
    end
  end.

Definition first_error (a b : option error) : option error :=
  match a with Some e => Some e | None => b end.

Lemma fetch_loop_deliver {V W} lastUID (h : handler V W) msgs close v w :
  (let '(v, w, e) := fetch_loop lastUID h msgs v w in (v, w, first_error e close))
  = deliver h (fetched_messages lastUID msgs) (first_error (fetched_error msgs) close) v w.
Proof.
  revert v w; induction msgs as [|items msgs IH]; intros v w; [done|].
  cbn [fetch_loop fetched_messages fetched_error].
  destruct (read_items items 0 None) as [[uid raw]|e]; [|done].
  destruct (wrap32 uid <=? lastUID); [apply IH|].
  destruct raw as [raw|]; [|apply IH]. cbn [deliver].
  destruct (h (wrap32 uid) raw v w) as [[v' w'] [e|]]; [done | apply IH].
Qed.

Lemma fetched_messages_range lastUID msgs uid raw :
  (uid, raw) ∈ fetched_messages lastUID msgs -> lastUID < uid < 2 ^ 32.
Proof.
  induction msgs as [|items msgs IH]; cbn [fetched_messages]; [by intros ?%elem_of_nil|].
  destruct (read_items items 0 None) as [[u r]|e]; [| by intros ?%elem_of_nil].
  destruct (Z.leb_spec (wrap32 u) lastUID); [done|].
  destruct r as [r|]; [|done].
  intros [[= -> ->]|?]%elem_of_cons; [|auto].
  split; [done|]. unfold wrap32. apply Z.mod_pos_bound. lia.
Qed.

(** The UIDs a range of a UID set stands for.  A bound 0 is the [*] of the
    protocol, the highest UID of the mailbox: together with another bound the range
    reaches every UID from that one on. *)
Definition range_uids (r : Z * Z) : list Z :=
  let '(start, stop) := r in
  if start =? stop then [start]
  else if (start =? 0) || (stop =? 0) then seqZ (Z.max start stop) (2 ^ 32 - Z.max start stop)
  else seqZ (Z.min start stop) (Z.abs (stop - start) + 1).

Definition set_uids (set : list (Z * Z)) : list Z := set ≫= range_uids.

(** The UIDs a command asks the server to remove. *)
Definition cmd_removed (c : imap_cmd * Z) : list Z :=
  match c.1 with
  | CmdMove uids _ | CmdStoreDeleted uids => set_uids uids
  | _ => []
  end.

Definition imap_removed (i : Imap) : list Z := mjoin (cmd_removed <$> i_trace i).

(** The set of single UIDs stands for the UIDs it was made of. *)
Lemma set_uids_uidsToSet uids : set_uids (uidsToSet uids) = uids.
Proof.
  unfold set_uids, uidsToSet. induction uids as [|u uids IH]; [done|].
  rewrite fmap_cons, bind_cons, IH. unfold range_uids. by rewrite Z.eqb_refl.
Qed.

Lemma imap_call_removed c i :
  imap_removed (imap_call c i).1 = imap_removed i ++ cmd_removed (c, 0).
Proof.
  unfold imap_removed, imap_call. simpl. rewrite fmap_app, join_app. simpl.
  by rewrite app_nil_r.
Qed.

Lemma rc_MoveUIDs_removed uids dest i :
  imap_removed (rc_MoveUIDs uids dest i).1 = imap_removed i
  \/ imap_removed (rc_MoveUIDs uids dest i).1 = imap_removed i ++ uids.
Proof.
  unfold rc_MoveUIDs. case_bool_decide; [by left|].
  destruct (requireSafeMove (i_caps i)); [by left|]. right.
  pose proof (imap_call_removed (CmdMove (uidsToSet uids) dest) i) as Hr.
  destruct (imap_call _ i) as [i' [e|]]; cbn [fst snd cmd_removed] in *; by rewrite Hr, set_uids_uidsToSet.
Qed.

Lemma rc_DeleteUIDs_removed uids i :
  imap_removed (rc_DeleteUIDs uids i).1 = imap_removed i
  \/ imap_removed (rc_DeleteUIDs uids i).1 = imap_removed i ++ uids.
Proof.
  unfold rc_DeleteUIDs. case_bool_decide; [by left|].
  destruct (requireUIDPlus (i_caps i)); [by left|]. right.
  pose proof (imap_call_removed (CmdStoreDeleted (uidsToSet uids)) i) as Hr.
  destruct (imap_call _ i) as [i' [e|]]; cbn [fst snd cmd_removed] in *; [by rewrite Hr, set_uids_uidsToSet|].
  pose proof (imap_call_removed (CmdUIDExpunge (uidsToSet uids)) i') as Hr'.
  destruct (imap_call _ i') as [i'' [e|]]; cbn [fst snd cmd_removed] in *;
    rewrite Hr', Hr, set_uids_uidsToSet; cbn; by rewrite app_nil_r.
Qed.

Lemma imap_Fetch_removed a b i : imap_removed (imap_Fetch a b i).1 = imap_removed i.
Proof.
  unfold imap_removed, imap_Fetch. simpl. rewrite fmap_app, join_app. simpl.
  by rewrite app_nil_r.
Qed.

Lemma rc_Select_removed m i : imap_removed (rc_Select m i).1 = imap_removed i.
Proof.
  unfold rc_Select, imap_Select. pose proof (imap_call_removed (CmdSelect m) i) as Hr.
  destruct (imap_call _ i) as [i' [e|]]; simpl in *; rewrite app_nil_r in Hr; [done|].
  unfold imap_removed in *. done.
Qed.

Lemma imap_SetTimeout_removed d i : imap_removed (imap_SetTimeout d i) = imap_removed i.
Proof. done. Qed.

(** A command that removes nothing. *)
Lemma imap_call_keeps c i i' o :
  imap_call c i = (i', o) -> cmd_removed (c, 0) = [] -> imap_removed i' = imap_removed i.
Proof.
  intros E Hc. pose proof (imap_call_removed c i) as Hr. rewrite E, Hc, app_nil_r in Hr. done.
Qed.

Lemma rc_Idle_removed c i : imap_removed (rc_Idle c i).1 = imap_removed i.
Proof.
  unfold rc_Idle, idleWait.
  destruct (imap_call CmdIdle _) as [i1 [e1|]] eqn:E1;
    apply imap_call_keeps in E1 as H1; try reflexivity;
    [|destruct c; [destruct (imap_call CmdIdleClose _) as [i2 [e2|]] eqn:E2;
                   apply imap_call_keeps in E2 as H2; try reflexivity|];
      match goal with |- context [imap_call CmdIdleWait ?i] =>
        destruct (imap_call CmdIdleWait i) as [i3 o3] eqn:E3 end;
      apply imap_call_keeps in E3 as H3; try reflexivity];
    cbn [fst]; rewrite imap_SetTimeout_removed in *; congruence.
Qed.

#[export] Instance realClient_Spec {W} `{Has W Imap} : ClientSpec W.
Proof.
  refine {| removed w := imap_removed (get w);
            cl_frame w w' := exists i : Imap, w' = put i w;
            fetched l w := fetched_messages l (fr_messages (imap_Fetch (wrap32 (l + 1)) 0 (get w)).2);
            fetch_tail l w :=
              let r := (imap_Fetch (wrap32 (l + 1)) 0 (get w)).2 in
              first_error (fetched_error (fr_messages r)) (fr_close r);
            fetch_start l w := put (imap_Fetch (wrap32 (l + 1)) 0 (get w)).1 w |}.
  - intros V l h v w. cbv zeta. rewrite <- fetch_loop_deliver.
    change (FetchSince l h v w) with (rc_FetchSince l h v w). unfold rc_FetchSince.
    destruct (imap_Fetch (wrap32 (l + 1)) 0 (get w)) as [i r]. cbn [fst snd]. reflexivity.
  - intros l w uid raw. apply fetched_messages_range.
  - intros l w. split; [by eexists|]. by rewrite get_put, imap_Fetch_removed.
  - intros uids d w. simpl. split; [by eexists|]. rewrite get_put. apply rc_MoveUIDs_removed.
  - intros uids w. simpl. split; [by eexists|]. rewrite get_put. apply rc_DeleteUIDs_removed.
  - intros u p w. simpl. split; [by eexists|]. rewrite get_put.
    exact (imap_call_keeps (CmdLogin u p) (get w) _ _ eq_refl eq_refl).
  - intros m w. simpl. split; [by eexists|]. rewrite get_put. apply rc_Select_removed.
  - intros m w v. simpl. unfold rc_Select, imap_Select.
    destruct (imap_call _ _) as [i' [e|]]; [done|]. intros [= <-].
    unfold is_u32, wrap32. apply Z.mod_pos_bound. lia.
  - intros c w. simpl. split; [by eexists|]. rewrite get_put. apply rc_Idle_removed.
  - intros w. simpl. split; [by eexists|]. rewrite get_put.
    exact (imap_call_keeps CmdNoop (get w) _ _ eq_refl eq_refl).
  - intros w. simpl. split; [by eexists|]. rewrite get_put.
    exact (imap_call_keeps CmdClose (get w) _ _ eq_refl eq_refl).
Defined.

(** ** Removal is scoped and gated *)

(** The commands issued, oldest first. *)
Definition commands (i : Imap) : list imap_cmd := fst <$> i_trace i.

Lemma imap_call_commands c i i' o :
  imap_call c i = (i', o) -> commands i' = commands i ++ [c] /\ i_caps i' = i_caps i.
Proof. unfold imap_call, commands. intros [= <- <-]. simpl. by rewrite fmap_app. Qed.

(** [DeleteUIDs] flags and expunges exactly the given UIDs, in this order,
    and never without UIDPLUS: without it no command at all is sent and the
    error is [errNoUIDPlus].  The result is [nil] only when both commands
    succeeded, or for an empty list. *)
Lemma DeleteUIDs_scoped uids i :
  let r := rc_DeleteUIDs uids i in
  exists set cs,
    set_uids set = uids /\ commands r.1 = commands i ++ cs
    /\ cs `prefix_of` [CmdStoreDeleted set; CmdUIDExpunge set]
    /\ (cs <> [] -> hasUIDPlus (i_caps i) = true /\ uids <> [])
    /\ (hasUIDPlus (i_caps i) = false -> uids <> [] -> r.2 = Some errNoUIDPlus)
    /\ (r.2 = None -> uids <> [] -> cs = [CmdStoreDeleted set; CmdUIDExpunge set]).
Proof.
  cbv zeta. exists (uidsToSet uids). unfold rc_DeleteUIDs, requireUIDPlus.
  pose proof (set_uids_uidsToSet uids) as Hset.
  destruct (bool_decide (uids = [])) eqn:Hu.
  { apply bool_decide_eq_true in Hu. exists []. rewrite app_nil_r. split_and!; try done.
    apply prefix_nil. }
  apply bool_decide_eq_false in Hu. destruct (hasUIDPlus (i_caps i)); cbn [negb].
  2:{ exists []. rewrite app_nil_r. split_and!; try done. apply prefix_nil. }
  destruct (imap_call (CmdStoreDeleted _) i) as [i1 [e1|]] eqn:E1;
    apply imap_call_commands in E1 as [C1 _].
  { exists [CmdStoreDeleted (uidsToSet uids)]. split_and!; try done. by eexists [_]. }
  destruct (imap_call (CmdUIDExpunge _) i1) as [i2 o2] eqn:E2;
    apply imap_call_commands in E2 as [C2 _].
  exists [CmdStoreDeleted (uidsToSet uids); CmdUIDExpunge (uidsToSet uids)].
  destruct o2; cbn [fst snd]; rewrite C2, C1, <- app_assoc; split_and!; done.
Qed.

(** [MoveUIDs] issues at most one MOVE of exactly the given UIDs, and none
    to a server with neither MOVE nor UIDPLUS, where go-imap would fall back to
    a plain EXPUNGE. *)
Lemma MoveUIDs_scoped uids dest i :
  let r := rc_MoveUIDs uids dest i in
  let safe := hasMove (i_caps i) || hasUIDPlus (i_caps i) in
  exists set,
    set_uids set = uids
    /\ commands r.1 = commands i ++ (if bool_decide (uids = []) || negb safe then [] else [CmdMove set dest])
    /\ (safe = false -> uids <> [] -> r.2 = Some errUnsafeMove).
Proof.
  cbv zeta. exists (uidsToSet uids). split; [apply set_uids_uidsToSet|]. unfold rc_MoveUIDs, requireSafeMove.
  destruct (bool_decide (uids = [])) eqn:Hu.
  { apply bool_decide_eq_true in Hu. rewrite app_nil_r. done. }
  destruct (hasMove (i_caps i)), (hasUIDPlus (i_caps i)); cbn [negb andb orb];
    [| | | by rewrite app_nil_r];
    destruct (imap_call _ i) as [i1 [e1|]] eqn:E1; apply imap_call_commands in E1 as [C1 _];
    cbn [fst snd]; rewrite C1; done.
Qed.

(** C34: Removals reach exactly the given messages: [DeleteUIDs] flags and
    expunges a UID set that stands for the given UIDs and no other, in this order,
    and sends no command at all without UIDPLUS; [MoveUIDs] issues one MOVE of such
    a set, and none to a server with neither MOVE nor UIDPLUS, where go-imap would
    fall back to a plain EXPUNGE. *)
Theorem removals_scoped uids dest i :
  (let r := rc_DeleteUIDs uids i in
   exists set cs,
     set_uids set = uids /\ commands r.1 = commands i ++ cs
     /\ cs `prefix_of` [CmdStoreDeleted set; CmdUIDExpunge set]
     /\ (cs <> [] -> hasUIDPlus (i_caps i) = true /\ uids <> [])
     /\ (hasUIDPlus (i_caps i) = false -> uids <> [] -> r.2 = Some errNoUIDPlus)
     /\ (r.2 = None -> uids <> [] -> cs = [CmdStoreDeleted set; CmdUIDExpunge set]))
  /\ (let r := rc_MoveUIDs uids dest i in
      let safe := hasMove (i_caps i) || hasUIDPlus (i_caps i) in
      exists set,
        set_uids set = uids
        /\ commands r.1 = commands i ++ (if bool_decide (uids = []) || negb safe then [] else [CmdMove set dest])
        /\ (safe = false -> uids <> [] -> r.2 = Some errUnsafeMove)).
Proof. split; [apply DeleteUIDs_scoped | apply MoveUIDs_scoped]. Qed.

(** ** I/O timeouts *)

(** A call of the client. *)
Inductive client_call :=
  | CLogin (u p : bytes) | CSelect (m : bytes) | CFetch (lastUID : Z) | CIdle (ctx_first : bool)
  | CNoop | CMove (uids : list Z) (dest : bytes) | CDelete (uids : list Z) | CClose.

Definition run_call (c : client_call) (i : Imap) : Imap :=
  match c with
  | CLogin u p => (rc_Login u p i).1
  | CSelect m => (rc_Select m i).1
  | CFetch l => (imap_Fetch (wrap32 (l + 1)) 0 i).1
  | CIdle b => (rc_Idle b i).1
  | CNoop => (rc_Noop i).1
  | CMove uids d => (rc_MoveUIDs uids d i).1
  | CDelete uids => (rc_DeleteUIDs uids i).1
  | CClose => (rc_Close i).1
  end.

(** The timeout a command may run under. *)
Definition timely (e : imap_cmd * Z) : Prop :=
  e.2 = imapIOTimeout
  \/ (e.2 = imapIdleTimeout /\ (e.1 = CmdIdle \/ e.1 = CmdIdleWait)).

Definition timely_state (t : Z) (i : Imap) : Prop :=
  tc_timeout (i_tc i) = t /\ Forall timely (i_trace i).

Lemma imap_call_timely c t i i' o :
  imap_call c i = (i', o) -> timely_state t i -> timely (c, t) -> timely_state t i'.
Proof.
  unfold imap_call, timely_state. intros [= <- <-] [Ht Hf] Hc. simpl.
  split; [done|]. apply Forall_app. split; [done|]. constructor; [|constructor]. by rewrite Ht.
Qed.

Lemma run_call_timely c i :
  timely_state imapIOTimeout i -> timely_state imapIOTimeout (run_call c i).
Proof.
  intros Hi.
  assert (Hio : forall c, timely (c, imapIOTimeout)) by by left.
  assert (Hcall : forall c i, timely_state imapIOTimeout i ->
                              timely_state imapIOTimeout (imap_call c i).1).
  { intros c' i' Hi'. destruct (imap_call c' i') as [i'' o] eqn:E. by eapply imap_call_timely. }
  destruct c; cbn [run_call]; try by apply Hcall.
  - unfold rc_Select, imap_Select. specialize (Hcall (CmdSelect m) i Hi).
    by destruct (imap_call _ i) as [i' [e|]].
  - unfold rc_Idle, idleWait. set (i0 := imap_SetTimeout imapIdleTimeout i).
    assert (H0 : timely_state imapIdleTimeout i0) by by destruct Hi.
    destruct (imap_call CmdIdle i0) as [i1 [e1|]] eqn:E1;
      apply (imap_call_timely _ imapIdleTimeout) in E1 as H1; try done; try (right; tauto);
      [by destruct H1|].
    destruct ctx_first.
    + pose proof (Hcall CmdIdleClose (imap_SetTimeout imapIOTimeout i1)) as H2.
      destruct (imap_call CmdIdleClose _) as [i2 o2]; cbn [fst] in H2.
      assert (H2' : timely_state imapIOTimeout i2) by (apply H2; by destruct H1).
      pose proof (Hcall CmdIdleWait i2 H2') as H3.
      destruct o2; [by destruct H3|]. by destruct (imap_call CmdIdleWait i2) as [i3 o3]; destruct H3.
    + destruct (imap_call CmdIdleWait i1) as [i2 o2] eqn:E2.
      apply (imap_call_timely _ imapIdleTimeout) in E2 as H2; try done; [by destruct H2|].
      right; tauto.
  - unfold rc_MoveUIDs. case_bool_decide; [done|]. destruct (requireSafeMove _); [done|].
    specialize (Hcall (CmdMove (uidsToSet uids) dest) i Hi).
    by destruct (imap_call _ i) as [i' [e|]].
  - unfold rc_DeleteUIDs. case_bool_decide; [done|]. destruct (requireUIDPlus _); [done|].
    pose proof (Hcall (CmdStoreDeleted (uidsToSet uids)) i Hi) as H1.
    destruct (imap_call _ i) as [i' [e|]]; [done|].
    pose proof (Hcall (CmdUIDExpunge (uidsToSet uids)) i' H1) as H2.
    by destruct (imap_call _ i') as [i'' [e|]].
Qed.

(** On a freshly dialled client, after any sequence of calls, whatever the
    server answered and however the IDLE calls ended: the connection is back at
    the 60 s timeout, and every command ran under it but IDLE and the wait for
    its end, which have 30 minutes. *)
Theorem client_timeouts calls caps script sel fetch :
  timely_state imapIOTimeout
    (foldl (fun i c => run_call c i)
       (mkImap (Deadline.NewTimeoutConn imapIOTimeout) caps script sel fetch []) calls).
Proof.
  assert (H : timely_state imapIOTimeout
            (mkImap (Deadline.NewTimeoutConn imapIOTimeout) caps script sel fetch []))
    by (split; [done | constructor]).
  revert H. generalize (mkImap (Deadline.NewTimeoutConn imapIOTimeout) caps script sel fetch []).
  induction calls as [|c calls IH]; intros i Hi; [done|]. simpl. apply IH, run_call_timely, Hi.
Qed.

(** ** Dial *)

(** A failed [Dial] closes the connection it opened; a successful one leaves
    exactly one open, under the 60 s timeout. *)
Lemma Dial_meas d host port mode n :
  let r := Dial d host port mode n in
  meas open_weight r.1 = meas open_weight n + match r.2 with Ok _ => 1 | Err _ => 0 end.
Proof.
  cbv zeta. unfold Dial. pose proof (DialTCP_meas d host port mode imapIOTimeout n) as (_ & _ & H).
  destruct (DialTCP d host port mode imapIOTimeout n) as [n1 [tc|e]]; cbn [fst snd] in *; [|done].
  destruct (mode_of mode); [done | | done].
  net_step; cbn [fst snd]; net_meas; cbn [open_weight]; lia.
Qed.

(** ** FetchSince: what the handler sees *)




(** The cut of a message with header block [kvs], body budget included. *)
Lemma literal_cut kvs body :
  let n := (Z.to_nat maxFetchLiteralSize - length (fields kvs ++ crlf))%nat in
  len (fields kvs ++ crlf) <= maxFetchLiteralSize ->
  take (Z.to_nat maxFetchLiteralSize) (fields kvs ++ crlf ++ body) = fields kvs ++ crlf ++ take n body.
Proof.
  cbv zeta. intros Hlen. rewrite app_assoc, take_app_ge by (unfold len in Hlen; lia).
  by rewrite <- app_assoc.
Qed.

Lemma Decode_fetched_prefix_lemma `{UnicodeTables} `{MailParsers} kvs body :
  kvs <> [] -> Forall (fun kv => field_name kv.1 /\ one_line kv.2) kvs ->
  len (fields kvs ++ crlf) <= maxHeaderSize ->
  let raw := fields kvs ++ crlf ++ body in
  Decode (take (Z.to_nat maxFetchLiteralSize) raw) = Decode raw.
Proof.
  intros Hne Hk Hlen raw. unfold raw.
  assert (Hmax : maxFetchLiteralSize = maxHeaderSize + MaxBodySize + 1) by done.
  assert (Hb : 0 <= MaxBodySize) by (vm_compute; done).
  rewrite literal_cut by lia. set (m := (_ - length (fields kvs ++ crlf))%nat).
  assert (Hm : MaxBodySize + 1 <= Z.of_nat m).
  { subst m. pose proof (Z2Nat.id maxFetchLiteralSize ltac:(vm_compute; done)).
    unfold len in Hlen. lia. }
  unfold Decode. rewrite !read_message_fields by done.
  assert (Hp : forall h, decode_packet h (take m body) = decode_packet h body).
  { intros h. unfold decode_packet. by rewrite take_take, Nat.min_l by lia. }
  by rewrite Hp.
Qed.

(** C32: The cut at [maxFetchLiteralSize] does not change what a message is: for
    any header block of one-line fields of at most [maxHeaderSize] bytes and any
    body, [Decode] gives the same result on the buffered prefix as on the whole
    message (packet, error and classification alike). *)
Theorem Decode_fetched_prefix `{UnicodeTables} `{MailParsers} kvs body :
  kvs <> [] -> Forall (fun kv => field_name kv.1 /\ one_line kv.2) kvs ->
  len (fields kvs ++ crlf) <= maxHeaderSize ->
  let raw := fields kvs ++ crlf ++ body in
  Decode (take (Z.to_nat maxFetchLiteralSize) raw) = Decode raw.
Proof. apply Decode_fetched_prefix_lemma. Qed.

(** A message from the list with one header field. *)
Lemma Decode_fetched_prefix_witness :
  let kvs := [(str "Subject", str "hi")] in
  len (fields kvs ++ crlf) <= maxHeaderSize
  /\ @Decode GoLibrary.unicode GoLibrary.parsers
       (take (Z.to_nat maxFetchLiteralSize) (fields kvs ++ crlf ++ str "text"))
     = @Decode GoLibrary.unicode GoLibrary.parsers (fields kvs ++ crlf ++ str "text").
Proof.
  split; [vm_compute; done|].
  apply (@Decode_fetched_prefix GoLibrary.unicode GoLibrary.parsers).
  - done.
  - apply (bool_decide_unpack _). vm_compute. done.
  - vm_compute. done.
Defined.

(** ** A header block over the budget *)

(** What the handler gets of a message the server sends whole. *)
Lemma fetched_mail l u msg rest :
  0 < u < 2 ^ 32 ->
  fetched_messages l ([ItemUID u; ItemBody (Some (mkReader msg None))] :: rest)
  = if u <=? l then fetched_messages l rest
    else (u, take (Z.to_nat maxFetchLiteralSize) msg) :: fetched_messages l rest.
Proof.
  intros Hu. cbn [fetched_messages read_items].
  pose proof (readLiteral_spec maxFetchLiteralSize (mkReader msg None) ltac:(vm_compute; done)) as Hl.
  destruct (readLiteral maxFetchLiteralSize (mkReader msg None)).2 as [[buf over]|e].
  - destruct Hl as (-> & _). cbn [read_items r_data]. by rewrite wrap32_id by (unfold is_u32; lia).
  - by destruct Hl as [Hl _].
Qed.

Lemma fetched_whole u msg :
  0 < u < 2 ^ 32 ->
  fetched_messages 0 [[ItemUID u; ItemBody (Some (mkReader msg None))]]
  = [(u, take (Z.to_nat maxFetchLiteralSize) msg)].
Proof. intros Hu. rewrite fetched_mail by done. by replace (u <=? 0) with false by lia. Qed.

(** C33: A header block over [maxHeaderSize] eats into the room for the body, and
    [FetchSince] drops the flag that says the literal was cut: when the cut falls
    after [k] whole lines of the body, the truncated message still decodes, and
    the handler is given the first 57*k bytes of the packet as the packet. *)
Theorem literal_cut_truncates `{UnicodeTables} `{MailParsersOk} relay uuid now p raw mid from to u k :
  Encode uuid now p = Ok (raw, mid) -> relay_fields relay ->
  one_line (p_From p) -> one_line (p_To p) -> one_line now -> one_line uuid ->
  parse_address (trim_blank (p_From p)) = Some from ->
  parse_address (trim_blank (p_To p)) = Some to ->
  len (fields (relay ++ envelope_fields p now mid) ++ crlf)
  = maxFetchLiteralSize - 78 * Z.of_nat k ->
  0 < 57 * Z.of_nat k < len (p_Packet p) -> len (p_Packet p) <= MaxPacketSize ->
  0 < u < 2 ^ 32 ->
  let msg := fields relay ++ raw in
  Decode msg = Ok (mkDecoded mid from to (p_Packet p))
  /\ exists cut, fetched_messages 0 [[ItemUID u; ItemBody (Some (mkReader msg None))]] = [(u, cut)]
       /\ Decode cut = Ok (mkDecoded mid from to (take (57 * k) (p_Packet p))).
Proof.
  intros He Hr HF HT Hnow Hu Hfrom Hto Hlen Hk Hmax Huid msg.
  split; [by eapply Decode_Encode_lemma|].
  exists (take (Z.to_nat maxFetchLiteralSize) msg). split; [by apply fetched_whole|].
  apply Encode_ok in He as (_ & Hmid & Hraw).
  destruct (generated_mid_ok uuid (p_From p) Hu HF) as [Hml Htrim].
  rewrite <- Hmid in Hml, Htrim.
  unfold msg. rewrite Hraw, app_assoc, <- fields_app, literal_cut by lia.
  assert (Hn : (Z.to_nat maxFetchLiteralSize
                - length (fields (relay ++ envelope_fields p now mid) ++ crlf) = 78 * k)%nat).
  { pose proof (Z2Nat.id maxFetchLiteralSize ltac:(vm_compute; done)).
    unfold len in Hlen. lia. }
  rewrite Hn. unfold len in Hk, Hmax. rewrite wrapped_body_take by lia.
  rewrite (Decode_message relay p now mid from to) by
    (done || (unfold len; rewrite length_take; lia)
     || (intros E%(f_equal length); rewrite length_take in E; simpl in E; lia)).
  by rewrite Htrim.
Qed.

(** Seventeen relay fields, 16485 bytes of header in all, and a packet of
    [MaxPacketSize] bytes, of which the last 72 are lost. *)
Module LongHeaders.

Definition relay : list (bytes * bytes) :=
  replicate 16 (str "X-Trace", replicate 998 Byte.x61)
  ++ [(str "X-Trace", replicate 106 Byte.x61)].
Definition params : Params :=
  mkParams (str "alice@a.example") (str "bob@b.example")
    (replicate (Z.to_nat MaxPacketSize) Byte.x62).
Definition date : bytes := str "Tue, 23 Mar 2026 12:34:56 +0000".
Definition mid : bytes := str "<1@a.example>".
Definition raw : bytes := fields (envelope_fields params date mid) ++ crlf ++ wrapped_body (p_Packet params).

Lemma packet_len : len (p_Packet params) = MaxPacketSize.
Proof. unfold len, params. cbn [p_Packet]. rewrite length_replicate. vm_compute. reflexivity. Qed.

Lemma encoded : @Encode GoLibrary.parsers (str "1") date params = Ok (raw, mid).
Proof.
  unfold Encode. rewrite !bool_decide_eq_false_2;
    [| intros E; pose proof packet_len as L; by rewrite E in L | done | done].
  cbn [orb]. rewrite envelope_lines. reflexivity.
Qed.
End LongHeaders.

Lemma literal_cut_truncates_witness :
  let msg := fields LongHeaders.relay ++ LongHeaders.raw in
  @Decode GoLibrary.unicode GoLibrary.parsers msg
  = Ok (mkDecoded LongHeaders.mid (str "alice@a.example") (str "bob@b.example")
          (p_Packet LongHeaders.params))
  /\ exists cut, fetched_messages 0 [[ItemUID 1; ItemBody (Some (mkReader msg None))]] = [(1, cut)]
       /\ @Decode GoLibrary.unicode GoLibrary.parsers cut
         = Ok (mkDecoded LongHeaders.mid (str "alice@a.example") (str "bob@b.example")
                 (take (57 * Z.to_nat 13442) (p_Packet LongHeaders.params))).
Proof.
  apply (@literal_cut_truncates GoLibrary.unicode GoLibrary.parsers GoLibrary.parsers_ok
           LongHeaders.relay (str "1") LongHeaders.date LongHeaders.params LongHeaders.raw
           LongHeaders.mid _ _ 1 (Z.to_nat 13442) LongHeaders.encoded).
  1-5: by apply (bool_decide_unpack _); vm_compute.
  1-2: vm_compute; reflexivity.
  - vm_compute. reflexivity.
  - rewrite LongHeaders.packet_len. vm_compute. done.
  - by rewrite LongHeaders.packet_len.
  - done.
Defined.
