(* ===== verification/Worker.v ===== *)
(** * internal/imap/worker.go: the IMAP worker

    [fetchAndProcess] fetches the messages above the checkpoint, injects the
    packets, computes the checkpoint it may advance to, persists it and cleans
    up; [runSession] and [Run] are the session and the reconnect loop around it.
    They are functions over a world with a [Client] and a [Repository]; which
    branch each [select] takes is read from a schedule, and a run whose schedule
    is used up is [Running].

    The theorems are stated against the contracts [ClientSpec], [RepositorySpec]
    and [WorkerWorld]: what happens to every delivered message, that the
    checkpoint passes no message that was not handled, that only messages whose
    packet was injected are removed from the mailbox, and the reconnect backoff. *)
From Stdlib Require Import Strings.Byte.
From S2P Require Import Prelude GoErrors GoStrings GoMime Envelope Inbox Transport Pipe.
From S2P Require Import Config ImapClient.

Definition idleRestart : Z := 25 * 60 * second.
Definition maxIdleErrors : Z := 3.
Definition errDial : error := Sentinel ErrDialFailed.

(** [isDial], [nil] included. *)
Definition isDial (err : option error) : bool :=
  match err with Some e => errors_is ErrDialFailed e | None => false end.

Record Worker := mkWorker {
  wk_cfg : IMAPConfig;
  wk_peerEmail : bytes;
  wk_localEmail : bytes;
}.

(** The variables the fetch handler captures; UID 0 stands for none. *)
Record fetch_state := mkFetchState {
  fs_processedUIDs : list Z;
  fs_skippedUIDs : list Z;
  fs_failedUID : Z;
  fs_decodeFailedUID : Z;
}.

(** How a loop ended: not yet, or with a result. *)
Inductive ending := Running | Returned (err : option error).

(** What the scheduler decides in a session: the branch of the [select] in
    [idleLoop], after [idleDone] with what [ctx.Err() == nil] finds; the rounds of
    [idleLoop], each with what [ctx.Err()] shows at its head and whether the
    context came first inside [Idle]; the branch in [pollLoop]. *)
Inductive idle_sel := SelExists | SelIdleDone (cancelled : bool) | SelCtxDone.
Record idle_round := mkRound { ir_cancelled : bool; ir_sel : idle_sel; ir_ctx_first : bool }.
Inductive poll_sel := PollTick | PollCtxDone.

Record schedule := mkSchedule {
  sc_idle : list idle_round;
  sc_poll : list poll_sel;
}.

Section Worker.
Context {W : Type} {client : Client W} {repo : Repository W}
        {unicode : UnicodeTables} {mail : MailParsers}.
Context (ctx_err : W -> option error) (inject : bytes -> W -> W * option error)
        (dial : W -> W * option error) (setOnline : option (bool -> W -> W)).
Context (wk : Worker).

Definition callSetOnline (online : bool) (w : W) : W :=
  match setOnline with Some f => f online w | None => w end.

(** Display name stripped, domain lowered. *)
Definition canonicalAddr (addr : bytes) : bytes :=
  let bare := bare_addr addr in
  match last_index bare Byte.x40 with
  | None => bare
  | Some i => take (i + 1) bare ++ to_lower (drop (i + 1) bare)
  end.

(** The handler [fetchAndProcess] passes to [FetchSince]. *)
Definition process_message : handler fetch_state W := fun uid raw st w =>
  match ctx_err w with
  | Some err => (st, w, Some err)
  | None =>
    let '(mkFetchState processed skipped failed decodeFailed) := st in
    let skip := (mkFetchState processed (skipped ++ [uid]) failed decodeFailed, w, None) in
    match Decode raw with
    | Err decErr =>
      if errors_is ErrNotTransport decErr then skip
      else
        let decodeFailed :=
          if (decodeFailed =? 0) || (uid <? decodeFailed) then uid else decodeFailed in
        (mkFetchState processed skipped failed decodeFailed, w, None)
    | Ok decoded =>
      if bool_decide (wk_peerEmail wk <> [])
         && bool_decide (canonicalAddr (d_From decoded) <> canonicalAddr (wk_peerEmail wk))
      then skip
      else if bool_decide (wk_localEmail wk <> [])
         && bool_decide (canonicalAddr (d_To decoded) <> canonicalAddr (wk_localEmail wk))
      then skip
      else match inject (d_Packet decoded) w with
           | (w, Some err) =>
             (mkFetchState processed skipped uid decodeFailed, w, Some (Errorf "inject uid" [err]))
           | (w, None) => (mkFetchState (processed ++ [uid]) skipped failed decodeFailed, w, None)
           end
    end
  end.

Definition ceilingUID (failedUID decodeFailedUID : Z) : Z :=
  if (0 <? failedUID) && (0 <? decodeFailedUID) then Z.min failedUID decodeFailedUID
  else if 0 <? failedUID then failedUID
  else decodeFailedUID.

(** The loop over the sorted UIDs. *)
Fixpoint safe_loop (ceiling : Z) (uids : list Z) (computedSafe : Z) : Z :=
  match uids with
  | [] => computedSafe
  | uid :: uids =>
    if uid <=? computedSafe then safe_loop ceiling uids computedSafe
    else if (0 <? ceiling) && (ceiling <? uid) then computedSafe
    else safe_loop ceiling uids uid
  end.

Definition computedSafe (lastUID : Z) (st : fetch_state) : Z :=
  let advanceable := fs_processedUIDs st ++ fs_skippedUIDs st in
  safe_loop (ceilingUID (fs_failedUID st) (fs_decodeFailedUID st))
    (merge_sort Z.le advanceable) lastUID.

(** The errors are logged only. *)
Definition cleanup (uids : list Z) (w : W) : W :=
  let cl := imap_Cleanup (wk_cfg wk) in
  if bool_decide (cl_Mode cl = str "delete") then (DeleteUIDs uids w).1
  else if bool_decide (cl_Mode cl = str "move") then (MoveUIDs uids (cl_TargetFolder cl) w).1
  else w.

Definition fetchAndProcess (lastUID : Z) (folder : bytes) (uidValidity : Z) (w : W)
    : W * (Z * option error) :=
  let '(st, w, err) := FetchSince lastUID process_message (mkFetchState [] [] 0 0) w in
  if bool_decide (is_Some err) && (fs_failedUID st =? 0) then (w, (lastUID, err))
  else
    let safe := computedSafe lastUID st in
    let '(w, checkpointOK) :=
      if lastUID <? safe then
        match AdvanceCheckpoint folder uidValidity safe w with
        | (w, Some _) => (w, false)
        | (w, None) => (w, true)
        end
      else (w, false) in
    let w :=
      if bool_decide (err = None) && checkpointOK then
        let safeUIDs := List.filter (fun uid => uid <=? safe) (fs_processedUIDs st) in
        if bool_decide (safeUIDs = []) then w else cleanup safeUIDs w
      else w in
    (w, (if checkpointOK then safe else lastUID, err)).

(** ** The session loops *)

Section Loops.
Context (folder : bytes) (uidValidity : Z).

Fixpoint pollLoop (sched : list poll_sel) (lastUID : Z) (w : W) : W * ending :=
  match sched with
  | [] => (w, Running)
  | PollCtxDone :: _ => (w, Returned None)
  | PollTick :: sched =>
    match Noop w with
    | (w, Some err) => (w, Returned (Some (Errorf "noop" [err])))
    | (w, None) =>
      match fetchAndProcess lastUID folder uidValidity w with
      | (w, (_, Some err)) => (w, Returned (Some (Errorf "fetch after poll" [err])))
      | (w, (newLastUID, None)) => pollLoop sched newLastUID w
      end
    end
  end.

Fixpoint idleLoop (sched : list idle_round) (polls : list poll_sel)
    (idleErrors lastUID : Z) (w : W) : W * ending :=
  match sched with
  | [] => (w, Running)
  | mkRound cancelled sel ctx_first :: sched =>
    if (cancelled : bool) then (w, Returned None)
    else
      let '(w, ierr) := Idle ctx_first w in
      let fetch (_ : unit) :=
        match fetchAndProcess lastUID folder uidValidity w with
        | (w, (_, Some err)) => (w, Returned (Some (Errorf "fetch after idle" [err])))
        | (w, (newLastUID, None)) => idleLoop sched polls 0 newLastUID w
        end in
      match sel with
      | SelCtxDone => (w, Returned None)
      | SelExists => fetch ()
      | SelIdleDone cancelled =>
        if bool_decide (is_Some ierr) && negb cancelled then
          if maxIdleErrors <=? idleErrors + 1 then pollLoop polls lastUID w
          else idleLoop sched polls (idleErrors + 1) lastUID w
        else fetch ()
      end
  end.
End Loops.

(** The session after a successful dial, without the deferred calls. *)
Definition session (s : schedule) (w : W) : W * ending :=
  let cfg := wk_cfg wk in
  match Login (imap_Username cfg) (imap_Password cfg) w with
  | (w, Some err) => (w, Returned (Some (Errorf "login" [err])))
  | (w, None) =>
    match Select (imap_Folder cfg) w with
    | (w, Err err) => (w, Returned (Some (Errorf "select" [err])))
    | (w, Ok uidValidity) =>
      match GetCheckpoint (imap_Folder cfg) uidValidity w with
      | (w, Err err) => (w, Returned (Some (Errorf "get checkpoint" [err])))
      | (w, Ok lastUID) =>
        let w := callSetOnline true w in
        match fetchAndProcess lastUID (imap_Folder cfg) uidValidity w with
        | (w, (_, Some err)) => (w, Returned (Some (Errorf "catch-up fetch" [err])))
        | (w, (lastUID, None)) =>
          if HasIdle w
          then idleLoop (imap_Folder cfg) uidValidity (sc_idle s) (sc_poll s) 0 lastUID w
          else pollLoop (imap_Folder cfg) uidValidity (sc_poll s) lastUID w
        end
      end
    end
  end.

Definition runSession (s : schedule) (w : W) : W * ending :=
  match dial w with
  | (w, Some err) => (callSetOnline false w, Returned (Some (Errorf "" [errDial; err])))
  | (w, None) =>
    match session s w with
    | (w, Running) => (w, Running)
    | (w, Returned err) => (callSetOnline false (Close w).1, Returned err)
    end
  end.

(** [Run]; every session comes with the outcome of the wait after it
    ([true]: the timer).  Returns the durations waited as well. *)
Fixpoint run_loop (base maxBackoff : Z) (sessions : list (schedule * bool)) (backoff : Z) (w : W)
    : W * list Z * ending :=
  match sessions with
  | [] => (w, [], Running)
  | (s, timer) :: sessions =>
    match runSession s w with
    | (w, Running) => (w, [], Running)
    | (w, Returned err) =>
      if bool_decide (is_Some (ctx_err w)) then (w, [], Returned None)
      else if (timer : bool) then
        let backoff' := if isDial err then Z.min (double backoff) maxBackoff else base in
        let '(w, ds, r) := run_loop base maxBackoff sessions backoff' w in
        (w, backoff :: ds, r)
      else (w, [backoff], Returned None)
    end
  end.

Definition Run (sessions : list (schedule * bool)) (w : W) : W * list Z * ending :=
  let base := wrap64 (imap_ReconnectDelay (wk_cfg wk) * second) in
  let maxBackoff := wrap64 (imap_MaxReconnectDelay (wk_cfg wk) * second) in
  run_loop base maxBackoff sessions base w.

(** The ticker's period in [pollLoop]. *)
Definition poll_interval : Z :=
  let interval := imap_PollInterval (wk_cfg wk) in
  if interval <=? 0 then 60 * second else interval.
End Worker.

(** [session] in its parts: what comes before the catch-up fetch, the fetch, and
    the loop after it. *)
Section SessionParts.
Context {W : Type} {client : Client W} {repo : Repository W}
        {unicode : UnicodeTables} {mail : MailParsers}.
Context (ctx_err : W -> option error) (inject : bytes -> W -> W * option error)
        (setOnline : option (bool -> W -> W)).
Context (wk : Worker).

#[local] Abbreviation folder := (imap_Folder (wk_cfg wk)).
#[local] Abbreviation fetch := (fetchAndProcess ctx_err inject wk).
#[local] Abbreviation idleLoop := (idleLoop ctx_err inject wk folder).
#[local] Abbreviation pollLoop := (pollLoop ctx_err inject wk folder).
#[local] Abbreviation session := (session ctx_err inject setOnline wk).

(** [Login], [Select], [GetCheckpoint] and the online report: the UIDVALIDITY and
    the checkpoint. *)
Definition start_session (w : W) : W * result (Z * Z) :=
  let cfg := wk_cfg wk in
  match Login (imap_Username cfg) (imap_Password cfg) w with
  | (w, Some err) => (w, Err (Errorf "login" [err]))
  | (w, None) =>
    match Select (imap_Folder cfg) w with
    | (w, Err err) => (w, Err (Errorf "select" [err]))
    | (w, Ok uidValidity) =>
      match GetCheckpoint (imap_Folder cfg) uidValidity w with
      | (w, Err err) => (w, Err (Errorf "get checkpoint" [err]))
      | (w, Ok lastUID) => (callSetOnline setOnline true w, Ok (uidValidity, lastUID))
      end
    end
  end.

(** A fetch, and what comes after it. *)
Definition fetch_then (label : string) (v l : Z) (next : Z -> W -> W * ending) (w : W) : W * ending :=
  match fetch l folder v w with
  | (w, (_, Some err)) => (w, Returned (Some (Errorf label [err])))
  | (w, (l, None)) => next l w
  end.

Definition loop (s : schedule) (v l : Z) (w : W) : W * ending :=
  if HasIdle w then idleLoop v (sc_idle s) (sc_poll s) 0 l w else pollLoop v (sc_poll s) l w.

Lemma session_parts s w :
  session s w = match start_session w with
                | (w, Err err) => (w, Returned (Some err))
                | (w, Ok (v, l)) => fetch_then "catch-up fetch" v l (loop s v) w
                end.
Proof.
  unfold Worker.session, start_session, fetch_then, loop.
  destruct (Login _ _ w) as [w1 [e1|]]; [done|]. destruct (Select _ w1) as [w2 [v|e2]]; [|done].
  destruct (GetCheckpoint _ v w2) as [w3 [l|e3]]; [|done].
  by destruct (fetch l _ v _) as [w5 [u [e5|]]].
Qed.
End SessionParts.

(** ** What is done with a message *)

Inductive verdict := VInject (pkt : bytes) | VSkip | VUndecodable.

Section Classify.
Context {unicode : UnicodeTables} {mail : MailParsers} (wk : Worker).

(** The fate of a message, from its text alone: not a transport message, or
    not between the two configured addresses: skipped; damaged: kept; else
    its packet is injected. *)
Definition classify (raw : bytes) : verdict :=
  match Decode raw with
  | Err e => if errors_is ErrNotTransport e then VSkip else VUndecodable
  | Ok d =>
    if (bool_decide (wk_peerEmail wk = [])
        || bool_decide (canonicalAddr (d_From d) = canonicalAddr (wk_peerEmail wk)))
       && (bool_decide (wk_localEmail wk = [])
           || bool_decide (canonicalAddr (d_To d) = canonicalAddr (wk_localEmail wk)))
    then VInject (d_Packet d) else VSkip
  end.

Definition select_uids (p : verdict -> bool) (ms : list (Z * bytes)) : list Z :=
  fst <$> List.filter (fun m => p (classify m.2)) ms.

Definition injects (v : verdict) : bool := match v with VInject _ => true | _ => false end.
Definition skips (v : verdict) : bool := match v with VSkip => true | _ => false end.
Definition fails (v : verdict) : bool := match v with VUndecodable => true | _ => false end.

(** The packets of the messages to inject, with their UIDs. *)
Definition packets (ms : list (Z * bytes)) : list (Z * bytes) :=
  flat_map (fun m => match classify m.2 with VInject pkt => [(m.1, pkt)] | _ => [] end) ms.

Lemma packets_uids ms : fst <$> packets ms = select_uids injects ms.
Proof.
  unfold select_uids, packets. induction ms as [|[u r] ms IH]; [done|].
  cbn [flat_map List.filter fst snd]. destruct (classify r); cbn [app injects]; [|done|done].
  rewrite !fmap_cons. by f_equal.
Qed.

Lemma select_uids_elem p ms u :
  u ∈ select_uids p ms <-> exists raw, (u, raw) ∈ ms /\ p (classify raw) = true.
Proof.
  unfold select_uids. rewrite list_elem_of_fmap. split.
  - intros ([u' raw] & -> & Hin%list_elem_of_In). apply filter_In in Hin as [Hin Hp].
    exists raw. split; [by apply list_elem_of_In | done].
  - intros (raw & Hin & Hp). exists (u, raw). split; [done|].
    apply list_elem_of_In, filter_In. split; [by apply list_elem_of_In | done].
Qed.

(** The lowest UID seen, in the way the handler keeps it. *)
Definition lower_uid (acc uid : Z) : Z := if (acc =? 0) || (uid <? acc) then uid else acc.

Lemma lower_uid_spec l acc :
  Forall (fun u => 0 < u) l -> 0 <= acc ->
  let m := foldl lower_uid acc l in
  (m = 0 <-> acc = 0 /\ l = []) /\ 0 <= m
  /\ (0 < acc -> m <= acc) /\ Forall (fun u => m <= u) l /\ (m = acc \/ m ∈ l).
Proof.
  revert acc. induction l as [|u l IH]; intros acc Hl Ha; cbn [foldl].
  { split; [split; [done | by intros [? _]]|].
    split; [done|]. split; [done|]. split; [constructor | by left]. }
  apply Forall_cons in Hl as [Hu Hl].
  assert (Hlow : 0 < lower_uid acc u /\ lower_uid acc u <= u /\ (0 < acc -> lower_uid acc u <= acc)
                 /\ (lower_uid acc u = acc \/ lower_uid acc u = u)).
  { unfold lower_uid. destruct ((acc =? 0) || (u <? acc)) eqn:E; split_and!; lia. }
  destruct Hlow as (L1 & L2 & L3 & L4).
  destruct (IH (lower_uid acc u) Hl ltac:(lia)) as (I1 & I2 & I3 & I4 & I5).
  split; [rewrite I1; split; [lia | by intros [_ ?]]|].
  split; [done|]. split; [lia|]. split.
  - apply Forall_cons. split; [lia | done].
  - destruct I5 as [->|]; [|right; by right]. destruct L4 as [->| ->]; [by left | right; by left].
Qed.
End Classify.

(** ** The safe checkpoint *)

Lemma safe_loop_bound c l s :
  s <= safe_loop c l s
  /\ (safe_loop c l s = s \/ (safe_loop c l s ∈ l /\ (0 < c -> safe_loop c l s <= c))).
Proof.
  revert s. induction l as [|u l IH]; intros s; cbn [safe_loop]; [split; [lia | by left]|].
  destruct (Z.leb_spec u s).
  - destruct (IH s) as [H1 [H2|[H2 H3]]]; [auto|]. split; [done|]. right. split; [by right | done].
  - destruct ((0 <? c) && (c <? u)) eqn:E; [split; [lia | by left]|].
    destruct (IH u) as [H1 [H2|[H2 H3]]]; split; try lia; right.
    + rewrite H2. split; [by left | lia].
    + split; [by right | done].
Qed.

Lemma safe_loop_max c l s u :
  StronglySorted Z.le l -> u ∈ l -> (c <= 0 \/ u <= c) -> u <= safe_loop c l s.
Proof.
  intros Hs. revert s. induction Hs as [|x l Hs IH Hx]; intros s Hu Hc; [by apply elem_of_nil in Hu|].
  cbn [safe_loop]. rewrite Forall_forall in Hx.
  apply elem_of_cons in Hu as [->|Hu].
  - destruct (Z.leb_spec x s); [pose proof (safe_loop_bound c l s); lia|].
    replace ((0 <? c) && (c <? x)) with false by lia.
    pose proof (safe_loop_bound c l x). lia.
  - specialize (Hx u Hu). destruct (Z.leb_spec x s); [auto|].
    replace ((0 <? c) && (c <? x)) with false by lia. auto.
Qed.

(** The UIDs a run of the handler lets the checkpoint pass. *)
Definition advanceable (st : fetch_state) (u : Z) : Prop :=
  u ∈ fs_processedUIDs st \/ u ∈ fs_skippedUIDs st.

Lemma merge_sort_advanceable st u :
  u ∈ merge_sort Z.le (fs_processedUIDs st ++ fs_skippedUIDs st) <-> advanceable st u.
Proof. rewrite (merge_sort_Permutation Z.le _). apply elem_of_app. Qed.

(** The lower of the two failures, 0 for none. *)
Lemma ceilingUID_spec a b :
  0 <= a -> 0 <= b ->
  let c := ceilingUID a b in
  0 <= c /\ (0 < a -> 0 < c <= a) /\ (0 < b -> 0 < c <= b) /\ (c = a \/ c = b).
Proof. intros Ha Hb. unfold ceilingUID. destruct (Z.ltb_spec 0 a), (Z.ltb_spec 0 b); simpl; lia. Qed.

Lemma computedSafe_bound lastUID st :
  let s := computedSafe lastUID st in
  let c := ceilingUID (fs_failedUID st) (fs_decodeFailedUID st) in
  lastUID <= s /\ (s = lastUID \/ (advanceable st s /\ (0 < c -> s <= c))).
Proof.
  cbv zeta. unfold computedSafe.
  destruct (safe_loop_bound (ceilingUID (fs_failedUID st) (fs_decodeFailedUID st))
              (merge_sort Z.le (fs_processedUIDs st ++ fs_skippedUIDs st)) lastUID)
    as [H1 [H2|[H2 H3]]]; [auto|]. rewrite merge_sort_advanceable in H2. auto.
Qed.

(** No UID that may be passed is left out. *)
Lemma computedSafe_max lastUID st u :
  0 <= fs_failedUID st -> 0 <= fs_decodeFailedUID st -> advanceable st u ->
  ~ ((0 < fs_failedUID st < u) \/ (0 < fs_decodeFailedUID st < u)) -> u <= computedSafe lastUID st.
Proof.
  intros Hf Hd Hu Hb. destruct (ceilingUID_spec _ _ Hf Hd) as (C0 & C1 & C2 & C3).
  unfold computedSafe. apply safe_loop_max; [| by apply merge_sort_advanceable | lia].
  apply Sorted_StronglySorted; [intros ?; lia|]. apply Sorted_merge_sort. intros ? ?. lia.
Qed.

(** C11: The checkpoint [fetchAndProcess] computes is the greatest UID it may
    advance to: it is the old one or a processed or skipped UID, never above the
    lowest failed one, and no processed or skipped UID up to the lowest failure
    lies above it, in whatever order the server delivered them. *)
Theorem computedSafe_greatest lastUID st :
  0 <= fs_failedUID st -> 0 <= fs_decodeFailedUID st ->
  let s := computedSafe lastUID st in
  let blocked u := (0 < fs_failedUID st < u) \/ (0 < fs_decodeFailedUID st < u) in
  lastUID <= s
  /\ (s = lastUID \/ (advanceable st s /\ ~ blocked s))
  /\ (forall u, advanceable st u -> ~ blocked u -> u <= s).
Proof.
  intros Hf Hd. cbv zeta.
  destruct (ceilingUID_spec _ _ Hf Hd) as (C0 & C1 & C2 & C3).
  destruct (computedSafe_bound lastUID st) as [H1 H2]. split_and!; [done| |].
  - destruct H2 as [H2|[H2 H3]]; [by left|]. right. split; [done|]. lia.
  - intros u. by apply computedSafe_max.
Qed.

Lemma computedSafe_greatest_witness :
  computedSafe 3 (mkFetchState [9; 5; 12] [4; 7] 10 0) = 9
  /\ (forall u, advanceable (mkFetchState [9; 5; 12] [4; 7] 10 0) u ->
                ~ ((0 < 10 < u) \/ (0 < 0 < u)) -> u <= 9).
Proof.
  split; [vm_compute; reflexivity|].
  pose proof (computedSafe_greatest 3 (mkFetchState [9; 5; 12] [4; 7] 10 0)
                ltac:(simpl; lia) ltac:(simpl; lia)) as (_ & _ & H).
  exact H.
Defined.

(** ** The world of the worker *)

(** What a step of the worker may change besides a checkpoint: the packets the
    interface accepted, the UIDs the server was asked to remove, the calls of
    the online callback. *)
Record view := mkView { vw_injected : list bytes; vw_removed : list Z; vw_online : list bool }.

(** The parts of the world are independent of one another: the client's own
    steps, the injection, the repository and the callback each change their part
    only.  [inject] is [pipe.InjectWithRetry] on the interface: a [nil] result
    means one accepted delivery, an error none. *)
Class WorkerWorld (W : Type) `{ClientSpec W} `{RepositorySpec W}
    (inject : bytes -> W -> W * option error) (dial : W -> W * option error)
    (setOnline : option (bool -> W -> W)) := {
  injected : W -> list bytes;
  online_calls : W -> list bool;
  the_view w := mkView (injected w) (removed w) (online_calls w);
  same_cp w w' := forall f v, rep_cp w' f v = rep_cp w f v;
  ww_frame w w' : cl_frame w w' ->
    injected w' = injected w /\ online_calls w' = online_calls w /\ same_cp w w';
  ww_inject pkt w :
    let r := inject pkt w in
    the_view r.1 = mkView (injected w ++ match r.2 with None => [pkt] | Some _ => [] end)
                     (removed w) (online_calls w)
    /\ same_cp w r.1;
  ww_advance f v u w : the_view (AdvanceCheckpoint f v u w).1 = the_view w;
  ww_get f v w : the_view (GetCheckpoint f v w).1 = the_view w;
  ww_dial w : the_view (dial w).1 = the_view w /\ same_cp w (dial w).1;
  ww_online b w :
    the_view (callSetOnline setOnline b w)
    = mkView (injected w) (removed w) (online_calls w ++ [b])
    /\ same_cp w (callSetOnline setOnline b w);
}.

Section WorkerSpec.
Context `{WorkerWorld W inject dial setOnline} {unicode : UnicodeTables} {mail : MailParsers}.
Context (ctx_err : W -> option error) (wk : Worker).
Implicit Types (w : W) (ms : list (Z * bytes)).

Abbreviation process := (process_message ctx_err inject wk).
Abbreviation fetch := (fetchAndProcess ctx_err inject wk).

(** The state of the handler after the messages [hs], all of them handled. *)
Definition absorb (st : fetch_state) (hs : list (Z * bytes)) : fetch_state :=
  mkFetchState (fs_processedUIDs st ++ select_uids wk injects hs)
    (fs_skippedUIDs st ++ select_uids wk skips hs)
    (fs_failedUID st)
    (foldl lower_uid (fs_decodeFailedUID st) (select_uids wk fails hs)).

Definition with_failed (uid : Z) (st : fetch_state) : fetch_state :=
  mkFetchState (fs_processedUIDs st) (fs_skippedUIDs st) uid (fs_decodeFailedUID st).

Lemma select_uids_cons p uid raw hs :
  select_uids wk p ((uid, raw) :: hs)
  = (if p (classify wk raw) then [uid] else []) ++ select_uids wk p hs.
Proof. unfold select_uids. cbn. by destruct (p (classify wk raw)). Qed.

Lemma packets_cons uid raw hs : packets wk ((uid, raw) :: hs) = packets wk [(uid, raw)] ++ packets wk hs.
Proof. unfold packets. cbn. by rewrite app_nil_r. Qed.

Lemma absorb_nil st : absorb st [] = st.
Proof. destruct st. unfold absorb. cbn. by rewrite !app_nil_r. Qed.

Lemma absorb_cons st uid raw hs : absorb st ((uid, raw) :: hs) = absorb (absorb st [(uid, raw)]) hs.
Proof.
  unfold absorb. rewrite !select_uids_cons. cbn [select_uids fs_processedUIDs fs_skippedUIDs
    fs_failedUID fs_decodeFailedUID]. cbn. rewrite !app_nil_r, <- !app_assoc, foldl_app. done.
Qed.

(** One call of the handler. *)
Lemma process_spec uid raw st w :
  let '(st', w', e) := process uid raw st w in
  same_cp w w'
  /\ match e with
     | None => st' = absorb st [(uid, raw)]
               /\ the_view w' = mkView (injected w ++ (packets wk [(uid, raw)]).*2)
                                  (removed w) (online_calls w)
     | Some err =>
       the_view w' = the_view w
       /\ (st' = st \/ (st' = with_failed uid st /\ injects (classify wk raw) = true))
     end.
Proof.
  unfold process_message. destruct (ctx_err w); [by split; [|split; [|left]]|].
  destruct st as [pr sk fa de].
  assert (Hskip : classify wk raw = VSkip ->
    mkFetchState pr (sk ++ [uid]) fa de = absorb (mkFetchState pr sk fa de) [(uid, raw)]
    /\ the_view w = mkView (injected w ++ (packets wk [(uid, raw)]).*2) (removed w) (online_calls w)).
  { intros Hc. unfold absorb, packets. rewrite !select_uids_cons. cbn. rewrite Hc. cbn.
    by rewrite !app_nil_r. }
  destruct (Decode raw) as [d|derr] eqn:Ed.
  2:{ destruct (errors_is ErrNotTransport derr) eqn:Ee.
      - split; [done|]. apply Hskip. unfold classify. by rewrite Ed, Ee.
      - split; [done|]. assert (Hc : classify wk raw = VUndecodable)
          by (unfold classify; by rewrite Ed, Ee).
        unfold absorb, packets. rewrite !select_uids_cons. cbn. rewrite Hc. cbn.
        by rewrite !app_nil_r. }
  assert (Hcl : classify wk raw
    = if negb (bool_decide (wk_peerEmail wk <> [])
               && bool_decide (canonicalAddr (d_From d) <> canonicalAddr (wk_peerEmail wk)))
         && negb (bool_decide (wk_localEmail wk <> [])
                  && bool_decide (canonicalAddr (d_To d) <> canonicalAddr (wk_localEmail wk)))
      then VInject (d_Packet d) else VSkip).
  { unfold classify. rewrite Ed, !negb_andb, !bool_decide_not, !negb_involutive. done. }
  destruct (bool_decide (wk_peerEmail wk <> []) && _) in Hcl |- *; [by split; [|apply Hskip]|].
  destruct (bool_decide (wk_localEmail wk <> []) && _) in Hcl |- *; [by split; [|apply Hskip]|].
  cbn in Hcl. pose proof (ww_inject (d_Packet d) w) as [Hi Hcp].
  destruct (inject (d_Packet d) w) as [w1 [ierr|]]; cbn [fst snd] in *; split; try done.
  - rewrite app_nil_r in Hi. split; [done|]. right. rewrite Hcl. done.
  - rewrite Hi. unfold absorb, packets. rewrite !select_uids_cons. cbn. rewrite Hcl. cbn.
    by rewrite !app_nil_r.
Qed.

Lemma same_cp_trans w1 w2 w3 : same_cp w1 w2 -> same_cp w2 w3 -> same_cp w1 w3.
Proof. intros H12 H23 f v. by rewrite H23, H12. Qed.

Lemma view_fields w v :
  the_view w = v ->
  injected w = vw_injected v /\ removed w = vw_removed v /\ online_calls w = vw_online v.
Proof. by intros <-. Qed.

(** How a fetch went over the messages the server sent: all were handled, an
    injection failed, or the context ended. *)
Inductive fetch_end :=
  | FetchAll
  | FetchInjectFailed (uid : Z) (raw : bytes) (unseen : list (Z * bytes))
  | FetchCancelled (unseen : list (Z * bytes)).

Definition unhandled (e : fetch_end) : list (Z * bytes) :=
  match e with
  | FetchAll => []
  | FetchInjectFailed uid raw unseen => (uid, raw) :: unseen
  | FetchCancelled unseen => unseen
  end.

Lemma deliver_spec ms tail st w :
  let '(st', w', e) := deliver process ms tail st w in
  exists hs how,
    ms = hs ++ unhandled how
    /\ same_cp w w'
    /\ the_view w' = mkView (injected w ++ (packets wk hs).*2) (removed w) (online_calls w)
    /\ match how with
       | FetchAll => st' = absorb st hs /\ e = tail
       | FetchInjectFailed uid raw _ =>
         st' = with_failed uid (absorb st hs) /\ injects (classify wk raw) = true /\ is_Some e
       | FetchCancelled _ => st' = absorb st hs /\ is_Some e
       end.
Proof.
  revert st w. induction ms as [|[uid raw] ms IH]; intros st w; cbn [deliver].
  { exists [], FetchAll. cbn. rewrite absorb_nil, app_nil_r. by repeat split. }
  pose proof (process_spec uid raw st w) as Hp.
  destruct (process uid raw st w) as [[st1 w1] [err|]].
  - destruct Hp as (Hcp & Hv & [-> | [-> Hi]]); exists [].
    + exists (FetchCancelled ((uid, raw) :: ms)). cbn. rewrite app_nil_r, absorb_nil.
      by repeat split.
    + exists (FetchInjectFailed uid raw ms). cbn. rewrite app_nil_r, absorb_nil.
      by repeat split.
  - destruct Hp as (Hcp & -> & Hv). specialize (IH (absorb st [(uid, raw)]) w1).
    destruct (deliver process ms tail _ w1) as [[st2 w2] e].
    destruct IH as (hs & how & Hms & Hcp2 & Hv2 & Hend).
    exists ((uid, raw) :: hs), how. rewrite absorb_cons.
    split; [by rewrite Hms|]. split; [exact (same_cp_trans _ _ _ Hcp Hcp2)|]. split; [|done].
    apply view_fields in Hv as (Hv_i & Hv_r & Hv_o). cbn [vw_injected vw_removed vw_online] in Hv_i, Hv_r, Hv_o.
    rewrite Hv2, Hv_i, Hv_r, Hv_o. by rewrite (packets_cons uid raw hs), fmap_app, app_assoc.
Qed.

(** The cleanup mode is one that removes messages. *)
Definition cleans : Prop :=
  let m := cl_Mode (imap_Cleanup (wk_cfg wk)) in m = str "delete" \/ m = str "move".

Lemma cleanup_spec uids w :
  same_cp w (cleanup wk uids w)
  /\ injected (cleanup wk uids w) = injected w
  /\ online_calls (cleanup wk uids w) = online_calls w
  /\ (removed (cleanup wk uids w) = removed w
      \/ (removed (cleanup wk uids w) = removed w ++ uids /\ cleans)).
Proof.
  unfold cleanup, cleans. repeat case_bool_decide.
  - destruct (delete_removed uids w) as [(Hi & Ho & Hc)%ww_frame Hr]. tauto.
  - destruct (move_removed uids (cl_TargetFolder (imap_Cleanup (wk_cfg wk))) w)
      as [(Hi & Ho & Hc)%ww_frame Hr]. tauto.
  - split; [done|]. auto.
Qed.

(** A UID above a message that is to be fetched again: an undecodable one of
    [hs], or the one whose injection failed. *)
Definition held_back (hs : list (Z * bytes)) (how : fetch_end) (u : Z) : Prop :=
  (exists f, f ∈ select_uids wk fails hs /\ f < u)
  \/ match how with FetchInjectFailed f _ _ => f < u | _ => False end.

(** The fetch ended early, for another reason than an injection. *)
Definition cut_short (e : option error) (how : fetch_end) : Prop :=
  e <> None /\ match how with FetchInjectFailed _ _ _ => False | _ => True end.

(** The whole of [fetchAndProcess]: the messages handled, how the fetch went,
    what was injected, persisted and removed. *)
Record fetch_report (lastUID : Z) (folder : bytes) (v : Z) (w w' : W) (u : Z)
    (e : option error) (hs : list (Z * bytes)) (how : fetch_end) : Prop := {
  fr_fetched : fetched lastUID w = hs ++ unhandled how;
  fr_injected : injected w' = injected w ++ (packets wk hs).*2;
  fr_online : online_calls w' = online_calls w;
  fr_error : e = None <-> how = FetchAll /\ fetch_tail lastUID w = None;
  fr_kind : match how with
            | FetchInjectFailed _ raw _ => injects (classify wk raw) = true
            | _ => True
            end;
  fr_uid : u = lastUID
           \/ (lastUID < u
               /\ (u ∈ select_uids wk injects hs \/ u ∈ select_uids wk skips hs)
               /\ Forall (fun uid => u <= uid) (select_uids wk fails hs)
               /\ match how with
                  | FetchAll => e = None
                  | FetchInjectFailed uid _ _ => u <= uid
                  | FetchCancelled _ => False
                  end);
  fr_progress : (forall uid, uid ∈ select_uids wk injects hs \/ uid ∈ select_uids wk skips hs ->
                   ~ held_back hs how uid -> uid <= u)
                \/ (u = lastUID
                    /\ (cut_short e how
                        \/ exists s w1, (AdvanceCheckpoint folder v s w1).2 <> None
                             /\ w' = (AdvanceCheckpoint folder v s w1).1));
  fr_cp : rep_cp w' folder v = if lastUID <? u then Z.max (rep_cp w folder v) u else rep_cp w folder v;
  fr_other : forall f' v', (f', v') <> (folder, v) -> rep_cp w' f' v' <= rep_cp w f' v';
  fr_removed : removed w' = removed w
               \/ exists uids, removed w' = removed w ++ uids /\ cleans /\ e = None /\ lastUID < u
                    /\ Forall (fun uid => uid ∈ select_uids wk injects hs /\ uid <= u) uids;
}.

Lemma fetched_pos lastUID w u raw : 0 <= lastUID -> (u, raw) ∈ fetched lastUID w -> 0 < u < 2 ^ 32.
Proof. intros Hl Hin%fetched_range. lia. Qed.

Lemma select_uids_pos p lastUID w hs rest :
  0 <= lastUID -> fetched lastUID w = hs ++ rest ->
  Forall (fun u => 0 < u < 2 ^ 32) (select_uids wk p hs).
Proof.
  intros Hl Hf. apply Forall_forall. intros u (raw & Hin & _)%select_uids_elem.
  apply (fetched_pos lastUID w u raw Hl). rewrite Hf. apply elem_of_app. by left.
Qed.

(** The state of the handler at the end of a fetch. *)
Definition final_state (hs : list (Z * bytes)) (how : fetch_end) : fetch_state :=
  let st := absorb (mkFetchState [] [] 0 0) hs in
  match how with FetchInjectFailed uid _ _ => with_failed uid st | _ => st end.

Lemma final_state_fields hs how :
  fs_processedUIDs (final_state hs how) = select_uids wk injects hs
  /\ fs_skippedUIDs (final_state hs how) = select_uids wk skips hs
  /\ fs_decodeFailedUID (final_state hs how) = foldl lower_uid 0 (select_uids wk fails hs)
  /\ fs_failedUID (final_state hs how)
     = match how with FetchInjectFailed uid _ _ => uid | _ => 0 end.
Proof. by destruct how. Qed.

Lemma final_state_failures lastUID w hs how :
  0 <= lastUID -> fetched lastUID w = hs ++ unhandled how ->
  let d := fs_decodeFailedUID (final_state hs how) in
  let f := fs_failedUID (final_state hs how) in
  0 <= d /\ 0 <= f
  /\ (d = 0 /\ select_uids wk fails hs = []
      \/ 0 < d /\ d ∈ select_uids wk fails hs /\ Forall (fun uid => d <= uid) (select_uids wk fails hs))
  /\ match how with FetchInjectFailed uid _ _ => f = uid /\ 0 < uid | _ => f = 0 end.
Proof.
  intros Hl Hf. destruct (final_state_fields hs how) as (_ & _ & -> & ->). cbv zeta.
  pose proof (select_uids_pos fails lastUID w hs _ Hl Hf) as Hfp.
  destruct (lower_uid_spec (select_uids wk fails hs) 0) as (L1 & L2 & _ & L4 & L5);
    [eapply Forall_impl; [exact Hfp | cbn; lia] | lia |].
  set (d := foldl lower_uid 0 (select_uids wk fails hs)) in *.
  assert (Hh : match how with FetchInjectFailed uid _ _ => 0 < uid | _ => True end).
  { destruct how as [|uid raw uns|]; [done | | done].
    apply (fetched_pos lastUID w uid raw Hl). rewrite Hf. apply elem_of_app. right. by left. }
  split_and!; [done | destruct how; lia | | by destruct how].
  destruct (Z.eq_dec d 0) as [E|E]; [left; split; [done|]; by apply L1 in E as [_ E]|].
  right. destruct L5 as [L5|L5]; [done|]. split_and!; [lia | done | done].
Qed.

(** What the computed checkpoint is after a fetch. *)
Lemma safe_spec lastUID w hs how :
  0 <= lastUID -> fetched lastUID w = hs ++ unhandled how ->
  let s := computedSafe lastUID (final_state hs how) in
  s = lastUID
  \/ (lastUID < s < 2 ^ 32
      /\ (s ∈ select_uids wk injects hs \/ s ∈ select_uids wk skips hs)
      /\ Forall (fun uid => s <= uid) (select_uids wk fails hs)
      /\ match how with FetchInjectFailed uid _ _ => s <= uid | _ => True end).
Proof.
  intros Hl Hf. cbv zeta.
  pose proof (select_uids_pos injects lastUID w hs _ Hl Hf) as Hip.
  pose proof (select_uids_pos skips lastUID w hs _ Hl Hf) as Hsp.
  rewrite Forall_forall in Hip, Hsp.
  destruct (final_state_fields hs how) as (Hp & Hs & _ & _).
  destruct (final_state_failures lastUID w hs how Hl Hf) as (D0 & F0 & HD & HF).
  destruct (computedSafe_bound lastUID (final_state hs how)) as [B1 [B2|[B2 B3]]]; [by left|].
  set (s := computedSafe _ _) in *.
  destruct (Z.eq_dec s lastUID) as [|Hne]; [by left|]. right.
  destruct (ceilingUID_spec _ _ F0 D0) as (C0 & C1 & C2 & _).
  unfold advanceable in B2. rewrite Hp, Hs in B2. split_and!; [lia | | done | |].
  - destruct B2 as [B2|B2]; [apply Hip in B2 | apply Hsp in B2]; lia.
  - destruct HD as [[_ ->]|(HD & _ & Hle)]; [constructor|].
    eapply Forall_impl; [exact Hle|]. cbn. lia.
  - destruct how as [|uid raw uns|]; [done | | done]. lia.
Qed.

Lemma safe_progress lastUID w hs how uid :
  0 <= lastUID -> fetched lastUID w = hs ++ unhandled how ->
  uid ∈ select_uids wk injects hs \/ uid ∈ select_uids wk skips hs ->
  ~ held_back hs how uid -> uid <= computedSafe lastUID (final_state hs how).
Proof.
  intros Hl Hf Hu Hb. destruct (final_state_fields hs how) as (Hp & Hs & _ & _).
  destruct (final_state_failures lastUID w hs how Hl Hf) as (D0 & F0 & HD & HF).
  apply computedSafe_max; [done | done | unfold advanceable; by rewrite Hp, Hs|].
  intros Hbl. apply Hb. destruct Hbl as [Hbl|Hbl].
  - right. destruct how; lia.
  - left. destruct HD as [[? _]|(_ & HD & _)]; [lia|]. eexists. split; [exact HD | lia].
Qed.

Lemma advance_spec folder v u w :
  rep_folder folder -> is_u32 v -> is_u32 u ->
  let r := AdvanceCheckpoint folder v u w in
  injected r.1 = injected w /\ removed r.1 = removed w /\ online_calls r.1 = online_calls w
  /\ rep_cp r.1 folder v
     = match r.2 with None => Z.max (rep_cp w folder v) u | Some _ => rep_cp w folder v end
  /\ (forall f' v', (f', v') <> (folder, v) -> rep_cp r.1 f' v' <= rep_cp w f' v').
Proof.
  intros Hf Hv Hu. cbv zeta.
  pose proof (ww_advance folder v u w) as (Ai & Ar & Ao)%view_fields.
  split; [done|]. split; [done|]. split; [done|]. split.
  - destruct (AdvanceCheckpoint folder v u w).2 as [e|] eqn:E.
    + by eapply advance_err.
    + by apply advance_ok.
  - intros f' v'. by apply advance_other.
Qed.

(** The cleanup at the end of [fetchAndProcess]. *)
Lemma cleanup_gate_spec (e : option error) s processed w :
  let uids := List.filter (fun uid => uid <=? s) processed in
  let w' := if bool_decide (e = None)
            then if bool_decide (uids = []) then w else cleanup wk uids w else w in
  same_cp w w' /\ injected w' = injected w /\ online_calls w' = online_calls w
  /\ (removed w' = removed w
      \/ exists R, removed w' = removed w ++ R /\ cleans /\ e = None
           /\ Forall (fun uid => uid ∈ processed /\ uid <= s) R).
Proof.
  cbv zeta. set (uids := List.filter _ _).
  destruct (bool_decide (e = None)) eqn:Hen; [|by split; [|auto]].
  destruct (bool_decide (uids = [])); [by split; [|auto]|].
  apply bool_decide_eq_true in Hen. destruct (cleanup_spec uids w) as (K1 & K2 & K3 & K4).
  split; [done|]. split; [done|]. split; [done|].
  destruct K4 as [K4|[K4 K5]]; [by left|]. right. exists uids. split_and!; try done.
  apply Forall_forall. intros uid Hu%list_elem_of_In. apply filter_In in Hu as [Hu1 Hu2].
  split; [by apply list_elem_of_In | lia].
Qed.

(** The fetch itself, before the checkpoint is computed. *)
Lemma fetch_phase_spec lastUID w :
  let '(st, w1, e) := FetchSince lastUID process (mkFetchState [] [] 0 0) w in
  exists hs how,
    fetched lastUID w = hs ++ unhandled how /\ st = final_state hs how
    /\ injected w1 = injected w ++ (packets wk hs).*2 /\ removed w1 = removed w
    /\ online_calls w1 = online_calls w /\ same_cp w w1
    /\ (e = None <-> how = FetchAll /\ fetch_tail lastUID w = None)
    /\ match how with
       | FetchInjectFailed _ raw _ => injects (classify wk raw) = true
       | _ => True
       end.
Proof.
  rewrite fetch_deliver.
  destruct (fetch_start_frame lastUID w) as [(Si & So & Sc)%ww_frame Sr].
  set (w0 := fetch_start lastUID w) in *.
  pose proof (deliver_spec (fetched lastUID w) (fetch_tail lastUID w) (mkFetchState [] [] 0 0) w0) as Hd.
  destruct (deliver _ _ _ _ w0) as [[st w1] e].
  destruct Hd as (hs & how & Hms & Hc1 & (Vi & Vr & Vo)%view_fields & Hend).
  cbn [vw_injected vw_removed vw_online] in *. rewrite Si in Vi. rewrite Sr in Vr. rewrite So in Vo.
  exists hs, how. split; [done|]. split; [by destruct how; destruct Hend|].
  split_and!; [done | done | done | exact (same_cp_trans _ _ _ Sc Hc1) | |].
  - destruct how; destruct Hend as [_ Hend]; [subst e; tauto | |];
      [destruct Hend as [_ [? ->]] | destruct Hend as [? ->]]; split; done || (by intros [? _]).
  - by destruct how; [| destruct Hend as (_ & ? & _) |].
Qed.

(** The test before the checkpoint is computed tells a fetch that was cut short. *)
Lemma cut_short_test lastUID w hs how (e : option error) :
  0 <= lastUID -> fetched lastUID w = hs ++ unhandled how ->
  bool_decide (is_Some e) && (fs_failedUID (final_state hs how) =? 0) = true <-> cut_short e how.
Proof.
  intros Hl Hf. destruct (final_state_failures lastUID w hs how Hl Hf) as (_ & _ & _ & HF).
  unfold cut_short. rewrite andb_true_iff, bool_decide_eq_true, Z.eqb_eq, not_eq_None_Some.
  destruct how; intuition lia.
Qed.

Lemma fetchAndProcess_spec lastUID folder v w :
  rep_folder folder -> is_u32 v -> 0 <= lastUID ->
  let '(w', (u, e)) := fetch lastUID folder v w in
  exists hs how, fetch_report lastUID folder v w w' u e hs how.
Proof.
  intros Hf Hv Hl. unfold fetchAndProcess.
  pose proof (fetch_phase_spec lastUID w) as Hph.
  destruct (FetchSince lastUID process _ w) as [[st w1] e].
  destruct Hph as (hs & how & Hms & -> & Vi & Vr & Vo & Hsc & He & Hk).
  pose proof (Hsc folder v) as Hcp1.
  assert (Hoth : forall f' v', (f', v') <> (folder, v) -> rep_cp w1 f' v' <= rep_cp w f' v')
    by (intros f' v' _; by rewrite Hsc).
  pose proof (cut_short_test lastUID w hs how e Hl Hms) as Hcut.
  destruct (bool_decide (is_Some e) && _).
  { exists hs, how. split; try done; [by left | right; split; [done | left; by apply Hcut] | by rewrite Z.ltb_irrefl | by left]. }
  pose proof (safe_spec lastUID w hs how Hl Hms) as Hs. cbv zeta in Hs.
  pose proof (fun uid => safe_progress lastUID w hs how uid Hl Hms) as Hprog.
  set (s := computedSafe lastUID (final_state hs how)) in *.
  destruct (Z.ltb_spec lastUID s) as [Hlt|Hge].
  2:{ rewrite andb_false_r. destruct Hs as [Hs|Hs]; [|lia].
      exists hs, how. split; try done; [by left | left; intros ? ? ?; rewrite <- Hs; by apply Hprog
                       | by rewrite Z.ltb_irrefl | by left]. }
  destruct Hs as [Hs|(Hr & Hin & Hfl & Hwh)]; [lia|].
  pose proof (advance_spec folder v s w1 Hf Hv ltac:(unfold is_u32; lia)) as (Ai & Ar & Ao & Ac & Aoth).
  destruct (AdvanceCheckpoint folder v s w1) as [w2 [cpErr|]] eqn:Ead; cbn [fst snd] in *;
    (assert (Hoth2 : forall f' v', (f', v') <> (folder, v) -> rep_cp w2 f' v' <= rep_cp w f' v')
       by (intros f' v' Hne; etrans; [by apply Aoth | by apply Hoth])).
  { rewrite andb_false_r. exists hs, how. split; try done; try congruence; [by left | | | left; congruence].
    - right. split; [done|]. right. exists s, w1. by rewrite Ead.
    - by rewrite Z.ltb_irrefl, Ac. }
  rewrite andb_true_r.
  pose proof (cleanup_gate_spec e s (fs_processedUIDs (final_state hs how)) w2) as (K1 & K2 & K3 & K4).
  set (w3 := if bool_decide (e = None) then _ else _) in *.
  assert (Hoth3 : forall f' v', (f', v') <> (folder, v) -> rep_cp w3 f' v' <= rep_cp w f' v')
    by (intros f' v' Hne; rewrite K1; by apply Hoth2).
  exists hs, how. split; try done; try congruence.
  - right. split_and!; try done. destruct (decide (e = None)) as [->|Hne].
    { by destruct (proj1 He eq_refl) as [-> _]. }
    destruct how; [| done |]; discriminate (proj2 Hcut (conj Hne I)).
  - by left.
  - rewrite K1, Ac, Hcp1. by replace (lastUID <? s) with true by lia.
  - destruct K4 as [K4|(uids & K4 & K5 & K6 & K7)]; [left; congruence|]. right.
    destruct (final_state_fields hs how) as (Hpr & _). rewrite Hpr in K7.
    exists uids. split_and!; try done. congruence.
Qed.

(** *** No message is lost *)

Lemma nodup_uid ms uid raw raw' :
  NoDup ms.*1 -> (uid, raw) ∈ ms -> (uid, raw') ∈ ms -> raw = raw'.
Proof.
  induction ms as [|[u r] ms IH]; [by intros _ ?%elem_of_nil|].
  rewrite fmap_cons, NoDup_cons. intros [Hn Hd] E1%elem_of_cons E2%elem_of_cons.
  assert (Hnot : forall x, (u, x) ∉ ms).
  { intros x Hx. apply Hn. apply list_elem_of_fmap. by exists (u, x). }
  destruct E1 as [[= -> ->]|E1], E2 as [E2|E2]; [congruence | by apply Hnot in E2 | | by apply IH].
  injection E2 as -> ->. by apply Hnot in E1.
Qed.

(** A message handled and at or below the new checkpoint was dealt with. *)
Definition dealt_with (w w' : W) (raw : bytes) : Prop :=
  match classify wk raw with
  | VInject pkt => exists new, injected w' = injected w ++ new /\ pkt ∈ new
  | VSkip => True
  | VUndecodable => False
  end.

Lemma report_dealt_with lastUID folder v w w' u e hs how uid raw :
  fetch_report lastUID folder v w w' u e hs how ->
  NoDup (fetched lastUID w).*1 -> (uid, raw) ∈ hs -> uid <= u -> dealt_with w w' raw.
Proof.
  intros Hr Hnd Hin Hu. pose proof (fr_fetched _ _ _ _ _ _ _ _ _ Hr) as Hf.
  assert (Hall : forall m, m ∈ hs -> m ∈ fetched lastUID w)
    by (intros m Hm; rewrite Hf; apply elem_of_app; by left).
  assert (Hlow : lastUID < uid) by (eapply (fetched_range lastUID w uid raw), Hall, Hin).
  unfold dealt_with. destruct (classify wk raw) as [pkt| |] eqn:Ec; [| done |].
  - exists (packets wk hs).*2. split; [apply (fr_injected _ _ _ _ _ _ _ _ _ Hr)|].
    apply list_elem_of_fmap. exists (uid, pkt). split; [done|].
    unfold packets. apply list_elem_of_In, in_flat_map. exists (uid, raw).
    split; [by apply list_elem_of_In|]. cbn. rewrite Ec. by left.
  - destruct (fr_uid _ _ _ _ _ _ _ _ _ Hr) as [->|(_ & Hadv & Hfl & _)]; [lia|].
    rewrite Forall_forall in Hfl.
    assert (Hfail : uid ∈ select_uids wk fails hs)
      by (apply select_uids_elem; exists raw; by rewrite Ec).
    specialize (Hfl uid Hfail). assert (u = uid) as -> by lia.
    destruct Hadv as [(raw' & Hin' & Hc')%select_uids_elem|(raw' & Hin' & Hc')%select_uids_elem];
      rewrite (nodup_uid _ uid raw' raw Hnd (Hall _ Hin') (Hall _ Hin)), Ec in Hc'; done.
Qed.

Lemma fetch_no_loss_lemma lastUID folder v w :
  rep_folder folder -> is_u32 v -> 0 <= lastUID ->
  NoDup (fetched lastUID w).*1 ->
  let '(w', (u, e)) := fetch lastUID folder v w in
  (e = None \/ StronglySorted Z.lt (fetched lastUID w).*1) ->
  forall uid raw, (uid, raw) ∈ fetched lastUID w -> uid <= u -> dealt_with w w' raw.
Proof.
  intros Hfo Hv Hl Hnd. pose proof (fetchAndProcess_spec lastUID folder v w Hfo Hv Hl) as Hs.
  destruct (fetch lastUID folder v w) as [w' [u e]]. destruct Hs as (hs & how & Hr).
  intros Hord uid raw Hin Hu. pose proof (fr_fetched _ _ _ _ _ _ _ _ _ Hr) as Hf.
  assert (Hlow : lastUID < uid) by by eapply fetched_range.
  assert (Hin' := Hin). rewrite Hf in Hin'. apply elem_of_app in Hin' as [Hin'|Hin'].
  { by eapply report_dealt_with. }
  exfalso. destruct (fr_uid _ _ _ _ _ _ _ _ _ Hr) as [->|(_ & Hadv & _ & Hwh)]; [lia|].
  destruct how as [|fuid fraw unseen|]; [by apply elem_of_nil in Hin'| |done].
  destruct Hord as [->|Hord].
  { destruct (fr_error _ _ _ _ _ _ _ _ _ Hr) as [Hfe _]. by destruct (Hfe eq_refl). }
  rewrite Hf, fmap_app in Hord. cbn [unhandled] in *. rewrite fmap_cons in Hord. cbn [fst] in Hord.
  apply StronglySorted_app in Hord as (Hcross & _ & Htail).
  assert (Hge : fuid <= uid).
  { apply elem_of_cons in Hin' as [[= -> ->]|Hin']; [lia|].
    apply StronglySorted_inv in Htail as [_ Htail]. rewrite Forall_forall in Htail.
    specialize (Htail uid). cut (fuid < uid); [lia|]. apply Htail.
    apply list_elem_of_fmap. by exists (uid, raw). }
  assert (u = fuid) as -> by lia.
  assert (Hu' : fuid ∈ hs.*1).
  { destruct Hadv as [(r' & Hr' & _)%select_uids_elem|(r' & Hr' & _)%select_uids_elem];
      apply list_elem_of_fmap; by exists (fuid, r'). }
  specialize (Hcross fuid fuid Hu' ltac:(left)). lia.
Qed.

(** C2: No message is lost.  When the server sends every UID once and the
    fetch either completes or comes in ascending UID order, every message the
    new checkpoint covers was dealt with: its packet was accepted by the
    interface during this call, or it is no packet for this node; none that is
    damaged, and none whose injection failed or that was not looked at, is
    covered. *)
Theorem fetch_no_loss lastUID folder v w :
  rep_folder folder -> is_u32 v -> 0 <= lastUID ->
  NoDup (fetched lastUID w).*1 ->
  let '(w', (u, e)) := fetch lastUID folder v w in
  (e = None \/ StronglySorted Z.lt (fetched lastUID w).*1) ->
  forall uid raw, (uid, raw) ∈ fetched lastUID w -> uid <= u -> dealt_with w w' raw.
Proof. apply fetch_no_loss_lemma. Qed.

(** *** Cleanup *)

Lemma report_removed lastUID folder v w w' u e hs how :
  fetch_report lastUID folder v w w' u e hs how ->
  exists R, removed w' = removed w ++ R
    /\ Forall (fun uid => uid ∈ (packets wk hs).*1 /\ uid <= rep_cp w' folder v /\ cleans /\ e = None) R.
Proof.
  intros Hr. destruct (fr_removed _ _ _ _ _ _ _ _ _ Hr) as [Hrm|(R & Hrm & Hc & He & Hlt & HR)].
  - exists []. rewrite app_nil_r. split; [done | constructor].
  - exists R. split; [done|]. rewrite (fr_cp _ _ _ _ _ _ _ _ _ Hr).
    replace (lastUID <? u) with true by lia. eapply Forall_impl; [exact HR|].
    intros uid [Hin Hle]. rewrite packets_uids. split_and!; try done. lia.
Qed.

(** C5: Cleanup never destroys what was not delivered: a UID the server is
    asked to remove belongs to a message whose packet the interface accepted in
    this very call, lies at or below the checkpoint now on disk, and the fetch
    had completed; without a cleanup mode nothing is removed. *)
Theorem cleanup_safe lastUID folder v w :
  rep_folder folder -> is_u32 v -> 0 <= lastUID ->
  let '(w', (u, e)) := fetch lastUID folder v w in
  exists R, removed w' = removed w ++ R
    /\ forall uid, uid ∈ R ->
         e = None /\ cleans /\ uid <= rep_cp w' folder v
         /\ exists raw pkt new, (uid, raw) ∈ fetched lastUID w /\ classify wk raw = VInject pkt
              /\ injected w' = injected w ++ new /\ pkt ∈ new.
Proof.
  intros Hfo Hv Hl. pose proof (fetchAndProcess_spec lastUID folder v w Hfo Hv Hl) as Hs.
  destruct (fetch lastUID folder v w) as [w' [u e]]. destruct Hs as (hs & how & Hr).
  destruct (report_removed _ _ _ _ _ _ _ _ _ Hr) as (R & HR & Hall). exists R.
  split; [done|]. rewrite Forall_forall in Hall. intros uid Hu.
  destruct (Hall uid Hu) as (Hp & Hcp & Hc & He). split_and!; try done.
  apply list_elem_of_fmap in Hp as ([uid' pkt] & -> & Hp).
  assert (Hp' := Hp). unfold packets in Hp'.
  apply list_elem_of_In, in_flat_map in Hp' as ([uid raw] & Hin & Hm).
  cbn in Hm. destruct (classify wk raw) eqn:Ec; cbn in Hm; try done.
  destruct Hm as [[= -> ->]|[]]. exists raw, pkt, (packets wk hs).*2.
  split_and!; [| done | apply (fr_injected _ _ _ _ _ _ _ _ _ Hr) |].
  - rewrite (fr_fetched _ _ _ _ _ _ _ _ _ Hr). apply elem_of_app. left. by apply list_elem_of_In.
  - apply list_elem_of_fmap. by exists (uid', pkt).
Qed.

(** C3: [fetchAndProcess] implements its specification: it handles a prefix of
    the messages the server sent, injects the packets of exactly these in
    order, succeeds only when all were handled and the fetch itself did,
    returns the UID it durably stored (else the old one), which reaches every
    handled UID that no failure holds back unless the fetch was cut short or the
    write failed, and touches neither the checkpoint nor the mailbox when the
    fetch failed for another reason than an injection. *)
Theorem fetchAndProcess_refines lastUID folder v w :
  rep_folder folder -> is_u32 v -> 0 <= lastUID ->
  let '(w', (u, e)) := fetch lastUID folder v w in
  exists hs how,
    fetch_report lastUID folder v w w' u e hs how
    /\ (e <> None -> (forall uid raw unseen, how <> FetchInjectFailed uid raw unseen) ->
        u = lastUID /\ rep_cp w' folder v = rep_cp w folder v /\ removed w' = removed w).
Proof.
  intros Hfo Hv Hl. pose proof (fetchAndProcess_spec lastUID folder v w Hfo Hv Hl) as Hs.
  destruct (fetch lastUID folder v w) as [w' [u e]]. destruct Hs as (hs & how & Hr).
  exists hs, how. split; [done|]. intros He Hnot.
  assert (Hu : u = lastUID).
  { destruct (fr_uid _ _ _ _ _ _ _ _ _ Hr) as [?|(_ & _ & _ & Hwh)]; [done|].
    destruct how; [done | by destruct (Hnot uid raw unseen) | done]. }
  split; [done|]. split.
  - rewrite (fr_cp _ _ _ _ _ _ _ _ _ Hr), Hu. by rewrite Z.ltb_irrefl.
  - destruct (fr_removed _ _ _ _ _ _ _ _ _ Hr) as [?|(R & _ & _ & ? & _)]; done.
Qed.
End WorkerSpec.

(** ** Sessions and the reconnect loop *)

Section SessionSpec.
Context `{WorkerWorld W inject dial setOnline} {unicode : UnicodeTables} {mail : MailParsers}.
Context (ctx_err : W -> option error) (wk : Worker).
Implicit Types (w : W).

Abbreviation fetch := (fetchAndProcess ctx_err inject wk).

(** The calls of the worker other than a fetch. *)
Inductive call : W -> W -> Prop :=
  | call_dial w : call w (dial w).1
  | call_login u p w : call w (Login u p w).1
  | call_select m w : call w (Select m w).1
  | call_get f v w : call w (GetCheckpoint f v w).1
  | call_online b w : call w (callSetOnline setOnline b w)
  | call_idle c w : call w (Idle c w).1
  | call_noop w : call w (Noop w).1
  | call_close w : call w (Close w).1.

(** What a message the server sent for a FETCH above [l] delivers. *)
Definition delivers (l : Z) w (m : Z * bytes) : Prop :=
  exists raw, (m.1, raw) ∈ fetched l w /\ classify wk raw = VInject m.2.

(** The worker went from the one world to the other by calls and fetches, in which
    the packets [D], with the UIDs of their messages, were injected and the UIDs
    [R] removed.  Each fetch injects packets of messages it got, and removes UIDs of
    messages whose packet it injected. *)
Inductive did : W -> list (Z * bytes) -> list Z -> W -> Prop :=
  | did_nothing w : did w [] [] w
  | did_call w w1 D R w2 : call w w1 -> did w1 D R w2 -> did w D R w2
  | did_fetch l folder v w D0 R0 D R w2 :
      injected (fetch l folder v w).1 = injected w ++ D0.*2 ->
      removed (fetch l folder v w).1 = removed w ++ R0 ->
      Forall (delivers l w) D0 -> Forall (fun uid => uid ∈ D0.*1) R0 ->
      did (fetch l folder v w).1 D R w2 -> did w (D0 ++ D) (R0 ++ R) w2.

Lemma did_trans w1 D1 R1 w2 D2 R2 w3 :
  did w1 D1 R1 w2 -> did w2 D2 R2 w3 -> did w1 (D1 ++ D2) (R1 ++ R2) w3.
Proof.
  intros H12 H23. induction H12 as [w|w w1' D R w2 Hc _ IH|l f v w D0 R0 D R w2 Hi Hr HD HR _ IH];
    [done | by eapply did_call; eauto|].
  rewrite <- !app_assoc. apply (did_fetch l f v); auto.
Qed.

Lemma call_quiet w w' : call w w' -> injected w' = injected w /\ removed w' = removed w.
Proof.
  assert (Hf : forall w1 w2, cl_frame w1 w2 /\ removed w2 = removed w1 ->
               injected w2 = injected w1 /\ removed w2 = removed w1).
  { by intros w1 w2 [(Hi & _)%ww_frame Hr]. }
  destruct 1.
  - destruct (ww_dial w) as [(Hi & Hr & _)%view_fields _]. by split.
  - apply Hf, login_frame.
  - apply Hf, select_frame.
  - pose proof (ww_get f v w) as (Hi & Hr & _)%view_fields. by split.
  - destruct (ww_online b w) as [(Hi & Hr & _)%view_fields _]. by split.
  - apply Hf, idle_frame.
  - apply Hf, noop_frame.
  - apply Hf, close_frame.
Qed.

Lemma did_totals w D R w' : did w D R w' -> injected w' = injected w ++ D.*2 /\ removed w' = removed w ++ R.
Proof.
  induction 1 as [w|w w1 D R w2 Hc _ [Hi Hr]|l f v w D0 R0 D R w2 Hi0 Hr0 _ _ _ [Hi Hr]].
  - by rewrite !app_nil_r.
  - apply call_quiet in Hc as [<- <-]. done.
  - by rewrite Hi, Hr, Hi0, Hr0, fmap_app, !app_assoc.
Qed.

(** What the worker did to the world. *)
Definition effect (w w' : W) : Prop :=
  exists D R, did w D R w' /\ injected w' = injected w ++ D.*2 /\ removed w' = removed w ++ R.

Lemma did_effect w D R w' : did w D R w' -> effect w w'.
Proof. intros Hd. exists D, R. split; [done|]. by apply did_totals. Qed.

Lemma effect_call w w' : call w w' -> effect w w'.
Proof. intros Hc. eapply did_effect, did_call; [exact Hc | apply did_nothing]. Qed.

#[local] Instance effect_preorder : PreOrder effect.
Proof.
  split; [intros w; eapply did_effect, did_nothing|].
  intros w1 w2 w3 (D1 & R1 & Hd1 & _) (D2 & R2 & Hd2 & _). eapply did_effect, did_trans; eauto.
Qed.

Section Mailbox.
Context (folder : bytes) (v : Z) (Hfolder : rep_folder folder) (Hv : is_u32 v).

(** A stretch of the run inside one session. *)
Definition progress (w w' : W) : Prop :=
  effect w w' /\ rep_cp w folder v <= rep_cp w' folder v /\ online_calls w' = online_calls w.

#[local] Instance progress_preorder : PreOrder progress.
Proof.
  split; [intros w; by split|].
  intros w1 w2 w3 (E1 & C1 & O1) (E2 & C2 & O2). split; [by etrans|]. split; [lia | congruence].
Qed.

Lemma progress_call w w' : call w w' -> cl_frame w w' -> progress w w'.
Proof. intros Hcall (_ & Ho & Hc)%ww_frame. split; [by apply effect_call|]. by rewrite Hc. Qed.

Lemma packets_delivers l w hs m : hs ⊆ fetched l w -> m ∈ packets wk hs -> delivers l w m.
Proof.
  intros Hsub Hp. unfold packets in Hp. apply list_elem_of_In, in_flat_map in Hp as ([uid raw] & Hin & Hm).
  cbn [fst snd] in Hm. destruct (classify wk raw) eqn:Ec; cbn in Hm; try done.
  destruct Hm as [<-|[]]. exists raw. split; [|done]. by apply Hsub, list_elem_of_In.
Qed.

Lemma fetch_progress lastUID w :
  0 <= lastUID ->
  let '(w', (u, e)) := fetch lastUID folder v w in progress w w' /\ lastUID <= u.
Proof.
  intros Hl. pose proof (fetchAndProcess_spec ctx_err wk lastUID folder v w Hfolder Hv Hl) as Hs.
  destruct (fetch lastUID folder v w) as [w' [u e]] eqn:Ef. destruct Hs as (hs & how & Hr).
  split; [split; [|split]|].
  - destruct (report_removed wk _ _ _ _ _ _ _ _ _ Hr) as (R & HR & Hall).
    pose proof (fr_injected _ _ _ _ _ _ _ _ _ _ Hr) as Hi.
    assert (Hd : did w (packets wk hs ++ []) (R ++ []) (fetch lastUID folder v w).1).
    { rewrite Ef. apply (did_fetch lastUID folder v); rewrite ?Ef; cbn [fst]; [done | done | | | apply did_nothing].
      - apply Forall_forall. intros m Hm. eapply packets_delivers; [|exact Hm].
        rewrite (fr_fetched _ _ _ _ _ _ _ _ _ _ Hr). by apply list_subseteq_app_l.
      - eapply Forall_impl; [exact Hall|]. by intros ? [? _]. }
    rewrite Ef in Hd. by eapply did_effect.
  - rewrite (fr_cp _ _ _ _ _ _ _ _ _ _ Hr). destruct (lastUID <? u); lia.
  - apply (fr_online _ _ _ _ _ _ _ _ _ _ Hr).
  - destruct (fr_uid _ _ _ _ _ _ _ _ _ _ Hr) as [->|[? _]]; lia.
Qed.

Lemma pollLoop_progress sched lastUID w :
  0 <= lastUID -> progress w (pollLoop ctx_err inject wk folder v sched lastUID w).1.
Proof.
  revert lastUID w. induction sched as [|[|] sched IH]; intros lastUID w Hl; cbn [pollLoop];
    [done | | done].
  pose proof (progress_call _ _ (call_noop w) (proj1 (noop_frame w))) as Hn.
  destruct (Noop w) as [w1 [e1|]]; cbn [fst] in *; [done|].
  pose proof (fetch_progress lastUID w1 Hl) as Hf.
  destruct (fetch lastUID folder v w1) as [w2 [u [e2|]]]; destruct Hf as [Hf Hu]; cbn [fst];
    (etrans; [exact Hn|]); [done|].
  etrans; [exact Hf|]. apply IH. lia.
Qed.

Lemma idleLoop_progress sched polls n lastUID w :
  0 <= lastUID -> progress w (idleLoop ctx_err inject wk folder v sched polls n lastUID w).1.
Proof.
  revert n lastUID w. induction sched as [|[[] sel c] sched IH]; intros n lastUID w Hl;
    cbn [idleLoop]; [done | done|].
  pose proof (progress_call _ _ (call_idle c w) (proj1 (idle_frame c w))) as Hi.
  destruct (Idle c w) as [w1 ierr]. cbn [fst] in *.
  assert (Hfetch : progress w1
    (match fetch lastUID folder v w1 with
     | (w2, (_, Some err)) => (w2, Returned (Some (Errorf "fetch after idle" [err])))
     | (w2, (newLastUID, None)) => idleLoop ctx_err inject wk folder v sched polls 0 newLastUID w2
     end).1).
  { pose proof (fetch_progress lastUID w1 Hl) as Hf.
    destruct (fetch lastUID folder v w1) as [w2 [u [e2|]]]; destruct Hf as [Hf Hu]; cbn [fst]; [done|].
    etrans; [exact Hf|]. apply IH. lia. }
  etrans; [exact Hi|].
  destruct sel; [exact Hfetch | | done].
  destruct (bool_decide (is_Some ierr) && _); [|exact Hfetch].
  destruct (maxIdleErrors <=? n + 1); [by apply pollLoop_progress | by apply IH].
Qed.
End Mailbox.

(** Inside a session, for whatever the server, the schedule and the
    context do, and across the fallback from IDLE to polling: the stored
    checkpoint of the mailbox never moves back, every UID removed is one whose
    packet was delivered, and the online state is not touched. *)
Theorem idleLoop_invariant folder v sched polls n lastUID w :
  rep_folder folder -> is_u32 v -> 0 <= lastUID ->
  progress folder v w (idleLoop ctx_err inject wk folder v sched polls n lastUID w).1.
Proof. intros Hf Hv. by apply idleLoop_progress. Qed.

Context (Hfolder : rep_folder (imap_Folder (wk_cfg wk))).

(** What a session reports to the online aggregator. *)
Definition online_block (r : ending) (calls : list bool) : Prop :=
  match r with
  | Running => calls = [] \/ calls = [true]
  | Returned _ => calls = [false] \/ calls = [true; false]
  end.

(** The session once it is logged in: the catch-up fetch and the loop. *)
Lemma session_body_progress v s lastUID w :
  is_u32 v -> 0 <= lastUID ->
  progress (imap_Folder (wk_cfg wk)) v w
    (fetch_then ctx_err inject wk "catch-up fetch" v lastUID (loop ctx_err inject wk s v) w).1.
Proof.
  intros Hv Hl. unfold fetch_then. set (folder := imap_Folder (wk_cfg wk)).
  pose proof (fetch_progress folder v Hfolder Hv lastUID w Hl) as Hf.
  destruct (fetch lastUID folder v w) as [w1 [u [e|]]]; destruct Hf as [(E & C & O) Hu]; [done|].
  assert (Hloop : forall w2, progress folder v w1 w2 -> progress folder v w w2).
  { intros w2 (E2 & C2 & O2). split; [by etrans|]. split; [lia | congruence]. }
  apply Hloop. unfold loop. destruct (HasIdle w1);
    [apply idleLoop_progress | apply pollLoop_progress]; done || lia.
Qed.

(** Until the catch-up fetch nothing is injected or removed, and the session
    reports that it is online when it gets there. *)
Lemma start_spec w :
  let '(w', r) := start_session setOnline wk w in
  effect w w'
  /\ match r with
     | Ok (v, l) => is_u32 v /\ 0 <= l /\ online_calls w' = online_calls w ++ [true]
     | Err _ => online_calls w' = online_calls w
     end.
Proof.
  assert (Hq : forall w1 w2, effect w w1 /\ online_calls w1 = online_calls w ->
               call w1 w2 -> cl_frame w1 w2 ->
               effect w w2 /\ online_calls w2 = online_calls w).
  { intros w1 w2 [He Ho] Hc (_ & Fo & _)%ww_frame. split; [|congruence].
    etrans; [exact He | by apply effect_call]. }
  unfold start_session.
  set (user := imap_Username _). set (pw := imap_Password _).
  pose proof (Hq w _ ltac:(done) (call_login user pw w) (proj1 (login_frame user pw w))) as Hq1.
  destruct (Login _ _ w) as [w1 [e1|]]; cbn [fst] in *; [done|].
  pose proof (Hq w1 _ Hq1 (call_select _ w1) (proj1 (select_frame (imap_Folder (wk_cfg wk)) w1))) as Hq2.
  pose proof (select_u32 (imap_Folder (wk_cfg wk)) w1) as Su.
  destruct (Select _ w1) as [w2 [v|e2]]; cbn [fst snd] in *; [|done]. destruct Hq2 as [E2 O2].
  pose proof (ww_get (imap_Folder (wk_cfg wk)) v w2) as (_ & _ & Go)%view_fields.
  pose proof (get_value (imap_Folder (wk_cfg wk)) v w2) as Gv.
  pose proof (effect_call _ _ (call_get (imap_Folder (wk_cfg wk)) v w2)) as Eg.
  destruct (GetCheckpoint _ v w2) as [w3 r3]; cbn [fst snd] in *.
  change (online_calls w3 = online_calls w2) in Go.
  assert (E3 : effect w w3) by by etrans.
  destruct r3 as [l|e3]; [|split; [done | congruence]]. specialize (Gv l eq_refl).
  pose proof (rep_range w2 (imap_Folder (wk_cfg wk)) v) as Hrange. unfold is_u32 in Hrange.
  destruct (ww_online true w3) as [(_ & _ & Oo)%view_fields _]. cbn [vw_online] in Oo.
  split; [etrans; [exact E3 | apply effect_call, call_online]|]. split; [auto|]. split; [lia|]. rewrite Oo. congruence.
Qed.

Lemma session_spec s w :
  let '(w', _) := session ctx_err inject setOnline wk s w in
  effect w w' /\ exists calls, online_calls w' = online_calls w ++ calls
                             /\ (calls = [] \/ calls = [true]).
Proof.
  rewrite session_parts. pose proof (start_spec w) as Hs.
  destruct (start_session setOnline wk w) as [w1 [[v l]|e]]; destruct Hs as [E1 O1].
  - destruct O1 as (Hv & Hl & O1). pose proof (session_body_progress v s l w1 Hv Hl) as Hb.
    destruct (fetch_then _ _ _ _ _ _ _ _) as [w2 r]. cbn [fst] in Hb. destruct Hb as (E2 & _ & O2).
    split; [by etrans|]. exists [true]. split; [congruence | by right].
  - split; [done|]. exists []. rewrite app_nil_r. auto.
Qed.

Lemma runSession_spec s w :
  let '(w', r) := runSession ctx_err inject dial setOnline wk s w in
  effect w w' /\ exists calls, online_calls w' = online_calls w ++ calls /\ online_block r calls.
Proof.
  unfold runSession. destruct (ww_dial w) as [(_ & _ & Do)%view_fields _].
  assert (Hoff : forall w1, effect w w1 -> effect w (callSetOnline setOnline false w1)
                  /\ online_calls (callSetOnline setOnline false w1) = online_calls w1 ++ [false]).
  { intros w1 He. destruct (ww_online false w1) as [(_ & _ & Oo)%view_fields _].
    split; [|done]. etrans; [exact He | apply effect_call, call_online]. }
  pose proof (effect_call _ _ (call_dial w)) as E1.
  destruct (dial w) as [w1 [e1|]]; cbn [fst] in *; change (online_calls w1 = online_calls w) in Do.
  - destruct (Hoff w1 E1) as [E2 O2]. split; [done|]. exists [false]. rewrite O2, Do. split; [done | by left].
  - pose proof (session_spec s w1) as Hs.
    destruct (session ctx_err inject setOnline wk s w1) as [w2 [|err]]; destruct Hs as (E2 & calls & O2 & Hc).
    + split; [by etrans|]. exists calls. split; [congruence | done].
    + destruct (close_frame w2) as [(_ & Co & _)%ww_frame _].
      assert (E3 : effect w (Close w2).1) by (etrans; [exact E1|]; etrans; [exact E2|]; apply effect_call, call_close).
      destruct (Hoff _ E3) as [E4 O4]. split; [done|]. exists (calls ++ [false]).
      rewrite O4, Co, O2, Do, <- app_assoc. split; [done|].
      destruct Hc as [-> | ->]; [by left | by right].
Qed.

Lemma run_loop_spec base cap sessions b w :
  let '(w', _, r) := run_loop ctx_err inject dial setOnline wk base cap sessions b w in
  effect w w'
  /\ exists blocks last, online_calls w' = online_calls w ++ mjoin blocks ++ last
       /\ Forall (fun l => l = [false] \/ l = [true; false]) blocks
       /\ (last = [] \/ last = [true])
       /\ (forall e, r = Returned e -> last = [] /\ blocks <> []).
Proof.
  revert b w. induction sessions as [|[s timer] sessions IH]; intros b w; cbn [run_loop].
  { split; [done|]. exists [], []. rewrite !app_nil_r. split_and!; auto. }
  pose proof (runSession_spec s w) as Hs.
  destruct (runSession ctx_err inject dial setOnline wk s w) as [w1 [|err]];
    destruct Hs as (E1 & calls & O1 & Hc); cbn [online_block] in Hc.
  { split; [done|]. exists [], calls. split_and!; auto. by intros. }
  assert (Hone : exists blocks last, online_calls w1 = online_calls w ++ mjoin blocks ++ last
       /\ Forall (fun l => l = [false] \/ l = [true; false]) blocks
       /\ (last = [] \/ last = [true])
       /\ (forall e, Returned None = Returned e -> last = [] /\ blocks <> [])).
  { exists [calls], []. cbn. rewrite !app_nil_r. split_and!; [done | by constructor | by left |].
    intros e _. by split. }
  destruct (bool_decide (is_Some (ctx_err w1))); [by split|].
  destruct timer; [|by split].
  specialize (IH (if isDial err then Z.min (double b) cap else base) w1).
  destruct (run_loop _ _ _ _ _ _ _ _ _ w1) as [[w2 ds] r].
  destruct IH as (E2 & blocks & lst & O2 & Hb & Hl & Hr). split; [by etrans|].
  exists (calls :: blocks), lst. split; [|split_and!; [by constructor | done |]].
  - rewrite O2, O1. cbn. by rewrite <- !app_assoc.
  - intros e He. destruct (Hr e He) as [-> _]. by split.
Qed.

(** C12: Over a whole run of the worker (any number of sessions, failures and
    schedules) the world changes by its calls and fetches only, and the UIDs
    removed from the mailbox are, fetch by fetch, UIDs of messages that fetch got
    from the server and whose packet it delivered.  And the online callback is
    bracketed: every session reports [false] at its end, after at most one [true];
    so once [Run] has returned the last report is [false]. *)
Theorem Run_safe sessions w :
  let '(w', _, r) := Run ctx_err inject dial setOnline wk sessions w in
  (exists D R, did w D R w' /\ injected w' = injected w ++ D.*2 /\ removed w' = removed w ++ R)
  /\ exists blocks last, online_calls w' = online_calls w ++ mjoin blocks ++ last
       /\ Forall (fun l => l = [false] \/ l = [true; false]) blocks
       /\ (last = [] \/ last = [true])
       /\ (forall e, r = Returned e -> last = [] /\ blocks <> []).
Proof. apply run_loop_spec. Qed.
End SessionSpec.

(** ** A run is a sequence of the steps of its parts *)

(** The relation holds across every call of the client. *)
Record client_steps `{ClientSpec W} (R : W -> W -> Prop) : Prop := {
  cs_login u p w : R w (Login u p w).1;
  cs_select m w : R w (Select m w).1;
  cs_fetch l w : R w (fetch_start l w);
  cs_idle c w : R w (Idle c w).1;
  cs_noop w : R w (Noop w).1;
  cs_move uids dest w : R w (MoveUIDs uids dest w).1;
  cs_delete uids w : R w (DeleteUIDs uids w).1;
  cs_close w : R w (Close w).1;
}.

Lemma frame_client_steps `{ClientSpec W} (R : W -> W -> Prop) :
  (forall w w', cl_frame w w' -> R w w') -> client_steps R.
Proof.
  intros HR. split; intros; apply HR;
    [apply login_frame | apply select_frame | apply fetch_start_frame | apply idle_frame
    | apply noop_frame | apply move_removed | apply delete_removed | apply close_frame].
Qed.

(** Any preorder that relates the worlds before and after each call the worker
    makes relates the worlds before and after a whole run. *)
Section Closure.
Context `{ClientSpec W} {repo : Repository W} {unicode : UnicodeTables} {mail : MailParsers}.
Context (ctx_err : W -> option error) (inject : bytes -> W -> W * option error)
        (dial : W -> W * option error) (setOnline : option (bool -> W -> W)) (wk : Worker).
Context (R : W -> W -> Prop) `{!PreOrder R}.
Context (R_client : client_steps R)
        (R_inject : forall pkt w, R w (inject pkt w).1)
        (R_advance : forall f v u w, R w (AdvanceCheckpoint f v u w).1)
        (R_get : forall f v w, R w (GetCheckpoint f v w).1)
        (R_dial : forall w, R w (dial w).1)
        (R_online : forall b w, R w (callSetOnline setOnline b w)).
Implicit Types (w : W).

Lemma R_step w1 w2 w3 : R w1 w2 -> R w2 w3 -> R w1 w3.
Proof. by intros; etrans. Qed.

Lemma process_closed uid raw st w : R w (process_message ctx_err inject wk uid raw st w).1.2.
Proof.
  unfold process_message. destruct (ctx_err w); [done|]. destruct st as [pr sk fa de].
  destruct (Decode raw) as [d|e]; [|by destruct (errors_is _ _)].
  destruct (bool_decide _ && _); [done|]. destruct (bool_decide _ && _); [done|].
  pose proof (R_inject (d_Packet d) w) as Hi.
  by destruct (inject (d_Packet d) w) as [w1 [e|]].
Qed.

Lemma deliver_closed ms tail st w :
  R w (deliver (process_message ctx_err inject wk) ms tail st w).1.2.
Proof.
  revert st w. induction ms as [|[uid raw] ms IH]; intros st w; cbn [deliver]; [done|].
  pose proof (process_closed uid raw st w) as Hp.
  destruct (process_message ctx_err inject wk uid raw st w) as [[st1 w1] [e|]]; [done|].
  by etrans.
Qed.

Lemma cleanup_closed uids w : R w (cleanup wk uids w).
Proof.
  unfold cleanup. destruct (bool_decide _); [apply (cs_delete _ R_client)|].
  destruct (bool_decide _); [apply (cs_move _ R_client) | done].
Qed.

Lemma fetch_closed lastUID folder v w :
  R w (fetchAndProcess ctx_err inject wk lastUID folder v w).1.
Proof.
  unfold fetchAndProcess. rewrite fetch_deliver.
  pose proof (deliver_closed (fetched lastUID w) (fetch_tail lastUID w) (mkFetchState [] [] 0 0)
                (fetch_start lastUID w)) as Hd.
  assert (Hs : R w (fetch_start lastUID w)) by apply (cs_fetch _ R_client).
  destruct (deliver _ _ _ _ _) as [[st w1] e]. cbn [fst snd] in Hd.
  assert (H1 : R w w1) by by etrans.
  destruct (bool_decide (is_Some e) && _); [done|].
  destruct (lastUID <? _); [|by rewrite andb_false_r].
  pose proof (R_advance folder v (computedSafe lastUID st) w1) as Ha.
  destruct (AdvanceCheckpoint _ _ _ w1) as [w2 [cpErr|]]; cbn [fst] in Ha.
  - rewrite andb_false_r. by etrans.
  - assert (H2 : R w w2) by by etrans.
    destruct (bool_decide (e = None) && true); [|done].
    destruct (bool_decide _); [done|]. by etrans; [|apply cleanup_closed].
Qed.

Lemma pollLoop_closed folder v sched lastUID w :
  R w (pollLoop ctx_err inject wk folder v sched lastUID w).1.
Proof.
  revert lastUID w. induction sched as [|[|] sched IH]; intros lastUID w; cbn [pollLoop]; [done| |done].
  pose proof (cs_noop _ R_client w) as Hn.
  destruct (Noop w) as [w1 [e1|]]; [done|].
  pose proof (fetch_closed lastUID folder v w1) as Hf.
  destruct (fetchAndProcess _ _ _ _ _ _ w1) as [w2 [u [e2|]]]; cbn [fst] in *;
    (assert (H2 : R w w2) by by etrans); [done|]. by etrans.
Qed.

Lemma idleLoop_closed folder v sched polls n lastUID w :
  R w (idleLoop ctx_err inject wk folder v sched polls n lastUID w).1.
Proof.
  revert n lastUID w. induction sched as [|[[] sel c] sched IH]; intros n lastUID w; cbn [idleLoop]; [done | done|].
  pose proof (cs_idle _ R_client c w) as Hi.
  destruct (Idle c w) as [w1 ierr]. cbn [fst] in Hi. apply (R_step _ _ _ Hi). clear Hi.
  pose proof (fetch_closed lastUID folder v w1) as Hf.
  destruct (fetchAndProcess _ _ _ _ _ _ w1) as [w2 [u e2]]. cbn [fst] in Hf.
  assert (Hfetch : R w1 match e2 with
    | Some err => (w2, Returned (Some (Errorf "fetch after idle" [err])))
    | None => idleLoop ctx_err inject wk folder v sched polls 0 u w2
    end.1) by (destruct e2; [done | by etrans]).
  destruct sel; [by destruct e2 | | done].
  destruct (bool_decide _ && _); [|by destruct e2].
  destruct (maxIdleErrors <=? n + 1); [apply pollLoop_closed | apply IH].
Qed.

Lemma start_closed w : R w (start_session setOnline wk w).1.
Proof.
  unfold start_session. set (f := imap_Folder (wk_cfg wk)).
  pose proof (cs_login _ R_client (imap_Username (wk_cfg wk)) (imap_Password (wk_cfg wk)) w) as C1.
  destruct (Login _ _ w) as [w1 [e1|]]; [done|]. apply (R_step _ _ _ C1).
  pose proof (cs_select _ R_client f w1) as C2.
  destruct (Select _ w1) as [w2 [v|e2]]; [|done]. apply (R_step _ _ _ C2).
  pose proof (R_get f v w2) as C3.
  destruct (GetCheckpoint _ v w2) as [w3 [lastUID|e3]]; [|done]. apply (R_step _ _ _ C3), R_online.
Qed.

Lemma session_closed s w : R w (session ctx_err inject setOnline wk s w).1.
Proof.
  rewrite session_parts. pose proof (start_closed w) as C1.
  destruct (start_session setOnline wk w) as [w1 [[v l]|e]]; [|done]. apply (R_step _ _ _ C1). unfold fetch_then.
  pose proof (fetch_closed l (imap_Folder (wk_cfg wk)) v w1) as C2.
  destruct (fetchAndProcess _ _ _ _ _ _ w1) as [w2 [u [e|]]]; [done|]. apply (R_step _ _ _ C2). unfold loop.
  destruct (HasIdle w2); [apply idleLoop_closed | apply pollLoop_closed].
Qed.

Lemma Run_closed sessions w : R w (Run ctx_err inject dial setOnline wk sessions w).1.1.
Proof.
  unfold Run. set (base := wrap64 (imap_ReconnectDelay _ * _)). generalize base at 2 as b.
  revert w. induction sessions as [|[s timer] sessions IH]; intros w b; cbn [run_loop]; [done|].
  assert (Hs : R w (runSession ctx_err inject dial setOnline wk s w).1).
  { unfold runSession. pose proof (R_dial w) as Hd.
    destruct (dial w) as [w1 [e|]]; apply (R_step _ _ _ Hd); [apply R_online|].
    pose proof (session_closed s w1) as H1.
    destruct (session _ _ _ _ _ w1) as [w2 [|e]]; [done|]. apply (R_step _ _ _ H1).
    by etrans; [apply (cs_close _ R_client) | apply R_online]. }
  destruct (runSession _ _ _ _ _ s w) as [w1 [|e]]; [done|].
  destruct (bool_decide _); [done|]. destruct timer; [|done].
  specialize (IH w1 (if isDial e then Z.min (double b) (wrap64 (imap_MaxReconnectDelay (wk_cfg wk) * second)) else base)).
  destruct (run_loop _ _ _ _ _ _ _ _ _ w1) as [[w2 ds] r]. by etrans.
Qed.
End Closure.

(** ** Reconnect backoff *)

Section Backoff.
Context {W : Type} {client : Client W} {repo : Repository W}
        {unicode : UnicodeTables} {mail : MailParsers}.
Context (ctx_err : W -> option error) (inject : bytes -> W -> W * option error)
        (dial : W -> W * option error) (setOnline : option (bool -> W -> W)) (wk : Worker).



End Backoff.

