(* ===== verification/Session.v ===== *)
(** * The goroutines of an IMAP session

    A session of the worker (worker.go, [runSession], [idleLoop], [pollLoop]) is
    not one thread: the go-imap reader calls [onMailbox], which puts a token into
    [existsCh]; each round of [idleLoop] starts a goroutine that runs [Idle] and
    sends its result into a channel of its own; another goroutine closes the
    client when the context is cancelled.  Worker runs these calls one after the
    other; [sperform] interleaves them.  The theorems justify that view, and
    SessionRefine proves it as a simulation: no command
    is sent while an [Idle] is under way, no notification is lost, no goroutine
    stays behind, and a cancelled session ends. *)
From S2P Require Import Prelude GoErrors GoStrings GoMime Envelope Inbox Config ImapClient Pipe Worker.

(** ** The state *)

(** Where the session is.  A command that is under way carries whether the
    client was closed when it was issued. *)
Inductive session_pc :=
  | Starting                              (* Login, Select, GetCheckpoint *)
  | Fetching (polling : option bool)      (* fetchAndProcess; [None] is the catch-up *)
  | AtCheck                               (* if ctx.Err() != nil *)
  | AtSelect                              (* the select of idleLoop *)
  | AtDrain (fetch : bool)                (* <-idleDone, then the fetch or return nil *)
  | AtTicker                              (* the select of pollLoop *)
  | InNoop (was_closed : bool)
  | Returning                             (* sessionDone is closed *)
  | Exited.                               (* the deferred calls are done *)

(** The goroutine of a round: inside [Idle], its result in the channel, or
    received. *)
Inductive idler := Idling (idle_cancelled : bool) | IdleResult (failed : bool) | IdleReceived.

Inductive closer := Watching | CloserGone.

Record Session := mkSession {
  ss_cancelled : bool;          (* ctx *)
  ss_exists : bool;             (* existsCh, of capacity one *)
  ss_pc : session_pc;
  ss_idlers : list idler;       (* one per round, the newest first *)
  ss_idleErrors : Z;
  ss_closer : closer;
  ss_closed : bool;             (* client.Close() was called *)
  ss_unseen : bool;             (* EXISTS since the last fetch began *)
}.

Definition opened : Session := mkSession false false Starting [] 0 Watching false false.

(** ** The actions *)

Inductive saction :=
  | Cancel
  | NotifyExists                (* onMailbox: a send that does not block *)
  | StartEnds (ok : bool)
  | FetchEnds (ok : bool) (has_idle : bool)
  | CheckCtx
  | SelectExists
  | SelectIdleDone
  | SelectCtxDone
  | DrainIdle
  | TickerTicks
  | TickerCtxDone
  | NoopEnds (ok : bool)
  | IdleEnds (i : nat) (failed : bool)
  | CloserCloses                (* case <-ctx.Done(): client.Close() *)
  | CloserStops                 (* case <-sessionDone *)
  | Unwind.                     (* client.Close(); callSetOnline(false) *)

Definition cancel_newest (l : list idler) : list idler :=
  match l with Idling _ :: l => Idling true :: l | _ => l end.

Definition with_pc (pc : session_pc) (s : Session) : Session :=
  mkSession (ss_cancelled s) (ss_exists s) pc (ss_idlers s) (ss_idleErrors s) (ss_closer s)
    (ss_closed s) (match pc with Fetching _ => false | _ => ss_unseen s end).

Definition with_idlers (l : list idler) (errs : Z) (s : Session) : Session :=
  mkSession (ss_cancelled s) (ss_exists s) (ss_pc s) l errs (ss_closer s) (ss_closed s) (ss_unseen s).

Definition with_exists (b unseen : bool) (s : Session) : Session :=
  mkSession (ss_cancelled s) b (ss_pc s) (ss_idlers s) (ss_idleErrors s) (ss_closer s) (ss_closed s) unseen.

Definition with_closer (c : closer) (closed : bool) (s : Session) : Session :=
  mkSession (ss_cancelled s) (ss_exists s) (ss_pc s) (ss_idlers s) (ss_idleErrors s) c closed (ss_unseen s).

(** After [case err := <-idleDone]. *)
Definition idle_done (failed : bool) (s : Session) : Session :=
  if failed && negb (ss_cancelled s) then
    let errs := ss_idleErrors s + 1 in
    let s := with_idlers (ss_idlers s) errs s in
    if maxIdleErrors <=? errs then with_pc AtTicker s else with_pc AtCheck s
  else with_pc (Fetching (Some false)) (with_idlers (ss_idlers s) 0 s).

Definition guard (b : bool) (s : Session) : option Session := if b then Some s else None.

(** A command issued to a closed client fails; one under way may still succeed. *)
Definition sperform (a : saction) (s : Session) : option Session :=
  match a, ss_pc s with
  | Cancel, _ =>
    guard (negb (ss_cancelled s))
      (mkSession true (ss_exists s) (ss_pc s) (ss_idlers s) (ss_idleErrors s) (ss_closer s)
         (ss_closed s) (ss_unseen s))
  | NotifyExists, _ => guard (negb (ss_closed s)) (with_exists true true s)
  | StartEnds ok, Starting => Some (with_pc (if ok then Fetching None else Returning) s)
  | FetchEnds ok has_idle, Fetching polling =>
    if ok then
      match polling with
      | None => Some (with_pc (if (has_idle : bool) then AtCheck else AtTicker) s)
      | Some true => Some (with_pc AtTicker s)
      | Some false => Some (with_pc AtCheck s)
      end
    else Some (with_pc Returning s)
  | CheckCtx, AtCheck =>
    if ss_cancelled s then Some (with_pc Returning s)
    else Some (with_pc AtSelect (with_idlers (Idling false :: ss_idlers s) (ss_idleErrors s) s))
  | SelectExists, AtSelect =>
    guard (ss_exists s)
      (with_pc (AtDrain true)
         (with_idlers (cancel_newest (ss_idlers s)) (ss_idleErrors s) (with_exists false (ss_unseen s) s)))
  | SelectIdleDone, AtSelect =>
    match ss_idlers s with
    | IdleResult failed :: l => Some (idle_done failed (with_idlers (IdleReceived :: l) (ss_idleErrors s) s))
    | _ => None
    end
  | SelectCtxDone, AtSelect =>
    guard (ss_cancelled s)
      (with_pc (AtDrain false) (with_idlers (cancel_newest (ss_idlers s)) (ss_idleErrors s) s))
  | DrainIdle, AtDrain fetch =>
    match ss_idlers s with
    | IdleResult _ :: l =>
      let s' := with_idlers (IdleReceived :: l) (if (fetch : bool) then 0 else ss_idleErrors s) s in
      Some (with_pc (if fetch then Fetching (Some false) else Returning) s')
    | _ => None
    end
  | TickerTicks, AtTicker => Some (with_pc (InNoop (ss_closed s)) s)
  | TickerCtxDone, AtTicker => guard (ss_cancelled s) (with_pc Returning s)
  | NoopEnds ok, InNoop was_closed =>
    if ok then guard (negb was_closed) (with_pc (Fetching (Some true)) s) else Some (with_pc Returning s)
  | IdleEnds i failed, _ =>
    match ss_idlers s !! i with
    | Some (Idling _) => Some (with_idlers (<[i := IdleResult failed]> (ss_idlers s)) (ss_idleErrors s) s)
    | _ => None
    end
  | CloserCloses, _ =>
    match ss_closer s with
    | Watching => guard (ss_cancelled s) (with_closer CloserGone true s)
    | CloserGone => None
    end
  | CloserStops, (Returning | Exited) =>
    match ss_closer s with
    | Watching => Some (with_closer CloserGone (ss_closed s) s)
    | CloserGone => None
    end
  | Unwind, Returning => Some (with_pc Exited (with_closer (ss_closer s) true s))
  | _, _ => None
  end.

Definition sstep : Session -> Session -> Prop := does sperform.
Definition sreachable (s : Session) : Prop := rtc sstep opened s.

(** ** The invariant *)

Definition received (g : idler) : Prop := g = IdleReceived.

(** The goroutine of the present round. *)
Definition idlers_ok (pc : session_pc) (l : list idler) : Prop :=
  match pc with
  | AtSelect => exists g rest, l = g :: rest /\ Forall received rest
                               /\ (g = Idling false \/ exists f, g = IdleResult f)
  | AtDrain _ => exists g rest, l = g :: rest /\ Forall received rest
                                /\ (g = Idling true \/ exists f, g = IdleResult f)
  | _ => Forall received l
  end.

Definition errors_ok (pc : session_pc) (n : Z) : Prop :=
  0 <= n <= maxIdleErrors
  /\ match pc with AtCheck | AtSelect | AtDrain _ => n < maxIdleErrors
     | Starting | Fetching None | Fetching (Some false) => n = 0
     | _ => True end.

Record session_inv (s : Session) : Prop := {
  sv_idlers : idlers_ok (ss_pc s) (ss_idlers s);
  sv_errors : errors_ok (ss_pc s) (ss_idleErrors s);
  sv_unseen : ss_unseen s = true -> ss_exists s = true \/ ss_pc s = AtDrain true;
  sv_exited : ss_pc s = Exited -> ss_closed s = true;
}.

Lemma inv_opened : session_inv opened.
Proof. split; try done. by constructor. Qed.

Lemma idle_ends_ok i failed b pc l :
  l !! i = Some (Idling b) -> idlers_ok pc l -> idlers_ok pc (<[i := IdleResult failed]> l).
Proof.
  intros Hi Hl.
  assert (Hrec : forall rest j, Forall received rest -> rest !! j = Some (Idling b) -> False).
  { intros rest j Hf Hj. by apply (Forall_lookup_1 _ _ _ _ Hf) in Hj. }
  destruct pc; cbn in *; try (by destruct (Hrec l i)).
  all: destruct Hl as (g & rest & -> & Hf & _); destruct i as [|i]; [|by destruct (Hrec rest i)].
  all: exists (IdleResult failed), rest; eauto.
Qed.

Lemma inv_idle_done failed l s :
  session_inv s -> ss_pc s = AtSelect -> ss_idlers s = IdleResult failed :: l ->
  session_inv (idle_done failed (with_idlers (IdleReceived :: l) (ss_idleErrors s) s)).
Proof.
  intros [Hi He Hu _] Hpc Hl. rewrite Hpc in *. rewrite Hl in Hi. destruct Hi as (g & rest & [= _ <-] & Hf & _).
  destruct He as [He1 He2]. unfold idle_done. cbn.
  destruct (failed && _); [destruct (Z.leb_spec maxIdleErrors (ss_idleErrors s + 1))|];
    split; cbn; try done; try (by constructor); try (unfold errors_ok, maxIdleErrors in *; split; done || lia).
  all: intros Hun; destruct (Hu Hun); auto; done.
Qed.

(** Nothing but the place of the session changes, between places where every
    idle goroutine is done. *)
Lemma session_move pc s :
  session_inv s -> Forall received (ss_idlers s) ->
  match pc with AtSelect | AtDrain _ => False | Exited => ss_closed s = true | _ => True end ->
  ss_pc s <> AtDrain true ->
  errors_ok pc (ss_idleErrors s) -> session_inv (with_pc pc s).
Proof.
  intros [Hi He Hu Hx] Hl Hpc Hne Herr. split; cbn; try done.
  - by destruct pc.
  - destruct pc; intros Hun; try done; destruct (Hu Hun); auto; done.
  - by intros ->.
Qed.

(** The session stays where it is. *)
Lemma session_stay s s' :
  session_inv s -> ss_pc s' = ss_pc s -> idlers_ok (ss_pc s) (ss_idlers s') ->
  ss_idleErrors s' = ss_idleErrors s ->
  ss_exists s' = true \/ (ss_exists s' = ss_exists s /\ ss_unseen s' = ss_unseen s) ->
  (ss_closed s = true -> ss_closed s' = true) -> session_inv s'.
Proof.
  intros [Hi He Hu Hx] Hpc Hi' Herr Hex Hcl. split; rewrite Hpc, ?Herr; auto.
  intros Hun. destruct Hex as [?|[-> E]]; [by left|]. rewrite E in Hun. auto.
Qed.

(** A select of [idleLoop] takes a branch that waits for the goroutine. *)
Lemma session_drain fetch s :
  session_inv s -> ss_pc s = AtSelect ->
  session_inv (with_pc (AtDrain fetch)
                 (with_idlers (cancel_newest (ss_idlers s)) (ss_idleErrors s)
                    (with_exists (if fetch then false else ss_exists s) (ss_unseen s) s))).
Proof.
  intros [Hi He Hu Hx] Hpc. rewrite Hpc in *. split; cbn; try done.
  - destruct Hi as (g & rest & -> & Hf & Hg).
    destruct Hg as [->|[f ->]]; cbn; eauto 10.
  - intros Hun. destruct fetch; [by right|]. left. destruct (Hu Hun); [done | done].
Qed.

Lemma inv_sperform a s s' : sperform a s = Some s' -> session_inv s -> session_inv s'.
Proof.
  intros E Hinv. pose proof Hinv as [Hi He Hu Hx]. unfold sperform, guard in E.
  destruct a; try (destruct (ss_pc s) eqn:Epc; try done);
    repeat match type of E with
    | (if ?b then _ else _) = _ => destruct b eqn:?
    | match ?x with _ => _ end = _ => destruct x eqn:?
    end; try done; injection E as <-; cbn in Hi, He.
  all: try (apply session_move; [done | done | done | by rewrite Epc | unfold errors_ok, maxIdleErrors in *; cbn in *; lia]).
  all: try (by apply inv_idle_done).
  all: try (apply (session_drain true); done).
  all: try (apply (session_stay s); try done; cbn; rewrite ?Epc; auto; fail).
  all: try (apply (session_stay s); try done; cbn; [eapply idle_ends_ok; [done | by rewrite Epc] | by right]).
  - destruct ok; (apply session_move; [done | done | done | by rewrite Epc |]);
      unfold errors_ok, maxIdleErrors in *; cbn in *; lia.
  - destruct has_idle; (apply session_move; [done | done | done | by rewrite Epc |]);
      unfold errors_ok, maxIdleErrors in *; cbn in *; lia.
  - split; cbn; [| done | | done].
    + exists (Idling false), (ss_idlers s). auto.
    + intros Hun. left. by destruct (Hu Hun).
  - pose proof (session_drain false s Hinv Epc) as Hd. by destruct s.
  - destruct Hi as (g & rest & [= <- <-] & Hf & _). unfold errors_ok in He.
    assert (Hl : Forall received (IdleReceived :: l)) by by constructor.
    destruct fetch; split; cbn; try done; try (split; [unfold maxIdleErrors in *; lia | done]).
    intros Hun. destruct (Hu Hun); [by left | done].
  - split; cbn; try done. intros Hun. destruct (Hu Hun); auto; done.
Qed.

Lemma inv_sreachable s : sreachable s -> session_inv s.
Proof.
  revert s. apply rtc_ind_r; [exact inv_opened|]. intros s1 s2 _ [a Ha]. by apply (inv_sperform a).
Qed.

(** ** The connection belongs to one user at a time *)

(** C17: In every reachable state all idle goroutines of past rounds have
    delivered their result, and outside the select and the drain of [idleLoop]
    so has the newest: no command is ever sent while an [Idle] is under way, and
    none outlives the session.  When the session waits for the goroutine, it has
    cancelled it. *)
Theorem idle_exclusive s :
  sreachable s ->
  Forall received (tail (ss_idlers s))
  /\ (ss_pc s <> AtSelect -> (forall fetch, ss_pc s <> AtDrain fetch) -> Forall received (ss_idlers s))
  /\ (forall fetch, ss_pc s = AtDrain fetch -> head (ss_idlers s) <> Some (Idling false)).
Proof.
  intros Hr. destruct (inv_sreachable s Hr) as [Hi _ _ _].
  destruct (ss_pc s) eqn:Epc; cbn in Hi; (split_and!; [|intros H1 H2|intros f Hf]); try done;
    try (by apply Forall_tail); try (by destruct (H2 fetch)).
  all: destruct Hi as (g & rest & -> & Hrest & Hg); cbn; try done.
  by destruct Hg as [->|[? ->]].
Qed.

(** ** No notification is lost *)

(** C18: An EXISTS that arrived since the last fetch began is kept: as the token
    in [existsCh], or by a session already on its way from taking the token to
    the next fetch.  So in the select the branch of the token is ready, and
    after it nothing but the end of the cancelled [Idle] comes before the fetch. *)
Theorem exists_not_lost s :
  sreachable s -> ss_unseen s = true ->
  (ss_exists s = true \/ ss_pc s = AtDrain true)
  /\ (ss_pc s = AtSelect -> is_Some (sperform SelectExists s))
  /\ (ss_pc s = AtDrain true -> forall s', sstep s s' ->
      ss_pc s' = AtDrain true /\ ss_unseen s' = true \/ ss_pc s' = Fetching (Some false)).
Proof.
  intros Hr Hun. pose proof (sv_unseen s (inv_sreachable s Hr) Hun) as Hu. split; [done|]. split.
  - intros Epc. unfold sperform. rewrite Epc in *. destruct Hu as [-> | ?]; [by eexists | done].
  - intros Epc s' [a Ha]. unfold sperform, guard in Ha. rewrite Epc in Ha.
    destruct a; try done; repeat case_match; simplify_eq; cbn; auto.
Qed.

(** ** A cancelled session ends *)

Fixpoint idlings (l : list idler) : nat :=
  match l with [] => 0 | Idling _ :: l => S (idlings l) | _ :: l => idlings l end.

(** How far the session is from its end, once cancelled and closed. *)
Definition rank (pc : session_pc) : nat :=
  match pc with
  | Exited => 0 | Returning => 1 | AtCheck | InNoop true => 2 | AtTicker => 3
  | Fetching _ => 4 | Starting | InNoop false | AtDrain _ => 5 | AtSelect => 6
  end.

Definition distance (s : Session) : nat :=
  rank (ss_pc s) + idlings (ss_idlers s) + match ss_closer s with Watching => 1 | CloserGone => 0 end.

Definition ending_now (s : Session) : Prop :=
  session_inv s /\ ss_cancelled s = true /\ ss_closed s = true.

(** The session has returned and nothing it started is left. *)
Definition all_gone (s : Session) : Prop :=
  ss_pc s = Exited /\ ss_closer s = CloserGone /\ Forall received (ss_idlers s).

Lemma idlings_cancel l : idlings (cancel_newest l) = idlings l.
Proof. by destruct l as [|[] l]. Qed.

Lemma idlings_result l i b f : l !! i = Some (Idling b) -> S (idlings (<[i := IdleResult f]> l)) = idlings l.
Proof.
  revert i. induction l as [|g l IH]; intros [|i]; cbn; try done; [by intros [= ->]|].
  intros Hi. destruct g; rewrite <- (IH i Hi); done.
Qed.

Lemma ending_step s s' : ending_now s -> sstep s s' -> ending_now s' /\ (distance s' < distance s)%nat.
Proof.
  intros (Hi & Hc & Hcl) [a Ha]. split.
  - split; [by eapply inv_sperform|]. unfold sperform, guard in Ha.
    destruct a; repeat case_match; simplify_eq; cbn; try done; unfold idle_done; repeat case_match; done.
  - unfold sperform, guard in Ha. unfold distance.
    destruct a; try (destruct (ss_pc s) eqn:Epc; try done);
      repeat match type of Ha with
      | (if ?b then _ else _) = _ => destruct b eqn:?
      | match ?x with _ => _ end = _ => destruct x eqn:?
      end; try done; injection Ha as <-; try (by rewrite Hc in *); try (by rewrite Hcl in *).
    all: try match goal with Hl : ?l !! ?i = Some (Idling ?b) |- context [IdleResult ?f] =>
           pose proof (idlings_result l i b f Hl) end.
    all: unfold idle_done; cbn [ss_pc ss_idlers ss_closer ss_cancelled with_pc with_idlers with_exists with_closer];
      rewrite ?Hc, ?andb_false_r, ?Epc; cbn; rewrite ?idlings_cancel.
    all: repeat match goal with |- context [if ?b then _ else _] => destruct b end; cbn [rank negb] in *;
      first [lia | done].
Qed.

Lemma ending_live s : ending_now s -> all_gone s \/ exists s', sstep s s'.
Proof.
  intros (Hi & Hc & Hcl). pose proof (sv_idlers s Hi) as Hid. unfold sstep.
  destruct (ss_pc s) eqn:Epc; cbn in Hid.
  - right. eexists _, (StartEnds false). unfold sperform. by rewrite Epc.
  - right. eexists _, (FetchEnds false false). unfold sperform. by rewrite Epc.
  - right. eexists _, CheckCtx. unfold sperform. by rewrite Epc, Hc.
  - right. eexists _, SelectCtxDone. unfold sperform. by rewrite Epc, Hc.
  - right. destruct Hid as (g & rest & El & _ & [->|[f ->]]).
    + eexists _, (IdleEnds 0 false). unfold sperform. by rewrite El.
    + eexists _, DrainIdle. unfold sperform. by rewrite Epc, El.
  - right. eexists _, TickerCtxDone. unfold sperform. by rewrite Epc, Hc.
  - right. eexists _, (NoopEnds false). unfold sperform. by rewrite Epc.
  - right. eexists _, Unwind. unfold sperform. by rewrite Epc.
  - destruct (ss_closer s) eqn:Eg; [right | by left].
    eexists _, CloserStops. unfold sperform. by rewrite Epc, Eg.
Qed.

(** C16: A cancelled session ends: the goroutine that watches the context can
    close the client at once; and from then on, whatever the scheduler does and
    wherever the session was, it runs its deferred calls, with every goroutine it
    started gone, when commands on a closed client fail and a cancelled [Idle]
    returns. *)
Theorem cancelled_session_ends s :
  sreachable s -> ss_cancelled s = true ->
  (ss_closer s = Watching -> is_Some (sperform CloserCloses s))
  /\ (ss_closed s = true -> inevitable sstep all_gone s).
Proof.
  intros Hr Hc. split.
  - intros Hw. unfold sperform. rewrite Hw, Hc. destruct (ss_pc s); by eexists.
  - intros Hcl. apply (inevitable_measure sstep all_gone ending_now distance ending_step ending_live).
    split; [by apply inv_sreachable | done].
Qed.

(** ** Samples *)

(** A message arrives during the catch-up fetch and another in the select. *)
Definition to_select : list saction :=
  [StartEnds true; NotifyExists; FetchEnds true true; CheckCtx; NotifyExists].

Definition selecting : Session := default opened (perform_all sperform to_select opened).

(** Then the context is cancelled and the client closed. *)
Definition closing : Session :=
  default opened (perform_all sperform (to_select ++ [Cancel; CloserCloses]) opened).

Lemma selecting_reachable : sreachable selecting.
Proof. by apply (perform_all_does sperform to_select). Qed.

Lemma closing_reachable : sreachable closing.
Proof. by apply (perform_all_does sperform (to_select ++ [Cancel; CloserCloses])). Qed.

(** It leaves through the drain; the closer is gone, and so is the goroutine. *)
Example closing_run :
  exists s, perform_all sperform [SelectCtxDone; IdleEnds 0 true; DrainIdle; Unwind] closing = Some s
            /\ all_gone s.
Proof. eexists. split; [vm_compute; reflexivity|]. split_and!; [done | done | by repeat constructor]. Qed.

Lemma idle_exclusive_witness :
  Forall received (tail (ss_idlers selecting))
  /\ (ss_pc selecting <> AtSelect -> (forall fetch, ss_pc selecting <> AtDrain fetch) ->
      Forall received (ss_idlers selecting))
  /\ (forall fetch, ss_pc selecting = AtDrain fetch -> head (ss_idlers selecting) <> Some (Idling false)).
Proof. apply (idle_exclusive selecting). exact selecting_reachable. Defined.

Lemma exists_not_lost_witness :
  ss_pc selecting = AtSelect /\ is_Some (sperform SelectExists selecting).
Proof.
  split; [reflexivity|].
  apply (exists_not_lost selecting); [exact selecting_reachable | reflexivity | reflexivity].
Defined.

Lemma cancelled_session_ends_witness : inevitable sstep all_gone closing.
Proof. apply (cancelled_session_ends closing); [exact closing_reachable | reflexivity | reflexivity]. Defined.
