(* ===== verification/Delivery.v ===== *)
(** * At-least-once delivery over the life of a node

    The worker keeps nothing in memory that matters: what it has delivered is
    known from the checkpoint alone.  Here [mb v] is everything a mailbox of
    UIDVALIDITY [v] ever receives, and a server is honest when it answers a fetch
    with messages in ascending order that skip none of [mb].  [covered], every
    message at or below the stored checkpoint was delivered or is no packet for
    this node, is then an invariant of all sessions of [Run], whatever fails in
    between, and since it speaks of the disk and of the pipe interface only, of
    all restarts of the process. *)
From Stdlib Require Import Strings.Byte.
From S2P Require Import Prelude GoErrors GoStrings GoMime Envelope Inbox Config ImapClient Pipe Worker.

(** ** Honest servers *)

(** An answer to a fetch above [lastUID]: ascending, and it skips no message of
    the mailbox below one it holds.  It may stop anywhere. *)
Definition gap_free (box : list (Z * bytes)) (lastUID : Z) (ms : list (Z * bytes)) : Prop :=
  StronglySorted Z.lt ms.*1
  /\ forall uid raw u, (uid, raw) ∈ box -> lastUID < uid -> u ∈ ms.*1 -> uid <= u -> (uid, raw) ∈ ms.

(** What a world of the worker may rely on: [ready], the servers to come are
    honest; [connected], the present one is and no mailbox is selected yet;
    [serving v], it is and a mailbox of UIDVALIDITY [v] is selected. *)
Class MailServer (W : Type) `{WorkerWorld W inject dial setOnline} (mb : Z -> list (Z * bytes)) := {
  ready : W -> Prop;
  connected : W -> Prop;
  serving : Z -> W -> Prop;
  keeps v w w' := (ready w -> ready w') /\ (serving v w -> serving v w');
  ms_client v : client_steps (keeps v);
  ms_inject v pkt w : keeps v w (inject pkt w).1;
  ms_advance v f v' u w : keeps v w (AdvanceCheckpoint f v' u w).1;
  ms_get v f v' w : keeps v w (GetCheckpoint f v' w).1;
  ms_online v b w : keeps v w (callSetOnline setOnline b w);
  ms_dial w : ready w -> ready (dial w).1 /\ ((dial w).2 = None -> connected (dial w).1);
  ms_login u p w : connected w -> connected (Login u p w).1;
  ms_select m w v : connected w -> (Select m w).2 = Ok v -> serving v (Select m w).1;
  ms_fetch v l w : serving v w -> is_u32 l -> gap_free (mb v) l (fetched l w);
}.

Section Delivery.
Context `{MailServer W inject dial setOnline mb} {unicode : UnicodeTables} {mail : MailParsers}.
Context (ctx_err : W -> option error) (wk : Worker).
Implicit Types (w : W).

Abbreviation folder := (imap_Folder (wk_cfg wk)).
Abbreviation fetch := (fetchAndProcess ctx_err inject wk).

Context (Hfolder : rep_folder folder).

(** The packet of the message was accepted by the pipe interface at some time,
    or the message is none of this node's. *)
Definition delivered w (raw : bytes) : Prop :=
  match classify wk raw with
  | VInject pkt => pkt ∈ injected w
  | VSkip => True
  | VUndecodable => False
  end.

Definition covered w : Prop :=
  forall v uid raw, is_u32 v -> (uid, raw) ∈ mb v -> uid <= rep_cp w folder v -> delivered w raw.

(** Between the operations of a session the UID to fetch above is the stored
    checkpoint. *)
Record in_session (v lastUID : Z) w : Prop := {
  in_u32 : is_u32 v;
  in_serving : serving v w;
  in_ready : ready w;
  in_covered : covered w;
  in_last : lastUID = rep_cp w folder v;
}.

Definition at_rest w : Prop := ready w /\ covered w.

Lemma in_session_rest v l w : in_session v l w -> at_rest w.
Proof. intros [_ _ ? ? _]. by split. Qed.

#[local] Hint Resolve in_session_rest : core.

#[local] Instance keeps_preorder v : PreOrder (keeps v).
Proof. split; unfold keeps; [intros w; tauto | intros w1 w2 w3; tauto]. Qed.

Lemma delivered_grows w w' new raw :
  injected w' = injected w ++ new -> delivered w raw -> delivered w' raw.
Proof.
  unfold delivered. intros ->. destruct (classify wk raw); [|done..].
  intros ?. apply elem_of_app. by left.
Qed.

Lemma covered_mono w w' :
  injected w' = injected w -> (forall v, is_u32 v -> rep_cp w' folder v <= rep_cp w folder v) ->
  covered w -> covered w'.
Proof.
  intros Hi Hc Hw v uid raw Hv Hin Hu. apply (delivered_grows w w' []); [by rewrite app_nil_r|].
  apply (Hw v uid raw Hv Hin). specialize (Hc v Hv). lia.
Qed.

Lemma covered_frame w w' : cl_frame w w' -> covered w -> covered w'.
Proof. intros (Hi & _ & Hc)%ww_frame. apply covered_mono; [done|]. intros v _. by rewrite Hc. Qed.

Lemma in_session_frame v l w w' :
  cl_frame w w' -> keeps v w w' -> in_session v l w -> in_session v l w'.
Proof.
  intros Hf [Kr Ks] [Hv Hs Hr Hc Hl]. split; [done | auto | auto | by eapply covered_frame|].
  apply ww_frame in Hf as (_ & _ & Hcp). by rewrite Hcp.
Qed.

Lemma at_rest_frame v w w' : cl_frame w w' -> keeps v w w' -> at_rest w -> at_rest w'.
Proof. intros Hf [Kr _] [Hr Hc]. split; [auto | by eapply covered_frame]. Qed.

(** ** One fetch *)

Lemma fetch_keeps v l v' w : keeps v w (fetch l folder v' w).1.
Proof.
  apply (fetch_closed _ _ _ (keeps v)); [apply ms_client | apply ms_inject | intros; apply ms_advance].
Qed.

(** A message the new checkpoint reaches was on the fetch or was covered. *)
Lemma fetch_in_session v l w :
  in_session v l w -> in_session v (fetch l folder v w).2.1 (fetch l folder v w).1.
Proof.
  intros [Hv Hs Hr Hc ->]. pose proof (rep_range w folder v) as Hrange.
  set (l := rep_cp w folder v) in *.
  assert (Hl : 0 <= l) by (unfold is_u32 in Hrange; lia).
  destruct (fetch_keeps v l v w) as [Kr Ks].
  pose proof (fetchAndProcess_spec ctx_err wk l folder v w Hfolder Hv Hl) as Hspec.
  pose proof (fetch_no_loss_lemma ctx_err wk l folder v w Hfolder Hv Hl) as Hloss.
  destruct (ms_fetch v l w Hs Hrange) as [Hsort Hgap].
  destruct (fetch l folder v w) as [w' [u e]]. cbn [fst snd] in *.
  destruct Hspec as (hs & how & Hrep).
  assert (Hnd : NoDup (fetched l w).*1) by (apply StronglySorted_NoDup_lt; done).
  specialize (Hloss Hnd (or_intror Hsort)).
  pose proof (fr_cp _ _ _ _ _ _ _ _ _ _ Hrep) as Hcp. fold l in Hcp.
  assert (Hu : u = rep_cp w' folder v).
  { destruct (fr_uid _ _ _ _ _ _ _ _ _ _ Hrep) as [->|[Hlt _]]; rewrite Hcp;
      [by rewrite Z.ltb_irrefl | replace (l <? u) with true by lia; lia]. }
  split; [done | auto | auto | | done].
  intros v2 uid raw Hv2 Hin Hle.
  assert (Hold : uid <= rep_cp w folder v2 -> delivered w' raw).
  { intros Hle2. eapply delivered_grows; [apply (fr_injected _ _ _ _ _ _ _ _ _ _ Hrep)|].
    by eapply Hc. }
  destruct (Z.eq_dec v2 v) as [->|Hne].
  2:{ apply Hold. etrans; [exact Hle|]. apply (fr_other _ _ _ _ _ _ _ _ _ _ Hrep). congruence. }
  destruct (Z.le_gt_cases uid l) as [|Hlt]; [auto|].
  assert (Huid : u ∈ (fetched l w).*1).
  { destruct (fr_uid _ _ _ _ _ _ _ _ _ _ Hrep) as [->|(_ & Hadv & _)]; [lia|].
    rewrite (fr_fetched _ _ _ _ _ _ _ _ _ _ Hrep), fmap_app. apply elem_of_app. left.
    destruct Hadv as [(r & Hr' & _)%select_uids_elem|(r & Hr' & _)%select_uids_elem];
      apply list_elem_of_fmap; by exists (u, r). }
  rewrite <- Hu in Hle. pose proof (Hgap uid raw u Hin Hlt Huid Hle) as Hf.
  specialize (Hloss uid raw Hf Hle). unfold dealt_with, delivered in *.
  destruct (classify wk raw); [|done..]. destruct Hloss as (new & -> & Hnew).
  apply elem_of_app. by right.
Qed.

(** ** The loops, the sessions and the run *)

Lemma pollLoop_rest v sched l w :
  in_session v l w -> at_rest (pollLoop ctx_err inject wk folder v sched l w).1.
Proof.
  revert l w. induction sched as [|[|] sched IH]; intros l w Hw; cbn [pollLoop]; [eauto| |eauto].
  pose proof (in_session_frame v l w _ (proj1 (noop_frame w)) (cs_noop _ (ms_client v) w) Hw) as Hw1.
  destruct (Noop w) as [w1 [e1|]]; [eauto|]. cbn [fst] in Hw1.
  pose proof (fetch_in_session v l w1 Hw1) as Hw2.
  destruct (fetch l folder v w1) as [w2 [u [e2|]]]; cbn [fst snd] in Hw2; eauto.
Qed.

Lemma idleLoop_rest v sched polls n l w :
  in_session v l w -> at_rest (idleLoop ctx_err inject wk folder v sched polls n l w).1.
Proof.
  revert n l w. induction sched as [|[[] sel c] sched IH]; intros n l w Hw; cbn [idleLoop]; [eauto | eauto|].
  pose proof (in_session_frame v l w _ (proj1 (idle_frame c w)) (cs_idle _ (ms_client v) c w) Hw) as Hw1.
  destruct (Idle c w) as [w1 ierr]. cbn [fst] in Hw1.
  pose proof (fetch_in_session v l w1 Hw1) as Hw2.
  destruct (fetch l folder v w1) as [w2 [u e2]]. cbn [fst snd] in Hw2.
  assert (Hfetch : at_rest match e2 with
    | Some err => (w2, Returned (Some (Errorf "fetch after idle" [err])))
    | None => idleLoop ctx_err inject wk folder v sched polls 0 u w2
    end.1) by (destruct e2; eauto).
  destruct sel; [by destruct e2 | | eauto].
  destruct (bool_decide _ && _); [|by destruct e2].
  destruct (maxIdleErrors <=? n + 1); [by apply pollLoop_rest | by apply IH].
Qed.

(** Up to the catch-up fetch. *)
Lemma start_rest w :
  connected w -> at_rest w ->
  match start_session setOnline wk w with
  | (w', Ok (v, l)) => in_session v l w'
  | (w', Err _) => at_rest w'
  end.
Proof.
  intros Hcon Hw. unfold start_session.
  set (user := imap_Username _). set (pw := imap_Password _).
  pose proof (at_rest_frame 0 w _ (proj1 (login_frame user pw w)) (cs_login _ (ms_client 0) user pw w) Hw) as Hw1.
  pose proof (ms_login user pw w Hcon) as C1.
  destruct (Login user pw w) as [w1 [e1|]]; [done|]. cbn [fst] in Hw1, C1.
  pose proof (at_rest_frame 0 w1 _ (proj1 (select_frame folder w1)) (cs_select _ (ms_client 0) folder w1) Hw1) as Hw2.
  pose proof (ms_select folder w1) as C2. pose proof (select_u32 folder w1) as U2.
  destruct (Select folder w1) as [w2 [v|e2]]; [|done]. cbn [fst snd] in Hw2, C2, U2.
  specialize (C2 v C1 eq_refl). specialize (U2 v eq_refl).
  destruct (ms_get v folder v w2) as [Kr Ks]. pose proof (get_frame folder v w2) as Gf.
  pose proof (ww_get folder v w2) as (Gi & _ & _)%view_fields.
  pose proof (get_value folder v w2) as Gv.
  destruct (GetCheckpoint folder v w2) as [w3 [l|e3]]; cbn [fst snd] in *.
  2:{ split; [apply Kr, Hw2|]. eapply covered_mono; [exact Gi | | apply Hw2]. intros v' _. by rewrite Gf. }
  destruct (ms_online v true w3) as [Or Os]. destruct (ww_online true w3) as [(Oi & _ & _)%view_fields Oc].
  set (w4 := callSetOnline setOnline true w3) in *. change (in_session v l w4).
  split; [done | auto | apply Or, Kr, Hw2 | |].
  - eapply covered_mono; [| | apply Hw2]; [etrans; [exact Oi | exact Gi]|].
    intros v' _. by rewrite (Oc folder v'), Gf.
  - by rewrite (Gv l eq_refl), (Oc folder v), Gf.
Qed.

Lemma session_rest s w :
  connected w -> at_rest w -> at_rest (session ctx_err inject setOnline wk s w).1.
Proof.
  intros Hcon Hw. rewrite session_parts. pose proof (start_rest w Hcon Hw) as Hs.
  destruct (start_session setOnline wk w) as [w1 [[v l]|e]]; [|done]. unfold fetch_then.
  pose proof (fetch_in_session v l w1 Hs) as Hw2.
  destruct (fetch l folder v w1) as [w2 [u [e2|]]]; cbn [fst snd] in Hw2; [eauto|]. unfold loop.
  destruct (HasIdle w2); [by apply idleLoop_rest | by apply pollLoop_rest].
Qed.

Lemma at_rest_online b w : at_rest w -> at_rest (callSetOnline setOnline b w).
Proof.
  intros [Hr Hc]. destruct (ms_online 0 b w) as [Kr _].
  destruct (ww_online b w) as [(Oi & _ & _)%view_fields Oc]. split; [auto|].
  eapply covered_mono; [exact Oi | | exact Hc]. intros v _. by rewrite Oc.
Qed.

Lemma runSession_rest s w :
  at_rest w -> at_rest (runSession ctx_err inject dial setOnline wk s w).1.
Proof.
  intros [Hr Hc]. unfold runSession.
  destruct (ms_dial w Hr) as [Dr Dc]. destruct (ww_dial w) as [(Di & _ & _)%view_fields Dcp].
  assert (Hw1 : at_rest (dial w).1).
  { split; [done|]. eapply covered_mono; [exact Di | | exact Hc]. intros v _. by rewrite Dcp. }
  destruct (dial w) as [w1 [e|]]; cbn [fst snd] in *; [by apply at_rest_online|].
  pose proof (session_rest s w1 (Dc eq_refl) Hw1) as Hw2.
  destruct (session _ _ _ _ s w1) as [w2 [|e]]; cbn [fst] in *; [done|].
  apply at_rest_online.
  exact (at_rest_frame 0 w2 _ (proj1 (close_frame w2)) (cs_close _ (ms_client 0) w2) Hw2).
Qed.

Lemma Run_rest sessions w :
  at_rest w -> at_rest (Run ctx_err inject dial setOnline wk sessions w).1.1.
Proof.
  unfold Run. set (base := wrap64 (imap_ReconnectDelay _ * _)). generalize base at 2 as b.
  revert w. induction sessions as [|[s timer] sessions IH]; intros w b Hw; cbn [run_loop]; [done|].
  pose proof (runSession_rest s w Hw) as Hw1.
  destruct (runSession _ _ _ _ _ s w) as [w1 [|e]]; [done|]. cbn [fst] in Hw1.
  destruct (bool_decide _); [done|]. destruct timer; [|done].
  match goal with |- context [run_loop _ _ _ _ _ _ ?m _ ?b' w1] =>
    specialize (IH w1 b' Hw1); destruct (run_loop _ _ _ _ _ _ m _ b' w1) as [[w2 ds] r] end.
  done.
Qed.
End Delivery.
