(* ===== verification/SessionRefine.v ===== *)
(** * The interleaved session refines the sequential one

    Session interleaves the goroutines of a session and takes the outcome of
    every command as it comes; Worker runs the commands one after the other on a
    world.  [pperform] joins the two: the goroutines of Session, where the end of a
    command runs it on the world.  [session_refines] then says that Worker loses
    nothing: whatever the scheduler does, the session leaves the world that
    [runSession] leaves for some schedule, with the same result. *)
From S2P Require Import Prelude GoErrors GoStrings GoMime Envelope Inbox Config ImapClient Pipe Worker Session Delivery.

Section Refine.
Context {W : Type} {client : Client W} {repo : Repository W}
        {unicode : UnicodeTables} {mail : MailParsers}.
Context (ctx_err : W -> option error) (inject : bytes -> W -> W * option error)
        (dial : W -> W * option error) (setOnline : option (bool -> W -> W)).
Context (wk : Worker).

#[local] Abbreviation folder := (imap_Folder (wk_cfg wk)).
#[local] Abbreviation fetch := (fetchAndProcess ctx_err inject wk).
#[local] Abbreviation idleLoop := (idleLoop ctx_err inject wk folder).
#[local] Abbreviation pollLoop := (pollLoop ctx_err inject wk folder).
#[local] Abbreviation session := (session ctx_err inject setOnline wk).
#[local] Abbreviation start_session := (start_session setOnline wk).
#[local] Abbreviation fetch_then := (fetch_then ctx_err inject wk).
#[local] Abbreviation loop := (loop ctx_err inject wk).

(** ** A round of the loops *)

(** The round of [idleLoop] behind the end of [Idle]. *)
Definition after_idle (sel : idle_sel) (failed : bool) (sched : list idle_round)
    (polls : list poll_sel) (v errs l : Z) (w : W) : W * ending :=
  match sel with
  | SelCtxDone => (w, Returned None)
  | SelExists => fetch_then "fetch after idle" v l (idleLoop v sched polls 0) w
  | SelIdleDone cancelled =>
    if failed && negb cancelled then
      if maxIdleErrors <=? errs + 1 then pollLoop v polls l w else idleLoop v sched polls (errs + 1) l w
    else fetch_then "fetch after idle" v l (idleLoop v sched polls 0) w
  end.

Lemma idleLoop_round sel ctx_first sched polls v errs l w :
  idleLoop v (mkRound false sel ctx_first :: sched) polls errs l w
  = let '(w, ierr) := Idle ctx_first w in
    after_idle sel (bool_decide (is_Some ierr)) sched polls v errs l w.
Proof. cbn [Worker.idleLoop]. by destruct (Idle ctx_first w) as [w1 ierr]. Qed.

Lemma pollLoop_tick polls v l w :
  pollLoop v (PollTick :: polls) l w
  = match Noop w with
    | (w, Some err) => (w, Returned (Some (Errorf "noop" [err])))
    | (w, None) => fetch_then "fetch after poll" v l (pollLoop v polls) w
    end.
Proof. done. Qed.

(** ** The goroutines on the world *)

Record Product := mkProduct {
  pr_session : Session;
  pr_world : W;
  pr_uidValidity : Z;
  pr_lastUID : Z;
  pr_result : option error;     (* what [runSession] returns *)
}.

Definition begun (w : W) : Product := mkProduct opened w 0 0 None.

Definition fetch_label (polling : option bool) : string :=
  match polling with
  | None => "catch-up fetch" | Some false => "fetch after idle" | Some true => "fetch after poll"
  end.

(** What an action does to the world; the outcome it carries is replaced by the
    one the world gives.  The close of a cancelled session has no effect of its
    own: it shows in the outcomes of the commands. *)
Definition command (ctx_first : bool) (a : saction) (p : Product) : saction * (W * Z * Z * option error) :=
  let '(mkProduct s w v l r) := p in
  match a, ss_pc s with
  | StartEnds _, _ =>
    match start_session w with
    | (w, Ok (v, l)) => (StartEnds true, (w, v, l, r))
    | (w, Err err) => (StartEnds false, (w, v, l, Some err))
    end
  | FetchEnds _ _, Fetching polling =>
    match fetch l folder v w with
    | (w, (_, Some err)) =>
      (FetchEnds false (HasIdle w), (w, v, l, Some (Errorf (fetch_label polling) [err])))
    | (w, (l, None)) => (FetchEnds true (HasIdle w), (w, v, l, r))
    end
  | NoopEnds _, _ =>
    match Noop w with
    | (w, Some err) => (NoopEnds false, (w, v, l, Some (Errorf "noop" [err])))
    | (w, None) => (NoopEnds true, (w, v, l, r))
    end
  | IdleEnds i _, _ =>
    let '(w, ierr) := Idle ctx_first w in (IdleEnds i (bool_decide (is_Some ierr)), (w, v, l, r))
  | Unwind, _ => (Unwind, (callSetOnline setOnline false (Close w).1, v, l, r))
  | _, _ => (a, (w, v, l, r))
  end.

Definition pperform (act : saction * bool) (p : Product) : option Product :=
  let '(a, (w, v, l, r)) := command act.2 act.1 p in
  s ← sperform a (pr_session p);
  Some (mkProduct s w v l r).

Definition pstep : Product -> Product -> Prop := does pperform.

(** ** The simulation *)

Definition idle_failed (l : list idler) : option bool :=
  match l with IdleResult failed :: _ => Some failed | _ => None end.

(** The rest of a round of [idleLoop] whose select takes a branch. *)
Definition in_round (p : Product) (sel : idle_sel) (ctx_first : bool) (sched : list idle_round)
    (polls : list poll_sel) : W * ending :=
  let '(mkProduct s w v l _) := p in
  match idle_failed (ss_idlers s) with
  | Some failed => after_idle sel failed sched polls v (ss_idleErrors s) l w
  | None => idleLoop v (mkRound false sel ctx_first :: sched) polls (ss_idleErrors s) l w
  end.

(** What Worker computes from where the goroutines are, for a schedule: the next
    round of [idleLoop], those after it, and the branches of [pollLoop]. *)
Definition resume (p : Product) (rd : idle_round) (sched : list idle_round) (polls : list poll_sel)
    : W * ending :=
  let '(mkProduct s w v l r) := p in
  match ss_pc s with
  | Starting => session (mkSchedule (rd :: sched) polls) w
  | Fetching None => fetch_then (fetch_label None) v l (loop (mkSchedule (rd :: sched) polls) v) w
  | Fetching (Some false) => fetch_then (fetch_label (Some false)) v l (idleLoop v (rd :: sched) polls 0) w
  | Fetching (Some true) => fetch_then (fetch_label (Some true)) v l (pollLoop v polls) w
  | AtCheck => idleLoop v (rd :: sched) polls (ss_idleErrors s) l w
  | AtSelect => in_round p (ir_sel rd) (ir_ctx_first rd) sched polls
  | AtDrain again => in_round p (if again then SelExists else SelCtxDone) (ir_ctx_first rd) sched polls
  | AtTicker => pollLoop v polls l w
  | InNoop _ => pollLoop v (PollTick :: polls) l w
  | Returning => (w, Returned r)
  | Exited => (w, Running)
  end.

(** A schedule so far: what is to come, put behind what was. *)
Definition history : Type := idle_round -> list idle_round -> list poll_sel -> schedule.

Definition explains (w0 : W) (h : history) (p : Product) : Prop :=
  forall rd sched polls, session (h rd sched polls) w0 = resume p rd sched polls.

(** Where the goroutines are, a run of Worker from [w0] can be. *)
Record simulates (w0 : W) (p : Product) : Prop := {
  sm_inv : session_inv (pr_session p);
  sm_result : ss_pc (pr_session p) = Returning \/ ss_pc (pr_session p) = Exited \/ pr_result p = None;
  sm_run : match ss_pc (pr_session p) with
           | Exited => exists s w, session s w0 = (w, Returned (pr_result p))
                                   /\ pr_world p = callSetOnline setOnline false (Close w).1
           | _ => exists h, explains w0 h p
           end;
}.

Lemma simulates_begun w : simulates w (begun w).
Proof.
  split; [exact inv_opened | by right; right|]. cbn.
  by exists (fun rd sched polls => mkSchedule (rd :: sched) polls).
Qed.

(** The schedule of the next step, from that of the one after it. *)
Definition choice : Type :=
  idle_round -> list idle_round -> list poll_sel -> idle_round * list idle_round * list poll_sel.

Definition resumes (p p' : Product) : Prop :=
  exists g : choice, forall rd sched polls,
    resume p' rd sched polls = let '(rd, sched, polls) := g rd sched polls in resume p rd sched polls.

Lemma explains_resumes w0 h p p' : resumes p p' -> explains w0 h p -> exists h', explains w0 h' p'.
Proof.
  intros [g Hg] Hh.
  exists (fun rd sched polls => let '(rd, sched, polls) := g rd sched polls in h rd sched polls).
  intros rd sched polls. rewrite Hg. destruct (g rd sched polls) as [[rd' sched'] polls']. apply Hh.
Qed.

Lemma resumes_same p p' : (forall rd sched polls, resume p' rd sched polls = resume p rd sched polls) -> resumes p p'.
Proof. intros H. by exists (fun rd sched polls => (rd, sched, polls)). Qed.

Lemma idle_failed_cancel l : idle_failed (cancel_newest l) = idle_failed l.
Proof. by destruct l as [|[] l]. Qed.

(** *** The commands *)

Lemma resumes_start s w v l r ok p' cf :
  ss_pc s = Starting -> pperform (StartEnds ok, cf) (mkProduct s w v l r) = Some p' ->
  resumes (mkProduct s w v l r) p'.
Proof.
  intros Hpc. unfold pperform, command. cbn [fst snd].
  destruct (start_session w) as [w1 [[v1 l1]|e]] eqn:E; unfold sperform; cbn [pr_session]; rewrite Hpc; intros [= <-];
    apply resumes_same; intros; cbn; rewrite Hpc, session_parts, E; done.
Qed.

Lemma resumes_fetch s w v l r ok has p' cf polling :
  session_inv s -> ss_pc s = Fetching polling ->
  pperform (FetchEnds ok has, cf) (mkProduct s w v l r) = Some p' ->
  resumes (mkProduct s w v l r) p'.
Proof.
  intros [_ He _ _] Hpc. unfold pperform, command. cbn [fst snd]. rewrite Hpc in *.
  destruct (fetch l folder v w) as [w1 [u [e|]]] eqn:E; unfold sperform; cbn [pr_session]; rewrite Hpc.
  - intros [= <-]. apply resumes_same. intros. cbn. rewrite Hpc.
    destruct polling as [[]|]; unfold Worker.fetch_then; by rewrite E.
  - destruct polling as [[]|]; intros [= <-]; apply resumes_same; intros; cbn; rewrite Hpc;
      unfold Worker.fetch_then; rewrite E; [done | | ].
    + by destruct He as [_ ->].
    + unfold Worker.loop. destruct (HasIdle w1); cbn; [by destruct He as [_ ->] | done].
Qed.

Lemma resumes_noop s w v l r ok p' cf c :
  ss_pc s = InNoop c -> pperform (NoopEnds ok, cf) (mkProduct s w v l r) = Some p' ->
  resumes (mkProduct s w v l r) p'.
Proof.
  intros Hpc. unfold pperform, command. cbn [fst snd].
  destruct (Noop w) as [w1 [e|]] eqn:E; unfold sperform, guard; cbn [pr_session]; rewrite Hpc;
    [|destruct (negb c); [|done]]; intros [= <-];
    apply resumes_same; intros; cbn [resume pr_session ss_pc with_pc]; rewrite Hpc, pollLoop_tick, E; done.
Qed.

(** An idle goroutine that is not done is the newest, of a round that waits for it. *)
Lemma idler_newest s i b :
  session_inv s -> ss_idlers s !! i = Some (Idling b) ->
  i = 0%nat /\ (ss_pc s = AtSelect \/ exists again, ss_pc s = AtDrain again).
Proof.
  intros [Hi _ _ _] Hl.
  assert (Hrec : forall l j, Forall received l -> l !! j = Some (Idling b) -> False).
  { intros rest j Hf Hj. by apply (Forall_lookup_1 _ _ _ _ Hf) in Hj. }
  destruct (ss_pc s); cbn in Hi; try (by destruct (Hrec _ _ Hi Hl)).
  all: destruct Hi as (g & rest & E & Hf & _); rewrite E in Hl; destruct i as [|i];
    [|by destruct (Hrec _ _ Hf Hl)]; eauto.
Qed.

Lemma resumes_idle s w v l r i f p' cf :
  session_inv s -> pperform (IdleEnds i f, cf) (mkProduct s w v l r) = Some p' ->
  resumes (mkProduct s w v l r) p'.
Proof.
  intros Hinv. unfold pperform, command. cbn [fst snd].
  destruct (Idle cf w) as [w1 ierr] eqn:E.
  assert (Hs : forall f, sperform (IdleEnds i f) s
    = match ss_idlers s !! i with
      | Some (Idling _) => Some (with_idlers (<[i := IdleResult f]> (ss_idlers s)) (ss_idleErrors s) s)
      | _ => None
      end) by (intros f'; unfold sperform; by destruct (ss_pc s)).
  cbn [pr_session]. rewrite Hs. destruct (ss_idlers s !! i) as [[b| |]|] eqn:Hl; try done.
  destruct (idler_newest s i b Hinv Hl) as [-> Hpc]. intros [= <-].
  destruct (ss_idlers s) as [|g rest] eqn:El; [done|]. injection Hl as ->.
  exists (fun rd sched polls => (mkRound false (ir_sel rd) cf, sched, polls)). intros rd sched polls.
  destruct Hpc as [Hpc|[again Hpc]];
    cbn [resume in_round with_idlers ss_pc ss_idlers ss_idleErrors]; rewrite Hpc, El;
    cbn [idle_failed ir_ctx_first ir_sel insert list_insert]; rewrite idleLoop_round, E; done.
Qed.

(** *** The other actions *)

(** Nothing [resume] looks at has changed. *)
Lemma resumes_seen s s' w v l r :
  ss_pc s' = ss_pc s -> idle_failed (ss_idlers s') = idle_failed (ss_idlers s) ->
  ss_idleErrors s' = ss_idleErrors s -> resumes (mkProduct s w v l r) (mkProduct s' w v l r).
Proof.
  intros Hpc Hl He. apply resumes_same. intros. cbn [resume in_round]. by rewrite Hpc, Hl, He.
Qed.

Lemma resumes_check s s' w v l r :
  ss_pc s = AtCheck -> r = None -> sperform CheckCtx s = Some s' ->
  resumes (mkProduct s w v l r) (mkProduct s' w v l r).
Proof.
  intros Hpc ->. unfold sperform. rewrite Hpc. destruct (ss_cancelled s); intros [= <-].
  - exists (fun rd sched polls => (mkRound true (ir_sel rd) false, sched, polls)). intros.
    cbn [resume with_pc ss_pc]. by rewrite Hpc.
  - exists (fun rd sched polls => (mkRound false (ir_sel rd) (ir_ctx_first rd), sched, polls)). intros.
    cbn [resume with_pc ss_pc]. by rewrite Hpc.
Qed.

(** A branch of the select that waits for the goroutine. *)
Lemma resumes_drain again s w v l r b unseen :
  ss_pc s = AtSelect ->
  resumes (mkProduct s w v l r)
    (mkProduct (with_pc (AtDrain again)
                  (with_idlers (cancel_newest (ss_idlers s)) (ss_idleErrors s) (with_exists b unseen s))) w v l r).
Proof.
  intros Hpc.
  exists (fun rd sched polls =>
            (mkRound false (if again then SelExists else SelCtxDone) (ir_ctx_first rd), sched, polls)).
  intros. cbn [resume in_round with_pc with_idlers with_exists ss_pc ss_idlers ss_idleErrors].
  by rewrite Hpc, idle_failed_cancel.
Qed.

Lemma resumes_idle_done s s' w v l r :
  ss_pc s = AtSelect -> sperform SelectIdleDone s = Some s' ->
  resumes (mkProduct s w v l r) (mkProduct s' w v l r).
Proof.
  intros Hpc. unfold sperform. rewrite Hpc.
  destruct (ss_idlers s) as [|[|failed|] rest] eqn:El; try done. intros [= <-].
  exists (fun rd sched polls => (mkRound false (SelIdleDone (ss_cancelled s)) false, rd :: sched, polls)).
  intros. unfold idle_done. cbn [resume in_round ss_pc ss_idlers ss_cancelled ss_idleErrors with_idlers].
  rewrite Hpc, El. cbn [idle_failed ir_sel after_idle].
  destruct (failed && _); [|done]. by destruct (maxIdleErrors <=? ss_idleErrors s + 1).
Qed.

Lemma resumes_drained s s' w v l r again :
  ss_pc s = AtDrain again -> r = None -> sperform DrainIdle s = Some s' ->
  resumes (mkProduct s w v l r) (mkProduct s' w v l r).
Proof.
  intros Hpc ->. unfold sperform. rewrite Hpc.
  destruct (ss_idlers s) as [|[|failed|] rest] eqn:El; try done. intros [= <-].
  exists (fun rd sched polls => (rd, rd :: sched, polls)). intros.
  cbn [resume in_round with_pc ss_pc]. rewrite Hpc, El. by destruct again.
Qed.

Lemma resumes_ticker sel s pc w v l r :
  ss_pc s = AtTicker -> r = None ->
  match sel with PollTick => exists c, pc = InNoop c | PollCtxDone => pc = Returning end ->
  resumes (mkProduct s w v l r) (mkProduct (with_pc pc s) w v l r).
Proof.
  intros Hpc -> Hsel. exists (fun rd sched polls => (rd, sched, sel :: polls)). intros.
  cbn [resume with_pc ss_pc]. rewrite Hpc. destruct sel; [destruct Hsel as [c ->] | subst]; done.
Qed.

(** ** Every step is simulated *)

(** The actions that are not the end of a command leave the world alone. *)
Definition quiet (a : saction) : bool :=
  match a with StartEnds _ | FetchEnds _ _ | NoopEnds _ | IdleEnds _ _ | Unwind => false | _ => true end.

Lemma pperform_quiet a cf s w v l r p' :
  pperform (a, cf) (mkProduct s w v l r) = Some p' -> quiet a = true ->
  exists s', sperform a s = Some s' /\ p' = mkProduct s' w v l r.
Proof.
  intros E Ha. revert E. unfold pperform.
  assert (Hc : command cf a (mkProduct s w v l r) = (a, (w, v, l, r))) by by destruct a.
  cbn [fst snd]. rewrite Hc. cbn [pr_session].
  destruct (sperform a s) as [s'|]; [|done]. intros [= <-]. by exists s'.
Qed.

(** The end of a command is possible where the command is under way. *)
Lemma pperform_where a cf s w v l r p' :
  pperform (a, cf) (mkProduct s w v l r) = Some p' ->
  match a with
  | StartEnds _ => ss_pc s = Starting
  | FetchEnds _ _ => exists polling, ss_pc s = Fetching polling
  | NoopEnds _ => exists c, ss_pc s = InNoop c
  | Unwind => ss_pc s = Returning
  | _ => True
  end.
Proof.
  unfold pperform, command. cbn [fst snd].
  destruct a; try done; repeat case_match; simplify_eq; cbn [pr_session]; unfold sperform;
    repeat case_match; simplify_eq; eauto; done.
Qed.

Lemma quiet_resumes a s s' w v l r :
  ss_pc s = Returning \/ ss_pc s = Exited \/ r = None ->
  sperform a s = Some s' -> quiet a = true -> resumes (mkProduct s w v l r) (mkProduct s' w v l r).
Proof.
  intros Hr Es Ha.
  assert (Hrest : forall pc, ss_pc s = pc -> pc <> Returning -> pc <> Exited -> r = None).
  { intros pc <- H1 H2. by destruct Hr as [?|[?|?]]. }
  destruct a; try done; pose proof Es as Es'; unfold sperform, guard in Es;
    try (destruct (ss_pc s) eqn:Epc; done || idtac); try done.
  all: try (apply resumes_seen; repeat case_match; simplify_eq; done).
  all: try (by eapply resumes_check; eauto).
  all: try (by eapply resumes_idle_done).
  all: try (by eapply resumes_drained; eauto).
  - destruct (ss_exists s); [|done]. injection Es as <-. by apply (resumes_drain true).
  - destruct (ss_cancelled s); [|done]. injection Es as <-.
    pose proof (resumes_drain false s w v l r (ss_exists s) (ss_unseen s) Epc) as H. by destruct s.
  - injection Es as <-. apply (resumes_ticker PollTick); eauto.
  - destruct (ss_cancelled s); [|done]. injection Es as <-. apply (resumes_ticker PollCtxDone); eauto.
Qed.

Lemma step_resumes act p p' :
  session_inv (pr_session p) ->
  ss_pc (pr_session p) = Returning \/ ss_pc (pr_session p) = Exited \/ pr_result p = None ->
  pperform act p = Some p' -> act.1 <> Unwind -> resumes p p'.
Proof.
  destruct p as [s w v l r], act as [a cf]. cbn [pr_session pr_result fst]. intros Hinv Hr E Hne.
  pose proof (pperform_where _ _ _ _ _ _ _ _ E) as Hpc.
  destruct a; cbn in Hpc; try done.
  all: try (destruct (pperform_quiet _ _ _ _ _ _ _ _ E eq_refl) as (s' & Es & ->);
            exact (quiet_resumes _ _ _ _ _ _ _ Hr Es eq_refl)).
  - eauto using resumes_start.
  - destruct Hpc as [polling Hpc]. eauto using resumes_fetch.
  - destruct Hpc as [c Hpc]. eauto using resumes_noop.
  - eauto using resumes_idle.
Qed.

(** What a step does to the session and to the result. *)
Lemma pperform_session act p p' :
  pperform act p = Some p' ->
  (exists a, sperform a (pr_session p) = Some (pr_session p'))
  /\ (ss_pc (pr_session p') = Returning \/ ss_pc (pr_session p') = Exited
      \/ pr_result p' = pr_result p).
Proof.
  destruct p as [s w v l r], act as [a cf]. unfold pperform, command. cbn [fst snd pr_session pr_result].
  destruct a; repeat case_match; intros E; simplify_eq;
    match type of E with context [sperform ?b s] => destruct (sperform b s) eqn:Es; [|done] end;
    injection E as <-; cbn [pr_session pr_result]; (split; [by eexists|]); auto.
  all: unfold sperform in Es; repeat case_match; simplify_eq; auto.
Qed.

Lemma sperform_ended a s s' :
  sperform a s = Some s' -> ss_pc s = Returning \/ ss_pc s = Exited ->
  ss_pc s' = Returning \/ ss_pc s' = Exited.
Proof.
  intros E Hpc. unfold sperform, guard in E.
  destruct Hpc as [Hpc|Hpc]; rewrite Hpc in E; destruct a; try done;
    repeat case_match; simplify_eq; cbn; auto.
Qed.

Lemma sperform_stays a s s' : sperform a s = Some s' -> ss_pc s = Exited -> ss_pc s' = Exited.
Proof.
  intros E Hpc. unfold sperform, guard in E. rewrite Hpc in E. destruct a; try done;
    repeat case_match; by simplify_eq.
Qed.

Lemma sperform_exits a s s' :
  session_inv s -> sperform a s = Some s' -> ss_pc s' = Exited ->
  (a = Unwind /\ ss_pc s = Returning) \/ (quiet a = true /\ ss_pc s = Exited).
Proof.
  intros Hinv Es Hx. destruct a; unfold sperform, guard, idle_done in Es; cbn [quiet];
    try (destruct (ss_pc s) eqn:Hpc; try done);
    repeat match type of Es with
    | (if ?b then _ else _) = _ => destruct b eqn:?
    | match ?x with _ => _ end = _ => destruct x eqn:?
    end; try done; injection Es as <-; cbn in Hx; try congruence; auto.
  1-4: by repeat case_match.
  by destruct (idler_newest s _ _ Hinv Heqo) as [_ [?|[??]]]; congruence.
Qed.

Lemma command_action cf a p :
  quiet (command cf a p).1 = quiet a /\ ((command cf a p).1 = Unwind -> a = Unwind).
Proof. destruct p. unfold command. destruct a; repeat case_match; done. Qed.

(** The session exits by unwinding, and then the world stays. *)
Lemma pperform_exited act p p' :
  session_inv (pr_session p) -> pperform act p = Some p' -> ss_pc (pr_session p') = Exited ->
  pr_result p' = pr_result p
  /\ (act.1 = Unwind /\ ss_pc (pr_session p) = Returning
        /\ pr_world p' = callSetOnline setOnline false (Close (pr_world p)).1
      \/ act.1 <> Unwind /\ ss_pc (pr_session p) = Exited /\ pr_world p' = pr_world p).
Proof.
  destruct p as [s w v l r], act as [a cf]. cbn [pr_session pr_world pr_result fst]. intros Hinv E Hx.
  destruct (command_action cf a (mkProduct s w v l r)) as [Hq Hu].
  destruct (quiet a) eqn:Ea.
  - destruct (pperform_quiet _ _ _ _ _ _ _ _ E Ea) as (s' & Es & ->). cbn [pr_session] in Hx.
    destruct (sperform_exits _ _ _ Hinv Es Hx) as [[-> _]|[_ Hpc]]; [done|].
    split; [done|]. right. by destruct a.
  - unfold pperform in E. cbn [fst snd] in E.
    destruct (command cf a _) as [b [[[w' v'] l'] r']] eqn:Ec. cbn [fst pr_session] in *.
    destruct (sperform b s) as [s'|] eqn:Es; [|done]. injection E as <-. cbn [pr_session] in Hx.
    destruct (sperform_exits _ _ _ Hinv Es Hx) as [[-> Hpc]|[Hb _]]; [|congruence].
    rewrite (Hu eq_refl) in *. injection Ec as <- <- <- <-. split; [done|]. by left.
Qed.

Lemma pperform_unwind cf p p' : pperform (Unwind, cf) p = Some p' -> ss_pc (pr_session p') = Exited.
Proof.
  destruct p as [s w v l r]. unfold pperform. cbn. destruct (ss_pc s); try done. by intros [= <-].
Qed.

Lemma simulates_pstep w0 p p' : pstep p p' -> simulates w0 p -> simulates w0 p'.
Proof.
  intros [act Ha] [Hi Hr Hrun]. destruct (pperform_session _ _ _ Ha) as [[a Es] Hr'].
  pose proof (inv_sperform _ _ _ Es Hi) as Hi'. split; [done | |].
  - destruct Hr' as [?|[?|E]]; [by left | by right; left |]. rewrite E.
    destruct Hr as [H|[H|?]]; [| | by right; right];
      (destruct (sperform_ended _ _ _ Es) as [?|?]; [auto | by left | by right; left]).
  - destruct (ss_pc (pr_session p')) eqn:Hx.
    9: { destruct (pperform_exited _ _ _ Hi Ha Hx) as [-> [(_ & Hpc & ->)|(_ & Hpc & ->)]]; rewrite Hpc in Hrun.
         - destruct Hrun as [h Hh]. eexists _, _. split; [|done].
           rewrite (Hh (mkRound true SelExists false) [] []). unfold resume. destruct p. cbn in *. by rewrite Hpc.
         - done. }
    all: assert (Hpc : ss_pc (pr_session p) <> Exited) by
           (intros Hpc; pose proof (sperform_stays _ _ _ Es Hpc); congruence).
    all: assert (Hres : resumes p p') by
           (eapply step_resumes; eauto; intros Hu; destruct act as [act cf]; cbn in Hu; subst act;
            apply pperform_unwind in Ha; congruence).
    all: destruct (ss_pc (pr_session p)); try done; destruct Hrun as [h Hh]; by eapply explains_resumes.
Qed.

(** C14: Whatever the scheduler does with the goroutines of a session, the
    notifications, the cancellation and the close of its client, a session that
    ends leaves the world that [runSession] leaves for some schedule and returns
    the same error: what holds of Worker holds of the interleaved session. *)
Theorem session_refines w0 w1 p :
  dial w0 = (w1, None) -> rtc pstep (begun w1) p -> ss_pc (pr_session p) = Exited ->
  exists s, runSession ctx_err inject dial setOnline wk s w0 = (pr_world p, Returned (pr_result p)).
Proof.
  intros Hd Hr Hx.
  assert (Hsim : simulates w1 p).
  { revert p Hr Hx. intros p Hr _. revert p Hr.
    apply rtc_ind_r; [apply simulates_begun|]. intros p1 p2 _ Hs. by apply simulates_pstep. }
  destruct Hsim as [_ _ Hrun]. rewrite Hx in Hrun. destruct Hrun as (s & w & Hs & ->).
  exists s. unfold runSession. by rewrite Hd, Hs.
Qed.
End Refine.

(** ** Against an honest server *)

Section Always.
Context `{MailServer W inject dial setOnline mb} {unicode : UnicodeTables} {mail : MailParsers}.
Context (ctx_err : W -> option error) (wk : Worker).
Context (Hfolder : rep_folder (imap_Folder (wk_cfg wk))).

#[local] Abbreviation pperform := (pperform ctx_err inject setOnline wk).

(** What the world is known to satisfy, by the place of the session. *)
Definition place_ok (pc : session_pc) (v l : Z) (w : W) : Prop :=
  match pc with
  | Starting => connected w /\ at_rest wk w
  | Returning | Exited => at_rest wk w
  | _ => in_session wk v l w
  end.

Definition placed (p : Product) : Prop :=
  session_inv (pr_session p)
  /\ place_ok (ss_pc (pr_session p)) (pr_uidValidity p) (pr_lastUID p) (pr_world p).

Lemma place_ok_quiet a s s' v l (w : W) :
  quiet a = true -> sperform a s = Some s' -> place_ok (ss_pc s) v l w -> place_ok (ss_pc s') v l w.
Proof.
  intros Hq Es Hw. assert (Hrest : ss_pc s <> Starting -> at_rest wk w).
  { destruct (ss_pc s); try done; intros _; by eapply in_session_rest. }
  unfold sperform, guard in Es. destruct a; try done;
    repeat match type of Es with
    | (if ?b then _ else _) = _ => destruct b eqn:?
    | match ?x with _ => _ end = _ => destruct x eqn:?
    end; try done; injection Es as <-; unfold idle_done; cbn;
    try match goal with E : ss_pc s = _ |- _ => rewrite ?E end;
    repeat case_match; try done; by apply Hrest.
Qed.

Lemma placed_pperform act p p' : pperform act p = Some p' -> placed p -> placed p'.
Proof.
  intros E [Hinv Hw]. destruct (pperform_session _ _ _ _ _ _ _ E) as [[b Eb] _].
  split; [by eapply inv_sperform|]. clear b Eb.
  destruct p as [s w v l r], act as [a cf]. cbn [pr_session pr_world pr_uidValidity pr_lastUID] in *.
  pose proof (pperform_where _ _ _ _ _ _ _ _ _ _ _ _ E) as Hpc.
  destruct (quiet a) eqn:Hq.
  { destruct (pperform_quiet _ _ _ _ _ _ _ _ _ _ _ _ E Hq) as (s' & Es & ->). by eapply place_ok_quiet. }
  revert E. unfold SessionRefine.pperform, command. cbn [fst snd].
  destruct a; try done; cbn in Hpc.
  - rewrite Hpc in Hw. destruct Hw as [Hcon Hw]. pose proof (start_rest wk w Hcon Hw) as Hs.
    destruct (start_session setOnline wk w) as [w1 [[v1 l1]|e]]; unfold sperform; cbn [pr_session];
      rewrite Hpc; intros [= <-]; exact Hs.
  - destruct Hpc as [polling Hpc]. rewrite Hpc in *. pose proof (fetch_in_session ctx_err wk Hfolder v l w Hw) as Hs.
    destruct (fetchAndProcess _ _ _ _ _ _ w) as [w1 [u [e|]]]; unfold sperform; cbn [pr_session fst snd] in *;
      rewrite Hpc; [|destruct polling as [[]|]]; intros [= <-]; cbn; try exact Hs.
    + by eapply in_session_rest.
    + by destruct (HasIdle w1).
  - destruct Hpc as [c Hpc]. rewrite Hpc in Hw.
    pose proof (in_session_frame wk v l w _ (proj1 (noop_frame w)) (cs_noop _ (ms_client v) w) Hw) as Hs.
    destruct (Noop w) as [w1 [e|]]; unfold sperform, guard; cbn [pr_session fst] in *; rewrite Hpc.
    + intros [= <-]. by eapply in_session_rest.
    + destruct (negb c); [|done]. by intros [= <-].
  - destruct (Idle cf w) as [w1 ierr] eqn:Ei.
    pose proof (proj1 (idle_frame cf w)) as Hf. pose proof (cs_idle _ (ms_client v) cf w) as Hk.
    rewrite Ei in Hf, Hk. cbn [fst] in Hf, Hk. cbn [pr_session].
    unfold sperform. destruct (ss_idlers s !! i) as [[b| |]|] eqn:Hl; [|by destruct (ss_pc s)..].
    destruct (idler_newest s i b Hinv Hl) as [_ [E|[again E]]]; rewrite E in *; intros [= <-];
      cbn; rewrite E; by eapply in_session_frame.
  - rewrite Hpc in Hw. unfold sperform. cbn [pr_session]. rewrite Hpc. intros [= <-].
    exact (at_rest_online wk false _ (at_rest_frame wk 0 w _ (proj1 (close_frame w)) (cs_close _ (ms_client 0) w) Hw)).
Qed.

(** C15: At every moment of every interleaving of a session with an honest server,
    whatever fails and whenever it is cancelled, every message at or below the
    checkpoint stored for its mailbox was delivered to the pipe or is no packet
    for this node. *)
Theorem covered_always w p :
  connected w -> covered (mb := mb) wk w -> ready w -> rtc (pstep ctx_err inject setOnline wk) (begun w) p ->
  covered (mb := mb) wk (pr_world p).
Proof.
  intros Hcon Hcov Hready Hr.
  assert (Hp : placed p).
  { revert p Hr. apply rtc_ind_r; [by split; [exact inv_opened|]|].
    intros p1 p2 _ [act Ha]. by apply (placed_pperform act). }
  destruct Hp as [_ Hp]. destruct (ss_pc (pr_session p));
    try apply Hp; by apply in_session_rest in Hp as [_ ?].
Qed.
End Always.
