(* ===== verification/Main.v ===== *)
(** * cmd/rns-over-email: the wiring of the program

    [run] builds the sender, the pipe handler and the IMAP worker from the
    configuration and connects them to the pipe interface, the aggregator and
    the checkpoint file.  [World] is the state of the whole process: the two
    network connections, the disk, the interface of the rnspipe package (its
    outcomes are a script, what it accepted and the states it was given are
    logged), the handler's flag and the aggregator.  The instances here discharge
    the contracts of the components on that world at once, so the theorems about
    the handler and the worker apply to the program as it is wired; the theorem
    [end_to_end] composes configuration, encoder, decoder and worker. *)
From Stdlib Require Import Strings.Byte.
From S2P Require Import Prelude GoErrors GoStrings GoFlag GoMime GoMail Envelope Online Inbox Json.
From S2P Require Import Transport Pipe Config ImapClient Worker.

(** ** The pipe interface *)

Record Iface := mkIface {
  if_script : list (option error);
  if_received : list bytes;
  if_online : list bool;
}.

(** [iface.Receive]: the packet is taken exactly when the result is [nil]. *)
Definition iface_Receive (pkt : bytes) (i : Iface) : Iface * option error :=
  let o := default None (head (if_script i)) in
  (mkIface (tail (if_script i))
     (if_received i ++ match o with None => [pkt] | Some _ => [] end) (if_online i), o).

Definition iface_SetOnline (b : bool) (i : Iface) : Iface :=
  mkIface (if_script i) (if_received i) (if_online i ++ [b]).

(** ** The process *)

Record World := mkWorld {
  wd_net : Net;                     (* dialling, and the SMTP connections *)
  wd_imap : Imap;                   (* the IMAP connection *)
  wd_servers : list Imap;           (* what the next IMAP connections will be *)
  wd_disk : Disk;
  wd_iface : Iface;
  wd_handler : HandlerState;
  wd_agg : Aggregator;
  wd_signals : list signal;         (* the calls of the aggregator, oldest first *)
  wd_waits : list (list bool);      (* the waits of the calls of InjectWithRetry *)
}.

#[export] Instance world_net : Has World Net.
Proof.
  refine {| get := wd_net;
            put n w := mkWorld n (wd_imap w) (wd_servers w) (wd_disk w) (wd_iface w) (wd_handler w)
                         (wd_agg w) (wd_signals w) (wd_waits w) |}; [done | done | by intros []].
Defined.

#[export] Instance world_imap : Has World Imap.
Proof.
  refine {| get := wd_imap;
            put i w := mkWorld (wd_net w) i (wd_servers w) (wd_disk w) (wd_iface w) (wd_handler w)
                         (wd_agg w) (wd_signals w) (wd_waits w) |}; [done | done | by intros []].
Defined.

#[export] Instance world_disk : Has World Disk.
Proof.
  refine {| get := wd_disk;
            put d w := mkWorld (wd_net w) (wd_imap w) (wd_servers w) d (wd_iface w) (wd_handler w)
                         (wd_agg w) (wd_signals w) (wd_waits w) |}; [done | done | by intros []].
Defined.

#[export] Instance world_handler : Has World HandlerState.
Proof.
  refine {| get := wd_handler;
            put h w := mkWorld (wd_net w) (wd_imap w) (wd_servers w) (wd_disk w) (wd_iface w) h
                         (wd_agg w) (wd_signals w) (wd_waits w) |}; [done | done | by intros []].
Defined.

#[export] Instance world_iface : Has World Iface.
Proof.
  refine {| get := wd_iface;
            put i w := mkWorld (wd_net w) (wd_imap w) (wd_servers w) (wd_disk w) i (wd_handler w)
                         (wd_agg w) (wd_signals w) (wd_waits w) |}; [done | done | by intros []].
Defined.

(** The context, cancelled or not, as a function of what has happened. *)
Section Program.
Context {unicode : UnicodeTables} {mail : MailParsers}.
Context (ctx_err : World -> option error) (cfg : Config).

(** [time.Duration(n) * time.Second]. *)
Definition seconds (n : Z) : Z := wrap64 (n * second).

(** The logger: its handler and level; both write to standard error. *)
Inductive slog_handler := NewJSONHandler | NewTextHandler.

Definition new_logger : slog_handler * slog_level :=
  (if bool_decide (log_Format (Logging cfg) = str "json") then NewJSONHandler else NewTextHandler,
   SlogLevel cfg).

(** [rnspipe.Config]. *)
Record InterfaceConfig := mkInterfaceConfig { ifc_Name : bytes; ifc_MTU : Z; ifc_ExitOnEOF : bool }.

Definition new_iface : InterfaceConfig := {|
  ifc_Name := pipe_Name (Pipe cfg);
  ifc_MTU := pipe_MTU (Pipe cfg);
  ifc_ExitOnEOF := true;
|}.

Definition new_sender : SMTPSender := {|
  s_Host := smtp_Host (SMTP cfg);
  s_Port := smtp_Port (SMTP cfg);
  s_Username := smtp_Username (SMTP cfg);
  s_Password := smtp_Password (SMTP cfg);
  s_From := smtp_From (SMTP cfg);
  s_TLSMode := smtp_TLS (SMTP cfg);
|}.

Definition new_handler : Handler := {|
  h_email := peer_Email (Peer cfg);
  h_smtpFrom := smtp_From (SMTP cfg);
  h_recoveryDelay := seconds (smtp_RecoveryDelay (SMTP cfg));
  h_maxRecoveryDelay := seconds (smtp_MaxRecoveryDelay (SMTP cfg));
|}.

Definition new_worker : Worker := {|
  wk_cfg := IMAP cfg;
  wk_peerEmail := peer_Email (Peer cfg);
  wk_localEmail := smtp_From (SMTP cfg);
|}.

(** *** The aggregator between the components and the interface *)

Definition agg_callback (b : bool) : World -> World := fun w => put (iface_SetOnline b (get w)) w.

Definition set_agg (a : Aggregator) (ss : list signal) (w : World) : World :=
  mkWorld (wd_net w) (wd_imap w) (wd_servers w) (wd_disk w) (wd_iface w) (wd_handler w) a ss
    (wd_waits w).

Definition agg_signal (s : signal) (w : World) : World :=
  let '(a, w) := apply_signal agg_callback s (wd_agg w) w in
  set_agg a (wd_signals w ++ [s]) w.

Definition agg_SetIMAP (b : bool) : World -> World := agg_signal (Online.IMAP b).
Definition agg_SetSMTP (b : bool) : World -> World := agg_signal (Online.SMTP b).

(** *** What the worker is given *)

(** [pipe.InjectWithRetry] on [iface.Receive]. *)
Definition inject (pkt : bytes) (w : World) : World * option error :=
  let waits := default [] (head (wd_waits w)) in
  let w := mkWorld (wd_net w) (wd_imap w) (wd_servers w) (wd_disk w) (wd_iface w) (wd_handler w)
             (wd_agg w) (wd_signals w) (tail (wd_waits w)) in
  InjectWithRetry ctx_err (fun pkt => on (iface_Receive pkt)) pkt waits w.

(** [Dial], with a configuration of the server's name; the context of [Run]
    has no deadline.  The log of the commands goes on over the connections. *)
Definition worker_dial (w : World) : World * option error :=
  let i := IMAP cfg in
  match Dial None (imap_Host i) (imap_Port i) (imap_TLS i) (wd_net w) with
  | (n, Err err) => (put n w, Some err)
  | (n, Ok tc) =>
    let server := default (mkImap tc (fun _ => false) [] [] [] []) (head (wd_servers w)) in
    let conn := mkImap tc (i_caps server) (i_script server) (i_select server) (i_fetch server)
                  (i_trace (wd_imap w)) in
    (mkWorld n conn (tail (wd_servers w)) (wd_disk w) (wd_iface w) (wd_handler w) (wd_agg w)
       (wd_signals w) (wd_waits w), None)
  end.

(** The components as [run] connects them. *)
#[local] Instance program_sender : Sender World := SMTPSender_Sender new_sender.
#[local] Instance program_repo : Repository World := JSONRepo (cp_Path (Checkpoint cfg)).

Definition on_send (uuid date : bytes) (now : Z) (pkt : bytes) (waits : list bool) (w : World)
    : World * list Z * outcome :=
  HandlePacket (Some agg_SetSMTP) new_handler uuid date None now pkt waits w.

Definition startup_probe (w : World) : World :=
  StartupProbe (Some agg_SetSMTP) new_handler None w.

Definition run_worker (sessions : list (schedule * bool)) (w : World) : World * list Z * ending :=
  Run ctx_err inject worker_dial (Some agg_SetIMAP) new_worker sessions w.

(** [online.NewAggregator] runs before the interface and the goroutines start. *)
Definition startup (w : World) : World :=
  let '(a, w) := NewAggregator agg_callback w in set_agg a [] w.
End Program.

(** [run] after [Load]: the first result of the two goroutines is its result. *)
Definition run `{OS} `{UnicodeTables} `{MailParsers} (args : list bytes)
    (first_exit : Config -> option error) : option error :=
  match Load args with
  | Err err => Some (Errorf "config" [err])
  | Ok cfg => first_exit cfg
  end.

(** The exit code of [main]. *)
Definition exit_code (r : option error) : Z :=
  match r with
  | None => 0
  | Some err => if errors_is RnsErrPipeClosed err then 0 else 1
  end.

(** ** The contracts on this world *)

Section Contracts.
Context {unicode : UnicodeTables} {mail : MailParsers}.
Context (ctx_err : World -> option error) (cfg : Config).

#[local] Instance contract_sender : Sender World := SMTPSender_Sender (new_sender cfg).
#[local] Instance contract_sender_spec : SenderSpec World := SMTPSender_Spec (new_sender cfg).

(** The parts a signal does not touch. *)
Lemma agg_signal_frame s w :
  wd_net (agg_signal s w) = wd_net w /\ wd_imap (agg_signal s w) = wd_imap w
  /\ wd_disk (agg_signal s w) = wd_disk w /\ wd_handler (agg_signal s w) = wd_handler w
  /\ if_received (wd_iface (agg_signal s w)) = if_received (wd_iface w)
  /\ wd_signals (agg_signal s w) = wd_signals w ++ [s].
Proof.
  unfold agg_signal. destruct s as [b|b]; cbn [apply_signal]; unfold SetIMAP, SetSMTP, update;
    case_bool_decide; done.
Qed.

#[export] Instance program_handler_world : HandlerWorld World agg_SetSMTP.
Proof.
  split.
  - done.
  - intros b w. unfold sure_commits, maybe_commits. cbn.
    destruct (agg_signal_frame (Online.SMTP b) w) as (Hn & _).
    unfold agg_SetSMTP. by rewrite Hn.
  - intros b w. cbn. apply agg_signal_frame.
  - done.
  - done.
Qed.

#[local] Instance contract_repo : Repository World := JSONRepo (cp_Path (Checkpoint cfg)).
#[local] Instance contract_repo_spec : RepositorySpec World := JSONRepoSpec (cp_Path (Checkpoint cfg)).

(** The calls of [SetIMAP]. *)
Definition imap_signals (w : World) : list bool :=
  omap (fun s => match s with Online.IMAP b => Some b | Online.SMTP _ => None end) (wd_signals w).

Lemma receive_iter k pkt w :
  refused ctx_err (fun pkt => on (iface_Receive pkt)) k pkt w ->
  exists i, after_receives (fun pkt => on (iface_Receive pkt)) k pkt w = put i w
            /\ if_received i = if_received (wd_iface w).
Proof.
  revert w. induction k as [|k IH]; intros w.
  { intros _. exists (wd_iface w). split; [|done]. by destruct w. }
  intros (_ & (e & He & _) & Hr). destruct (IH _ Hr) as (i & Hi & Hrec).
  exists i. unfold after_receives in *. rewrite Nat.iter_succ_r, Hi.
  cbn in He. unfold on. cbn. split; [done|]. rewrite Hrec. cbn. unfold iface_Receive in *.
  cbn in *. rewrite He. by rewrite app_nil_r.
Qed.

Lemma inject_spec pkt w :
  exists i waits, (inject ctx_err pkt w).1
    = mkWorld (wd_net w) (wd_imap w) (wd_servers w) (wd_disk w) i (wd_handler w) (wd_agg w)
        (wd_signals w) waits
  /\ if_received i = if_received (wd_iface w)
                     ++ match (inject ctx_err pkt w).2 with None => [pkt] | Some _ => [] end.
Proof.
  unfold inject. set (w0 := mkWorld _ _ _ _ _ _ _ _ _).
  destruct (InjectWithRetry_result ctx_err (fun pkt => on (iface_Receive pkt)) pkt
              (default [] (head (wd_waits w))) w0)
    as (k & w1 & Hw1 & Hk & _ & Hres).
  destruct (receive_iter k pkt w0 Hk) as (i & Hi & Hrec). rewrite <- Hw1 in Hi.
  destruct Hres as [(_ & Hr & ->) | [(e & _ & Hr & _ & ->) | (e & ->)]]; cbn [fst snd];
    subst w1; rewrite Hi in *; cbn in *.
  - eexists _, _. split; [reflexivity|]. cbn in *. rewrite Hr. by rewrite Hrec.
  - eexists _, _. split; [reflexivity|]. cbn in *. rewrite Hr. by rewrite Hrec.
  - eexists _, _. split; [reflexivity|]. by rewrite app_nil_r.
Qed.

#[export] Instance program_worker_world :
  WorkerWorld World (inject ctx_err) (worker_dial cfg) (Some agg_SetIMAP).
Proof.
  refine {| injected w := if_received (wd_iface w); online_calls := imap_signals |}.
  - intros w w' [i ->]. done.
  - intros pkt w. destruct (inject_spec pkt w) as (i & waits & E & Hi).
    destruct (inject ctx_err pkt w) as [w' o]. cbn [fst snd] in *. subst w'. cbn. by rewrite Hi.
  - done.
  - done.
  - intros w. unfold worker_dial. destruct (Dial _ _ _ _ _) as [n [tc|e]]; done.
  - intros b w. cbn. destruct (agg_signal_frame (Online.IMAP b) w) as (Hn & Hi & Hd & Hh & Hr & Hs).
    unfold agg_SetIMAP, imap_signals. rewrite Hi, Hd, Hr, Hs, omap_app. done.
Defined.
End Contracts.

(** ** End to end *)

(** An address in the form the components exchange. *)
Definition plain_address `{MailParsers} (a : bytes) : Prop :=
  trim_blank a = a /\ parse_address a = Some a.

(** The cut of an envelope within the header budget changes no verdict. *)
Lemma classify_fetched `{UnicodeTables} `{MailParsersOk} wk relay uuid date p raw mid :
  Encode uuid date p = Ok (raw, mid) -> relay_fields relay ->
  one_line (p_From p) -> one_line (p_To p) -> one_line date -> one_line uuid ->
  len (fields (relay ++ envelope_fields p date mid) ++ crlf) <= maxHeaderSize ->
  classify wk (take (Z.to_nat maxFetchLiteralSize) (fields relay ++ raw))
  = classify wk (fields relay ++ raw).
Proof.
  intros (_ & Hmid & ->)%Encode_ok Hr HF HT Hd Hu Hlen.
  destruct (generated_mid_ok uuid (p_From p) Hu HF) as [Hml _]. rewrite <- Hmid in Hml.
  unfold classify. rewrite app_assoc, <- fields_app, Decode_fetched_prefix_lemma; [done | | | done].
  - by destruct relay.
  - apply Forall_app. split; [| by apply envelope_fields_ok].
    eapply Forall_impl; [exact Hr|]. by intros kv [? _].
Qed.

(** C4: End to end: between two nodes with valid configurations, each the other's
    peer, every packet the pipe interface can hand over (not empty, at most the
    MTU) is encoded by the one; and when the other's worker fetches the e-mail,
    whatever header fields relays put in front of it within the header budget,
    the packet it decodes and injects is the same. *)
Theorem end_to_end `{UnicodeTables} `{MailParsersOk} (a b : Config) uuid date pkt relay u :
  valid a -> valid b ->
  peer_Email (Peer b) = smtp_From (SMTP a) -> peer_Email (Peer a) = smtp_From (SMTP b) ->
  plain_address (smtp_From (SMTP a)) -> plain_address (smtp_From (SMTP b)) ->
  one_line uuid -> one_line date ->
  0 < len pkt <= pipe_MTU (Pipe a) -> relay_fields relay -> 0 < u < 2 ^ 32 ->
  let p := mkParams (h_smtpFrom (new_handler a)) (h_email (new_handler a)) pkt in
  exists raw mid,
    Encode uuid date p = Ok (raw, mid)
    /\ (len (fields (relay ++ envelope_fields p date mid) ++ crlf) <= maxHeaderSize ->
        exists msg,
          fetched_messages 0 [[ItemUID u; ItemBody (Some (mkReader (fields relay ++ raw) None))]]
          = [(u, msg)]
          /\ classify (new_worker b) msg = VInject pkt).
Proof.
  intros Ha Hb Hpb Hpa [Ta Pa] [Tb Pb] Hu Hd Hlen Hrelay Huid.
  destruct (v_from _ Ha) as (Na & _ & Ca & La & _). destruct (v_from _ Hb) as (Nb & _ & Cb & Lb & _).
  pose proof (v_mtu _ Ha) as Hm. cbn in Na, Ca, La, Nb, Cb, Lb, Hm. cbn [h_smtpFrom h_email new_handler].
  rewrite Hpa. set (p := mkParams (smtp_From (SMTP a)) (smtp_From (SMTP b)) pkt). cbv zeta.
  destruct (Encode uuid date p) as [[raw mid]|e] eqn:Ee.
  2:{ assert (Np : pkt <> []) by (intros ->; unfold len in Hlen; simpl in Hlen; lia). unfold Encode, p in Ee.
      cbn [p_From p_To p_Packet] in Ee. rewrite !bool_decide_eq_false_2 in Ee; done. }
  exists raw, mid. split; [done|]. intros Hbudget. eexists. split; [by apply fetched_whole|].
  assert (Hdec : Decode (fields relay ++ raw)
                 = Ok (mkDecoded mid (smtp_From (SMTP a)) (smtp_From (SMTP b)) pkt)).
  { apply (Decode_Encode_lemma relay uuid date p raw mid);
      [done | done | by split | by split | done | done | exact (eq_trans (f_equal _ Ta) Pa)
      | exact (eq_trans (f_equal _ Tb) Pb) | simpl; lia]. }
  rewrite (classify_fetched _ relay uuid date p raw mid) by (done || by split).
  unfold classify. rewrite Hdec. cbn [d_From d_To d_Packet wk_peerEmail wk_localEmail new_worker].
  rewrite Hpb. rewrite !(bool_decide_eq_true_2 (canonicalAddr _ = canonicalAddr _)) by done.
  by rewrite !orb_true_r.
Qed.

(** ** The delays *)

(** [time.Duration(n) * time.Second] is exact up to 9223372036 seconds and
    wraps around above, although [Validate] accepts any positive delay. *)
Theorem seconds_exact n : 0 < n -> (seconds n = n * second <-> n <= 9223372036).
Proof.
  intros Hn. unfold seconds. split.
  - intros E. pose proof (wrap64_range (n * second)) as Hr. rewrite E in Hr.
    unfold is_i64, second in Hr. lia.
  - intros Hle. apply wrap64_id. unfold is_i64, second. lia.
Qed.

Lemma seconds_exact_witness : 0 < 300 /\ (seconds 300 = 300 * second <-> 300 <= 9223372036).
Proof. split; [lia | apply (seconds_exact 300); lia]. Defined.

(** ** Sample runs *)

Module ProgramSamples.
Import GoLibrary.

(** Two nodes, each the other's peer. *)
Definition node (me peer : string) (mode : string) (recovery : Z) : Config := {|
  Pipe := {| pipe_Name := str "EmailTransport"; pipe_MTU := 500 |};
  SMTP := {| smtp_Host := str "smtp.example.org"; smtp_Port := 587; smtp_Username := str "u";
             smtp_Password := str "p"; smtp_From := str me; smtp_TLS := str "starttls";
             smtp_RecoveryDelay := recovery; smtp_MaxRecoveryDelay := recovery |};
  IMAP := {| imap_Host := str "imap.example.org"; imap_Port := 993; imap_Username := str "u";
             imap_Password := str "p"; imap_Folder := str "INBOX"; imap_TLS := str "tls";
             imap_PollInterval := 60 * second; imap_ReconnectDelay := 5;
             imap_MaxReconnectDelay := 300;
             imap_Cleanup := {| cl_Mode := str mode; cl_TargetFolder := [] |} |};
  Checkpoint := {| cp_Path := str "./cp.json" |};
  Peer := {| peer_Email := str peer |};
  Logging := {| log_Level := str "info"; log_Format := str "text" |};
|}.

Definition alice : Config := node "alice@a.example" "bob@b.example" "none" 300.
Definition bob : Config := node "bob@b.example" "alice@a.example" "delete" 300.

(** The e-mail of a packet from Alice to Bob. *)
Definition email (pkt : string) : bytes :=
  match Encode EnvelopeSamples.uuid EnvelopeSamples.now
          (mkParams (str "alice@a.example") (str "bob@b.example") (str pkt)) with
  | Ok (raw, _) => raw
  | Err _ => []
  end.

Definition mail_item (uid : Z) (raw : bytes) : list fetch_item :=
  [ItemUID uid; ItemBody (Some (mkReader raw None))].

Definition connection (msgs : list (list fetch_item)) (close : option error) : Imap :=
  mkImap (Deadline.NewTimeoutConn imapIOTimeout) (fun _ => true) [] [7] [fun _ _ => mkFetchReply msgs close] [].

Definition world_of (imap : Imap) (accepts : list (option error)) : World := {|
  wd_net := mkNet [] []; wd_imap := imap; wd_servers := [imap]; wd_disk := mkDisk ∅ [];
  wd_iface := mkIface accepts [] []; wd_handler := mkHandlerState false 0;
  wd_agg := mkAggregator false false false; wd_signals := []; wd_waits := [];
|}.

(** The context is never cancelled. *)
Definition no_cancel (w : World) : option error := None.

#[export] Instance bob_repo : Repository World := JSONRepo (cp_Path (Checkpoint bob)).
#[export] Instance bob_repo_spec : RepositorySpec World := JSONRepoSpec (cp_Path (Checkpoint bob)).
#[export] Instance bob_world :
  WorkerWorld World (inject no_cancel) (worker_dial bob) (Some agg_SetIMAP) :=
  program_worker_world no_cancel bob.

Definition bob_fetch (w : World) : World * (Z * option error) :=
  fetchAndProcess no_cancel (inject no_cancel) (new_worker bob) 0 (str "INBOX") 7 w.

(** Two packets out of order, a stranger's mail and a damaged envelope. *)
Definition mixed : World :=
  world_of (connection [mail_item 5 (email "five"); mail_item 2 (email "two");
                        mail_item 4 (str "Subject: hi"); mail_item 9 (str "X-RNS-Transport: 1")]
              None) [].

Example mixed_run :
  (bob_fetch mixed).2 = (5, None)
  /\ if_received (wd_iface (bob_fetch mixed).1) = [str "five"; str "two"]
  /\ imap_removed (wd_imap (bob_fetch mixed).1) = [5; 2].
Proof. vm_compute. done. Qed.

(** UIDs 4, 10 and 3 in this order; the pipe closes before the second. *)
Definition out_of_order : World :=
  world_of (connection [mail_item 4 (email "four"); mail_item 10 (email "ten");
                        mail_item 3 (email "three")] None)
    [None; Some (Sentinel RnsErrPipeClosed)].
End ProgramSamples.
Import GoLibrary ProgramSamples.

(** ** What the checkpoint and the recovery delay miss *)

(** C19: A gap the checkpoint passes.  The server delivers UIDs 4, 10 and 3 in
    this order and the injection of 10 fails: the worker stores checkpoint 4
    although the message with UID 3 was never looked at, its packet was not
    delivered, and no later fetch above 4 returns it. *)
Theorem checkpoint_passes_unseen :
  let '(w', (u, e)) := bob_fetch out_of_order in
  u = 4 /\ is_Some e /\ rep_cp w' (str "INBOX") 7 = 4
  /\ (3, email "three") ∈ fetched 0 out_of_order
  /\ classify (new_worker bob) (email "three") = VInject (str "three")
  /\ (str "three" ∉ injected w')
  /\ (forall (w : World) raw, (3, raw) ∉ fetched 4 w).
Proof.
  destruct (bob_fetch out_of_order) as [w' [u e]] eqn:E.
  assert (Hr : (u, e) = (4, Some (Errorf "inject uid" [Sentinel RnsErrPipeClosed]))
               /\ rep_cp w' (str "INBOX") 7 = 4 /\ injected w' = [str "four"]).
  { pose proof (f_equal fst E) as E1. pose proof (f_equal snd E) as E2. cbn [fst snd] in E1, E2.
    rewrite <- E1, <- E2. clear. split_and!; vm_compute; reflexivity. }
  clear E. destruct Hr as (Hue & Hcp & Hi). injection Hue as -> ->.
  split; [reflexivity|]. split; [by eexists|]. split; [exact Hcp|]. split_and!.
  - apply (bool_decide_unpack _). vm_compute. done.
  - vm_compute. reflexivity.
  - rewrite Hi. apply (bool_decide_unpack _). vm_compute. done.
  - intros w raw Hin%fetched_range. lia.
Qed.

(** A valid configuration whose recovery is silently off: with a recovery
    delay of 9223372037 s, which [Validate] accepts, the duration is negative, so
    [beginRecovery] does nothing: after an ambiguous delivery or exhausted
    retries the interface stays online and no probe runs. *)
Theorem recovery_silently_disabled :
  exists cfg : Config,
    Validate cfg = None
    /\ forall setOnline (w : World), beginRecovery setOnline (new_handler cfg) w = w.
Proof.
  exists (node "alice@a.example" "bob@b.example" "none" 9223372037).
  split; [vm_compute; reflexivity|]. intros [set|] w; reflexivity.
Qed.

(** Dot-atom addresses, the usual ones, are plain for net/mail's parser. *)
Theorem dot_atom_plain l d :
  dot_atom l = true -> dot_atom d = true -> plain_address (l ++ at_sign :: d).
Proof. intros Hl Hd. split; [by apply trim_blank_dot_atom | by apply ParseAddress_dot_atom]. Qed.

(** A sender with a quoted local part: the address is valid as configured, but
    [Normalize] takes its quotes off and [Validate] then refuses what is left. *)
Definition quoted_node : Config :=
  fset SMTPFrom (dquote :: str "john doe" ++ dquote :: str "@a.example") alice.

Theorem quoted_local_part_refused :
  Validate quoted_node = None /\ is_Some (Validate (Normalize quoted_node)).
Proof. split; vm_compute; [reflexivity | by eexists]. Qed.

(** The recovery delays whose duration does not overflow enable the recovery that
    [Pipe.never_stuck_offline] is about; the larger ones disable it. *)
Theorem recovery_enabled cfg :
  valid cfg -> fget SMTPRecoveryDelay cfg <= 9223372036 ->
  Recovery.enabled (settings_of (Some agg_SetSMTP) (new_handler cfg)) = true.
Proof.
  intros Hv Hle. pose proof (v_recovery _ Hv) as [Hpos _]. unfold Recovery.enabled, settings_of.
  cbn [Recovery.callback Recovery.delay new_handler h_recoveryDelay].
  rewrite bool_decide_eq_true_2 by done. cbn [andb].
  pose proof (proj2 (seconds_exact _ Hpos) Hle) as E. cbn in E, Hpos. rewrite E. apply Z.ltb_lt. unfold second. lia.
Qed.

(** At startup the interface is told to be offline before anything runs, and
    the aggregator's two inputs are down. *)
Theorem startup_offline w :
  if_online (wd_iface (startup w)) = if_online (wd_iface w) ++ [false]
  /\ wd_agg (startup w) = mkAggregator false false false
  /\ if_received (wd_iface (startup w)) = if_received (wd_iface w).
Proof. done. Qed.

(** ** The theorems of the components on sample runs *)

Lemma node_valid me peer mode n :
  Validate (node me peer mode n) = None -> valid (node me peer mode n).
Proof. apply Validate_iff_lemma. Qed.

Definition sample_relay : list (bytes * bytes) :=
  [(str "Received", str "by mx.b.example"); (str "DKIM-Signature", str "v=1; a=rsa-sha256")].

Lemma end_to_end_witness :
  exists raw mid msg,
    Encode EnvelopeSamples.uuid EnvelopeSamples.now
      (mkParams (h_smtpFrom (new_handler alice)) (h_email (new_handler alice)) (str "hello"))
    = Ok (raw, mid)
    /\ fetched_messages 0 [[ItemUID 7; ItemBody (Some (mkReader (fields sample_relay ++ raw) None))]]
       = [(7, msg)]
    /\ classify (new_worker bob) msg = VInject (str "hello").
Proof.
  destruct (end_to_end alice bob EnvelopeSamples.uuid EnvelopeSamples.now (str "hello") sample_relay 7)
    as (raw & mid & He & Hf).
  - apply node_valid. vm_compute. reflexivity.
  - apply node_valid. vm_compute. reflexivity.
  - reflexivity.
  - reflexivity.
  - apply (dot_atom_plain (str "alice") (str "a.example")); reflexivity.
  - apply (dot_atom_plain (str "bob") (str "b.example")); reflexivity.
  - apply (bool_decide_unpack _). vm_compute. done.
  - apply (bool_decide_unpack _). vm_compute. done.
  - vm_compute. done.
  - apply (bool_decide_unpack _). vm_compute. done.
  - done.
  - destruct Hf as (msg & Hm & Hc).
    { pose proof (Encode_ok _ _ _ _ _ He) as (_ & -> & _). vm_compute. discriminate. }
    by exists raw, mid, msg.
Defined.

Lemma inbox_ok : rep_folder (W := World) (str "INBOX").
Proof. by apply valid_utf8_ascii. Qed.

Lemma fetch_no_loss_witness :
  let w' := (bob_fetch mixed).1 in
  dealt_with (new_worker bob) mixed w' (email "two")
  /\ injected w' = [str "five"; str "two"].
Proof.
  split; [| vm_compute; reflexivity].
  pose proof (fetch_no_loss (H3 := bob_world) no_cancel (new_worker bob) 0 (str "INBOX") 7 mixed
                inbox_ok ltac:(unfold is_u32; lia) ltac:(lia)
                ltac:(apply (bool_decide_unpack _); vm_compute; done)) as Ht.
  unfold bob_fetch. 
  destruct (fetchAndProcess no_cancel (inject no_cancel) (new_worker bob) 0 (str "INBOX") 7 mixed)
    as [w' [u e]] eqn:E.
  assert (Hue : (u, e) = (5, None)).
  { pose proof (f_equal snd E) as E2. cbn [snd] in E2. rewrite <- E2. vm_compute. reflexivity. }
  injection Hue as -> ->. apply (Ht (or_introl eq_refl) 2).
  - apply (bool_decide_unpack _). vm_compute. done.
  - lia.
Defined.

Lemma cleanup_safe_witness :
  let '(w', (u, e)) :=
    fetchAndProcess no_cancel (inject no_cancel) (new_worker bob) 0 (str "INBOX") 7 mixed in
  exists R, removed w' = removed mixed ++ R
    /\ forall uid, uid ∈ R ->
         e = None /\ cleans (new_worker bob) /\ uid <= rep_cp w' (str "INBOX") 7
         /\ exists raw pkt new, (uid, raw) ∈ fetched 0 mixed
              /\ classify (new_worker bob) raw = VInject pkt
              /\ injected w' = injected mixed ++ new /\ pkt ∈ new.
Proof.
  apply (cleanup_safe (H3 := bob_world) no_cancel (new_worker bob) 0 (str "INBOX") 7 mixed
           inbox_ok); [unfold is_u32; lia | lia].
Defined.

Lemma fetchAndProcess_refines_witness :
  let '(w', (u, e)) :=
    fetchAndProcess no_cancel (inject no_cancel) (new_worker bob) 0 (str "INBOX") 7 out_of_order in
  exists hs how,
    fetch_report (H3 := bob_world) (new_worker bob) 0 (str "INBOX") 7 out_of_order w' u e hs how
    /\ (e <> None -> (forall uid raw unseen, how <> FetchInjectFailed uid raw unseen) ->
        u = 0 /\ rep_cp w' (str "INBOX") 7 = rep_cp out_of_order (str "INBOX") 7
        /\ removed w' = removed out_of_order).
Proof.
  apply (fetchAndProcess_refines (H3 := bob_world) no_cancel (new_worker bob) 0 (str "INBOX") 7
           out_of_order inbox_ok); [unfold is_u32; lia | lia].
Defined.

(** IDLE fails three times, then one poll. *)
Lemma idleLoop_invariant_witness :
  progress (H3 := bob_world) no_cancel (new_worker bob) (str "INBOX") 7 mixed
    (idleLoop no_cancel (inject no_cancel) (new_worker bob) (str "INBOX") 7
       [mkRound false SelExists true; mkRound false (SelIdleDone false) false] [PollTick] 0 0 mixed).1.
Proof.
  apply (idleLoop_invariant (H3 := bob_world) no_cancel (new_worker bob) (str "INBOX") 7
           [mkRound false SelExists true; mkRound false (SelIdleDone false) false] [PollTick] 0 0 mixed inbox_ok);
    [unfold is_u32; lia | lia].
Defined.

Definition sample_sessions : list (schedule * bool) :=
  [(mkSchedule [mkRound false SelExists true; mkRound false SelCtxDone true] [], true); (mkSchedule [] [], false)].

Lemma Run_safe_witness :
  let '(w', _, r) :=
    Run no_cancel (inject no_cancel) (worker_dial bob) (Some agg_SetIMAP) (new_worker bob)
      sample_sessions mixed in
  (exists D R, did (H3 := bob_world) no_cancel (new_worker bob) mixed D R w'
               /\ injected w' = injected mixed ++ D.*2 /\ removed w' = removed mixed ++ R)
  /\ exists blocks last, online_calls w' = online_calls mixed ++ mjoin blocks ++ last
       /\ Forall (fun l => l = [false] \/ l = [true; false]) blocks
       /\ (last = [] \/ last = [true])
       /\ (forall e, r = Returned e -> last = [] /\ blocks <> []).
Proof. apply (Run_safe (H3 := bob_world) no_cancel (new_worker bob) inbox_ok sample_sessions mixed). Defined.

