(* ===== verification/Lifetime.v ===== *)
(** * The life of a node: restarts and crashes

    [World] of Main with honest mail servers is an instance of [MailServer], so
    the invariant of Delivery holds for the program as it is wired.  A [life] is
    one run of the process: it starts from the disk its predecessor left (and
    from nothing else), with servers, faults and schedules of its own, and ends
    when it returns, is killed or crashes; [no_message_lost] is about any number
    of lives. *)
From Stdlib Require Import Strings.Byte.
From S2P Require Import Prelude GoErrors GoStrings GoMime GoMail Envelope Online Inbox Json.
From S2P Require Import Transport Pipe Config ImapClient Worker Session Delivery SessionRefine Main.

(** ** Honest servers of the world *)

Section Honest.
Context (mb : Z -> list (Z * bytes)).

(** The answers to a FETCH: honest whatever UID the client asks above. *)
Definition honest_reply (box : list (Z * bytes)) (reply : Z -> Z -> fetch_reply) : Prop :=
  forall l, is_u32 l -> gap_free box l (fetched_messages l (fr_messages (reply (wrap32 (l + 1)) 0))).

(** A connection that will select the mailbox of the UIDVALIDITY it announces. *)
Definition honest_conn (i : Imap) : Prop :=
  Forall (honest_reply (mb (wrap32 (default 0 (head (i_select i)))))) (i_fetch i).

(** What the client's calls do to the answers to come. *)
Definition answers_kept (i i' : Imap) : Prop := i_fetch i' = i_fetch i \/ i_fetch i' = tail (i_fetch i).

Lemma imap_call_answers c i : i_fetch (imap_call c i).1 = i_fetch i.
Proof. done. Qed.

Lemma rc_Idle_answers c i : i_fetch (rc_Idle c i).1 = i_fetch i.
Proof.
  unfold rc_Idle, idleWait, imap_call. destruct (default None _); [done|].
  destruct c; [|done]. cbn. by destruct (default None _).
Qed.

Lemma rc_Move_answers uids d i : i_fetch (rc_MoveUIDs uids d i).1 = i_fetch i.
Proof.
  unfold rc_MoveUIDs, imap_call. destruct (bool_decide _); [done|].
  destruct (requireSafeMove _); [done|]. by destruct (default None _).
Qed.

Lemma rc_Delete_answers uids i : i_fetch (rc_DeleteUIDs uids i).1 = i_fetch i.
Proof.
  unfold rc_DeleteUIDs, imap_call. destruct (bool_decide _); [done|].
  destruct (requireUIDPlus _); [done|]. destruct (default None _); [done|].
  cbn. by destruct (default None _).
Qed.

Lemma rc_Select_answers m i : i_fetch (rc_Select m i).1 = i_fetch i.
Proof. unfold rc_Select, imap_Select, imap_call. by destruct (default None _). Qed.

Lemma gap_free_nil box l : gap_free box l [].
Proof. split; [constructor|]. by intros ? ? ? _ _ ?%elem_of_nil. Qed.

Context {unicode : UnicodeTables} {mail : MailParsers} (ctx_err : World -> option error) (cfg : Config).

#[local] Instance life_repo : Repository World := JSONRepo (cp_Path (Checkpoint cfg)).
#[local] Instance life_repo_spec : RepositorySpec World := JSONRepoSpec (cp_Path (Checkpoint cfg)).
#[local] Instance life_world :
  WorkerWorld World (inject ctx_err) (worker_dial cfg) (Some agg_SetIMAP) :=
  program_worker_world ctx_err cfg.

(** The answers and the servers to come are as before. *)
Definition same_mail (w w' : World) : Prop :=
  wd_servers w' = wd_servers w /\ i_fetch (wd_imap w') = i_fetch (wd_imap w).

Lemma inject_mail pkt w : same_mail w (inject ctx_err pkt w).1.
Proof. destruct (inject_spec ctx_err pkt w) as (i & waits & -> & _). done. Qed.

Lemma agg_signal_mail s w : same_mail w (agg_signal s w).
Proof.
  unfold agg_signal. destruct s as [b|b]; cbn [apply_signal]; unfold SetIMAP, SetSMTP, Online.update;
    case_bool_decide; done.
Qed.

#[export] Instance honest_world : MailServer World mb.
Proof.
  refine {| ready w := Forall honest_conn (wd_servers w);
            connected w := honest_conn (wd_imap w);
            serving v w := Forall (honest_reply (mb v)) (i_fetch (wd_imap w)) |}.
  - intros v. split; intros; split; try done; cbn;
      rewrite ?rc_Idle_answers, ?rc_Move_answers, ?rc_Delete_answers, ?rc_Select_answers; try done.
    + by destruct (default None _).
    + intros Hs. destruct (i_fetch (wd_imap w)); [done|]. by apply Forall_cons in Hs as [_ ?].
  - intros v pkt w. destruct (inject_mail pkt w) as [Es Ef]. by rewrite Es, Ef.
  - done.
  - done.
  - intros v b w. destruct (agg_signal_mail (Online.IMAP b) w) as [Es Ef].
    cbn. unfold agg_SetIMAP. by rewrite Es, Ef.
  - intros w Hw. unfold worker_dial. destruct (Dial _ _ _ _ _) as [n [tc|e]]; cbn [fst snd]; [|by split].
    destruct (wd_servers w) as [|i rest].
    + split; [done|]. intros _. constructor.
    + apply Forall_cons in Hw as [Hi His]. by split.
  - done.
  - intros m w v Hc. cbn. unfold rc_Select, imap_Select, imap_call.
    destruct (default None _); [done|]. by intros [= <-].
  - intros v l w Hs Hl. cbn. unfold imap_Fetch. cbn. destruct (i_fetch (wd_imap w)) as [|r rs]; cbn.
    + apply gap_free_nil.
    + apply Forall_cons in Hs as [Hr _]. by apply Hr.
Defined.
End Honest.

(** ** Lives *)

Record life := mkLife {
  lf_net : Net;
  lf_servers : list Imap;
  lf_faults : list io_outcome;
  lf_accepts : list (option error);
  lf_waits : list (list bool);
  lf_sessions : list (schedule * bool);
}.

Section Lives.
Context {unicode : UnicodeTables} {mail : MailParsers} (ctx_err : World -> option error) (cfg : Config).

#[local] Instance lives_repo : Repository World := JSONRepo (cp_Path (Checkpoint cfg)).
#[local] Instance lives_repo_spec : RepositorySpec World := JSONRepoSpec (cp_Path (Checkpoint cfg)).

(** A new process: of the old one the files are left; what the pipe interface
    has accepted so far is history. *)
Definition boot (l : life) (w : World) : World :=
  let conn := mkImap (Deadline.NewTimeoutConn imapIOTimeout) (fun _ => false) [] [] [] [] in
  startup (mkWorld (lf_net l) conn (lf_servers l) (mkDisk (d_files (wd_disk w)) (lf_faults l))
             (mkIface (lf_accepts l) (if_received (wd_iface w)) (if_online (wd_iface w)))
             (mkHandlerState false 0) (mkAggregator false false false) [] (lf_waits l)).

Definition live (w : World) (l : life) : World := (run_worker ctx_err cfg (lf_sessions l) (boot l w)).1.1.

Context (mb : Z -> list (Z * bytes)).

(** Every message of the mailbox at or below the checkpoint on disk was
    delivered to the pipe interface at some time, or is none of this node's. *)
Definition all_covered (w : World) : Prop :=
  covered (H3 := program_worker_world ctx_err cfg) (mb := mb) (new_worker cfg) w.

(** A disk without a checkpoint file. *)
Lemma fresh_covered w :
  d_files (wd_disk w) !! cp_Path (Checkpoint cfg) = None ->
  (forall v uid raw, (uid, raw) ∈ mb v -> 0 < uid) -> all_covered w.
Proof.
  intros Hnone Hpos v uid raw _ Hin Hle. specialize (Hpos v uid raw Hin). exfalso.
  cbn in Hle. unfold disk_cp, file_cp in Hle. rewrite Hnone in Hle.
  destruct (matches _ _ _); cbn in Hle; lia.
Qed.

Lemma live_covered l w :
  rep_folder (W := World) (imap_Folder (IMAP cfg)) ->
  Forall (honest_conn mb) (lf_servers l) -> all_covered w -> all_covered (live w l).
Proof.
  intros Hf Hs Hc.
  refine (proj2 (Run_rest (H3 := program_worker_world ctx_err cfg) (H4 := honest_world mb ctx_err cfg)
                   ctx_err (new_worker cfg) Hf (lf_sessions l) (boot l w) _)).
  split; [exact Hs|]. intros v uid raw Hv Hin Hle. exact (Hc v uid raw Hv Hin Hle).
Qed.
End Lives.

(** C1: At-least-once delivery.  Start from a disk without a checkpoint file and
    let the process live any number of lives, each ending in a return, a kill or
    a crash, with any faults of disk, network and pipe interface, and with IMAP
    servers that answer a fetch in ascending order without skipping a message.
    Then every message ever received at or below the checkpoint on disk whose
    packet is for this node was accepted by the pipe interface, and none of them
    is a damaged envelope. *)
Theorem no_message_lost {unicode : UnicodeTables} {mail : MailParsers}
    ctx_err cfg (mb : Z -> list (Z * bytes)) (lives : list life) (w0 : World) :
  folder_ok (imap_Folder (IMAP cfg)) ->
  d_files (wd_disk w0) !! cp_Path (Checkpoint cfg) = None ->
  (forall v uid raw, (uid, raw) ∈ mb v -> 0 < uid) ->
  Forall (fun l => Forall (honest_conn mb) (lf_servers l)) lives ->
  let w := foldl (live ctx_err cfg) w0 lives in
  forall v uid raw, is_u32 v -> (uid, raw) ∈ mb v ->
    uid <= disk_cp (cp_Path (Checkpoint cfg)) (wd_disk w) (imap_Folder (IMAP cfg)) v ->
    match classify (new_worker cfg) raw with
    | VInject pkt => pkt ∈ if_received (wd_iface w)
    | VSkip => True
    | VUndecodable => False
    end.
Proof.
  intros Hf Hnone Hpos Hl. cbv zeta.
  pose proof (fresh_covered ctx_err cfg mb w0 Hnone Hpos) as H0.
  clear Hnone Hpos. revert w0 H0. induction Hl as [|l lives Hs Hl IH]; intros w0 H0; [exact H0|].
  cbn [foldl]. apply IH. by apply live_covered.
Qed.

(** ** A server that is honest *)

(** The messages from [start] on, in the order of the mailbox. *)
Definition serve (box : list (Z * bytes)) (start stop : Z) : fetch_reply :=
  mkFetchReply ((fun m => [ItemUID m.1; ItemBody (Some (mkReader m.2 None))])
                <$> List.filter (fun m => start <=? m.1) box) None.

Lemma fetched_serve box l start :
  0 <= l -> start <= l + 1 ->
  Forall (fun m => 0 < m.1 < 2 ^ 32 /\ len m.2 <= maxFetchLiteralSize) box ->
  fetched_messages l (fr_messages (serve box start 0)) = List.filter (fun m => l <? m.1) box.
Proof.
  intros Hl Hs Hbox. unfold serve. cbn [fr_messages].
  induction Hbox as [|[u raw] box [Hu Hraw] Hbox IH]; [done|]. cbn [List.filter fst snd] in *.
  destruct (Z.leb_spec start u).
  - rewrite fmap_cons. cbn [fst snd]. rewrite fetched_mail by done.
    rewrite take_ge by (unfold len in Hraw; lia).
    destruct (Z.leb_spec u l), (Z.ltb_spec l u); try lia; [exact IH|]. by rewrite IH.
  - replace (l <? u) with false by lia. exact IH.
Qed.

Lemma serve_honest box :
  StronglySorted Z.lt box.*1 ->
  Forall (fun m => 0 < m.1 < 2 ^ 32 /\ len m.2 <= maxFetchLiteralSize) box ->
  honest_reply box (serve box).
Proof.
  intros Hs Hbox l Hl. unfold is_u32 in Hl.
  assert (Hw : wrap32 (l + 1) <= l + 1) by (unfold wrap32; apply Z.mod_le; lia).
  rewrite fetched_serve by (done || lia). split.
  - clear Hbox. induction box as [|[u raw] box IH]; [constructor|].
    rewrite fmap_cons in Hs. apply StronglySorted_inv in Hs as [Hs Hu].
    cbn [List.filter fst] in *. destruct (l <? u); [|auto].
    rewrite fmap_cons. constructor; [auto|]. apply Forall_forall. intros x Hx.
    rewrite Forall_forall in Hu. apply Hu.
    apply list_elem_of_fmap in Hx as (m & -> & Hm). apply list_elem_of_fmap. exists m.
    split; [done|]. apply list_elem_of_In in Hm. apply filter_In in Hm as [Hm _].
    by apply list_elem_of_In.
  - intros uid raw u Hin Hlt _ _. apply list_elem_of_In, filter_In.
    split; [by apply list_elem_of_In | cbn; lia].
Qed.

(** ** Two lives of one node *)

Module LifetimeSamples.
Import GoLibrary ProgramSamples.

Definition box : list (Z * bytes) :=
  [(2, email "two"); (5, email "five"); (9, str "Subject: hi")].
Definition mailboxes (v : Z) : list (Z * bytes) := if v =? 7 then box else [].

Definition server : Imap :=
  mkImap (Deadline.NewTimeoutConn imapIOTimeout) (fun _ => true) [] [7] [serve box] [].

(** In its first life the pipe breaks at the second packet and the process ends;
    in the second all goes well. *)
Definition first_life : life :=
  mkLife (mkNet [] []) [server] [] [None; Some (Sentinel RnsErrPipeClosed)] []
    [(mkSchedule [] [], false)].
Definition second_life : life :=
  mkLife (mkNet [] []) [server] [] [] [] [(mkSchedule [mkRound false SelCtxDone true] [], false)].

Definition first_boot : World := world_of server [].

Lemma box_honest : honest_conn mailboxes server.
Proof.
  constructor; [|constructor]. apply serve_honest.
  - apply (bool_decide_unpack _). vm_compute. done.
  - apply (bool_decide_unpack _). vm_compute. done.
Qed.

Lemma mailboxes_positive v uid raw : (uid, raw) ∈ mailboxes v -> 0 < uid.
Proof.
  unfold mailboxes. destruct (v =? 7); [|by intros ?%elem_of_nil].
  assert (Hpos : Forall (fun m : Z * bytes => 0 < m.1) box)
    by (apply (bool_decide_unpack _); vm_compute; done).
  rewrite Forall_forall in Hpos. intros Hin. exact (Hpos _ Hin).
Qed.

Lemma lives_honest :
  Forall (fun l => Forall (honest_conn mailboxes) (lf_servers l)) [first_life; second_life].
Proof.
  assert (Hs : Forall (honest_conn mailboxes) [server]) by (constructor; [exact box_honest | constructor]).
  constructor; [exact Hs|]. constructor; [exact Hs | constructor].
Qed.
End LifetimeSamples.
Import GoLibrary ProgramSamples LifetimeSamples.

Lemma foldl_two {A B} (f : A -> B -> A) a x y : foldl f a [x; y] = f (f a x) y.
Proof. done. Qed.

Lemma no_message_lost_witness :
  let w1 := live no_cancel bob first_boot first_life in
  let w2 := live no_cancel bob w1 second_life in
  disk_cp (cp_Path (Checkpoint bob)) (wd_disk w1) (imap_Folder (IMAP bob)) 7 = 2
  /\ if_received (wd_iface w1) = [str "two"]
  /\ disk_cp (cp_Path (Checkpoint bob)) (wd_disk w2) (imap_Folder (IMAP bob)) 7 = 9
  /\ str "five" ∈ if_received (wd_iface w2).
Proof.
  intros w1 w2. split; [vm_compute; reflexivity|]. split; [vm_compute; reflexivity|].
  assert (Hcp : disk_cp (cp_Path (Checkpoint bob)) (wd_disk w2) (imap_Folder (IMAP bob)) 7 = 9)
    by (vm_compute; reflexivity).
  split; [exact Hcp|].
  assert (Hc : classify (new_worker bob) (email "five") = VInject (str "five"))
    by (vm_compute; reflexivity).
  pose proof (no_message_lost no_cancel bob mailboxes [first_life; second_life] first_boot
                inbox_ok eq_refl) as Hlost.
  cbv zeta in Hlost. rewrite foldl_two in Hlost. fold w1 in Hlost. fold w2 in Hlost.
  specialize (Hlost mailboxes_positive lives_honest 7 5 (email "five")).
  rewrite Hc in Hlost. apply Hlost.
  - unfold is_u32. lia.
  - right. left.
  - rewrite Hcp. lia.
Defined.

(** ** A session under a scheduler *)

Module InterleavedSamples.
(** The catch-up fetch, a notification during IDLE, one more fetch, and then the
    context is cancelled and the client closed before the loop looks at it. *)
Definition schedule_of_threads : list (saction * bool) :=
  (fun a => (a, false)) <$>
  [StartEnds true; FetchEnds true true; CheckCtx; NotifyExists; SelectExists; IdleEnds 0 false;
   DrainIdle; FetchEnds true true; Cancel; CloserCloses; CheckCtx; Unwind].

Definition dialled : World := (worker_dial bob first_boot).1.

Definition bob_perform : saction * bool -> Product -> option Product :=
  pperform no_cancel (inject no_cancel) (Some agg_SetIMAP) (new_worker bob).

Definition session_end : Product :=
  default (begun dialled) (perform_all bob_perform schedule_of_threads (begun dialled)).

Lemma session_end_reached : rtc (does bob_perform) (begun dialled) session_end.
Proof. apply (perform_all_does bob_perform schedule_of_threads). vm_compute. reflexivity. Qed.
End InterleavedSamples.
Import InterleavedSamples.

Lemma session_refines_witness :
  if_received (wd_iface (pr_world session_end)) = [str "two"; str "five"]
  /\ exists s, runSession no_cancel (inject no_cancel) (worker_dial bob) (Some agg_SetIMAP) (new_worker bob) s
                 first_boot = (pr_world session_end, Returned None).
Proof.
  split; [vm_compute; reflexivity|].
  apply (session_refines no_cancel (inject no_cancel) (worker_dial bob) (Some agg_SetIMAP) (new_worker bob)
           first_boot dialled session_end); [reflexivity | exact session_end_reached | vm_compute; reflexivity].
Defined.

Lemma covered_always_witness :
  disk_cp (cp_Path (Checkpoint bob)) (wd_disk (pr_world session_end)) (imap_Folder (IMAP bob)) 7 = 9
  /\ all_covered no_cancel bob mailboxes (pr_world session_end).
Proof.
  split; [vm_compute; reflexivity|].
  apply (covered_always (H3 := bob_world) (H4 := honest_world mailboxes no_cancel bob) no_cancel
           (new_worker bob) inbox_ok dialled session_end).
  - exact box_honest.
  - apply (fresh_covered no_cancel bob mailboxes dialled eq_refl mailboxes_positive).
  - constructor.
  - exact session_end_reached.
Defined.
