(* ===== verification/System.v ===== *)
(** * The program under interleaving

    The goroutines of the program share the pipe interface, the aggregator, the
    handler's flag and the disk.  [step] is one action of any of them on the
    [World] of Main; [program_steps] shows that the operations of the program
    are sequences of these actions, so whatever the scheduler does is a sequence
    of [step]s, and [system_online] is an invariant of all such sequences. *)
From S2P Require Import Prelude GoErrors GoStrings GoMime GoMail Envelope Online Inbox Json.
From S2P Require Import Transport Pipe Config ImapClient Worker Main.

Section System.
Context {unicode : UnicodeTables} {mail : MailParsers}.
Context (ctx_err : World -> option error) (cfg : Config).

#[local] Instance system_sender : Sender World := SMTPSender_Sender (new_sender cfg).
#[local] Instance system_repo : Repository World := JSONRepo (cp_Path (Checkpoint cfg)).

(** ** The actions *)

(** The timers of a call of [InjectWithRetry] are taken from the script. *)
Definition take_waits (w : World) : World :=
  mkWorld (wd_net w) (wd_imap w) (wd_servers w) (wd_disk w) (wd_iface w) (wd_handler w)
    (wd_agg w) (wd_signals w) (tail (wd_waits w)).

Inductive step : World -> World -> Prop :=
  | step_send d to msg w : step w (Send d to msg w).1
  | step_probe d w : step w (Probe d w).1
  | step_flag (st : HandlerState) w : step w (put st w)
  | step_signal s w : step w (agg_signal s w)
  | step_imap (i : Imap) w : step w (put i w)
  | step_dial w : step w (worker_dial cfg w).1
  | step_receive pkt w : step w (on (iface_Receive pkt) w).1
  | step_waits w : step w (take_waits w)
  | step_advance f v u w : step w (AdvanceCheckpoint f v u w).1
  | step_get f v w : step w (GetCheckpoint f v w).1.

Lemma inject_steps pkt w : rtc step w (inject ctx_err pkt w).1.
Proof.
  unfold inject. eapply rtc_l; [apply step_waits|]. fold (take_waits w).
  generalize (default [] (head (wd_waits w))) as waits. intros waits. generalize (take_waits w).
  clear w. induction waits as [|t waits IH]; intros w; cbn [InjectWithRetry];
    (destruct (ctx_err w); [done|]; pose proof (step_receive pkt w) as Hr;
     destruct (on (iface_Receive pkt) w) as [w1 [e|]]; cbn [fst] in Hr; [|by apply rtc_once];
     destruct (negb _ && negb _); [by apply rtc_once|]).
  - by apply rtc_once.
  - destruct t; [|by apply rtc_once]. eapply rtc_l; [exact Hr | apply IH].
Qed.

(** The operations the goroutines run (a packet of the pipe, the startup
    probe, a recovery, the worker with all its sessions) are sequences of the
    actions; so any interleaving of them is one as well. *)
Theorem program_steps w :
  (forall uuid date now pkt waits, rtc step w (on_send cfg uuid date now pkt waits w).1.1)
  /\ rtc step w (startup_probe cfg w)
  /\ (forall waits, rtc step w (recover (new_handler cfg) waits None agg_SetSMTP w).1.1)
  /\ (forall sessions, rtc step w (run_worker ctx_err cfg sessions w).1.1).
Proof.
  split_and!.
  - intros. apply (HandlePacket_closed agg_SetSMTP (new_handler cfg) (rtc step)); intros; apply rtc_once; constructor.
  - apply (StartupProbe_closed agg_SetSMTP (new_handler cfg) (rtc step)); intros; apply rtc_once; constructor.
  - intros. apply (recover_closed agg_SetSMTP (new_handler cfg) (rtc step)); intros; apply rtc_once; constructor.
  - intros. apply (Run_closed _ _ _ _ _ (rtc step)); [| apply inject_steps | ..];
      try (intros; apply rtc_once; constructor).
    apply frame_client_steps. intros w1 w2 [i ->]. apply rtc_once. constructor.
Qed.

(** ** The interface is told the conjunction of the two healths *)

(** The health of the two sides after the signals so far, IMAP first. *)
Definition sides (w : World) : bool * bool := foldl health (false, false) (wd_signals w).

(** What the invariant says of the aggregator and of the calls of
    [iface.SetOnline], since the interface's log was [old]. *)
Definition told (old : list bool) (w : World) : Prop :=
  wd_agg w = mkAggregator (sides w).1 (sides w).2 ((sides w).1 && (sides w).2)
  /\ if_online (wd_iface w)
     = old ++ false :: edges false (combined_history (false, false) (wd_signals w)).

Lemma told_quiet old w w' :
  wd_agg w' = wd_agg w -> wd_signals w' = wd_signals w ->
  if_online (wd_iface w') = if_online (wd_iface w) -> told old w -> told old w'.
Proof. unfold told, sides. by intros -> -> ->. Qed.

Lemma callbacks_log l w :
  let w' := foldl (fun w b => agg_callback b w) w l in
  if_online (wd_iface w') = if_online (wd_iface w) ++ l /\ wd_signals w' = wd_signals w.
Proof.
  cbv zeta. revert w. induction l as [|b l IH]; intros w; [by rewrite app_nil_r|].
  cbn [foldl]. destruct (IH (agg_callback b w)) as [-> ->]. cbn. by rewrite <- app_assoc.
Qed.

Lemma told_signal old s w : told old w -> told old (agg_signal s w).
Proof.
  intros [Ha Ho]. unfold agg_signal. rewrite apply_signal_spec. cbv zeta.
  rewrite Ha. cbn [a_imap a_smtp a_last]. rewrite <- surjective_pairing.
  set (p := health (sides w) s). set (l := edges _ _).
  destruct (callbacks_log l w) as [Hl Hs]. set (w1 := foldl _ w l) in *. rewrite Hs.
  unfold told, sides. cbn [wd_agg wd_signals wd_iface set_agg].
  rewrite foldl_app. fold (sides w). split; [done|].
  rewrite Hl, Ho, combined_history_snoc, edges_snoc, foldl_app, <- app_assoc.
  pose proof (final_combined_history (false, false) (wd_signals w)) as Hf. cbn [andb fst] in Hf.
  by rewrite Hf.
Qed.

Lemma told_step old w w' : step w w' -> told old w -> told old w'.
Proof.
  intros Hs. destruct Hs; try (by apply told_quiet).
  - apply told_signal.
  - unfold worker_dial. destruct (Dial _ _ _ _ _) as [n [tc|e]]; by apply told_quiet.
Qed.

(** C28: What Reticulum is told: under every interleaving of the goroutines,
    the calls of [iface.SetOnline] are a [false] at startup, then calls that
    alternate, of which the last one is the conjunction of the last IMAP and the
    last SMTP signal (down before the first); so the interface is online exactly
    while both sides are up. *)
Theorem system_online w0 w :
  rtc step (startup w0) w ->
  exists calls,
    if_online (wd_iface w) = if_online (wd_iface w0) ++ false :: calls
    /\ alternating false calls
    /\ final false calls = (sides w).1 && (sides w).2.
Proof.
  intros Hr. set (old := if_online (wd_iface w0)).
  assert (H0 : told old (startup w0)) by by split.
  assert (Ht : told old w).
  { revert H0. induction Hr as [|w1 w2 w3 Hs _ IH]; [done|]. eauto using told_step. }
  destruct Ht as [_ Ho]. exists (edges false (combined_history (false, false) (wd_signals w))).
  split_and!; [done | apply edges_alternating|]. rewrite edges_final.
  apply (final_combined_history (false, false)).
Qed.
End System.

(** ** A sample interleaving *)

Import GoLibrary ProgramSamples.

(** The probe succeeds, the worker logs in, a delivery fails. *)
Definition interleaved : World :=
  agg_signal (Online.SMTP false)
    (agg_signal (Online.IMAP true) (agg_signal (Online.SMTP true) (startup mixed))).

Lemma system_online_witness :
  if_online (wd_iface interleaved) = [false; true; false]
  /\ exists calls,
       if_online (wd_iface interleaved) = if_online (wd_iface mixed) ++ false :: calls
       /\ alternating false calls
       /\ final false calls = (sides interleaved).1 && (sides interleaved).2.
Proof.
  split; [vm_compute; reflexivity|].
  apply (system_online bob mixed). unfold interleaved.
  eapply rtc_r; [eapply rtc_r; [apply rtc_once|]|]; apply step_signal.
Defined.
