(* ===== verification/Shutdown.v ===== *)
(** * The end of [run]

    main.go starts two goroutines, the pipe interface and the IMAP worker, each
    of which sends its result into the buffered channel [errCh]; [run] takes the
    first, cancels the context, waits for the other result or ten seconds, and
    returns the first.  SIGINT and SIGTERM cancel the context.  [perform] is one
    action of the scheduler on that system; a state is reachable by any sequence
    of actions. *)
From S2P Require Import Prelude GoErrors GoStrings GoMime Envelope Inbox Pipe Config ImapClient Worker Main.

(** ** The state *)

(** A goroutine [go func() { errCh <- f(ctx) }()]: in [f], at the send, ended. *)
Inductive goroutine := InCall | AtSend (r : option error) | Ended.

(** [run]: at [<-errCh], in the [select], returned; [drained] tells by which branch. *)
Inductive main_state := Waiting | Draining (err : option error) | Finished (err : option error) (drained : bool).

Inductive sender := FromStart | FromRun.

Record Process := mkProcess {
  ps_cancelled : bool;                       (* ctx *)
  ps_errCh : list (option error);
  ps_start : goroutine;                      (* iface.Start *)
  ps_run : goroutine;                        (* imapW.Run *)
  ps_main : main_state;
  ps_signalled : bool;                       (* a signal was caught *)
  ps_sent : list (sender * option error);    (* every send so far, oldest first *)
}.

Definition errCh_cap : nat := 2.

Definition launched : Process := mkProcess false [] InCall InCall Waiting false [].

(** ** The actions *)

Inductive action :=
  | CatchSignal                     (* signal.NotifyContext *)
  | StartReturns (r : option error)
  | RunReturns
  | SendStart
  | SendRun
  | TakeFirst                       (* err = <-errCh; cancel() *)
  | TakeSecond                      (* case <-errCh *)
  | TimeOut.                        (* case <-time.After(10 * time.Second) *)

(** The worker's [Run] returns only once the context is cancelled, and returns
    [nil] ([Run_returns_nil] below); what [iface.Start] returns, and when, is
    not known.  A send waits while the buffer is full. *)
Definition perform (a : action) (s : Process) : option Process :=
  let '(mkProcess cancelled errCh start run main signalled sent) := s in
  match a with
  | CatchSignal =>
    if signalled then None else Some (mkProcess true errCh start run main true sent)
  | StartReturns r =>
    match start with
    | InCall => Some (mkProcess cancelled errCh (AtSend r) run main signalled sent)
    | _ => None
    end
  | RunReturns =>
    match run with
    | InCall => if cancelled then Some (mkProcess cancelled errCh start (AtSend None) main signalled sent) else None
    | _ => None
    end
  | SendStart =>
    match start with
    | AtSend r =>
      if (length errCh <? errCh_cap)%nat
      then Some (mkProcess cancelled (errCh ++ [r]) Ended run main signalled (sent ++ [(FromStart, r)]))
      else None
    | _ => None
    end
  | SendRun =>
    match run with
    | AtSend r =>
      if (length errCh <? errCh_cap)%nat
      then Some (mkProcess cancelled (errCh ++ [r]) start Ended main signalled (sent ++ [(FromRun, r)]))
      else None
    | _ => None
    end
  | TakeFirst =>
    match main, errCh with
    | Waiting, err :: errCh => Some (mkProcess true errCh start run (Draining err) signalled sent)
    | _, _ => None
    end
  | TakeSecond =>
    match main, errCh with
    | Draining err, _ :: errCh =>
      Some (mkProcess cancelled errCh start run (Finished err true) signalled sent)
    | _, _ => None
    end
  | TimeOut =>
    match main with
    | Draining err => Some (mkProcess cancelled errCh start run (Finished err false) signalled sent)
    | _ => None
    end
  end.

Definition act : Process -> Process -> Prop := does perform.

Definition reachable (s : Process) : Prop := rtc act launched s.

(** ** The invariant *)

Definition ended (g : goroutine) : nat := match g with Ended => 1 | _ => 0 end.

(** What [run] has taken out of the channel. *)
Definition taken (m : main_state) : list (option error) :=
  match m with Waiting => [] | Draining err => [err] | Finished err _ => [err] end.

Record shutdown_inv (s : Process) : Prop := {
  si_count : length (ps_sent s) = (ended (ps_start s) + ended (ps_run s))%nat;
  si_room : (length (ps_errCh s) <= length (ps_sent s))%nat;
  si_queue : match ps_main s with
             | Finished err _ => head (ps_sent s).*2 = Some err
             | m => (ps_sent s).*2 = taken m ++ ps_errCh s
             end;
  si_cancelled : ps_cancelled s = true <-> ps_main s <> Waiting \/ ps_signalled s = true;
  si_run : ps_run s <> InCall -> ps_cancelled s = true;
  si_run_nil : (forall r, ps_run s = AtSend r -> r = None) /\ Forall (fun m => m.1 = FromRun -> m.2 = None) (ps_sent s);
  si_first : ps_signalled s = false -> forall m, head (ps_sent s) = Some m -> m.1 = FromStart;
}.

Lemma inv_launched : shutdown_inv launched.
Proof. split; cbn; try done; intuition done. Qed.

(** Sends append, so the first one stays. *)
Lemma head_app_some {A} (l l' : list A) x : head l = Some x -> head (l ++ l') = Some x.
Proof. by destruct l. Qed.

Lemma head_snoc {A} (l : list A) x y : head (l ++ [x]) = Some y -> head l = Some y \/ l = [] /\ y = x.
Proof. destruct l; cbn; [intros [= ->]; by right | by left]. Qed.

Lemma inv_perform a s s' : perform a s = Some s' -> shutdown_inv s -> shutdown_inv s'.
Proof.
  intros E [Hc Hr Hq Hk Hrun [Hn Hns] Hf]. destruct s as [k ch st rn mn sg snt]. cbn in *.
  destruct a; cbn in E; repeat case_match; simplify_eq; split; cbn in *;
    rewrite ?length_app, ?fmap_app; cbn; try done; try lia; try tauto; try (by eauto).
  all: try (by rewrite Hq); try (by apply head_app_some); try (by split; [left|]).
  all: try (split; [by left | intros _; apply Hk; by left]).
  all: try (split; [first [exact Hn | by intros ? [= <-]] |
                    first [exact Hns | apply Forall_app; split; [done | repeat constructor; cbn; auto; done]]]).
  all: intros Hsg m Hm; apply head_snoc in Hm as [Hm | [-> ->]]; [by eauto | try done]; exfalso;
    destruct Hk as [Hk _]; destruct (Hk (Hrun ltac:(done))); congruence.
Qed.

Lemma shutdown_inv_reachable s : reachable s -> shutdown_inv s.
Proof.
  revert s. apply rtc_ind_r; [exact inv_launched|]. intros s1 s2 _ [a Ha]. by apply (inv_perform a).
Qed.

(** ** What [run] returns *)

(** C36: The result of [run] is the first one the two goroutines sent, and the
    context is cancelled by then.  Without a signal it is the result of the pipe
    interface, which the worker cannot preempt; with one it is that or [nil]. *)
Theorem run_result s r drained :
  reachable s -> ps_main s = Finished r drained ->
  ps_cancelled s = true
  /\ exists who, head (ps_sent s) = Some (who, r)
       /\ (who = FromRun -> r = None /\ ps_signalled s = true).
Proof.
  intros Hr Hm. destruct (shutdown_inv_reachable s Hr) as [_ _ Hq Hk _ [_ Hns] Hf]. rewrite Hm in Hq, Hk.
  split; [by apply Hk; left|]. destruct (ps_sent s) as [|[who r'] snt]; [done|].
  injection Hq as ->. exists who. split; [done|]. intros ->. apply Forall_cons in Hns as [Hns _].
  split; [by apply Hns|]. destruct (ps_signalled s); [done|]. by specialize (Hf eq_refl _ eq_refl).
Qed.

(** ** [run] returns *)

Definition finished (s : Process) : Prop := exists r drained, ps_main s = Finished r drained.

(** The actions left. *)
Definition work_of (g : goroutine) : nat := match g with InCall => 2 | AtSend _ => 1 | Ended => 0 end.

Definition work (s : Process) : nat :=
  (if ps_signalled s then 0 else 1) + work_of (ps_start s) + work_of (ps_run s)
  + match ps_main s with Waiting => 2 | Draining _ => 1 | Finished _ _ => 0 end.

Lemma perform_work a s s' : perform a s = Some s' -> work s = S (work s').
Proof.
  intros E. destruct s as [k ch st rn mn sg snt].
  destruct a; cbn in E; repeat case_match; simplify_eq; cbn; lia.
Qed.

Lemma act_work a b : act a b -> (work b < work a)%nat.
Proof. intros [x Hx%perform_work]. lia. Qed.

(** A goroutine is back from its call. *)
Definition back (s : Process) : Prop := ps_start s <> InCall \/ ps_run s <> InCall.

Lemma perform_back a s s' : perform a s = Some s' -> back s -> back s'.
Proof.
  intros E. unfold back. destruct s as [k ch st rn mn sg snt].
  destruct a; cbn in E; repeat case_match; simplify_eq; cbn; intuition done.
Qed.

(** The buffer has room for both results. *)
Lemma send_enabled s :
  shutdown_inv s ->
  ((forall r, ps_start s = AtSend r -> is_Some (perform SendStart s))
   /\ (forall r, ps_run s = AtSend r -> is_Some (perform SendRun s))).
Proof.
  intros [Hc Hroom _ _ _ _ _]. destruct s as [k ch st rn mn sg snt]. cbn in Hc, Hroom.
  split; intros r E; cbn in E; subst; unfold perform, errCh_cap;
    (destruct (Nat.ltb_spec (length ch) 2); [by eexists|]); exfalso; cbn in Hc;
    [destruct rn | destruct st]; cbn in Hc; lia.
Qed.

Lemma back_enabled s : shutdown_inv s -> back s -> finished s \/ exists s', act s s'.
Proof.
  intros Hi Hb. destruct (send_enabled s Hi) as [Hs Hr]. destruct Hi as [Hc _ Hq _ _ _ _].
  destruct (ps_main s) as [|err|err d] eqn:Em; [|right|left; by eexists _, _].
  - right. destruct (ps_start s) as [|r|] eqn:Es.
    + destruct (ps_run s) as [|r|] eqn:Er; [by destruct Hb| |].
      * destruct (Hr r eq_refl) as [s' ?]. by exists s', SendRun.
      * destruct s as [k [|e ch] st rn mn sg snt]; cbn in *; [by destruct snt|]. subst. by eexists _, TakeFirst.
    + destruct (Hs r eq_refl) as [s' ?]. by exists s', SendStart.
    + destruct s as [k [|e ch] st rn mn sg snt]; cbn in *; [by destruct snt|]. subst. by eexists _, TakeFirst.
  - destruct s; cbn in *; subst. by eexists _, TimeOut.
Qed.

(** C35: Termination: at most seven actions happen in all; no send ever waits for
    room in [errCh]; and once either goroutine is back from its call, [run]
    returns whatever the scheduler does, even if the other one never ends. *)
Theorem run_terminates s :
  reachable s ->
  (forall n s', nsteps act n s s' -> (n <= 7)%nat)
  /\ ((forall r, ps_start s = AtSend r -> is_Some (perform SendStart s))
      /\ (forall r, ps_run s = AtSend r -> is_Some (perform SendRun s)))
  /\ (back s -> inevitable act finished s).
Proof.
  intros Hr. pose proof (shutdown_inv_reachable s Hr) as Hi. split; [|split; [by apply send_enabled|]].
  - intros n s' Hn. apply (nsteps_measure act work act_work) in Hn.
    apply rtc_nsteps in Hr as [m Hm]. apply (nsteps_measure act work act_work) in Hm. cbn in Hm. lia.
  - intros Hb. apply (inevitable_measure act finished (fun s => shutdown_inv s /\ back s) work); [| |done].
    + intros a b [Ha Hba] [x Hx]. split; [split; [by eapply inv_perform | by eapply perform_back]|].
      apply act_work. by exists x.
    + intros a [Ha Hba]. by apply back_enabled.
Qed.

(** The wait for the first result has no bound of its own: while neither
    goroutine is back, [run] can do nothing, signal or not. *)
Theorem signal_waits s :
  reachable s -> ~ back s ->
  ps_main s = Waiting /\ perform TakeFirst s = None /\ perform TakeSecond s = None /\ perform TimeOut s = None.
Proof.
  intros Hr Hb. destruct (shutdown_inv_reachable s Hr) as [Hc Hroom Hq _ _ _ _].
  assert (Es : ps_start s = InCall) by (unfold back in Hb; destruct (ps_start s); naive_solver).
  assert (Er : ps_run s = InCall) by (unfold back in Hb; destruct (ps_run s); naive_solver).
  rewrite Es, Er in Hc. destruct s as [k ch st rn mn sg [|? snt]]; [|done]. cbn in *.
  destruct ch; [|cbn in Hroom; lia]. by destruct mn.
Qed.

(** ** Exit codes *)

(** Without a signal the process exits with 0 exactly when the pipe interface
    ended without an error or because its input was closed. *)
Theorem exit_without_signal s r drained :
  reachable s -> ps_main s = Finished r drained -> ps_signalled s = false ->
  exit_code r = 0 <->
  head (ps_sent s) = Some (FromStart, None)
  \/ exists err, head (ps_sent s) = Some (FromStart, Some err) /\ errors_is RnsErrPipeClosed err = true.
Proof.
  intros Hr Hm Hsg. destruct (shutdown_inv_reachable s Hr) as [_ _ Hq _ _ _ Hf]. rewrite Hm in Hq.
  destruct (ps_sent s) as [|[who r'] snt]; [done|]. injection Hq as ->.
  specialize (Hf Hsg _ eq_refl). cbn in Hf. subst who. cbn [head]. unfold exit_code.
  destruct r as [err|]; [|by split; [left|]].
  destruct (errors_is RnsErrPipeClosed err) eqn:Ei; (split; [intros ?|]); try done.
  - right. by exists err.
  - intros [?|(err' & [= <-] & ?)]; congruence.
Qed.

(** ** The worker's result *)

Lemma run_loop_nil {W} `{Client W, Repository W} {unicode : UnicodeTables} {mail : MailParsers}
    ctx_err inject dial setOnline wk base max sessions b (w : W) r :
  (run_loop ctx_err inject dial setOnline wk base max sessions b w).2 = Returned r -> r = None.
Proof.
  revert b w. induction sessions as [|[sched waited] sessions IH]; intros b w; cbn [run_loop]; [done|].
  destruct (runSession _ _ _ _ _ _ _) as [w1 [|err]]; [done|].
  case_bool_decide; [by intros [= <-]|]. destruct waited; [|by intros [= <-]].
  specialize (IH (if isDial err then Z.min (double b) max else base) w1).
  destruct (run_loop _ _ _ _ _ _ _ _ _ _) as [[w2 ds] r2]. exact IH.
Qed.

(** What [RunReturns] assumes of the worker. *)
Theorem Run_returns_nil {unicode : UnicodeTables} {mail : MailParsers} ctx_err cfg sessions w r :
  (run_worker ctx_err cfg sessions w).2 = Returned r -> r = None.
Proof. apply run_loop_nil. Qed.

(** ** Samples *)

Definition closed_input : option error := Some (Sentinel RnsErrPipeClosed).

(** The input is closed; the worker hangs. *)
Definition eof_run : Process :=
  default launched (perform_all perform [StartReturns closed_input; SendStart; TakeFirst; TimeOut] launched).

(** SIGTERM; the worker is first. *)
Definition term_run : Process :=
  default launched (perform_all perform [CatchSignal; RunReturns; SendRun; TakeFirst;
                                 StartReturns closed_input; SendStart; TakeSecond] launched).

Lemma eof_reachable : reachable eof_run.
Proof. eapply (perform_all_does perform [StartReturns closed_input; SendStart; TakeFirst; TimeOut]). done. Qed.

Lemma term_reachable : reachable term_run.
Proof.
  eapply (perform_all_does perform [CatchSignal; RunReturns; SendRun; TakeFirst;
                                 StartReturns closed_input; SendStart; TakeSecond]). done.
Qed.

Lemma run_result_witness :
  ps_cancelled term_run = true
  /\ exists who, head (ps_sent term_run) = Some (who, None)
       /\ (who = FromRun -> (None : option error) = None /\ ps_signalled term_run = true).
Proof. apply (run_result term_run None true); [exact term_reachable | reflexivity]. Defined.

(** The first result is sent. *)
Definition first_sent : Process :=
  default launched (perform_all perform [StartReturns closed_input; SendStart] launched).

Lemma first_sent_reachable : reachable first_sent.
Proof. by apply (perform_all_does perform [StartReturns closed_input; SendStart]). Qed.

Lemma run_terminates_witness : inevitable act finished first_sent.
Proof.
  apply (run_terminates first_sent); [exact first_sent_reachable|]. left. vm_compute. discriminate.
Defined.

Lemma exit_without_signal_witness :
  exit_code closed_input = 0
  <-> head (ps_sent eof_run) = Some (FromStart, None)
      \/ exists err, head (ps_sent eof_run) = Some (FromStart, Some err)
                     /\ errors_is RnsErrPipeClosed err = true.
Proof. apply (exit_without_signal eof_run closed_input false); [exact eof_reachable | reflexivity | reflexivity]. Defined.
